(* ===== verification/_CoqProject ===== *)
-Q . S2P
Prelude.v
GoLang.v
GoSched.v
GoSync.v
GoFork.v
GoSql.v
TokenPool.v
BloomFilter.v
BlockingQ.v
ConnectionPool.v
SqlPool.v
Tickets.v
ObdIssue.v
LoadBalancer.v
AirlineCheckin.v
AirlineMain.v
GoHttp.v
GoMux.v
SlackDb.v
Slack.v
SlackMain.v
Presence.v
PresenceMain.v
KqueueEcho.v
StaticFiles.v
Backends.v
TcpServer.v
WebsocketEcho.v
ServerSentEvents.v
