(* ===== verification/Prelude.v ===== *)
(** * Verification of the Go prototypes

    The repository is a set of small, independent Go programs, one directory
    each.  This development models them in Rocq, as they are written, and proves
    what each is for; where a program does not do what it means to, the theorem
    says what it does instead.

    ** The files

    Shared by everything:
    - [Prelude] (this file): sums and counts over a pool of goroutines, what they
      hold as one list, automation.
    - [GoLang]: the fragment of Go: 64-bit [int], expressions that may panic,
      slices, counted loops, [strings.Split], [strconv.Atoi], durations,
      [rows.Next]/[rows.Scan], and what of a result the rows read can be
      ([delivers]: all of it only if the connection holds, since [rows.Err] is
      never asked).
    - [GoSched]: goroutines.  A program is a shared state and a list of local
      states (program counters); [tstep] is the code, one atomic action at a time,
      given what the environment decides; [run] executes a schedule, [reachable]
      any number of actions.  The rules for invariants, for termination (a weight
      that every action decreases, [sn] of the step relation) and for progress are
      proved here once ([completes], [completes_or_dies], [dies_of]).
    - [GoSync]: buffered channels, [sync.Mutex], [sync.WaitGroup]; maps that
      goroutines share without a lock ([gomap]): an access begins and ends, and two
      that overlap, one of them a write, end the process with [err_map].
    - [GoFork] ([Fork]): a loop that starts a goroutine per round and waits for all
      of them, for any job; [fork_invariant], [fork_join], [fork_returned] and
      [fork_dies] derive what the program does from laws about one job ([job_laws]).
      [Returned]: the loop has been left, and what main does next may end the process
      while a goroutine that has called [wg.Done()] still acts.
    - [GoSql] ([Sqldb]): the connection pool of database/sql: its limits, its books
      and [Exec], one step at a time.
    - [TokenPool]: the interface (a type class, [TokenJob]) of a goroutine that uses a
      buffered channel as a pool of tokens, and what follows for any [Fork] of such
      goroutines; [BlockingQ] and [ConnectionPool] are its two instances.
    - [GoHttp]: handlers as finite programs over calls, the
      [http.ResponseWriter], a handler run alone ([alone]), the server that runs
      one goroutine per request ([tstep]), and a rely-guarantee rule ([safe],
      [server_safe]; [server_run] for a run with what the environment has answered,
      [acted]) that turns a property of each handler into one of the server.  A
      panic ends its handler and no more: net/http recovers those of requests, and
      go-socket.io (vendored, handler.go) those of events.
    - [GoMux]: net/http's multiplexer: patterns, their conflicts, path cleaning,
      [findHandler]; on clean paths it is [route] ([findHandler_cleaned]).

    One file per program (component, source):
    - [BloomFilter] ([Bloom]): bloomFilter/main.go.  All of it.
    - [BlockingQ] ([BlockingQueue]): blockingQ/main.go.  [newBlockingQ], [Get],
      [Put] and [main]; the value receivers are copies.
    - [ConnectionPool] ([ConnPool]): connectionPool/temp.go, the channel pool and
      its benchmark.
    - [SqlPool]: connectionPool/main.go: [Production], [initDBPool] and the benchmark
      on one configured pool; [Plain], the benchmark with a pool per query, [main],
      and [benchmarkPlain1] of temp.go.
    - [Tickets]: pessimistic_locking/main.go, [reduceTicketCount] and [bookTicket].
    - [ObdIssue] ([Obd]): pessimistic_locking/obdIssue.go with the [main] that
      calls it 1000 times; unbuffered channels, [select] with a timeout, [close].
    - [LoadBalancer] ([Balancer]): LoadBalancer/main.go, [Proxy] in any number of
      goroutines, and the sequential [Proxy] it amounts to when undisturbed
      ([proxying]).
    - [Backends]: LoadBalancer/backend_server_1 and 2, and the three programs as one
      system: the accept loop, [Balancer.tstep], and for each connection the two
      copies, byte by byte, and the backend's goroutine.
    - [AirlineCheckin] ([Airline]): airlineCheckin/main.go, over the interface
      [SeatDB] (transactions and row locks); [makeBooking] and its goroutines.
    - [AirlineMain] ([Checkin]): its [main]: connect, [printSeats], [makeBooking],
      [printSeats].
    - [SlackDb] ([Sql]) and [Slack]: slack/main.go, over the interface [SlackDB]
      (one constructor per SQL statement of the source) and the two maps; times are
      kept as [stamp] and [store] keep them, and all rows arrive only if [whole].
    - [SlackMain] ([Start]): its [main]: what is set up before it listens ([boot]),
      the routes ([routed]), and the whole process ([main]).
    - [Presence]: online_offline_indicator/main.go, over [PresenceDB].
    - [PresenceMain] ([Indicator]): its [main], likewise.
    - [KqueueEcho] ([Kqueue]): redis/main.go, [main] from [net.Listen] to the deferred
      calls over [Kernel] (kqueue and the socket calls), with a trace of the calls.
    - [StaticFiles] ([Static]): staticFileServer/main.go, [FileHandler] over [Files].
    - [TcpServer] ([Tcp]): tcp/main.go, [manageConnection] and the accept loop.
    - [WebsocketEcho] ([Websocket]): websockets/main.go, [websocketHandler] over the
      calls of the websocket library, with a trace.
    - [ServerSentEvents] ([Sse]): server_sent_events/main.go, the handler, and the
      parser of a browser.

    But for the balancer and its backends the programs do not interact.  In each file the data types and fields
    keep the names of the source; a program point of a goroutine is a constructor
    of [pc] annotated with the statement it stands before; [tstep] has one case per
    point.  A statement that reads and then writes a shared variable without a lock
    ([tickets--], [lb.LastUsed = ...]) is two actions; everything a mutex or the
    runtime makes atomic is one.  A handler's text follows the source: same order
    of calls, same early returns.

    ** What is proved

    - Data structures: membership in the Bloom filter is exactly coverage by the
      added items, so there are no false negatives; order and repetition do not
      matter; what unvalidated parameters do.
    - Pools: tokens are conserved, at most ten are held, a pooled connection is
      never used by two goroutines, and the programs terminate with everything
      returned, or die only of a failed query.
    - database/sql: with the limits of [initDBPool] never more than ten connections
      are open and five idle, no goroutine waits for ever, and every query is run
      once and logged if it failed; without a shared pool the connections are bounded
      by the queries alone, and all 152 of [main] can be open at once.
    - Locks: mutual exclusion, and all 1000 tickets are booked under every
      interleaving.  For the load balancer, indices stay in range and totals are
      exact under every interleaving, sequential requests are distributed round
      robin, and the unlocked [LastUsed] is shown to race.
    - Channels: in [Obd] the flag meant to guard the closed channel is a copy that
      is never set, and every call that returns leaves a sender that panics.
    - Transactions: whatever fails, the committed seats are those of bookings made
      one after the other (refinement to [book_all]), nobody's seat is given away,
      every run is finite; on a server that does not fail all users are served and
      every printed line is true; otherwise a seat may be announced and not booked.
      The whole program prints the plan before and the plan after, as the bookings
      have left it ([air_main]).
    - Servers: every handler is specified on every branch, against any behaviour of
      the database, by what each statement answers; for the whole server and every
      interleaving, up to a data race on a map (which there is: [slack_race],
      [presence_race]), a message is stored before any socket hears of it, every
      request is answered, and the rows of the indicator and its pages come from
      heartbeats and selects of the run (users of slack are duplicated by concurrent
      [createUser]s, and channels by rows cut short: [slack_second_channel]).
    - Start-up: nothing is served before the database is connected and the maps are
      made, so no handler meets a [nil] global, and the theorems of the servers hold
      of the programs ([slack_main], [presence_main]); which paths reach which
      handler, for all paths ([slack_routes]).
    - The balancer with its backends: for clients that come one after the other,
      every interleaving and every split of the bytes ends with each of them answered
      in full, by one backend and the other in turn.
    - TCP: what each client is sent, and when; no connection waits for another; but
      one that hangs up early ends them all.
    - Streams: the websocket echo is a round trip for every client; an event stream
      is parsed into one event per tick, of which only the first is as meant.
    - The event loop: no call on a closed descriptor, whatever the kernel reports,
      and an exact echo of what was read; a concrete run in which the single read
      per edge-triggered event leaves data behind.
    - Files: the pages of the static file server on every branch, and where its
      links lead.

    ** Bounds, fuel, environment

    No definition uses fuel as an approximation: counted loops recurse on the
    number of rounds the source gives them, handlers are finite trees, and
    goroutines are unbounded sequences of actions whose termination is a theorem.
    The constants are the source's: 1000 users, tickets and calls, pools of 10,
    ten seconds.  They are kept folded ([simpl never]) with an equation beside them.

    Databases, the network and timers are not part of the programs.  They are
    either a choice made at every action (a call fails, a timer fires) or an
    interface stating documented behaviour, with an instance in memory ([Mem])
    that shows it can be met and on which the witnesses run.

    Loops without end (the event loop, the websocket and event-stream handlers) are
    modelled up to their [n]-th round, for every [n]; the theorems hold of each.

    ** Not modelled

    Log output (except where a theorem is about what is printed), elapsed times,
    connection strings.  What the libraries answer by themselves: the file servers
    beside the handlers, the polls of socket.io, redirections.  What a program does
    after a data race on a map: the model ends there ([err_map]), and nothing is
    claimed of what follows.  A load or a store of an [int] that races ([LastUsed]) is
    one atomic action.  Numbers in strings that MySQL reads one way in an insert and
    another in a comparison, such as fractions ([to_int] is one function).  Vendored
    libraries and the experiments in other languages.

    ** This file

    Sums of a weight over a pool, the list of what a pool holds, automation. *)

From stdpp Require Export base relations numbers gmap strings list.

#[export] Set Default Goal Selector "!".

(** ** Automation *)

(** The facts on lists that the step proofs of every component use. *)
Create HintDb proto.
#[export] Hint Resolve submseteq_nil_l list_elem_of_lookup_2 lookup_lt_Some : proto.

(** Destruct the scrutinee of every [match] met in the goal, keeping the
    equation, until none is left. *)
Ltac case_all := repeat (case_match; simplify_eq/=).

(** Prove a decidable, closed proposition by evaluating its decision. *)
Ltac by_compute := refine (bool_decide_unpack _ _); vm_compute; exact I.

(** ** Sums of a weight over a list *)

Definition sumf {A} (f : A → nat) (l : list A) : nat := sum_list (f <$> l).

Section sumf.
Context {A : Type} (f : A → nat).
Implicit Types (l : list A) (x y : A).

Lemma sumf_nil : sumf f [] = 0.
Proof. done. Qed.

Lemma sumf_cons x l : sumf f (x :: l) = f x + sumf f l.
Proof. done. Qed.

Lemma sumf_app l1 l2 : sumf f (l1 ++ l2) = sumf f l1 + sumf f l2.
Proof. induction l1 as [|x l1 IH]; [done|]. rewrite <-app_comm_cons, !sumf_cons. lia. Qed.

Lemma sumf_split l i x :
  l !! i = Some x → sumf f l = f x + sumf f (take i l ++ drop (S i) l).
Proof.
  intros Hi. rewrite <- (take_drop_middle l i x Hi) at 1.
  rewrite !sumf_app, sumf_cons. lia.
Qed.

(** Updating one cell trades its weight for the new one's. *)
Lemma sumf_insert l i x y :
  l !! i = Some x → sumf f (<[i:=y]> l) + f x = sumf f l + f y.
Proof.
  intros Hi. rewrite insert_take_drop by eauto with proto.
  rewrite sumf_app, sumf_cons, (sumf_split _ _ _ Hi), sumf_app. lia.
Qed.

Lemma sumf_lookup_le l i x : l !! i = Some x → f x ≤ sumf f l.
Proof. intros Hi. rewrite (sumf_split _ _ _ Hi). lia. Qed.

(** Two different cells together weigh at most the whole. *)
Lemma sumf_two l i j x y :
  l !! i = Some x → l !! j = Some y → i ≠ j → f x + f y ≤ sumf f l.
Proof.
  intros Hi Hj Hne. rewrite (sumf_split _ _ _ Hi), sumf_app.
  enough (f y ≤ sumf f (take i l) ∨ f y ≤ sumf f (drop (S i) l)) by lia.
  destruct (decide (i < j)) as [Hlt|Hge].
  - right. apply (sumf_lookup_le _ (j - S i)). rewrite lookup_drop.
    by replace (S i + (j - S i)) with j by lia.
  - left. apply (sumf_lookup_le _ j). by rewrite lookup_take_lt by lia.
Qed.

Lemma sumf_zero l : (∀ x, x ∈ l → f x = 0) → sumf f l = 0.
Proof.
  induction l as [|y l IH]; intros Hz; [done|]. rewrite sumf_cons.
  rewrite Hz by set_solver. rewrite IH; [done|set_solver].
Qed.

Lemma sumf_pos l : 0 < sumf f l → ∃ i x, l !! i = Some x ∧ 0 < f x.
Proof.
  induction l as [|y l IH]; [rewrite sumf_nil; lia|]. rewrite sumf_cons.
  destruct (decide (f y = 0)) as [Hy|Hy].
  - intros Hs. destruct IH as (i&x&?&?); [lia|]. by exists (S i), x.
  - intros _. exists 0, y. split; [done|lia].
Qed.

Lemma sumf_Permutation l1 l2 : l1 ≡ₚ l2 → sumf f l1 = sumf f l2.
Proof.
  induction 1 as [|x l1 l2 _ IH|x y l|l1 l2 l3 _ IH1 _ IH2]; rewrite ?sumf_cons; [done|lia|lia|congruence].
Qed.

Lemma sumf_replicate n x : sumf f (replicate n x) = n * f x.
Proof. induction n as [|n IH]; [done|]. simpl. rewrite sumf_cons, IH. lia. Qed.
End sumf.

Lemma sumf_const {A} k (l : list A) : sumf (λ _, k) l = k * length l.
Proof. induction l as [|y l IH]; [simpl; unfold sumf; simpl; lia|]. rewrite sumf_cons, IH. simpl. lia. Qed.

Lemma sumf_le {A} (f g : A → nat) (l : list A) :
  (∀ x, x ∈ l → f x ≤ g x) → sumf f l ≤ sumf g l.
Proof.
  induction l as [|y l IH]; intros Hle; [done|]. rewrite !sumf_cons.
  specialize (IH ltac:(set_solver)). specialize (Hle y ltac:(set_solver)). lia.
Qed.

(** ** Lists *)

Lemma submseteq_trade {A} (names nms d d' rest : list A) :
  names ⊆+ d ++ rest → nms ++ d ⊆+ d' → names ++ nms ⊆+ d' ++ rest.
Proof.
  intros H1 H2. trans ((d ++ rest) ++ nms); [by apply submseteq_app|].
  trans ((nms ++ d) ++ rest); [|by apply submseteq_app].
  apply Permutation_submseteq. solve_Permutation.
Qed.

Lemma elem_of_rev {A} (l : list A) x : x ∈ rev l ↔ x ∈ l.
Proof. by rewrite !list_elem_of_In, <-in_rev. Qed.

(** ** What the threads of a pool hold, as one list *)

Section concat_held.
Context {A B : Type} (h : A → list B).
Implicit Types (l : list A) (x y : A).

Definition held_all (l : list A) : list B := mjoin (h <$> l).

Lemma held_all_cons x l : held_all (x :: l) = h x ++ held_all l.
Proof. done. Qed.

Lemma held_all_nil l : Forall (λ x, h x = []) l → held_all l = [].
Proof. induction 1 as [|x l Hx _ IH]; [done|]. by rewrite held_all_cons, Hx, IH. Qed.

Lemma held_all_app l1 l2 : held_all (l1 ++ l2) = held_all l1 ++ held_all l2.
Proof. unfold held_all. rewrite fmap_app. apply join_app. Qed.

#[export] Instance held_all_Permutation : Proper ((≡ₚ) ==> (≡ₚ)) held_all.
Proof.
  induction 1 as [|x l1 l2 _ IH|x y l|l1 l2 l3 _ IH1 _ IH2]; [done| | |by etrans].
  - by rewrite !held_all_cons, IH.
  - rewrite !held_all_cons. solve_Permutation.
Qed.

Lemma held_all_split l i x :
  l !! i = Some x → held_all l ≡ₚ h x ++ held_all (take i l ++ drop (S i) l).
Proof.
  intros Hi. rewrite <- (take_drop_middle l i x Hi) at 1.
  rewrite !held_all_app. cbn. rewrite !app_assoc.
  apply Permutation_app_tail, Permutation_app_comm.
Qed.

Lemma held_all_insert l i x y :
  l !! i = Some x → held_all (<[i:=y]> l) ≡ₚ h y ++ held_all (take i l ++ drop (S i) l).
Proof.
  intros Hi. rewrite insert_take_drop by eauto with proto.
  rewrite !held_all_app. cbn. rewrite !app_assoc.
  apply Permutation_app_tail, Permutation_app_comm.
Qed.

(** The step of a pool: goroutine [i] becomes [y] and starts [sp]. *)
Lemma held_all_next l i x y sp :
  l !! i = Some x → ∃ rest, held_all l ≡ₚ h x ++ rest ∧
    held_all (<[i:=y]> l ++ sp) ≡ₚ (h y ++ held_all sp) ++ rest.
Proof.
  intros Hi. exists (held_all (take i l ++ drop (S i) l)).
  split; [by apply held_all_split|]. rewrite held_all_app, (held_all_insert _ _ _ _ Hi).
  solve_Permutation.
Qed.

Lemma held_all_elem l i x b : l !! i = Some x → b ∈ h x → b ∈ held_all l.
Proof. intros Hi Hb. rewrite (held_all_split _ _ _ Hi). set_solver. Qed.

(** Two threads of a duplicate-free pool that hold a common thing are one. *)
Lemma held_all_unique l i j x y b :
  NoDup (held_all l) → l !! i = Some x → l !! j = Some y →
  b ∈ h x → b ∈ h y → i = j.
Proof.
  intros Hnd Hi Hj Hx Hy. destruct (decide (i = j)) as [|Hne]; [done|exfalso].
  rewrite (held_all_split _ _ _ Hi) in Hnd.
  apply NoDup_app in Hnd as (_ & Hdisj & _). apply (Hdisj b Hx).
  unfold held_all. apply list_elem_of_join. exists (h y). split; [done|].
  apply list_elem_of_fmap. exists y. split; [done|].
  apply elem_of_app. destruct (decide (i < j)) as [Hlt|Hge].
  - right. apply list_elem_of_lookup. exists (j - S i).
    rewrite lookup_drop. by replace (S i + (j - S i)) with j by lia.
  - left. apply list_elem_of_lookup. exists j. by rewrite lookup_take_lt by lia.
Qed.
End concat_held.

Create Rewrite HintDb sumf.
#[export] Hint Rewrite @sumf_nil @sumf_cons @sumf_app @sumf_replicate : sumf.

(** ** Counting the goroutines of a pool

    Invariants of concurrent components are equations between weights summed
    over the pool.  [pool_sums] replaces every sum over an updated pool by what
    [sumf_insert] says about it and leaves linear arithmetic. *)
Ltac pool_sums :=
  rewrite ?sumf_app, ?sumf_cons, ?sumf_nil in *;
  repeat match goal with
  | Hl : ?ls !! ?i = Some ?l |- context [sumf ?f (<[?i:=?l']> ?ls)] =>
      let H := fresh "Hsum" in
      pose proof (sumf_insert f ls i l l' Hl) as H;
      let n := fresh "n" in
      remember (sumf f (<[i:=l']> ls)) as n eqn:Heqn in H |- *; clear Heqn
  end;
  simpl in *.

Ltac pool_lia := pool_sums; lia.

(** A lookup in a pool after an action: the acting goroutine, another one, or a
    new one. *)
Lemma lookup_pool {A} (ls sp : list A) i l l' k x :
  ls !! i = Some l → (<[i:=l']> ls ++ sp) !! k = Some x →
  (k = i ∧ x = l') ∨ (k ≠ i ∧ ls !! k = Some x) ∨ (length ls ≤ k ∧ x ∈ sp).
Proof.
  intros Hl [Hk|[Hlen Hk]]%lookup_app_Some.
  - apply list_lookup_insert_Some in Hk as [(<-&<-&_)|[? ?]]; auto.
  - right; right. rewrite length_insert in Hlen, Hk. split; [done|].
    by apply list_elem_of_lookup_2 in Hk.
Qed.
