(* ===== verification/GoLang.v ===== *)
(** * GoLang: the fragment of Go the programs are written in

    Values and control only: 64-bit [int] arithmetic with its wrap-around,
    expressions that may panic, slice indexing, counted [for] loops with early
    [return], and the functions of [strconv], [strings] and [fmt] that the
    programs call.  Goroutines, channels and mutexes are in GoSched and GoSync. *)

From Stdlib Require Import Ascii.
From S2P Require Import Prelude.

#[local] Open Scope Z_scope.

(** ** Panics *)

(** A Go expression or statement list either ends normally with a value or
    panics; an unrecovered panic unwinds to the goroutine's top. *)
Inductive res (A : Type) : Type :=
| Ret (a : A)
| Panic (why : string).
Arguments Ret {A} _.
Arguments Panic {A} _.

#[export] Instance res_ret : MRet res := λ A a, Ret a.
#[export] Instance res_bind : MBind res := λ A B f m,
  match m with Ret a => f a | Panic w => Panic w end.

#[export] Instance res_eq_dec {A} `{EqDecision A} : EqDecision (res A).
Proof. solve_decision. Defined.

(** The runtime errors the programs can meet. *)
Definition err_divide : string := "integer divide by zero".
Definition err_index : string := "index out of range".
Definition err_makeslice : string := "makeslice: len out of range".
Definition err_makechan : string := "makechan: size out of range".
Definition err_nil : string := "invalid memory address or nil pointer dereference".
Definition err_conversion : string := "interface conversion".

(** ** [int]: 64-bit two's complement *)

Definition min_int : Z := - 2 ^ 63.
Definition max_int : Z := 2 ^ 63 - 1.
Definition wrap64 (z : Z) : Z := (z + 2 ^ 63) `mod` 2 ^ 64 - 2 ^ 63.
Definition is_int (z : Z) : Prop := min_int ≤ z ≤ max_int.

Definition int_add (a b : Z) : Z := wrap64 (a + b).
Definition int_sub (a b : Z) : Z := wrap64 (a - b).
Definition int_mul (a b : Z) : Z := wrap64 (a * b).

(** [a % b]: truncated remainder, a run-time panic on [b == 0]. *)
Definition int_rem (a b : Z) : res Z :=
  if decide (b = 0) then Panic err_divide else Ret (Z.rem a b).

#[export] Instance is_int_dec z : Decision (is_int z).
Proof. unfold is_int. apply _. Defined.

Section int.
Implicit Types (a b z : Z).

Lemma wrap64_is_int z : is_int (wrap64 z).
Proof.
  unfold is_int, wrap64, min_int, max_int.
  pose proof (Z.mod_pos_bound (z + 2 ^ 63) (2 ^ 64) eq_refl). lia.
Qed.

Lemma wrap64_id z : is_int z → wrap64 z = z.
Proof.
  unfold is_int, wrap64, min_int, max_int. intros ?. rewrite Z.mod_small; lia.
Qed.

Lemma int_add_id a b : is_int (a + b) → int_add a b = a + b.
Proof. apply wrap64_id. Qed.

Lemma wrap64_add_l a b : wrap64 (wrap64 a + b) = wrap64 (a + b).
Proof.
  unfold wrap64.
  replace ((a + 2 ^ 63) `mod` 2 ^ 64 - 2 ^ 63 + b + 2 ^ 63)
    with ((a + 2 ^ 63) `mod` 2 ^ 64 + b) by lia.
  rewrite Zplus_mod_idemp_l. do 2 f_equal. lia.
Qed.

Lemma int_rem_pos a b : 0 ≤ a → 0 < b → int_rem a b = Ret (a `mod` b).
Proof.
  intros ??. unfold int_rem. rewrite decide_False by lia.
  by rewrite Z.rem_mod_nonneg by lia.
Qed.

Lemma int_rem_zero a : int_rem a 0 = Panic err_divide.
Proof. done. Qed.
End int.

(** ** Slices *)

(** [s[i]] *)
Definition index {A} (l : list A) (i : Z) : res A :=
  if decide (0 ≤ i) then
    match l !! Z.to_nat i with Some x => Ret x | None => Panic err_index end
  else Panic err_index.

(** [s[i] = x] *)
Definition set_index {A} (l : list A) (i : Z) (x : A) : res (list A) :=
  if decide (0 ≤ i < Z.of_nat (length l)) then Ret (<[Z.to_nat i := x]> l)
  else Panic err_index.

(** [make([]T, n)], every element the zero value [z]. *)
Definition make_slice {A} (z : A) (n : Z) : res (list A) :=
  if decide (0 ≤ n) then Ret (replicate (Z.to_nat n) z) else Panic err_makeslice.

Section slices.
Context {A : Type}.
Implicit Types (l : list A) (x : A) (i : Z).

Lemma index_ok l i x : 0 ≤ i → l !! Z.to_nat i = Some x → index l i = Ret x.
Proof. intros ? Hl. unfold index. by rewrite decide_True, Hl by done. Qed.

Lemma index_Ret l i x : index l i = Ret x ↔ 0 ≤ i ∧ l !! Z.to_nat i = Some x.
Proof. unfold index. case_decide; [destruct (l !! Z.to_nat i)|]; intuition congruence. Qed.

Lemma set_index_ok l i x :
  0 ≤ i < Z.of_nat (length l) → set_index l i x = Ret (<[Z.to_nat i := x]> l).
Proof. intros ?. unfold set_index. by rewrite decide_True. Qed.
End slices.

(** ** Loops *)

(** [for i := 0; i < n; i++ { body }]: the body maps the loop's state to the
    next state ([inl]) or returns from the enclosing function ([inr]). *)
Fixpoint for_loop {S R} (k : nat) (i : Z) (body : Z → S → res (S + R)) (s : S) : res (S + R) :=
  match k with
  | O => Ret (inl s)
  | Datatypes.S k' =>
      r ← body i s;
      match r with
      | inl s' => for_loop k' (i + 1) body s'
      | inr v => Ret (inr v)
      end
  end.

Definition for_lt {S R} (n : Z) (body : Z → S → res (S + R)) (s : S) : res (S + R) :=
  for_loop (Z.to_nat n) 0 body s.

Section loops.
Context {S R : Type} (body : Z → S → res (S + R)).

(** Invariant rule: a body that, from [I i], always continues in [I (i+1)]
    makes the loop end in [I n]. *)
Lemma for_loop_inv (I : Z → S → Prop) k i s :
  (∀ j t, i ≤ j < i + Z.of_nat k → I j t →
     ∃ t', body j t = Ret (inl t') ∧ I (j + 1) t') →
  I i s → ∃ s', for_loop k i body s = Ret (inl s') ∧ I (i + Z.of_nat k) s'.
Proof.
  revert i s. induction k as [|k IH]; intros i s Hb Hi; simpl.
  { exists s. by rewrite Z.add_0_r. }
  destruct (Hb i s ltac:(lia) Hi) as (t&->&Ht); simpl.
  destruct (IH (i + 1) t) as (s'&->&?); [|done|].
  { intros j u ?. apply Hb. lia. }
  exists s'. split; [done|]. by replace (i + Z.of_nat (Datatypes.S k)) with (i + 1 + Z.of_nat k) by lia.
Qed.

Lemma for_lt_inv (I : Z → S → Prop) n s :
  (∀ j t, 0 ≤ j < n → I j t → ∃ t', body j t = Ret (inl t') ∧ I (j + 1) t') →
  I 0 s → ∃ s', for_lt n body s = Ret (inl s') ∧ I (Z.max 0 n) s'.
Proof.
  intros Hb H0. unfold for_lt.
  destruct (for_loop_inv I (Z.to_nat n) 0 s) as (s'&->&?); [|done|].
  { intros j t ?. apply Hb. lia. }
  exists s'. split; [done|]. by replace (Z.max 0 n) with (0 + Z.of_nat (Z.to_nat n)) by lia.
Qed.
End loops.

(** A loop without state that returns [v] at the first index refused by [p]. *)
Lemma for_loop_all {R} (body : Z → () → res (() + R)) (p : Z → bool) (v : R) k i :
  (∀ j, i ≤ j < i + Z.of_nat k → body j () = Ret (if p j then inl () else inr v)) →
  for_loop k i body () = Ret (if forallb p (seqZ i (Z.of_nat k)) then inl () else inr v).
Proof.
  revert i. induction k as [|k IH]; intros i Hb; [done|].
  rewrite Nat2Z.inj_succ, seqZ_cons, Z.pred_succ by lia. simpl.
  rewrite Hb by lia. simpl. destruct (p i); [|done]. simpl.
  rewrite IH; [by rewrite Z.add_1_r|]. intros j ?. apply Hb. lia.
Qed.

Lemma for_lt_all {R} (body : Z → () → res (() + R)) (p : Z → bool) (v : R) n :
  (∀ j, 0 ≤ j < n → body j () = Ret (if p j then inl () else inr v)) →
  for_lt n body () = Ret (if forallb p (seqZ 0 n) then inl () else inr v).
Proof.
  intros Hb. unfold for_lt. rewrite for_loop_all with (p := p) (v := v).
  - replace (seqZ 0 (Z.of_nat (Z.to_nat n))) with (seqZ 0 n); [done|].
    unfold seqZ. by rewrite Nat2Z.id.
  - intros j ?. apply Hb. lia.
Qed.

Lemma forallb_seqZ (p : Z → bool) n :
  forallb p (seqZ 0 n) = true ↔ ∀ j, 0 ≤ j < n → p j = true.
Proof.
  rewrite forallb_forall. split; intros Hp j.
  - intros ?. apply Hp, list_elem_of_In, elem_of_seqZ. lia.
  - rewrite <-list_elem_of_In, elem_of_seqZ. intros ?. apply Hp. lia.
Qed.

(** Two loops whose bodies agree at every step agree. *)
Lemma for_loop_ext {S R} (b1 b2 : Z → S → res (S + R)) k i s :
  (∀ j t, b1 j t = b2 j t) → for_loop k i b1 s = for_loop k i b2 s.
Proof.
  intros He. revert i s. induction k as [|k IH]; intros i s; [done|]. simpl.
  rewrite He. destruct (b2 i s) as [[]|]; simpl; eauto.
Qed.

(** ** [strings] and [strconv] *)

#[export] Instance string_app_nil : RightId (=) EmptyString String.append.
Proof.
  intros s. induction s as [|c s IH]; [done|]. change (String c (s +:+ "") = String c s). by rewrite IH.
Qed.

#[export] Instance string_app_assoc : Assoc (=) String.append.
Proof.
  intros s t u. induction s as [|c s IH]; [done|].
  change (String c (s +:+ t +:+ u) = String c ((s +:+ t) +:+ u)). by rewrite IH.
Qed.

(** [strings.Split(s, sep)] for a separator of one character. *)
Fixpoint split_on (sep : ascii) (s : string) : list string :=
  match s with
  | EmptyString => [EmptyString]
  | String c s' =>
      if decide (c = sep) then EmptyString :: split_on sep s'
      else match split_on sep s' with
           | [] => [String c EmptyString]
           | w :: ws => String c w :: ws
           end
  end.

Lemma split_on_length sep s : (1 ≤ length (split_on sep s))%nat.
Proof.
  induction s as [|c s IH]; simpl; [lia|]. case_decide; simpl; [lia|].
  destruct (split_on sep s); simpl in *; lia.
Qed.

(** The parts joined by the separator are the string. *)
Fixpoint join_on (sep : ascii) (l : list string) : string :=
  match l with
  | [] => EmptyString
  | [w] => w
  | w :: l' => (w +:+ String sep (join_on sep l'))%string
  end.

Lemma join_split sep s : join_on sep (split_on sep s) = s.
Proof.
  induction s as [|c s IH]; [done|]. simpl. pose proof (split_on_length sep s) as Hl.
  case_decide as Hc.
  - simpl. destruct (split_on sep s) eqn:Hs; [simpl in Hl; lia|]. by rewrite IH, Hc.
  - destruct (split_on sep s) as [|w [|w' ws]] eqn:Hs; [simpl in Hl; lia| |];
      simpl in *; by rewrite <-IH.
Qed.

(** No separator occurs. *)
Fixpoint free_of (sep : ascii) (s : string) : bool :=
  match s with
  | EmptyString => true
  | String c s' => bool_decide (c ≠ sep) && free_of sep s'
  end.

Lemma free_of_app sep s t : free_of sep (s +:+ t) = free_of sep s && free_of sep t.
Proof.
  induction s as [|c s IH]; [done|]. change (free_of sep (String c (s +:+ t)) = free_of sep (String c s) && free_of sep t).
  simpl. by rewrite IH, andb_assoc.
Qed.

Lemma split_on_free sep s : free_of sep s = true → split_on sep s = [s].
Proof.
  induction s as [|c s IH]; intros Hs; [done|].
  apply andb_prop in Hs as [Hc%bool_decide_eq_true Hs]. simpl. by rewrite decide_False, IH by done.
Qed.

(** The parts on both sides of a separator. *)
Lemma split_on_sep sep s t : split_on sep (s +:+ String sep t) = split_on sep s ++ split_on sep t.
Proof.
  induction s as [|c s IH]; [simpl; by rewrite decide_True|].
  change (split_on sep (String c (s +:+ String sep t)) = split_on sep (String c s) ++ split_on sep t).
  simpl. rewrite IH. case_decide; [done|]. pose proof (split_on_length sep s) as Hl.
  destruct (split_on sep s); [simpl in Hl; lia|done].
Qed.

Lemma split_on_app sep s t :
  free_of sep s = true → split_on sep (s +:+ String sep t) = s :: split_on sep t.
Proof. intros Hs. by rewrite split_on_sep, split_on_free. Qed.

(** [string(buffer)], for a buffer of [size] bytes after a read of [data] into it: the
    rest of the buffer is zero. *)
Definition buffer_string (size : nat) (data : string) : string :=
  (data +:+ Nat.iter (size - String.length data) (String (ascii_of_nat 0)) EmptyString)%string.

Lemma buffer_full data : buffer_string (String.length data) data = data.
Proof. unfold buffer_string. rewrite Nat.sub_diag. apply (right_id_L EmptyString String.append). Qed.

(** The first [n] bytes of a string, and the rest. *)
Fixpoint cut (n : nat) (s : string) : string * string :=
  match n, s with
  | S n, String c s => let (x, y) := cut n s in (String c x, y)
  | _, _ => (EmptyString, s)
  end.

Lemma cut_app n s : ((cut n s).1 +:+ (cut n s).2)%string = s.
Proof.
  revert s. induction n as [|n IH]; intros [|c s]; [done..|]. simpl. specialize (IH s).
  destruct (cut n s) as [x y]. change (String c (x +:+ y) = String c s)%string. by f_equal.
Qed.

Lemma cut_length n s : (String.length (cut n s).1 ≤ n)%nat.
Proof.
  revert s. induction n as [|n IH]; intros [|c s]; simpl; try lia. specialize (IH s).
  destruct (cut n s) as [x y]. simpl in *. lia.
Qed.

Definition digit (c : ascii) : option Z :=
  let n := Z.of_nat (nat_of_ascii c) in
  if decide (48 ≤ n ≤ 57) then Some (n - 48) else None.

(** [strconv.ParseUint(s, 10, 64)] from the value [n] of the digits before:
    [None] for a syntax error, the largest value when out of range. *)
Fixpoint parse_uint (n : Z) (s : string) : option Z :=
  match s with
  | EmptyString => Some n
  | String c s' =>
      d ← digit c;
      let n' := n * 10 + d in
      if decide (2 ^ 64 ≤ n') then Some (2 ^ 64 - 1) else parse_uint n' s'
  end.

(** The sign and the digits. *)
Definition sign_digits (s : string) : bool * string :=
  match s with
  | String c s' =>
      if decide (c = "-"%char) then (true, s')
      else if decide (c = "+"%char) then (false, s') else (false, s)
  | EmptyString => (false, s)
  end.

(** The value of [strconv.Atoi(s)], whatever its error: 0 for a syntax error, the
    nearest integer when out of range. *)
Definition Atoi (s : string) : Z :=
  let (neg, ds) := sign_digits s in
  match ds with
  | EmptyString => 0
  | _ =>
      match parse_uint 0 ds with
      | None => 0
      | Some n => if neg then Z.max min_int (- n) else Z.min max_int n
      end
  end.

Lemma parse_uint_nonneg n s v : 0 ≤ n → parse_uint n s = Some v → 0 ≤ v.
Proof.
  revert n. induction s as [|c s IH]; intros n Hn; simpl; [naive_solver|].
  unfold digit. case_decide as Hd; simpl; [|done].
  case_decide; [intros [= <-]; lia|]. apply IH. lia.
Qed.

Lemma Atoi_is_int s : is_int (Atoi s).
Proof.
  unfold Atoi, is_int, min_int, max_int. destruct (sign_digits s) as [neg ds].
  destruct ds as [|c ds]; [lia|].
  destruct (parse_uint 0 (String c ds)) as [n|] eqn:Hn; [|lia].
  apply parse_uint_nonneg in Hn; [|lia]. destruct neg; lia.
Qed.

(** ** [time] *)

(** Times are nanoseconds since the Unix epoch; this is Go's zero [time.Time],
    midnight of 1 January of year 1. *)
Definition zero_time : Z := - 62135596800 * 10 ^ 9.

Definition Second : Z := 10 ^ 9.

(** [t.Sub(u)]: a [Duration], saturating. *)
Definition time_sub (t u : Z) : Z := Z.max min_int (Z.min max_int (t - u)).

Lemma time_sub_le t u d : min_int ≤ d < max_int → time_sub t u ≤ d ↔ t - u ≤ d.
Proof. unfold time_sub. lia. Qed.

(** ** [database/sql] *)

(** [for rows.Next() { err = rows.Scan(...); if err != nil { ...; return } }]:
    every row, unless one of them, [None], fails to scan. *)
Fixpoint scan_all {A} (rs : list (option A)) : option (list A) :=
  match rs with
  | [] => Some []
  | None :: _ => None
  | Some a :: rs' => (λ l, a :: l) <$> scan_all rs'
  end.

Section scan.
Context {A : Type}.
Implicit Types (rs : list (option A)) (l : list A).

Lemma scan_all_elem rs l x : scan_all rs = Some l → x ∈ l → Some x ∈ rs.
Proof.
  revert l. induction rs as [|[a|] rs IH]; intros l; simpl; [intros [= <-]; set_solver| |done].
  destruct (scan_all rs) as [l'|] eqn:Hs; [|done]. intros [= <-] [->|Hx]%elem_of_cons; [set_solver|].
  apply elem_of_cons. right. by eapply IH.
Qed.

Lemma scan_all_length rs l : scan_all rs = Some l → length l = length rs.
Proof.
  revert l. induction rs as [|[a|] rs IH]; intros l; simpl; [by intros [= <-]| |done].
  destruct (scan_all rs) as [l'|]; [|done]. intros [= <-]. simpl. f_equal. by apply IH.
Qed.

Lemma scan_all_rows l : scan_all (Some <$> l) = Some l.
Proof. induction l as [|a l IH]; [done|]. rewrite fmap_cons. cbn [scan_all]. by rewrite IH. Qed.

(** [rs] are the rows of the result [l] that [rows.Next] has delivered, each scanned or
    failed to be.  [rows.Next] is false at the end and also on an error, which the
    programs do not ask for; the result is [whole] if there was none.  A result without
    an order may come in any. *)
Definition delivers (whole : Prop) (l : list A) (rs : list (option A)) : Prop :=
  ∃ l', l' ⊆+ l ∧ (whole → l' ≡ₚ l) ∧ Forall2 (λ a x, x = Some a ∨ x = None) l' rs.

Definition delivers_in_order (whole : Prop) (l : list A) (rs : list (option A)) : Prop :=
  ∃ l', l' `prefix_of` l ∧ (whole → l' = l) ∧ Forall2 (λ a x, x = Some a ∨ x = None) l' rs.

Lemma scan_all_forall2 l' rs l :
  Forall2 (λ a x, x = Some a ∨ x = None) l' rs → scan_all rs = Some l → l = l'.
Proof.
  intros Hf. revert l. induction Hf as [|a x l' rs [->| ->] _ IH]; intros l; cbn; [by intros [= <-]| |done].
  destruct (scan_all rs) as [l1|]; [|done]. intros [= <-]. f_equal. by apply IH.
Qed.

Lemma delivers_scan whole l rs l1 :
  delivers whole l rs → scan_all rs = Some l1 → l1 ⊆+ l ∧ (whole → l1 ≡ₚ l).
Proof. intros (l'&H1&H2&Hf) Hs. by rewrite (scan_all_forall2 l' rs l1 Hf Hs). Qed.

Lemma delivers_scan_in_order whole l rs l1 :
  delivers_in_order whole l rs → scan_all rs = Some l1 → l1 `prefix_of` l ∧ (whole → l1 = l).
Proof. intros (l'&H1&H2&Hf) Hs. by rewrite (scan_all_forall2 l' rs l1 Hf Hs). Qed.

Lemma rows_scanned l : Forall2 (λ a x, x = Some a ∨ x = None) l (Some <$> l).
Proof. induction l; constructor; auto. Qed.

Lemma delivers_all whole l : delivers whole l (Some <$> l).
Proof. exists l. split; [done|]. split; [done|]. apply rows_scanned. Qed.

Lemma delivers_all_in_order whole l : delivers_in_order whole l (Some <$> l).
Proof. exists l. split; [done|]. split; [done|]. apply rows_scanned. Qed.

Lemma delivers_cut (whole : Prop) l : ¬ whole → delivers whole l [].
Proof. intros Hw. exists []. split; [apply submseteq_nil_l|]. by split. Qed.

Lemma delivers_cut_in_order (whole : Prop) l : ¬ whole → delivers_in_order whole l [].
Proof. intros Hw. exists []. split; [apply prefix_nil|]. by split. Qed.
End scan.
