(* ===== verification/GoSched.v ===== *)
(** * GoSched: goroutines and their interleavings

    A program with goroutines is a shared state [S] and a list of goroutines,
    each with its own local state [L] (its program counter and local variables).
    The code of the goroutines is one function [tstep]: given a choice [C] (what
    the environment answers: a failing call, a timer that fires, ...), the shared
    state and the goroutine's local state, it performs the goroutine's next
    atomic action.  A schedule is a list of (goroutine, choice) pairs; [run]
    executes it, [step] is one scheduled action, [reachable] any number of them.

    The second half proves, once, the rules by which every component is
    verified: invariants, termination by a weight, and progress. *)

From S2P Require Import Prelude GoLang.

(** The result of letting one goroutine act. *)
Inductive outcome (S L : Type) : Type :=
| Wait                                      (** blocked, or has returned *)
| Next (s : S) (l : L) (spawned : list L)   (** acts, and starts goroutines *)
| Crash (why : string).                     (** panics or exits: the process ends *)
Arguments Wait {S L}.
Arguments Next {S L} _ _ _.
Arguments Crash {S L} _.

(** An expression that may panic, inside an action. *)
Definition fallible {A S L} (r : res A) (k : A → outcome S L) : outcome S L :=
  match r with Ret a => k a | Panic why => Crash why end.

(** A process: running, or dead. *)
Inductive config (S L : Type) : Type :=
| Running (s : S) (ls : list L)
| Dead (why : string).
Arguments Running {S L} _ _.
Arguments Dead {S L} _.

Section sched.
Context {S L C : Type}.
Variable tstep : C → S → L → outcome S L.
Implicit Types (s : S) (l : L) (ls : list L) (σ : config S L).

(** Let goroutine [i] act under choice [c]; [None] when it cannot. *)
Definition exec (ic : nat * C) (σ : config S L) : option (config S L) :=
  match σ with
  | Running s ls =>
      match ls !! ic.1 with
      | Some l =>
          match tstep ic.2 s l with
          | Wait => None
          | Next s' l' spawned => Some (Running s' (<[ic.1:=l']> ls ++ spawned))
          | Crash why => Some (Dead why)
          end
      | None => None
      end
  | Dead _ => None
  end.

Fixpoint run (sched : list (nat * C)) (σ : config S L) : option (config S L) :=
  match sched with
  | [] => Some σ
  | ic :: sched' => exec ic σ ≫= run sched'
  end.

Definition step : relation (config S L) := λ σ σ', ∃ ic, exec ic σ = Some σ'.

Definition reachable : config S L → config S L → Prop := rtc step.

(** A process that is stuck: no goroutine can act, under any choice. *)
Definition halted σ : Prop := ∀ ic, exec ic σ = None.

Lemma run_reachable sched σ σ' : run sched σ = Some σ' → reachable σ σ'.
Proof.
  revert σ. induction sched as [|ic sched IH]; intros σ; simpl.
  { intros [= ->]. apply rtc_refl. }
  destruct (exec ic σ) as [σ1|] eqn:He; simpl; [|done].
  intros Hr. eapply rtc_l; [by exists ic|by apply IH].
Qed.

Lemma reachable_run σ σ' : reachable σ σ' → ∃ sched, run sched σ = Some σ'.
Proof.
  induction 1 as [σ|σ σ1 σ2 [ic He] _ [sched IH]].
  { by exists []. }
  exists (ic :: sched). simpl. by rewrite He.
Qed.

Lemma run_app sched1 sched2 σ : run (sched1 ++ sched2) σ = run sched1 σ ≫= run sched2.
Proof.
  revert σ. induction sched1 as [|ic sched1 IH]; intros σ; [done|]. simpl.
  destruct (exec ic σ); simpl; [apply IH|done].
Qed.

(** Schedule goroutine [i] once, when it does not start others. *)
Lemma exec_next i c s ls l s' l' :
  ls !! i = Some l → tstep c s l = Next s' l' [] →
  exec (i, c) (Running s ls) = Some (Running s' (<[i:=l']> ls)) ∧ <[i:=l']> ls !! i = Some l'.
Proof.
  intros Hl Ht. simpl. rewrite Hl, Ht, app_nil_r. split; [done|].
  apply list_lookup_insert_eq. by eapply lookup_lt_Some.
Qed.

(** Schedule goroutine [i], whatever it was before, from the local state [l]. *)
Lemma run_next i c s ls l s' l' sched :
  i < length ls → tstep c s l = Next s' l' [] →
  run ((i, c) :: sched) (Running s (<[i:=l]> ls)) = run sched (Running s' (<[i:=l']> ls)).
Proof.
  intros Hi Ht. cbn [run].
  destruct (exec_next i c s (<[i:=l]> ls) l s' l') as [-> _];
    [by apply list_lookup_insert_eq|done|].
  cbn. by rewrite list_insert_insert_eq.
Qed.

Lemma exec_crash i c s ls l why :
  ls !! i = Some l → tstep c s l = Crash why → exec (i, c) (Running s ls) = Some (Dead why).
Proof. intros Hl Ht. simpl. by rewrite Hl, Ht. Qed.

(** ** Invariants *)

(** The obligation of an invariant [I]: whatever goroutine acts from a state
    satisfying [I], it does not crash the process and keeps [I]. *)
Definition preserves (I : S → list L → Prop) : Prop :=
  ∀ c s ls i l, I s ls → ls !! i = Some l →
    match tstep c s l with
    | Wait => True
    | Next s' l' spawned => I s' (<[i:=l']> ls ++ spawned)
    | Crash _ => False
    end.

(** The same with crashes allowed, for programs that may die. *)
Definition preserves_alive (I : S → list L → Prop) : Prop :=
  ∀ c s ls i l, I s ls → ls !! i = Some l →
    match tstep c s l with
    | Next s' l' spawned => I s' (<[i:=l']> ls ++ spawned)
    | _ => True
    end.

Lemma invariant_reachable I s ls σ :
  preserves I → I s ls → reachable (Running s ls) σ →
  ∃ s' ls', σ = Running s' ls' ∧ I s' ls'.
Proof.
  intros HI H0 Hr. remember (Running s ls) as σ0 eqn:E. revert s ls E H0.
  induction Hr as [|σ0 σ1 σ2 [[i c] He] _ IH]; intros s ls -> H0; [by exists s, ls|].
  simpl in He. destruct (ls !! i) as [l|] eqn:Hl; [|done].
  specialize (HI c s ls i l H0 Hl). destruct (tstep c s l); simplify_eq/=; [|done].
  eapply IH; [done|done].
Qed.

Lemma invariant_alive I s ls s' ls' :
  preserves_alive I → I s ls → reachable (Running s ls) (Running s' ls') → I s' ls'.
Proof.
  intros HI H0 Hr. remember (Running s ls) as σ0 eqn:E0. remember (Running s' ls') as σ' eqn:E'.
  revert s ls E0 H0. induction Hr as [|σ0 σ1 σ2 [[i c] He] Hr IH]; intros s ls -> H0.
  { by simplify_eq. }
  simpl in He. destruct (ls !! i) as [l|] eqn:Hl; [|done].
  specialize (HI c s ls i l H0 Hl). destruct (tstep c s l) as [|s1 l1 sp|why]; simplify_eq/=.
  - by eapply IH.
  - apply rtc_inv in Hr as [?|(σ3&[? ?]&_)]; [congruence|done].
Qed.

Lemma preserves_weaken I : preserves I → preserves_alive I.
Proof.
  intros HI c s ls i l H0 Hl. specialize (HI c s ls i l H0 Hl).
  by destruct (tstep c s l).
Qed.

(** ** Termination and progress *)

(** [w] bounds the number of actions a goroutine and those it starts will
    still perform, from states satisfying [I]. *)
Definition decreases (I : S → list L → Prop) (w : L → nat) : Prop :=
  ∀ c s ls i l s' l' spawned, I s ls → ls !! i = Some l →
    tstep c s l = Next s' l' spawned → w l' + sumf w spawned < w l.

Definition weight (w : L → nat) σ : nat :=
  match σ with Running _ ls => Datatypes.S (sumf w ls) | Dead _ => 0 end.

Definition sat (I : S → list L → Prop) σ : Prop :=
  match σ with Running s ls => I s ls | Dead _ => True end.

Lemma step_sat I σ σ' : preserves_alive I → sat I σ → step σ σ' → sat I σ'.
Proof.
  intros HI H0 [[i c] He]. destruct σ as [s ls|]; [|done]. simpl in He.
  destruct (ls !! i) as [l|] eqn:Hl; [|done]. specialize (HI c s ls i l H0 Hl).
  by destruct (tstep c s l); simplify_eq.
Qed.

Lemma step_weight I w σ σ' :
  decreases I w → sat I σ → step σ σ' → weight w σ' < weight w σ.
Proof.
  intros Hw HI [[i c] He]. destruct σ as [s ls|]; [|done]. simpl in He.
  destruct (ls !! i) as [l|] eqn:Hl; [|done].
  destruct (tstep c s l) as [|s' l' sp|] eqn:Ht; simplify_eq/=; [|lia].
  specialize (Hw _ _ _ _ _ _ _ _ HI Hl Ht). rewrite sumf_app.
  pose proof (sumf_insert w ls i l l' Hl). lia.
Qed.

(** No schedule is longer than the weight of the state it starts from. *)
Lemma run_length I w sched σ σ' :
  preserves_alive I → decreases I w → sat I σ →
  run sched σ = Some σ' → length sched + weight w σ' ≤ weight w σ.
Proof.
  intros HI Hw. revert σ. induction sched as [|ic sched IH]; intros σ H0; simpl.
  { intros [= ->]. done. }
  destruct (exec ic σ) as [σ1|] eqn:He; simpl; [|done].
  assert (Hs : step σ σ1) by by exists ic.
  intros Hr%IH; [|by eapply step_sat]. pose proof (step_weight I w σ σ1 Hw H0 Hs). lia.
Qed.

Lemma step_sn I w σ : preserves_alive I → decreases I w → sat I σ → sn step σ.
Proof.
  intros HI Hw. remember (weight w σ) as k eqn:Hk. revert σ Hk.
  induction (lt_wf k) as [k _ IH]. intros σ -> H0. constructor. intros σ' Hs.
  eapply IH; [by eapply step_weight|done|by eapply step_sat].
Qed.

(** The same with a measure of the whole state. *)
Lemma sn_measure I (μ : S → list L → nat) s ls :
  preserves_alive I →
  (∀ c s ls i l s' l' spawned, I s ls → ls !! i = Some l → tstep c s l = Next s' l' spawned →
     μ s' (<[i:=l']> ls ++ spawned) < μ s ls) →
  I s ls → sn step (Running s ls).
Proof.
  intros HI Hμ. remember (μ s ls) as k eqn:Hk. revert s ls Hk.
  induction (lt_wf k) as [k _ IH]. intros s ls -> H0. constructor. intros σ [[i c] He]. cbn in He.
  destruct (ls !! i) as [l|] eqn:Hl; [|done]. pose proof (HI c s ls i l H0 Hl) as Hp.
  destruct (tstep c s l) as [|s' l' sp|why] eqn:Ht; simplify_eq.
  - by eapply IH; [eapply Hμ| |].
  - constructor. intros σ' [[i' c'] [=]].
Qed.

(** An invariant state in which a goroutine with work left can always be found
    that acts: a halted state has no work left. *)
Lemma halted_done (I : S → list L → Prop) (finished : L → Prop) `{∀ l, Decision (finished l)} s ls :
  (∀ l i, I s ls → ls !! i = Some l → ¬ finished l →
     ∃ c j l', ls !! j = Some l' ∧ tstep c s l' ≠ Wait) →
  I s ls → halted (Running s ls) → Forall finished ls.
Proof.
  intros Hp HI Hh. apply Forall_lookup. intros i l Hl.
  destruct (decide (finished l)) as [|Hn]; [done|exfalso].
  destruct (Hp l i HI Hl Hn) as (c&j&l'&Hj&Ht). specialize (Hh (j, c)). simpl in Hh.
  rewrite Hj in Hh. by destruct (tstep c s l').
Qed.

(** The three rules together.  If [I] is a crash-free invariant, [w] decreases
    and unfinished work always lets some goroutine act, then every execution is
    finite and every execution that cannot be continued has finished all its
    goroutines, in a state satisfying [I]. *)
Theorem completes (I : S → list L → Prop) (finished : L → Prop) (w : L → nat)
    `{∀ l, Decision (finished l)} s ls :
  preserves I → decreases I w →
  (∀ s ls l i, I s ls → ls !! i = Some l → ¬ finished l →
     ∃ c j l', ls !! j = Some l' ∧ tstep c s l' ≠ Wait) →
  I s ls →
  sn step (Running s ls) ∧
  ∀ σ, reachable (Running s ls) σ → halted σ →
    ∃ s' ls', σ = Running s' ls' ∧ I s' ls' ∧ Forall finished ls'.
Proof.
  intros HI Hw Hp H0. split.
  { by apply step_sn with I w; [apply preserves_weaken| |]. } intros σ Hr Hh.
  destruct (invariant_reachable I s ls σ HI H0 Hr) as (s'&ls'&->&HI').
  exists s', ls'. split; [done|]. split; [done|].
  apply (halted_done I finished s' ls'); [|done|done]. intros l i. apply Hp.
Qed.

(** The same for programs some of whose actions may end the process. *)
Theorem completes_or_dies (I : S → list L → Prop) (finished : L → Prop) (w : L → nat)
    `{∀ l, Decision (finished l)} s ls :
  preserves_alive I → decreases I w →
  (∀ s ls l i, I s ls → ls !! i = Some l → ¬ finished l →
     ∃ c j l', ls !! j = Some l' ∧ tstep c s l' ≠ Wait) →
  I s ls →
  sn step (Running s ls) ∧
  ∀ s' ls', reachable (Running s ls) (Running s' ls') → halted (Running s' ls') →
    I s' ls' ∧ Forall finished ls'.
Proof.
  intros HI Hw Hp H0. split; [by apply step_sn with I w|]. intros s' ls' Hr Hh.
  pose proof (invariant_alive I s ls s' ls' HI H0 Hr) as HI'. split; [done|].
  apply (halted_done I finished s' ls'); [|done|done]. intros l i. apply Hp.
Qed.

(** What a process can die of. *)
Lemma dies_of (I : S → list L → Prop) (P : string → Prop) s ls why :
  preserves_alive I → I s ls →
  (∀ c s ls i l why, I s ls → ls !! i = Some l → tstep c s l = Crash why → P why) →
  reachable (Running s ls) (Dead why) → P why.
Proof.
  intros HI H0 HP Hr. apply rtc_inv_r in Hr as [[=]|(σ1&Hr&[[i c] He])].
  destruct σ1 as [s1 ls1|]; [|done]. simpl in He. destruct (ls1 !! i) as [l|] eqn:Hl; [|done].
  destruct (tstep c s1 l) as [|? ? ?|why'] eqn:Ht; simplify_eq/=.
  eapply HP; [|exact Hl|exact Ht]. by eapply invariant_alive.
Qed.
End sched.
