(* ===== verification/GoSync.v ===== *)
(** * GoSync: channels, mutexes, wait groups and shared maps

    The operations of the [chan] type, of [sync.Mutex] and [sync.WaitGroup], and of
    maps that goroutines share, as the programs use them.  Each operation is a function that says whether the
    goroutine may proceed; GoSched turns "may not proceed" into waiting. *)

From S2P Require Import Prelude GoLang.

(** ** Buffered channels *)

Record chan (A : Type) := Chan { ch_cap : nat; ch_buf : list A; ch_closed : bool }.
Arguments Chan {A} _ _ _.
Arguments ch_cap {A} _.
Arguments ch_buf {A} _.
Arguments ch_closed {A} _.

Inductive chan_res (A B : Type) : Type :=
| CBlock
| COk (ch : chan A) (v : B)
| CPanic (why : string).
Arguments CBlock {A B}.
Arguments COk {A B} _ _.
Arguments CPanic {A B} _.

Definition err_send_closed : string := "send on closed channel".

Section chan.
Context {A : Type}.
Implicit Types (ch : chan A) (v : A).

(** [make(chan A, n)] *)
Definition make_chan (n : Z) : res (chan A) :=
  if decide (0 ≤ n)%Z then Ret (Chan (Z.to_nat n) [] false) else Panic err_makechan.

(** [ch <- v] on a buffered channel *)
Definition send ch v : chan_res A () :=
  if ch_closed ch then CPanic err_send_closed
  else if decide (length (ch_buf ch) < ch_cap ch)
  then COk (Chan (ch_cap ch) (ch_buf ch ++ [v]) false) ()
  else CBlock.

(** [<-ch]: [None] is the zero value a closed, drained channel yields *)
Definition recv ch : chan_res A (option A) :=
  match ch_buf ch with
  | v :: rest => COk (Chan (ch_cap ch) rest (ch_closed ch)) (Some v)
  | [] => if ch_closed ch then COk ch None else CBlock
  end.

(** A channel within its capacity and not closed. *)
Definition chan_ok ch : Prop := length (ch_buf ch) ≤ ch_cap ch ∧ ch_closed ch = false.

Lemma send_ok ch v :
  chan_ok ch → length (ch_buf ch) < ch_cap ch →
  send ch v = COk (Chan (ch_cap ch) (ch_buf ch ++ [v]) false) ().
Proof. intros [_ Hc] ?. unfold send. by rewrite Hc, decide_True. Qed.

(** FIFO: what is received is what was sent first. *)
Lemma recv_send ch v ch' :
  send ch v = COk ch' () → ch_buf ch = [] → recv ch' = COk (Chan (ch_cap ch) [] false) (Some v).
Proof.
  unfold send. intros Hs Hb. repeat case_match; simplify_eq.
  unfold recv. simpl. by rewrite Hb.
Qed.
End chan.

(** ** [sync.Mutex] *)

Record mutex := Mutex { locked : bool }.

Definition lock (m : mutex) : option mutex := if locked m then None else Some (Mutex true).

Definition err_unlock : string := "sync: unlock of unlocked mutex".
Definition unlock (m : mutex) : res mutex :=
  if locked m then Ret (Mutex false) else Panic err_unlock.

(** ** [sync.WaitGroup] *)

Record waitgroup := WaitGroup { wg_count : Z }.

Definition err_wg_negative : string := "sync: negative WaitGroup counter".

Definition wg_add (wg : waitgroup) (n : Z) : res waitgroup :=
  if decide (wg_count wg + n < 0)%Z then Panic err_wg_negative
  else Ret (WaitGroup (wg_count wg + n)).

Definition wg_done (wg : waitgroup) : res waitgroup := wg_add wg (-1).

(** [wg.Wait()] returns when the counter is zero. *)
Definition wg_wait (wg : waitgroup) : option () := if decide (wg_count wg = 0%Z) then Some () else None.

(** ** Maps that goroutines share

    A map takes no lock.  An access to it begins and ends, and others may begin
    theirs in between.  Two that overlap, one of them a write, are a data race: the
    runtime ends the process where it notices ("fatal error: concurrent map read and
    map write", which nothing recovers), and where it does not the memory model
    promises nothing.  So the programs ask [begin_access] first, and end with
    [err_map] where it answers [None]. *)

Definition err_map : string := "concurrent map access".

Record gomap (K V : Type) `{Countable K} := GoMap {
  entries : gmap K V;
  readers : nat;     (** the reads that have begun and not ended *)
  writing : bool     (** a write has begun and not ended *)
}.
Arguments GoMap {K V _ _} _ _ _.
Arguments entries {K V _ _} _.
Arguments readers {K V _ _} _.
Arguments writing {K V _ _} _.

Section gomap.
Context {K V : Type} `{Countable K}.
Implicit Types m : gomap K V.

(** [make(map[K]V)] *)
Definition make_map : gomap K V := GoMap ∅ 0 false.

Definition begin_access (write : bool) m : option (gomap K V) :=
  if writing m || (write && bool_decide (0 < readers m)) then None
  else if write then Some (GoMap (entries m) (readers m) true)
  else Some (GoMap (entries m) (S (readers m)) false).

(** [m[k]], and the end of the read *)
Definition map_get (k : K) m : option V := entries m !! k.
Definition end_read m : gomap K V := GoMap (entries m) (pred (readers m)) (writing m).

(** [m[k] = v], and the end of the write *)
Definition map_set (k : K) (v : V) m : gomap K V := GoMap (<[k:=v]> (entries m)) (readers m) false.

(** Nobody is at it. *)
Definition idle m : Prop := readers m = 0 ∧ writing m = false.

(** Accesses that do not overlap are those of a finite map. *)
Lemma read_alone m : idle m → ∃ m', begin_access false m = Some m' ∧ entries m' = entries m ∧ end_read m' = m.
Proof.
  destruct m as [es r w]. intros [Hr Hw]. cbn in *. subst. eexists. split; [reflexivity|]. done.
Qed.

Lemma write_alone k v m :
  idle m → ∃ m', begin_access true m = Some m' ∧ entries m' = entries m ∧
    map_set k v m' = GoMap (<[k:=v]> (entries m)) 0 false.
Proof.
  destruct m as [es r w]. intros [Hr Hw]. cbn in *. subst. eexists. split; [reflexivity|]. done.
Qed.

(** Two accesses overlap only if both are reads. *)
Lemma begin_overlap write m m' :
  begin_access write m = Some m' → ¬ idle m → write = false ∧ writing m = false.
Proof.
  unfold begin_access, idle. destruct (writing m) eqn:Hw, write; cbn; try done.
  case_bool_decide; [done|]. intros _ Hi. destruct Hi. split; [lia|done].
Qed.
End gomap.
