(* ===== verification/GoFork.v ===== *)
(** * GoFork: a loop that starts goroutines and waits for them

    The benchmarks all have the shape
[[
    for i := 0; i < n; i++ { wg.Add(1); go func() { ...; wg.Done(); ... }() }
    wg.Wait()
]]
    [tstep] is that code, for a job given by its own step function.  [fork_join]
    derives, once, that it ends with every job finished from what each job does on
    its own.  [Returned] says that the loop's function has returned, not that the
    process has ended: where that function is [main] the process may end from then on,
    and what the jobs have left to do may not happen.  [fork_returned] says what holds
    from that moment. *)

From S2P Require Import Prelude GoLang GoSched GoSync.

#[local] Open Scope Z_scope.

Module Fork.

(** What a job does when it is scheduled. *)
Inductive act (S L : Type) :=
| Blocked                  (** waits, or has returned *)
| Goes (s : S) (l : L)
| CallsDone (s : S) (l : L) (** [wg.Done()] *)
| Dies (why : string).
Arguments Blocked {S L}.
Arguments Goes {S L} _ _.
Arguments CallsDone {S L} _ _.
Arguments Dies {S L} _.

Record shared (S : Type) := Shared { inner : S; wg : waitgroup }.
Arguments Shared {S} _ _.
Arguments inner {S} _.
Arguments wg {S} _.

Inductive pc (L : Type) :=
| Loop (i : Z)       (** the test of the loop and [wg.Add(1)] *)
| Spawn (i : Z)      (** [go func() { ... }()], [i++] *)
| Waiting            (** [wg.Wait()] *)
| Returned
| Job (l : L).
Arguments Loop {L} _.
Arguments Spawn {L} _.
Arguments Waiting {L}.
Arguments Returned {L}.
Arguments Job {L} _.

(** The jobs of a pool. *)
Definition jobs_of {L} (l : pc L) : list L := match l with Job l => [l] | _ => [] end.
Abbreviation jobs := (held_all jobs_of).

Section fork.
Context {S L C : Type} `{!Inhabited C}.
(** The rounds of the loop, the job started in each, and what jobs do. *)
Variables (n : Z) (job : Z → L) (wstep : C → S → L → act S L).

Definition tstep (c : C) (s : shared S) (l : pc L) : outcome (shared S) (pc L) :=
  match l with
  | Loop i =>
      if decide (i < n)
      then fallible (wg_add (wg s) 1) (λ w, Next (Shared (inner s) w) (Spawn i) [])
      else Next s Waiting []
  | Spawn i => Next s (Loop (int_add i 1)) [Job (job i)]
  | Waiting => match wg_wait (wg s) with Some _ => Next s Returned [] | None => Wait end
  | Returned => Wait
  | Job l =>
      match wstep c (inner s) l with
      | Blocked => Wait
      | Goes s' l' => Next (Shared s' (wg s)) (Job l') []
      | CallsDone s' l' => fallible (wg_done (wg s)) (λ w, Next (Shared s' w) (Job l') [])
      | Dies why => Crash why
      end
  end.

Definition start (s : S) : config (shared S) (pc L) := Running (Shared s (WaitGroup 0)) [Loop 0].

(** ** What is asked of the jobs

    [J] is an invariant of the shared state and the jobs started so far, in any
    order; [owes] says that a job has not called [wg.Done()] yet; [work] bounds the
    steps a job still makes; a job that is not [finished] lets some job act. *)
Variables (J : S → list L → Prop) (owes : L → bool) (finished : L → Prop) (work : L → nat) (K : nat).
Context `{fin_dec : ∀ l, Decision (finished l)}.

Record job_laws : Prop := {
  law_perm s ls ls' : ls ≡ₚ ls' → J s ls → J s ls';
  law_start i s ls : 0 ≤ i < n → length ls = Z.to_nat i → J s ls → J s (job i :: ls);
  law_owes i : owes (job i) = true;
  law_goes c s l s' l' rest :
    J s (l :: rest) → wstep c s l = Goes s' l' →
    J s' (l' :: rest) ∧ owes l' = owes l ∧ (work l' < work l)%nat;
  law_done c s l s' l' rest :
    J s (l :: rest) → wstep c s l = CallsDone s' l' →
    J s' (l' :: rest) ∧ owes l = true ∧ owes l' = false ∧ (work l' < work l)%nat;
  law_finished l : finished l → owes l = false;
  law_work i : (work (job i) ≤ K)%nat;
  law_progress s ls l :
    J s ls → l ∈ ls → ¬ finished l → ∃ c l', l' ∈ ls ∧ wstep c s l' ≠ Blocked
}.

Hypothesis laws : job_laws.
Hypothesis n_int : is_int n.

(** ** The invariant *)

Definition pending (l : pc L) : nat :=
  match l with Spawn _ => 1 | Job l => if owes l then 1 else 0 | _ => 0 end.

Definition main (l : pc L) : nat := match l with Job _ => 0 | _ => 1 end.

(** How far the loop is, when [k] jobs have been started. *)
Definition at_job (k : nat) (l : pc L) : Prop :=
  match l with
  | Loop i => 0 ≤ i ≤ Z.max 0 n ∧ k = Z.to_nat i
  | Spawn i => 0 ≤ i < n ∧ k = Z.to_nat i
  | Waiting | Returned => k = Z.to_nat n
  | Job _ => True
  end.

Record inv (s : shared S) (ls : list (pc L)) : Prop := {
  inv_jobs : J (inner s) (jobs ls);
  inv_wg : wg_count (wg s) = Z.of_nat (sumf pending ls);
  inv_main : sumf main ls = 1%nat;
  inv_at l : l ∈ ls → at_job (length (jobs ls)) l;
  inv_returned : Returned ∈ ls → sumf pending ls = 0%nat
}.

Lemma fork_inv_start s : J s [] → inv (Shared s (WaitGroup 0)) [Loop 0].
Proof. intros HJ. split; [done..| |done]. intros l ->%list_elem_of_singleton. simpl. lia. Qed.

(** The invariant of the jobs, seen from one of them. *)
Lemma inv_J s ls i l : inv s ls → ls !! i = Some (Job l) → ∃ rest, J (inner s) (l :: rest).
Proof.
  intros HI Hl. destruct (held_all_next jobs_of ls i (Job l) (Job l) [] Hl) as (rest&H1&_).
  exists rest. apply (law_perm laws _ (jobs ls)); [done|apply HI].
Qed.

(** A job steps: [l] of the pool becomes [l'], the wait group [w]. *)
Lemma inv_job s ls i l s' l' w :
  inv s ls → ls !! i = Some (Job l) →
  (∀ rest, J (inner s) (l :: rest) → J s' (l' :: rest)) →
  wg_count w + Z.of_nat (pending (Job l)) = wg_count (wg s) + Z.of_nat (pending (Job l')) →
  (pending (Job l') ≤ pending (Job l))%nat →
  inv (Shared s' w) (<[i:=Job l']> ls).
Proof.
  intros HI Hl HJ Hw Hle. destruct (held_all_next jobs_of ls i (Job l) (Job l') [] Hl) as (rest&H1&H2).
  rewrite !app_nil_r in H2. simpl in H1, H2. split; simpl.
  - apply (law_perm laws _ (l' :: rest)); [by rewrite H2|].
    apply HJ, (law_perm laws _ (jobs ls)); [done|apply HI].
  - pose proof (inv_wg _ _ HI). pose proof (sumf_insert pending ls i _ (Job l') Hl). lia.
  - pose proof (inv_main _ _ HI). pose proof (sumf_insert main ls i _ (Job l') Hl). simpl in *. lia.
  - intros k Hk. rewrite H2. change (length (l' :: rest)) with (length (l :: rest)). rewrite <-H1.
    apply list_elem_of_lookup in Hk as (j&[(_&<-&_)|(_&Hj)]%list_lookup_insert_Some); [done|].
    apply HI. by eapply list_elem_of_lookup_2.
  - intros [j Hj]%list_elem_of_lookup. apply list_lookup_insert_Some in Hj as [(_&[=]&_)|(_&Hj)].
    pose proof (inv_returned _ _ HI (list_elem_of_lookup_2 _ _ _ Hj)).
    pose proof (sumf_insert pending ls i _ (Job l') Hl). lia.
Qed.

(** Nobody else is at another point of the loop. *)
Lemma main_alone s ls i j l l' :
  inv s ls → ls !! i = Some l → ls !! j = Some l' → main l = 1%nat → main l' = 1%nat → i = j.
Proof.
  intros HI Hl Hl' Hm Hm'. destruct (decide (i = j)) as [|Hne]; [done|].
  pose proof (sumf_two main ls i j _ _ Hl Hl' Hne). pose proof (inv_main _ _ HI). lia.
Qed.

(** The only goroutine that is not a job steps. *)
Lemma fork_main_step s ls i l w l' :
  inv s ls → ls !! i = Some l → main l = 1%nat → main l' = 1%nat →
  at_job (length (jobs ls)) l' →
  wg_count w + Z.of_nat (pending l) = wg_count (wg s) + Z.of_nat (pending l') →
  (l' = Returned → wg_count w = 0) →
  inv (Shared (inner s) w) (<[i:=l']> ls).
Proof.
  intros HI Hl Hm Hm' Hat Hw Hret. destruct (held_all_next jobs_of ls i l l' [] Hl) as (rest&H1&H2).
  rewrite !app_nil_r in H2. assert (Hp : jobs (<[i:=l']> ls) ≡ₚ jobs ls).
  { rewrite H1, H2. by destruct l, l'. }
  split; simpl.
  - apply (law_perm laws _ (jobs ls)); [by rewrite Hp|apply HI].
  - pose proof (inv_wg _ _ HI). pose proof (sumf_insert pending ls i _ l' Hl). lia.
  - pose proof (inv_main _ _ HI). pose proof (sumf_insert main ls i _ l' Hl). lia.
  - intros k Hk. rewrite Hp.
    apply list_elem_of_lookup in Hk as (j&[(_&<-&_)|(_&Hj)]%list_lookup_insert_Some); [done|].
    apply HI. by eapply list_elem_of_lookup_2.
  - intros [j Hj]%list_elem_of_lookup. apply list_lookup_insert_Some in Hj as [(_&Hl'&_)|(Hne&Hj)].
    + pose proof (inv_wg _ _ HI). pose proof (sumf_insert pending ls i _ l' Hl). specialize (Hret Hl'). lia.
    + by destruct Hne; eapply main_alone.
Qed.

Lemma inv_spawn s ls i x :
  inv s ls → ls !! i = Some (Spawn x) → inv s (<[i:=Loop (int_add x 1)]> ls ++ [Job (job x)]).
Proof.
  intros HI Hl. pose proof (inv_at _ _ HI _ (list_elem_of_lookup_2 _ _ _ Hl)) as [Hx Hk].
  assert (Hadd : int_add x 1 = x + 1).
  { apply int_add_id. unfold is_int, min_int, max_int in *. lia. }
  destruct (held_all_next jobs_of ls i _ (Loop (int_add x 1)) [] Hl) as (rest&H1&H2).
  rewrite !app_nil_r in H2. simpl in H1, H2.
  assert (Hp : jobs (<[i:=Loop (int_add x 1)]> ls ++ [Job (job x)]) ≡ₚ job x :: jobs ls).
  { rewrite held_all_app, H1, H2. symmetry. apply Permutation_cons_append. }
  split; simpl.
  - apply (law_perm laws _ (job x :: jobs ls)); [by rewrite Hp|]. by apply (law_start laws); [|..|apply HI].
  - pose proof (inv_wg _ _ HI). pose proof (sumf_insert pending ls i _ (Loop (int_add x 1)) Hl).
    rewrite sumf_app, sumf_cons. simpl in *. rewrite (law_owes laws). unfold sumf in *. simpl in *. lia.
  - pose proof (inv_main _ _ HI). pose proof (sumf_insert main ls i _ (Loop (int_add x 1)) Hl).
    rewrite sumf_app, sumf_cons. simpl in *. unfold sumf in *. simpl in *. lia.
  - intros k Hin. rewrite Hp. simpl. apply list_elem_of_lookup in Hin as (j&Hj).
    apply (lookup_pool _ _ _ _ _ _ _ Hl) in Hj as [(_&->)|[(Hne&Hj)|(_&->%list_elem_of_singleton)]];
      [rewrite Hadd; simpl; lia| |done].
    destruct k as [| | | |k]; [..|done];
      pose proof (sumf_two main ls j i _ _ Hj Hl Hne) as Htwo;
      pose proof (inv_main _ _ HI); simpl in Htwo; lia.
  - intros [j Hj]%list_elem_of_lookup.
    apply (lookup_pool _ _ _ _ _ _ _ Hl) in Hj as [(_&[=])|[(Hne&Hj)|(_&[=]%list_elem_of_singleton)]].
    by destruct Hne; eapply main_alone.
Qed.

Lemma fork_inv_step : preserves_alive tstep inv.
Proof.
  intros c s ls i l HI Hl. pose proof (list_elem_of_lookup_2 _ _ _ Hl) as Hin.
  pose proof (inv_at _ _ HI _ Hin) as Hat. destruct s as [s w]. destruct l as [x|x| | |l]; simpl in *.
  - case_decide; [|rewrite app_nil_r; apply (fork_main_step _ _ _ _ w _ HI Hl); simpl; try done; lia].
    unfold wg_add. case_decide; simpl; [done|]. rewrite app_nil_r.
    apply (fork_main_step _ _ _ _ (WaitGroup (wg_count w + 1)) _ HI Hl); simpl; try done; lia.
  - by apply inv_spawn.
  - unfold wg_wait. case_decide; [|done]. rewrite app_nil_r. by apply (fork_main_step _ _ _ _ w _ HI Hl).
  - done.
  - destruct (inv_J _ _ _ _ HI Hl) as (rest0&HJ). simpl in HJ.
    destruct (wstep c s l) as [|s' l'|s' l'|] eqn:Hs; try done.
    + rewrite app_nil_r. apply (inv_job _ _ _ _ s' l' w HI Hl).
      * intros rest HJ'. by destruct (law_goes laws c s l s' l' rest HJ' Hs).
      * simpl. by destruct (law_goes laws _ _ _ _ _ _ HJ Hs) as (_&->&_).
      * simpl. by destruct (law_goes laws _ _ _ _ _ _ HJ Hs) as (_&->&_).
    + unfold wg_done, wg_add. case_decide; simpl; [done|]. rewrite app_nil_r.
      apply (inv_job _ _ _ _ s' l' (WaitGroup (wg_count w + -1)) HI Hl).
      * intros rest HJ'. by destruct (law_done laws c s l s' l' rest HJ' Hs).
      * simpl. destruct (law_done laws _ _ _ _ _ _ HJ Hs) as (_&->&->&_). lia.
      * simpl. destruct (law_done laws _ _ _ _ _ _ HJ Hs) as (_&->&->&_). lia.
Qed.

(** ** Termination *)

Definition weight (l : pc L) : nat :=
  match l with
  | Loop i => (K + 3) * Z.to_nat (n - i) + 2
  | Spawn i => (K + 3) * Z.to_nat (n - i) + 1
  | Waiting => 1
  | Returned => 0
  | Job l => work l
  end.

Lemma weight_decreases : decreases tstep inv weight.
Proof.
  intros c s ls i l s' l' sp HI Hl Ht. pose proof (list_elem_of_lookup_2 _ _ _ Hl) as Hin.
  pose proof (inv_at _ _ HI _ Hin) as Hat. destruct l as [x|x| | |l]; simpl in *.
  - unfold fallible in Ht. repeat case_match; simplify_eq; unfold sumf; simpl; lia.
  - simplify_eq. unfold sumf; simpl. pose proof (law_work laws x).
    rewrite int_add_id by (unfold is_int, min_int, max_int in *; lia).
    replace (Z.to_nat (n - x)) with (Datatypes.S (Z.to_nat (n - (x + 1)))) by lia. lia.
  - repeat case_match; simplify_eq; unfold sumf; simpl; lia.
  - done.
  - destruct (inv_J _ _ _ _ HI Hl) as (rest&HJ).
    destruct (wstep c (inner s) l) as [|s1 l1|s1 l1|] eqn:Hs; simplify_eq.
    + destruct (law_goes laws _ _ _ _ _ _ HJ Hs) as (_&_&?). unfold sumf; simpl. lia.
    + destruct (law_done laws _ _ _ _ _ _ HJ Hs) as (_&_&_&?).
      unfold fallible in Ht. case_match; simplify_eq. unfold sumf; simpl. lia.
Qed.

Definition done (l : pc L) : Prop :=
  match l with Returned => True | Job l => finished l | _ => False end.

#[export] Instance done_dec l : Decision (done l).
Proof using fin_dec. destruct l; simpl; apply _. Defined.

Lemma job_in_jobs (l : L) ls : l ∈ jobs ls ↔ Job l ∈ ls.
Proof.
  unfold held_all. rewrite list_elem_of_join. split.
  - intros (x&Hl&Hx). apply list_elem_of_fmap in Hx as (p&->&Hp).
    destruct p; simpl in Hl; [set_solver..|]. by apply list_elem_of_singleton in Hl as ->.
  - intros Hl. exists [l]. split; [set_solver|]. apply list_elem_of_fmap. by exists (Job l).
Qed.

(** A job that is not finished lets some job act: none of them panics in [wg.Done()]. *)
Lemma job_acts s ls l :
  inv s ls → Job l ∈ ls → ¬ finished l → ∃ c j l', ls !! j = Some l' ∧ tstep c s l' ≠ Wait.
Proof.
  intros HI Hl Hf.
  destruct (law_progress laws (inner s) (jobs ls) l) as (c&l'&Hl'&Hs); [apply HI| |done|].
  { by apply job_in_jobs. }
  apply job_in_jobs, list_elem_of_lookup in Hl' as (j&Hj). exists c, j, (Job l'). split; [done|].
  simpl. destruct (wstep c (inner s) l'); [done..| |done].
  unfold fallible. by case_match.
Qed.

Lemma progress s ls l i :
  inv s ls → ls !! i = Some l → ¬ done l → ∃ c j l', ls !! j = Some l' ∧ tstep c s l' ≠ Wait.
Proof.
  intros HI Hl Hd. assert (Hin : l ∈ ls) by eauto with proto.
  destruct l as [x|x| | |l]; simpl in Hd; [| | |tauto|by eapply job_acts].
  - exists inhabitant, i, (Loop x). split; [done|]. simpl. unfold fallible. by repeat case_match.
  - by exists inhabitant, i, (Spawn x).
  - destruct (decide (wg_count (wg s) = 0)) as [Hw|Hw].
    + exists inhabitant, i, Waiting. split; [done|]. simpl. unfold wg_wait. by rewrite decide_True.
    + rewrite (inv_wg _ _ HI) in Hw. destruct (sumf_pos pending ls) as (j&l&Hj&Hp); [lia|].
      destruct l as [x|x| | |l]; simpl in Hp; try lia.
      * by exists inhabitant, j, (Spawn x).
      * apply (job_acts s ls l); [done|by eapply list_elem_of_lookup_2|]. intros Hf%(law_finished laws). rewrite Hf in Hp. lia.
Qed.

(** ** The rules *)

Variable s0 : S.
Hypothesis J0 : J s0 [].

(** The invariant holds of the jobs at every moment, and no more than [n] are started. *)
Theorem fork_invariant s ls :
  reachable tstep (start s0) (Running s ls) →
  J (inner s) (jobs ls) ∧ (length (jobs ls) ≤ Z.to_nat n)%nat.
Proof.
  intros Hr. pose proof (invariant_alive tstep inv _ _ s ls fork_inv_step (fork_inv_start s0 J0) Hr) as HI.
  split; [apply HI|]. destruct (sumf_pos main ls) as (i&l&Hl&Hm); [rewrite (inv_main _ _ HI); lia|].
  pose proof (inv_at _ _ HI l (list_elem_of_lookup_2 _ _ _ Hl)) as Hat.
  destruct l; simpl in *; lia.
Qed.

(** Once the loop's function has returned, all [n] jobs have been started, and each has
    called [wg.Done()]. *)
Theorem fork_returned s ls :
  reachable tstep (start s0) (Running s ls) → Returned ∈ ls →
  J (inner s) (jobs ls) ∧ length (jobs ls) = Z.to_nat n ∧ Forall (λ l, owes l = false) (jobs ls).
Proof.
  intros Hr Hret. pose proof (invariant_alive tstep inv _ _ s ls fork_inv_step (fork_inv_start s0 J0) Hr) as HI.
  split; [apply HI|]. split; [by apply (inv_at _ _ HI Returned)|].
  apply Forall_forall. intros l Hl%job_in_jobs. pose proof (inv_returned _ _ HI Hret) as H0.
  apply list_elem_of_lookup in Hl as [i Hi]. pose proof (sumf_lookup_le pending ls i _ Hi) as Hle.
  simpl in Hle. destruct (owes l); [lia|done].
Qed.

(** Every execution is finite, and one that cannot be continued has started all [n]
    jobs and finished them, unless the process has died. *)
Theorem fork_join :
  sn (step tstep) (start s0) ∧
  ∀ s ls, reachable tstep (start s0) (Running s ls) → halted tstep (Running s ls) →
    J (inner s) (jobs ls) ∧ length (jobs ls) = Z.to_nat n ∧ Forall finished (jobs ls) ∧ Returned ∈ ls.
Proof.
  destruct (completes_or_dies tstep inv done weight _ _ fork_inv_step weight_decreases progress (fork_inv_start s0 J0))
    as [Hsn Hfin].
  split; [done|]. intros s ls Hr Hh. destruct (Hfin s ls Hr Hh) as [HI Hdone].
  rewrite Forall_forall in Hdone. split; [apply HI|].
  assert (Hret : Returned ∈ ls).
  { destruct (sumf_pos main ls) as (i&l&Hl&Hm); [rewrite (inv_main _ _ HI); lia|].
    assert (Hin : l ∈ ls) by eauto with proto. specialize (Hdone l Hin). by destruct l; simpl in *; try lia. }
  split; [by apply (inv_at _ _ HI Returned)|]. split; [|done].
  apply Forall_forall. intros l Hl%job_in_jobs. by apply (Hdone (Job l)).
Qed.

(** The process dies only of what a job dies of. *)
Theorem fork_dies (P : string → Prop) why :
  (∀ c s l rest why, J s (l :: rest) → wstep c s l = Dies why → P why) →
  reachable tstep (start s0) (Dead why) → P why.
Proof.
  intros HP. apply (dies_of tstep inv P); [exact fork_inv_step|by apply fork_inv_start|].
  clear why. intros c s ls i l why HI Hl Ht. destruct l as [x|x| | |l]; simpl in Ht.
  - unfold fallible, wg_add in Ht. pose proof (inv_wg _ _ HI). repeat case_match; simplify_eq. lia.
  - done.
  - by case_match.
  - done.
  - destruct (inv_J _ _ _ _ HI Hl) as (rest&HJ).
    destruct (wstep c (inner s) l) as [|s1 l1|s1 l1|] eqn:Hs; simplify_eq; [|by eapply HP].
    destruct (law_done laws _ _ _ _ _ _ HJ Hs) as (_&Ho&_).
    pose proof (inv_wg _ _ HI). pose proof (sumf_lookup_le pending ls i _ Hl) as Hle. simpl in Hle.
    rewrite Ho in Hle. unfold fallible, wg_done, wg_add in Ht. repeat case_match; simplify_eq. lia.
Qed.

End fork.
End Fork.
