(* ===== verification/GoSql.v ===== *)
(** * GoSql: the connection pool of [database/sql]

    A [*sql.DB] is a pool: the limits set on it, how many connections it has open,
    and how many of those are idle or have been handed to a goroutine that waits.
    [exec_step] is [db.Exec] (and [db.Ping]), one critical section or network
    exchange at a time: take an idle connection, open one, or wait for one; run the
    query; give the connection back.  A connection found bad is dropped and the
    call tried again, up to three times, the last time on a new connection. *)

From S2P Require Import Prelude GoLang.

#[local] Open Scope Z_scope.

Module Sqldb.

Record DB := MkDB {
  maxOpen : Z;         (** 0: no limit *)
  maxIdleCount : Z;    (** 0: the default, negative: none *)
  maxLifetime : Z;
  maxIdleTime : Z;
  numOpen : nat;       (** open, or being opened *)
  free : nat;          (** idle *)
  requests : nat;      (** goroutines that wait for a connection *)
  handed : nat;        (** connections handed to one that still has to wake up *)
  closed : bool
}.

Implicit Types (d : DB).

(** What [sql.Open] returns: nothing is connected yet. *)
Definition fresh_db : DB := MkDB 0 0 0 0 0 0 0 0 false.

Definition with_conns (o f r h : nat) d : DB :=
  MkDB (maxOpen d) (maxIdleCount d) (maxLifetime d) (maxIdleTime d) o f r h (closed d).

Definition defaultMaxIdleConns : Z := 2.

(** [maxIdleConnsLocked] *)
Definition maxIdle d : Z :=
  if decide (maxIdleCount d = 0) then defaultMaxIdleConns
  else if decide (maxIdleCount d < 0) then 0 else maxIdleCount d.

(** Idle connections that are one too many, or too old, are closed. *)
Definition close_idle (k : nat) d : DB :=
  let k := (k `min` free d)%nat in
  with_conns (numOpen d - k) (free d - k) (requests d) (handed d) d.

Definition SetMaxIdleConns (n : Z) d : DB :=
  let count := if decide (0 < n) then n else -1 in
  let d := MkDB (maxOpen d) count (maxLifetime d) (maxIdleTime d)
             (numOpen d) (free d) (requests d) (handed d) (closed d) in
  let d := if decide (0 < maxOpen d ∧ maxOpen d < maxIdle d)
           then MkDB (maxOpen d) (maxOpen d) (maxLifetime d) (maxIdleTime d)
                  (numOpen d) (free d) (requests d) (handed d) (closed d)
           else d in
  close_idle (free d - Z.to_nat (maxIdle d)) d.

Definition SetMaxOpenConns (n : Z) d : DB :=
  let d := MkDB (Z.max 0 n) (maxIdleCount d) (maxLifetime d) (maxIdleTime d)
             (numOpen d) (free d) (requests d) (handed d) (closed d) in
  if decide (0 < maxOpen d ∧ maxOpen d < maxIdle d) then SetMaxIdleConns n d else d.

Definition SetConnMaxLifetime (t : Z) d : DB :=
  MkDB (maxOpen d) (maxIdleCount d) (Z.max 0 t) (maxIdleTime d)
    (numOpen d) (free d) (requests d) (handed d) (closed d).

Definition SetConnMaxIdleTime (t : Z) d : DB :=
  MkDB (maxOpen d) (maxIdleCount d) (maxLifetime d) (Z.max 0 t)
    (numOpen d) (free d) (requests d) (handed d) (closed d).

(** [db.Close()]: the idle connections are closed, the others when they come back. *)
Definition Close d : DB :=
  MkDB (maxOpen d) (maxIdleCount d) (maxLifetime d) (maxIdleTime d)
    (numOpen d - free d) 0 (requests d) (handed d) true.

(** There is room for one more. *)
Definition room d : bool := bool_decide (maxOpen d <= 0 ∨ Z.of_nat (numOpen d) < maxOpen d).

(** A connection comes back in good state: to a goroutine that waits, or to the idle
    ones if there are not too many; else it is closed. *)
Definition put_conn d : DB :=
  if decide (closed d = true ∨ (0 < maxOpen d ∧ maxOpen d < Z.of_nat (numOpen d)))
  then with_conns (numOpen d - 1) (free d) (requests d) (handed d) d
  else match requests d with
       | S r => with_conns (numOpen d) (free d) r (S (handed d)) d
       | O =>
           if decide (Z.of_nat (free d) < maxIdle d)
           then with_conns (numOpen d) (S (free d)) O (handed d) d
           else with_conns (numOpen d - 1) (free d) O (handed d) d
       end.

(** A connection is closed. *)
Definition drop_conn d : DB := with_conns (numOpen d - 1) (free d) (requests d) (handed d) d.

(** ** [Exec] *)

(** How an exchange with the server ends; [Bad] is [driver.ErrBadConn]. *)
Inductive answer := Success | Failure | Bad.

(** What the environment decides at a step: the answer, whether the connection is still
    good, and how many idle connections have been closed for their age. *)
Record env := Env { ans : answer; good : bool; aged : nat }.

#[export] Instance env_inhabited : Inhabited env := populate (Env Success true 0).

Definition fine : env := Env Success true 0.

(** A call of [Exec], in its [a]-th try. *)
Inductive exec :=
| Acquire (a : nat)
| Await (a : nat)      (** [<-req] *)
| Connect (a : nat)    (** [db.connector.Connect] *)
| Query (a : nat)
| Done (ok : bool).

Definition maxBadConnRetries : nat := 2.

Definition retry (a : nat) : exec := if decide (a < maxBadConnRetries)%nat then Acquire (S a) else Done false.

Definition exec_move (e : env) d (x : exec) : option (DB * exec) :=
  match x with
  | Acquire a =>
      if closed d then Some (d, Done false)
      else if decide ((a < maxBadConnRetries)%nat ∧ (0 < free d)%nat)
      then Some (with_conns (numOpen d) (free d - 1) (requests d) (handed d) d, Query a)
      else if room d
      then Some (with_conns (S (numOpen d)) (free d) (requests d) (handed d) d, Connect a)
      else Some (with_conns (numOpen d) (free d) (S (requests d)) (handed d) d, Await a)
  | Await a =>
      match handed d with
      | S h => Some (with_conns (numOpen d) (free d) (requests d) h d, Query a)
      | O =>
          if closed d
          then Some (with_conns (numOpen d) (free d) (requests d - 1) 0 d, Done false)
          else if room d
          then Some (with_conns (S (numOpen d)) (free d) (requests d - 1) 0 d, Connect a)
          else None
      end
  | Connect a =>
      match ans e with
      | Success => Some (d, Query a)
      | Failure => Some (drop_conn d, Done false)
      | Bad => Some (drop_conn d, retry a)
      end
  | Query a =>
      match ans e with
      | Bad => Some (drop_conn d, retry a)
      | r => Some (if good e then put_conn d else drop_conn d,
                   Done (match r with Success => true | _ => false end))
      end
  | Done _ => None
  end.

Definition exec_step (e : env) d (x : exec) : option (DB * exec) :=
  exec_move e (close_idle (aged e) d) x.

(** The call run alone. *)
Fixpoint exec_alone (fuel : nat) (o : nat → env) (n : nat) d (x : exec) : option (DB * bool) :=
  match x, fuel with
  | Done ok, _ => Some (d, ok)
  | _, O => None
  | _, S fuel' => '(d', x') ← exec_step (o n) d x; exec_alone fuel' o (S n) d' x'
  end.

(** ** Invariant *)

(** A connection in use, and a goroutine that waits. *)
Definition holds (x : exec) : nat := match x with Connect _ | Query _ => 1 | _ => 0 end.
Definition waits (x : exec) : nat := match x with Await _ => 1 | _ => 0 end.

(** [h] connections are in use and [w] goroutines wait. *)
Record db_ok d (h w : nat) : Prop := {
  ok_open : numOpen d = (free d + handed d + h)%nat;
  ok_wait : w = (requests d + handed d)%nat;
  ok_idle : Z.of_nat (free d) ≤ maxIdle d;
  ok_max : 0 < maxOpen d → Z.of_nat (numOpen d) ≤ maxOpen d
}.

(** The limits do not change. *)
Definition same_limits d d' : Prop :=
  maxOpen d' = maxOpen d ∧ maxIdleCount d' = maxIdleCount d ∧ closed d' = closed d.

#[export] Instance same_limits_preorder : PreOrder same_limits.
Proof. split; [done|]. intros d1 d2 d3 (?&?&?) (?&?&?). repeat split; congruence. Qed.

Lemma maxIdle_nonneg d : 0 ≤ maxIdle d.
Proof. unfold maxIdle, defaultMaxIdleConns. repeat case_decide; lia. Qed.

Lemma maxIdle_same d d' : same_limits d d' → maxIdle d' = maxIdle d.
Proof. intros (_&H&_). unfold maxIdle. by rewrite H. Qed.

Lemma fresh_ok : db_ok fresh_db 0 0.
Proof. done. Qed.

Lemma close_idle_ok k d h w : db_ok d h w → db_ok (close_idle k d) h w.
Proof. intros [Ho Hw Hi Hm]. split; simpl; unfold maxIdle in *; simpl in *; lia. Qed.

Lemma exec_move_ok e d x d' x' h w :
  db_ok d (holds x + h) (waits x + w) → exec_move e d x = Some (d', x') →
  db_ok d' (holds x' + h) (waits x' + w) ∧ same_limits d d'.
Proof.
  intros [Ho Hw Hi Hm] Hs. pose proof (maxIdle_nonneg d).
  unfold exec_move, room, put_conn, drop_conn, retry in Hs.
  destruct x; simpl in *; repeat case_match; simplify_eq/=; (split; [|done]);
    repeat match goal with
    | H : bool_decide _ = true |- _ => apply bool_decide_eq_true in H
    | H : bool_decide _ = false |- _ => apply bool_decide_eq_false in H
    end; split; simpl; unfold maxIdle in *; simpl in *; try lia.
Qed.

(** A step of one call keeps the books. *)
Lemma exec_step_ok e d x d' x' h w :
  db_ok d (holds x + h) (waits x + w) → exec_step e d x = Some (d', x') →
  db_ok d' (holds x' + h) (waits x' + w) ∧ same_limits d d'.
Proof. intros Hok Hs. apply (exec_move_ok e (close_idle (aged e) d) x); [by apply close_idle_ok|done]. Qed.

(** ** Progress *)

(** The steps a call still makes, at most. *)
Definition work (x : exec) : nat :=
  match x with
  | Acquire a => 4 * (maxBadConnRetries - a) + 4
  | Await a => 4 * (maxBadConnRetries - a) + 3
  | Connect a => 4 * (maxBadConnRetries - a) + 2
  | Query a => 4 * (maxBadConnRetries - a) + 1
  | Done _ => 0
  end.

Lemma exec_step_work e d x d' x' : exec_step e d x = Some (d', x') → (work x' < work x)%nat.
Proof.
  unfold exec_step, exec_move, retry, maxBadConnRetries. intros Hs.
  destruct x; simpl in *; repeat case_match; simplify_eq/=; unfold maxBadConnRetries; lia.
Qed.

(** A call can always go on while it holds a connection ... *)
Lemma holds_acts e d x : holds x = 1%nat → exec_step e d x ≠ None.
Proof. unfold exec_step, exec_move. by destruct x; simpl; [..|destruct (ans e)|destruct (ans e)|]. Qed.

(** ... and blocks only if somebody else does, provided fewer connections may be idle
    than open. *)
Lemma blocked_holder d x h w :
  db_ok d (holds x + h) (waits x + w) → 0 < maxOpen d → maxIdle d < maxOpen d →
  exec_step fine d x = None → (∃ ok, x = Done ok) ∨ (0 < h)%nat.
Proof.
  intros Hok Hmax Hidle Hs. pose proof (close_idle_ok 0 d _ _ Hok) as [Ho Hw Hi Hm].
  unfold exec_step in Hs. change (aged fine) with 0%nat in Hs. destruct x; simpl in *; try done.
  - unfold room in Hs. repeat case_match; simplify_eq.
  - right. unfold room in Hs. repeat case_match; simplify_eq.
    match goal with H : bool_decide _ = false |- _ => apply bool_decide_eq_false in H end.
    unfold maxIdle in *. simpl in *. lia.
  - by left; eexists.
Qed.

(** A call alone returns. *)
Lemma exec_alone_returns fuel o n d x :
  db_ok d (holds x) (waits x) → (maxOpen d ≤ 0 ∨ maxIdle d < maxOpen d) → (work x ≤ fuel)%nat →
  ∃ d' ok, exec_alone fuel o n d x = Some (d', ok) ∧ db_ok d' 0 0 ∧ same_limits d d'.
Proof.
  revert n d x. induction fuel as [|fuel IH]; intros n d x Hok Hlim Hw.
  { destruct x; simpl in *; try lia. by exists d, ok. }
  destruct (exec_step (o n) d x) as [[d1 x1]|] eqn:Hs.
  - pose proof (exec_step_work _ _ _ _ _ Hs).
    destruct (exec_step_ok (o n) d x d1 x1 0 0) as [Hok1 Hl1]; [by rewrite !Nat.add_0_r|done|].
    rewrite !Nat.add_0_r in Hok1. pose proof Hl1 as (Hm&_&_). pose proof (maxIdle_same _ _ Hl1).
    destruct (IH (S n) d1 x1) as (d'&ok&He&Hok'&Hl'); [done|rewrite Hm; lia|lia|].
    exists d', ok. split; [|split; [done|by trans d1]].
    destruct x; cbn [exec_alone]; rewrite ?Hs; done.
  - pose proof (close_idle_ok (aged (o n)) _ _ _ Hok) as [Ho Hwt Hi Hm].
    destruct x as [a|a|a|a|ok]; [exfalso..|by eexists _, _];
      unfold exec_step, exec_move, room in Hs; simpl in *; repeat case_match; simplify_eq.
    match goal with H : bool_decide _ = false |- _ => apply bool_decide_eq_false in H end.
    unfold maxIdle in *. simpl in *. lia.
Qed.

End Sqldb.
