(* ===== verification/TokenPool.v ===== *)
(** * TokenPool: what a pool built on a buffered channel promises

    blockingQ and connectionPool both guard a resource with a buffered channel:
    each goroutine of a [Fork] receives before it uses the resource and sends back
    afterwards.  [TokenJob] states what one such job has to do, on its own; the
    section proves, once for both programs, that the tokens in circulation are
    conserved, that no two jobs ever hold the same, that giving one back never
    blocks, and, through [job_laws], that the program ends. *)

From S2P Require Import Prelude GoLang GoSched GoSync GoFork.

Section token_pool.
Context {S L C A : Type}.
(** The channel of tokens in the shared state; the tokens a job holds. *)
Variables (wstep : C → S → L → Fork.act S L) (tokens : S → chan A) (held : L → list A).
(** What the shared state and a job's local state satisfy besides; the rest is as in
    [job_laws]. *)
Variables (frame : S → Prop) (ok : L → Prop) (owes : L → bool) (finished : L → Prop) (work : L → nat).

(** A step of a job; the flag says that it calls [wg.Done()]. *)
Definition moves (c : C) (s : S) (l : L) (done : bool) (s' : S) (l' : L) : Prop :=
  wstep c s l = if done then Fork.CallsDone s' l' else Fork.Goes s' l'.

(** A token is either in the channel or held by one job, and no step creates,
    duplicates or loses one; a job that holds a token can act when the channel has
    room, one that holds none when it has a token. *)
Class TokenJob : Prop := {
  token_step c s l done s' l' :
    ch_closed (tokens s) = false → moves c s l done s' l' →
    ch_buf (tokens s') ++ held l' ≡ₚ ch_buf (tokens s) ++ held l;
  token_chan c s l done s' l' :
    moves c s l done s' l' →
    ch_cap (tokens s') = ch_cap (tokens s) ∧ ch_closed (tokens s') = ch_closed (tokens s);
  token_frame c s l done s' l' :
    frame s → ok l → moves c s l done s' l' → frame s' ∧ ok l' ∧ (work l' < work l)%nat;
  token_owes c s l done s' l' :
    moves c s l done s' l' → owes l' = owes l && negb done ∧ (done = true → owes l = true);
  token_finished l : finished l → owes l = false ∧ held l = [];
  token_acts s l :
    frame s → ok l → ¬ finished l →
    (held l ≠ [] → chan_ok (tokens s) ∧ length (ch_buf (tokens s)) < ch_cap (tokens s)) →
    (held l = [] → ch_buf (tokens s) ≠ []) → ∃ c, wstep c s l ≠ Fork.Blocked
}.

Context {TJ : TokenJob}.
(** The tokens put into circulation: exactly the channel's capacity. *)
Variable all : list A.

Record pool_inv (s : S) (ls : list L) : Prop := {
  pool_tokens : ch_buf (tokens s) ++ held_all held ls ≡ₚ all;
  pool_cap : ch_cap (tokens s) = length all;
  pool_open : ch_closed (tokens s) = false;
  pool_frame : frame s;
  pool_ok : Forall ok ls
}.

Lemma pool_inv_next c s l done s' l' rest :
  pool_inv s (l :: rest) → moves c s l done s' l' → pool_inv s' (l' :: rest).
Proof using TJ.
  intros [Ht Hc Ho Hf [Hl Hr]%Forall_cons] Hs. destruct (token_chan _ _ _ _ _ _ Hs) as [Hc' Ho'].
  destruct (token_frame _ _ _ _ _ _ Hf Hl Hs) as (?&?&_).
  split; [|congruence|congruence|done|by constructor]. rewrite <-Ht, !held_all_cons.
  pose proof (token_step _ _ _ _ _ _ Ho Hs) as Hp. rewrite !(app_assoc (ch_buf _)). by rewrite Hp.
Qed.

Lemma held_all_length ls : length (held_all held ls) = sumf (length ∘ held) ls.
Proof.
  induction ls as [|l ls IH]; [done|]. rewrite sumf_cons, <-IH. apply length_app.
Qed.

Lemma pool_length s ls :
  pool_inv s ls → length (ch_buf (tokens s)) + sumf (length ∘ held) ls = length all.
Proof. intros [Ht _ _ _ _]. by rewrite <-Ht, length_app, held_all_length. Qed.

(** At most [length all] tokens are held at any time. *)
Lemma pool_bound s ls : pool_inv s ls → sumf (length ∘ held) ls ≤ length all.
Proof. intros HI%pool_length. lia. Qed.

(** A job that holds a token finds room in the channel. *)
Lemma pool_room s ls l :
  pool_inv s ls → l ∈ ls → held l ≠ [] →
  chan_ok (tokens s) ∧ length (ch_buf (tokens s)) < ch_cap (tokens s).
Proof.
  intros HI Hl Hh. pose proof (pool_length s ls HI) as Hlen.
  apply list_elem_of_lookup in Hl as [i Hl].
  pose proof (sumf_lookup_le (length ∘ held) ls i l Hl) as Hle. simpl in Hle.
  assert (0 < length (held l)) by (destruct (held l); [done|simpl; lia]).
  pose proof (pool_cap _ _ HI). unfold chan_ok. split; [split; [lia|apply HI]|lia].
Qed.

(** With nothing held, every token is in the channel. *)
Lemma pool_idle s ls :
  pool_inv s ls → Forall finished ls → ch_buf (tokens s) ≡ₚ all.
Proof using TJ.
  intros [Ht _ _ _ _] Hz. rewrite <-Ht, (held_all_nil held ls), app_nil_r; [done|].
  eapply Forall_impl; [exact Hz|]. intros l Hl. by apply token_finished.
Qed.

(** Distinct tokens are never held by two jobs, nor held while in the channel. *)
Lemma pool_exclusive s ls i j li lj v :
  NoDup all → pool_inv s ls → ls !! i = Some li → ls !! j = Some lj →
  v ∈ held li → (v ∈ held lj → i = j) ∧ v ∉ ch_buf (tokens s).
Proof.
  intros Hnd [Ht _ _ _ _] Hi Hj Hvi. rewrite <-Ht in Hnd.
  apply NoDup_app in Hnd as (_&Hdis&Hnd). split.
  - intros Hvj. by apply (held_all_unique held ls i j li lj v).
  - intros Hb. apply (Hdis v Hb). by apply (held_all_elem held ls i li v).
Qed.

(** Some job can act while one is not finished: it, or one that holds a token. *)
Lemma pool_progress s ls l :
  all ≠ [] → pool_inv s ls → l ∈ ls → ¬ finished l → ∃ c l', l' ∈ ls ∧ wstep c s l' ≠ Fork.Blocked.
Proof using TJ.
  intros Hall HI Hl Hf. pose proof (pool_ok _ _ HI) as Hok. rewrite Forall_forall in Hok.
  assert (Hholder : ∀ x, x ∈ ls → held x ≠ [] → ∃ c, wstep c s x ≠ Fork.Blocked).
  { intros x Hx Hh. apply token_acts; [apply HI|by apply Hok| |by intros; eapply pool_room|done].
    by intros [_ ?]%token_finished. }
  destruct (held l) as [|v vs] eqn:Hh.
  - destruct (ch_buf (tokens s)) as [|b buf] eqn:Hb.
    + pose proof (pool_length s ls HI) as Hlen. rewrite Hb in Hlen.
      destruct (sumf_pos (length ∘ held) ls) as (j&x&Hj&Hpos); [destruct all; simpl in *; [done|lia]|].
      apply list_elem_of_lookup_2 in Hj. destruct (Hholder x Hj) as [c Hc]; [|by exists c, x].
      intros He. simpl in Hpos. rewrite He in Hpos. simpl in Hpos. lia.
    + destruct (token_acts s l) as [c Hc]; [apply HI|by apply Hok|done|by rewrite Hh|by rewrite Hb|].
      by exists c, l.
  - destruct (Hholder l Hl) as [c Hc]; [by rewrite Hh|]. by exists c, l.
Qed.

(** The laws of [Fork], for jobs that all start without a token. *)
Lemma pool_laws n job K :
  all ≠ [] →
  (∀ i, ok (job i) ∧ held (job i) = [] ∧ owes (job i) = true ∧ work (job i) ≤ K) →
  Fork.job_laws n job wstep pool_inv owes finished work K.
Proof using TJ.
  intros Hall Hjob. split.
  - intros s ls ls' Hp [Ht Hc Ho Hf Hok]. split; [by rewrite <-Hp|done..|by rewrite <-Hp].
  - intros i s ls _ _ [Ht Hc Ho Hf Hok]. destruct (Hjob i) as (Hi&Hh&_).
    split; [by rewrite held_all_cons, Hh|done..|by constructor].
  - intros i. by destruct (Hjob i) as (_&_&?&_).
  - intros c s l s' l' rest HI Hs. assert (Hm : moves c s l false s' l') by done.
    split; [by eapply pool_inv_next|]. destruct (token_owes _ _ _ _ _ _ Hm) as [-> _].
    split; [apply andb_true_r|]. destruct HI as [_ _ _ Hf Hok]. apply Forall_cons in Hok as [Hl _].
    by eapply token_frame.
  - intros c s l s' l' rest HI Hs. assert (Hm : moves c s l true s' l') by done.
    split; [by eapply pool_inv_next|]. destruct (token_owes _ _ _ _ _ _ Hm) as [-> Ho].
    split; [by apply Ho|]. split; [apply andb_false_r|].
    destruct HI as [_ _ _ Hf Hok]. apply Forall_cons in Hok as [Hl _]. by eapply token_frame.
  - intros l. by apply token_finished.
  - intros i. by destruct (Hjob i) as (_&_&_&?).
  - intros s ls l HI Hl Hn. by apply (pool_progress s ls l).
Qed.
End token_pool.
