(* ===== verification/BloomFilter.v ===== *)
(** * BloomFilter: bloomFilter/main.go *)

From Stdlib Require Import Ascii.
From S2P Require Import Prelude GoLang.

#[local] Open Scope Z_scope.

Module Bloom.

(** ** Data and operations *)

Record bloomFilter := BloomFilter {
  nHashFunction : Z;
  size : Z;
  bitArray : list bool
}.

Definition newBloomFilter (size nHashFunction : Z) : res bloomFilter :=
  bits ← make_slice false size;
  mret (BloomFilter nHashFunction size bits).

(** [int(item[j])] *)
Definition byte_int (c : ascii) : Z := Z.of_N (N_of_ascii c).

(** The loop of [hash]: [sum += int(item[j])] for every byte. *)
Fixpoint hash_sum (sum : Z) (item : string) : Z :=
  match item with
  | EmptyString => sum
  | String c rest => hash_sum (int_add sum (byte_int c)) rest
  end.

Definition hash (item : string) (i : Z) : Z := int_add (hash_sum 0 item) i.

(** The body of the loop of [add]: [bf.bitArray[hash%bf.size] = true]. *)
Definition mark (bf : bloomFilter) (item : string) (i : Z) (bits : list bool) :
    res (list bool + Empty_set) :=
  k ← int_rem (hash item i) (size bf);
  bits' ← set_index bits k true;
  mret (inl bits').

Definition add (bf : bloomFilter) (item : string) : res bloomFilter :=
  r ← for_lt (nHashFunction bf) (mark bf item) (bitArray bf);
  match r with
  | inl bits => mret (BloomFilter (nHashFunction bf) (size bf) bits)
  | inr v => match (v : Empty_set) with end
  end.

(** The body of the loop of [contains]: [return false] on a clear bit. *)
Definition probe (bf : bloomFilter) (item : string) (i : Z) (_ : ()) : res (() + bool) :=
  k ← int_rem (hash item i) (size bf);
  b ← index (bitArray bf) k;
  mret (if negb b then inr false else inl ()).

Definition contains (bf : bloomFilter) (item : string) : res bool :=
  r ← for_lt (nHashFunction bf) (probe bf item) ();
  match r with
  | inl _ => mret true
  | inr v => mret v
  end.

(** ** [main] *)

Fixpoint add_all (bf : bloomFilter) (items : list string) : res bloomFilter :=
  match items with
  | [] => mret bf
  | x :: rest => bf' ← add bf x; add_all bf' rest
  end.

(** The lines [main] prints, one constructor per [println] format. *)
Inductive line :=
| TruePositive (element : string)
| FalseNegative (element : string)
| FalsePositive (element : string)
| TrueNegative (element : string).

Definition report (yes no : string → line) (bf : bloomFilter) (element : string) : res line :=
  b ← contains bf element;
  mret (if b : bool then yes element else no element).

Definition elementsAdded : list string := ["hello"; "vijay"; "suriya"; "kabilan"; "vimal"]%string.
Definition elementsInBloomFilter : list string := ["hello"; "vijay"; "suriya"; "kabilan"; "vimal"]%string.
Definition elementsNotInBloomFilter : list string :=
  ["vimalan"; "saraseswari"; "dhina"; "sun"; "apple"; "ballss"]%string.

Fixpoint report_all (f : string → res line) (xs : list string) : res (list line) :=
  match xs with
  | [] => mret []
  | x :: rest => l ← f x; ls ← report_all f rest; mret (l :: ls)
  end.

Definition main : res (list line) :=
  bf ← newBloomFilter 100 3;
  bf ← add_all bf elementsAdded;
  l1 ← report_all (report TruePositive FalseNegative bf) elementsInBloomFilter;
  l2 ← report_all (report FalsePositive TrueNegative bf) elementsNotInBloomFilter;
  mret (l1 ++ l2).

(** ** The hash is the sum of the bytes plus the index, modulo 2^64 *)

Definition byte_sum (bytes : list ascii) : Z := foldr (λ c z, byte_int c + z) 0 bytes.
Definition item_sum (item : string) : Z := byte_sum (String.list_ascii_of_string item).

(** The items whose hashes stay in range: no index wraps around. *)
Definition fits (bf_n : Z) (item : string) : Prop := item_sum item + bf_n ≤ max_int.

#[export] Instance fits_dec n item : Decision (fits n item).
Proof. unfold fits. apply _. Defined.

Lemma byte_int_bound c : 0 ≤ byte_int c < 256.
Proof. unfold byte_int. pose proof (N_ascii_bounded c). lia. Qed.

Lemma item_sum_nonneg item : 0 ≤ item_sum item.
Proof.
  unfold item_sum, byte_sum. induction item as [|c item IH]; simpl; [done|].
  pose proof (byte_int_bound c). lia.
Qed.

(** An item of at most 2^54 bytes always fits with up to 2^61 hash functions. *)
Lemma item_sum_bound item : item_sum item ≤ 255 * Z.of_nat (String.length item).
Proof.
  unfold item_sum, byte_sum. induction item as [|c item IH]; simpl; [done|].
  pose proof (byte_int_bound c). lia.
Qed.

Lemma hash_sum_spec item z : hash_sum (wrap64 z) item = wrap64 (z + item_sum item).
Proof.
  unfold item_sum, byte_sum. revert z. induction item as [|c item IH]; intros z; simpl.
  { by rewrite Z.add_0_r. }
  unfold int_add. rewrite wrap64_add_l, IH. f_equal. lia.
Qed.

Lemma hash_spec item i : hash item i = wrap64 (item_sum item + i).
Proof.
  unfold hash, int_add. change 0 with (wrap64 0) at 1.
  by rewrite hash_sum_spec, wrap64_add_l.
Qed.

Lemma hash_fits n item i : fits n item → 0 ≤ i < n → hash item i = item_sum item + i.
Proof.
  unfold fits. intros ??. pose proof (item_sum_nonneg item).
  rewrite hash_spec. apply wrap64_id. unfold is_int, min_int. lia.
Qed.

Lemma item_sum_perm x y :
  String.list_ascii_of_string x ≡ₚ String.list_ascii_of_string y → item_sum x = item_sum y.
Proof. unfold item_sum. induction 1; simpl; lia. Qed.

(** ** Well-formed filters and the positions an item covers *)

Definition wf (bf : bloomFilter) : Prop :=
  0 < size bf ∧ Z.of_nat (length (bitArray bf)) = size bf.

(** Position [k] is one of the [n] bits of [item]. *)
Definition covers (size n : Z) (item : string) (k : Z) : Prop :=
  ∃ i, 0 ≤ i < n ∧ k = (item_sum item + i) `mod` size.

(** The filter's abstract state: exactly the bits covered by [items] are set. *)
Definition represents (bf : bloomFilter) (items : list string) : Prop :=
  wf bf ∧ ∀ k, 0 ≤ k < size bf →
    bitArray bf !! Z.to_nat k = Some true ↔
    ∃ x, x ∈ items ∧ covers (size bf) (nHashFunction bf) x k.

Lemma probe_index bf item i :
  wf bf → fits (nHashFunction bf) item → 0 ≤ i < nHashFunction bf →
  int_rem (hash item i) (size bf) = Ret ((item_sum item + i) `mod` size bf).
Proof.
  intros [??] ??. pose proof (item_sum_nonneg item).
  rewrite (hash_fits (nHashFunction bf)) by done. apply int_rem_pos; lia.
Qed.

Lemma new_represents size n :
  0 < size → newBloomFilter size n = Ret (BloomFilter n size (replicate (Z.to_nat size) false))
  ∧ represents (BloomFilter n size (replicate (Z.to_nat size) false)) [].
Proof.
  intros ?. unfold newBloomFilter, make_slice. rewrite decide_True by lia.
  split; [done|]. split; [split; [done|]|].
  { simpl. rewrite length_replicate. lia. }
  simpl. intros k ?. rewrite lookup_replicate_2 by lia.
  split; [done|]. by intros (x&?%elem_of_nil&_).
Qed.

(** The bits after [j] rounds of the loop of [add]. *)
Definition marked (bf : bloomFilter) (items : list string) (item : string)
    (j : Z) (bits : list bool) : Prop :=
  Z.of_nat (length bits) = size bf ∧ ∀ k, 0 ≤ k < size bf →
    bits !! Z.to_nat k = Some true ↔
    (∃ x, x ∈ items ∧ covers (size bf) (nHashFunction bf) x k)
    ∨ ∃ i, 0 ≤ i < j ∧ k = (item_sum item + i) `mod` size bf.

Lemma mark_step bf items item j bits :
  wf bf → fits (nHashFunction bf) item → 0 ≤ j < nHashFunction bf →
  marked bf items item j bits →
  ∃ bits', mark bf item j bits = Ret (inl bits') ∧ marked bf items item (j + 1) bits'.
Proof.
  intros Hwf Hfit Hj [Hlen Hbits].
  pose proof (Z.mod_pos_bound (item_sum item + j) (size bf) (proj1 Hwf)) as Hm.
  unfold mark. rewrite (probe_index bf item j) by done. simpl.
  rewrite set_index_ok by lia. simpl. eexists; split; [done|].
  split; [by rewrite length_insert|]. intros k Hk.
  rewrite list_lookup_insert. set (q := _ `mod` _) in *. case_decide as Hd.
  - split; [|done]. intros _. right. exists j. split; [lia|]. fold q. lia.
  - rewrite (Hbits k Hk). split; (intros [?|(i&?&?)]; [by left|right; exists i]); [lia|].
    assert (i ≠ j); [|lia]. intros ->. apply Hd. subst k. fold q. lia.
Qed.

Lemma add_represents bf items item :
  represents bf items → fits (nHashFunction bf) item →
  ∃ bf', add bf item = Ret bf' ∧ represents bf' (item :: items)
         ∧ size bf' = size bf ∧ nHashFunction bf' = nHashFunction bf.
Proof.
  intros [Hwf Hrep] Hfit. unfold add.
  destruct (for_lt_inv (mark bf item) (marked bf items item) (nHashFunction bf) (bitArray bf))
    as (bits&->&Hlen&Hbits); [by intros; apply mark_step|..].
  { split; [apply Hwf|]. intros k Hk. rewrite (Hrep k Hk).
    split; [by left|]. intros [?|(i&?&?)]; [done|lia]. }
  simpl. eexists. split; [done|]. split; [|done]. split; [split; [apply Hwf|done]|].
  simpl. intros k Hk. rewrite (Hbits k Hk). unfold covers. split.
  - intros [(x&?&?)|(i&?&?)]; [by exists x; set_solver|].
    exists item. split; [set_solver|]. exists i. split; [lia|done].
  - intros (x&[->|Hx]%elem_of_cons&i&?&?).
    + right. exists i. split; [lia|done].
    + left. exists x. split; [done|]. by exists i.
Qed.

Lemma add_all_represents bf items done :
  represents bf done → Forall (fits (nHashFunction bf)) items →
  ∃ bf', add_all bf items = Ret bf' ∧ represents bf' (rev items ++ done)
         ∧ size bf' = size bf ∧ nHashFunction bf' = nHashFunction bf.
Proof.
  revert bf done. induction items as [|x items IH]; intros bf done Hrep Hfit; simpl.
  { by exists bf. }
  apply Forall_cons in Hfit as [Hx Hfit].
  destruct (add_represents bf done x) as (bf1&->&Hrep1&Hs1&Hn1); [done..|]. simpl.
  destruct (IH bf1 (x :: done)) as (bf2&->&Hrep2&Hs2&Hn2); [done|by rewrite Hn1|].
  exists bf2. split; [done|]. rewrite <-app_assoc. simpl. split; [done|]. split; congruence.
Qed.

Lemma build_represents sz n items :
  0 < sz → Forall (fits n) items →
  ∃ bf, (newBloomFilter sz n ≫= λ bf, add_all bf items) = Ret bf
        ∧ represents bf (rev items) ∧ size bf = sz ∧ nHashFunction bf = n.
Proof.
  intros Hsz Hfit. destruct (new_represents sz n Hsz) as [-> Hrep]. simpl.
  destruct (add_all_represents _ items [] Hrep Hfit) as (bf&->&Hrep'&?&?).
  exists bf. by rewrite app_nil_r in Hrep'.
Qed.

(** [contains] reads exactly the covered bits. *)
Lemma contains_represents bf items y :
  represents bf items → fits (nHashFunction bf) y →
  ∃ b, contains bf y = Ret b ∧
    (b = true ↔ ∀ k, covers (size bf) (nHashFunction bf) y k →
                 ∃ x, x ∈ items ∧ covers (size bf) (nHashFunction bf) x k).
Proof.
  intros [Hwf Hrep] Hfit.
  pose (p := λ j, bool_decide (bitArray bf !! Z.to_nat ((item_sum y + j) `mod` size bf) = Some true)).
  assert (Hin : ∀ j, 0 ≤ (item_sum y + j) `mod` size bf < size bf).
  { intros j. apply Z.mod_pos_bound, Hwf. }
  exists (forallb p (seqZ 0 (nHashFunction bf))). split.
  - unfold contains. rewrite (for_lt_all _ p false); [by case_match|].
    intros j Hj. unfold probe. rewrite (probe_index bf y j) by done. simpl.
    specialize (Hin j).
    destruct (lookup_lt_is_Some_2 (bitArray bf) (Z.to_nat ((item_sum y + j) `mod` size bf)))
      as [b Hb]; [pose proof (proj2 Hwf); lia|].
    rewrite (index_ok _ _ b) by (done || lia). simpl. unfold p. rewrite Hb. by destruct b.
  - rewrite forallb_seqZ. unfold p. setoid_rewrite bool_decide_eq_true. split.
    + intros Hall k (i&Hi&->). by apply Hrep; [|apply Hall].
    + intros Hall j Hj. apply Hrep; [done|]. apply Hall. by exists j.
Qed.

(** Only the byte sum of an item matters. *)
Lemma hash_item_sum x y i : item_sum x = item_sum y → hash x i = hash y i.
Proof. intros He. by rewrite !hash_spec, He. Qed.

(** Two representations of the same set of items have the same bits. *)
Lemma represents_bits bf1 bf2 items1 items2 :
  represents bf1 items1 → represents bf2 items2 →
  size bf1 = size bf2 → nHashFunction bf1 = nHashFunction bf2 →
  (∀ x, x ∈ items1 ↔ x ∈ items2) → bitArray bf1 = bitArray bf2.
Proof.
  intros [[? Hl1] H1] [[? Hl2] H2] Hs Hn Hi. apply list_eq_same_length with (length (bitArray bf1));
    [by apply Nat2Z.inj; rewrite Hl1, Hl2|done|].
  intros k b1 b2 Hk Hb1 Hb2.
  specialize (H1 (Z.of_nat k) ltac:(lia)). specialize (H2 (Z.of_nat k) ltac:(lia)).
  rewrite Nat2Z.id, Hb1 in H1. rewrite Nat2Z.id, Hb2, <-Hs, <-Hn in H2.
  setoid_rewrite <-Hi in H2. rewrite <-H1 in H2. destruct b1, b2; intuition congruence.
Qed.

(** ** Properties *)

(** C1. What [contains] answers, exactly: on a filter of positive size built by
    [newBloomFilter] and a sequence of [add]s, [contains y] returns (never
    panics), and it returns [true] if and only if every bit of [y] is a bit of
    some added item.  In particular the false positives are exactly the items
    covered by the added ones. *)
Theorem bloom_contains_exact (sz n : Z) (items : list string) (y : string)
    (Hsz : 0 < sz) (Hfit : Forall (fits n) (y :: items)) :
  ∃ bf b, (newBloomFilter sz n ≫= λ bf, add_all bf items) = Ret bf ∧
    contains bf y = Ret b ∧
    (b = true ↔ ∀ i, 0 ≤ i < n → ∃ x j, x ∈ items ∧ 0 ≤ j < n ∧
                (item_sum y + i) `mod` sz = (item_sum x + j) `mod` sz).
Proof.
  apply Forall_cons in Hfit as [Hy Hfit].
  destruct (build_represents sz n items Hsz Hfit) as (bf&Hb&Hrep&<-&<-).
  destruct (contains_represents bf (rev items) y Hrep Hy) as (b&Hc&Hiff).
  exists bf, b. split; [done|]. split; [done|]. rewrite Hiff. unfold covers. split.
  - intros Hall i Hi. destruct (Hall ((item_sum y + i) `mod` size bf)) as (x&Hx&j&?&?); [by exists i|].
    exists x, j. by rewrite elem_of_rev in Hx.
  - intros Hall k (i&Hi&->). destruct (Hall i Hi) as (x&j&Hx&?&?).
    exists x. split; [by rewrite elem_of_rev|by exists j].
Qed.

(** At the parameters of [main]: "vimalan" against "vimal" and "kabilan". *)
Lemma bloom_contains_exact_witness :
  ∃ bf b, (newBloomFilter 100 3 ≫= λ bf, add_all bf ["vimal"; "kabilan"]%string) = Ret bf ∧
    contains bf "vimalan" = Ret b ∧
    (b = true ↔ ∀ i, 0 ≤ i < 3 → ∃ x j, x ∈ ["vimal"; "kabilan"]%string ∧ 0 ≤ j < 3 ∧
                (item_sum "vimalan" + i) `mod` 100 = (item_sum x + j) `mod` 100).
Proof. apply bloom_contains_exact; [done|by_compute]. Defined.

(** C2. No false negatives: every item that was added is found, whatever the
    other items, the positive size and the number of hash functions. *)
Theorem bloom_no_false_negative (sz n : Z) (items : list string) (y : string)
    (Hsz : 0 < sz) (Hfit : Forall (fits n) items) (Hy : y ∈ items) :
  ∃ bf, (newBloomFilter sz n ≫= λ bf, add_all bf items) = Ret bf ∧ contains bf y = Ret true.
Proof.
  destruct (build_represents sz n items Hsz Hfit) as (bf&Hb&Hrep&<-&<-).
  destruct (contains_represents bf (rev items) y Hrep) as (b&Hc&Hiff).
  { by eapply Forall_forall in Hfit. }
  exists bf. split; [done|]. rewrite Hc. f_equal. apply Hiff. intros k ?. exists y.
  split; [by rewrite elem_of_rev|done].
Qed.

Lemma bloom_no_false_negative_witness :
  ∃ bf, (newBloomFilter 100 3 ≫= λ bf, add_all bf elementsAdded) = Ret bf
        ∧ contains bf "suriya" = Ret true.
Proof. apply bloom_no_false_negative; [done|by_compute|by_compute]. Defined.

(** The filter cannot tell anagrams apart: [hash] only sums bytes, so for
    any filter whatsoever (well formed or not), two items with the same bytes
    in another order get the same answer from [contains] and the same
    effect from [add], panics included. *)
Theorem bloom_anagrams (bf : bloomFilter) (x y : string)
    (Hxy : String.list_ascii_of_string x ≡ₚ String.list_ascii_of_string y) :
  contains bf x = contains bf y ∧ add bf x = add bf y.
Proof.
  pose proof (λ i, hash_item_sum x y i (item_sum_perm x y Hxy)) as Hh.
  unfold contains, add. split.
  - unfold for_lt. rewrite (for_loop_ext _ (probe bf y)); [done|].
    intros j t. unfold probe. by rewrite Hh.
  - unfold for_lt. rewrite (for_loop_ext _ (mark bf y)); [done|].
    intros j t. unfold mark. by rewrite Hh.
Qed.

(** An anagram is a false positive. *)
Lemma bloom_anagrams_witness :
  let bf := BloomFilter 1 7 [true; false; false; false; false; false; false] in
  contains bf "vimal" = contains bf "lamiv" ∧ add bf "vimal" = add bf "lamiv".
Proof. apply bloom_anagrams. by_compute. Defined.

(** Insertion order and repetitions do not matter: adding the same set of
    items in any order yields the same filter. *)
Theorem bloom_order_irrelevant (sz n : Z) (items1 items2 : list string)
    (Hsz : 0 < sz) (Hfit : Forall (fits n) (items1 ++ items2))
    (Hsame : ∀ x, x ∈ items1 ↔ x ∈ items2) :
  ∃ bf, (newBloomFilter sz n ≫= λ bf, add_all bf items1) = Ret bf
        ∧ (newBloomFilter sz n ≫= λ bf, add_all bf items2) = Ret bf.
Proof.
  apply Forall_app in Hfit as [Hf1 Hf2].
  destruct (build_represents sz n items1 Hsz Hf1) as (bf1&Hb1&Hrep1&Hs1&Hn1).
  destruct (build_represents sz n items2 Hsz Hf2) as (bf2&Hb2&Hrep2&Hs2&Hn2).
  exists bf1. split; [done|]. rewrite Hb2. f_equal.
  enough (bitArray bf1 = bitArray bf2); [destruct bf1, bf2; simplify_eq/=; done|].
  eapply represents_bits; [done|done|congruence|congruence|].
  intros x. rewrite !elem_of_rev. apply Hsame.
Qed.

Lemma bloom_order_irrelevant_witness :
  ∃ bf, (newBloomFilter 100 3 ≫= λ bf, add_all bf ["hello"; "vijay"; "hello"]%string) = Ret bf
        ∧ (newBloomFilter 100 3 ≫= λ bf, add_all bf ["vijay"; "hello"]%string) = Ret bf.
Proof.
  apply bloom_order_irrelevant; [done|by_compute|]. intros x. rewrite !elem_of_cons. tauto.
Defined.

(** The parameters [newBloomFilter] does not validate: a negative size
    panics in [make]; with size 0 and at least one hash function both [add] and
    [contains] panic with a division by zero; with no hash function [add] leaves
    the filter as it is and [contains] answers [true] to everything. *)
Theorem bloom_bad_parameters (sz n : Z) (bits : list bool) (x : string) :
  (sz < 0 → newBloomFilter sz n = Panic err_makeslice) ∧
  (0 < n → add (BloomFilter n 0 bits) x = Panic err_divide
           ∧ contains (BloomFilter n 0 bits) x = Panic err_divide) ∧
  (n ≤ 0 → add (BloomFilter n sz bits) x = Ret (BloomFilter n sz bits)
           ∧ contains (BloomFilter n sz bits) x = Ret true).
Proof.
  split; [|split].
  - intros ?. unfold newBloomFilter, make_slice. by rewrite decide_False by lia.
  - intros ?. unfold add, contains, for_lt. simpl.
    by destruct (Z.to_nat n) eqn:?; [lia|].
  - intros ?. unfold add, contains, for_lt. simpl. by rewrite Z2Nat.nonpos.
Qed.

Lemma bloom_bad_parameters_witness :
  newBloomFilter (-1) 3 = Panic err_makeslice
  ∧ contains (BloomFilter 3 0 []) "hello" = Panic err_divide
  ∧ contains (BloomFilter 0 100 []) "hello" = Ret true.
Proof.
  split; [by apply (bloom_bad_parameters (-1) 3 [] "hello")|].
  split; [by apply (bloom_bad_parameters 0 3 [] "hello")|].
  by apply (bloom_bad_parameters 100 0 [] "hello").
Defined.

(** The run of [main]: with 100 bits and 3 hash functions the five added
    names are all reported present and the six others all absent; no
    [False Negative] and no [False Positive] line is printed. *)
Theorem bloom_main_output :
  main = Ret (map TruePositive elementsInBloomFilter ++ map TrueNegative elementsNotInBloomFilter).
Proof. vm_compute. reflexivity. Qed.

End Bloom.
