(* ===== verification/BlockingQ.v ===== *)
(** * BlockingQ: blockingQ/main.go

    The methods [Get] and [Put] have value receivers: each call works on a copy of
    the struct, so of the four fields only the channel, a reference, is shared. *)

From S2P Require Import Prelude GoLang GoSched GoSync GoFork TokenPool.

#[local] Open Scope Z_scope.

Module BlockingQueue.

(** ** The type and its operations *)

(** [type obj struct{}]: one value, no content. *)
Inductive obj := Obj.

#[export] Instance obj_eq_dec : EqDecision obj.
Proof. solve_decision. Defined.

(** The fields a copy of the struct duplicates: the slice header [Q] (elements
    have size zero, so its backing array holds no data), the mutex and [size].
    The channel field is a reference and lives in the shared state. *)
Record BlockingQ := BQ { Q : list obj; mu : mutex; size : Z }.

Definition set_Q q bq := BQ q (mu bq) (size bq).
Definition set_mu m bq := BQ (Q bq) m (size bq).

Definition err_deadlock : string := "all goroutines are asleep - deadlock!".

(** The loop of [newBlockingQ]; a send that blocks here blocks the only
    goroutine. *)
Definition fill (_ : Z) (st : BlockingQ * chan bool) : res (BlockingQ * chan bool + Empty_set) :=
  let bq := set_Q (Q st.1 ++ [Obj]) st.1 in
  match send st.2 true with
  | COk c _ => Ret (inl (bq, c))
  | CBlock => Panic err_deadlock
  | CPanic why => Panic why
  end.

(** [newBlockingQ(size)]: the composite literal does not mention [size], whose
    field stays zero. *)
Definition newBlockingQ (sz : Z) : res (BlockingQ * chan bool) :=
  c ← make_chan sz;
  r ← for_lt sz fill (BQ [] (Mutex false) 0, c);
  match r with
  | inl st => Ret st
  | inr v => match (v : Empty_set) with end
  end.

(** The critical section of [Get] on its copy: [ret := bq.Q[0]; bq.Q = bq.Q[1:]]. *)
Definition Get_pop (bq : BlockingQ) : res (BlockingQ * obj) :=
  ret ← index (Q bq) 0;
  Ret (set_Q (drop 1 (Q bq)) bq, ret).

(** The critical section of [Put] on its copy: [bq.Q = append(bq.Q, ob)]. *)
Definition Put_append (bq : BlockingQ) (ob : obj) : BlockingQ := set_Q (Q bq ++ [ob]) bq.

(** ** [main]

    The loop of [Fork]; the goroutines share [main]'s variable [blockQ] and its
    channel. *)

Record shared := Shared { blockQ : BlockingQ; ch : chan bool }.

Definition set_ch c s := Shared (blockQ s) c.

Definition poolSize : Z := 10.
(** The bound of the loop of [main]. *)
Definition users : Z := 1000.
#[global] Arguments users : simpl never.

Inductive pc :=
| UserGet                               (** [blockQ.Get()]: copy the receiver *)
| GetRecv (bq : BlockingQ)              (** [<-bq.ch] *)
| GetLock (bq : BlockingQ)              (** [bq.mu.Lock()] *)
| GetPop (bq : BlockingQ)
| GetUnlock (bq : BlockingQ) (ob : obj) (** [bq.mu.Unlock(); return ret] *)
| UserSleep (ob : obj)                  (** [time.Sleep(1 * time.Second)] *)
| UserPut (ob : obj)                    (** [blockQ.Put(ob)]: copy the receiver *)
| PutLock (bq : BlockingQ) (ob : obj)
| PutAppend (bq : BlockingQ) (ob : obj)
| PutUnlock (bq : BlockingQ)
| PutSend                               (** [bq.ch <- true] *)
| UserDone                              (** deferred [wg.Done()] *)
| UserRet.

#[export] Instance pc_eq_dec : EqDecision pc.
Proof. unfold EqDecision. intros. unfold Decision. repeat (decide equality). Defined.

(** An expression that may panic, inside a step. *)
Definition attempt {A} (r : res A) (k : A → Fork.act shared pc) : Fork.act shared pc :=
  match r with Ret a => k a | Panic why => Fork.Dies why end.

Definition wstep (_ : ()) (s : shared) (l : pc) : Fork.act shared pc :=
  match l with
  | UserGet => Fork.Goes s (GetRecv (blockQ s))
  | GetRecv bq =>
      match recv (ch s) with
      | COk c _ => Fork.Goes (set_ch c s) (GetLock bq)
      | CBlock => Fork.Blocked
      | CPanic why => Fork.Dies why
      end
  | GetLock bq =>
      match lock (mu bq) with Some m => Fork.Goes s (GetPop (set_mu m bq)) | None => Fork.Blocked end
  | GetPop bq => attempt (Get_pop bq) (λ r, Fork.Goes s (GetUnlock r.1 r.2))
  | GetUnlock bq ob => attempt (unlock (mu bq)) (λ _, Fork.Goes s (UserSleep ob))
  | UserSleep ob => Fork.Goes s (UserPut ob)
  | UserPut ob => Fork.Goes s (PutLock (blockQ s) ob)
  | PutLock bq ob =>
      match lock (mu bq) with Some m => Fork.Goes s (PutAppend (set_mu m bq) ob) | None => Fork.Blocked end
  | PutAppend bq ob => Fork.Goes s (PutUnlock (Put_append bq ob))
  | PutUnlock bq => attempt (unlock (mu bq)) (λ _, Fork.Goes s PutSend)
  | PutSend =>
      match send (ch s) true with
      | COk c _ => Fork.Goes (set_ch c s) UserDone
      | CBlock => Fork.Blocked
      | CPanic why => Fork.Dies why
      end
  | UserDone => Fork.CallsDone s UserRet
  | UserRet => Fork.Blocked
  end.

Definition tstep := Fork.tstep users (λ _, UserGet) wstep.

(** [main]: the pool is created before any goroutine starts. *)
Definition start : config (Fork.shared shared) (Fork.pc pc) :=
  match newBlockingQ poolSize with
  | Ret (bq, c) => Fork.start (Shared bq c)
  | Panic why => Dead why
  end.

(** ** [newBlockingQ] *)

Definition fill_inv (n : Z) (i : Z) (st : BlockingQ * chan bool) : Prop :=
  st = (BQ (replicate (Z.to_nat i) Obj) (Mutex false) 0,
        Chan (Z.to_nat n) (replicate (Z.to_nat i) true) false).

Lemma bq_fill_step n i st :
  0 ≤ i < n → fill_inv n i st → ∃ st', fill i st = Ret (inl st') ∧ fill_inv n (i + 1) st'.
Proof.
  intros Hi ->. unfold fill, send. simpl. rewrite length_replicate, decide_True by lia.
  eexists. split; [done|]. unfold fill_inv. rewrite Z2Nat.inj_add, Nat.add_1_r by lia.
  by rewrite !replicate_S_end.
Qed.

Lemma new_queue n :
  0 ≤ n → newBlockingQ n = Ret (BQ (replicate (Z.to_nat n) Obj) (Mutex false) 0,
                               Chan (Z.to_nat n) (replicate (Z.to_nat n) true) false).
Proof.
  intros Hn. unfold newBlockingQ, make_chan. rewrite decide_True by done. simpl.
  destruct (for_lt_inv fill (fill_inv n) n (BQ [] (Mutex false) 0, Chan (Z.to_nat n) [] false))
    as (st&->&Hst); [intros j t ?; by apply bq_fill_step|done|].
  simpl. rewrite Hst, Z.max_r by lia. done.
Qed.

(** ** What a user does with its token *)

(** The struct [main] holds, which no method call changes. *)
Definition queue0 : BlockingQ := BQ (replicate 10 Obj) (Mutex false) 0.
Definition chan0 : chan bool := Chan 10 (replicate 10 true) false.

Lemma bq_start_eq : start = Fork.start (Shared queue0 chan0).
Proof. unfold start, poolSize. by rewrite new_queue by done. Qed.

(** A user holds a token from its receive to its send. *)
Definition held (l : pc) : list () :=
  match l with
  | GetLock _ | GetPop _ | GetUnlock _ _ | UserSleep _ | UserPut _ | PutLock _ _
  | PutAppend _ _ | PutUnlock _ | PutSend => [()]
  | _ => []
  end.

(** The values sent do not matter, only how many there are. *)
Definition forget (c : chan bool) : chan () := Chan (ch_cap c) ((λ _, ()) <$> ch_buf c) (ch_closed c).

Abbreviation tokens := (λ s, forget (ch s)).

Definition frame (s : shared) : Prop := blockQ s = queue0.

(** The copies a call works on: taken from [queue0], locked inside the critical
    section only. *)
Definition pc_ok (l : pc) : Prop :=
  match l with
  | GetRecv bq | GetLock bq | PutLock bq _ => bq = queue0
  | GetPop bq | PutAppend bq _ => bq = set_mu (Mutex true) queue0
  | GetUnlock bq _ | PutUnlock bq => locked (mu bq) = true
  | _ => True
  end.

Definition finished (l : pc) : Prop := l = UserRet.
#[export] Instance finished_dec l : Decision (finished l).
Proof. unfold finished. apply _. Defined.

Definition owes (l : pc) : bool := match l with UserRet => false | _ => true end.

Definition work (l : pc) : nat :=
  match l with
  | UserGet => 12
  | GetRecv _ => 11
  | GetLock _ => 10
  | GetPop _ => 9
  | GetUnlock _ _ => 8
  | UserSleep _ => 7
  | UserPut _ => 6
  | PutLock _ _ => 5
  | PutAppend _ _ => 4
  | PutUnlock _ => 3
  | PutSend => 2
  | UserDone => 1
  | UserRet => 0
  end.

Lemma get_pop_locked :
  Get_pop (set_mu (Mutex true) queue0)
  = Ret (set_mu (Mutex true) (BQ (replicate 9 Obj) (Mutex true) 0), Obj).
Proof. done. Qed.

(** Take a step of a user apart. *)
Ltac user_step Hs :=
  simpl in Hs; unfold attempt, recv, send, lock, unlock in Hs; repeat case_match; simplify_eq/=.

#[export] Instance user_job : TokenJob wstep tokens held frame pc_ok owes finished work.
Proof.
  split; unfold moves.
  - intros c s l done s' l' Ho Hs. destruct l, done; user_step Hs; try done; try congruence;
      rewrite ?fmap_app, ?app_nil_r; [|done].
    match goal with H : ch_buf _ = _ |- _ => rewrite H end. csimpl. solve_Permutation.
  - intros c s l done s' l' Hs. destruct l, done; user_step Hs; done.
  - unfold frame. intros c s l done s' l' Hf Hok Hs.
    destruct l, done; simpl in Hok; try (subst bq; simpl in Hs; rewrite ?get_pop_locked in Hs);
      user_step Hs; repeat split; simpl; try done; lia.
  - intros c s l done s' l' Hs. destruct l, done; user_step Hs; done.
  - by intros l ->.
  - intros s l Hf Hok Hn Hroom Htok. exists (). destruct l; simpl in *; try done;
      unfold attempt, recv, send, lock; rewrite ?Hok; repeat case_match; try done.
    + by destruct Htok.
    + destruct Hroom as [_ Hlt]; [done|]. by rewrite length_fmap in Hlt.
Qed.

Abbreviation pool_of := (pool_inv tokens held frame pc_ok (replicate 10 ())).

Lemma user_laws : Fork.job_laws users (λ _, UserGet) wstep pool_of owes finished work 12.
Proof. apply pool_laws; [apply _|done|]. intros i. repeat split. simpl. lia. Qed.

Lemma queue0_inv : pool_of (Shared queue0 chan0) [].
Proof. by split. Qed.

Lemma users_int : is_int users.
Proof. by_compute. Qed.

(** No step panics: the copy has ten elements and is locked when unlocked. *)
Lemma bq_no_crash c s l rest why : pool_of s (l :: rest) → wstep c s l ≠ Fork.Dies why.
Proof.
  intros [_ _ Ho _ [Hok _]%Forall_cons] Hs. simpl in Ho.
  destruct l; simpl in *; unfold attempt, recv, send, lock, unlock in Hs; rewrite ?Ho, ?Hok in Hs;
    repeat case_match; simplify_eq/=; done.
Qed.

(** The process cannot die, and the pool is as it should at every moment. *)
Lemma bq_alive σ :
  reachable tstep start σ → ∃ s ls, σ = Running s ls ∧ pool_of (Fork.inner s) (Fork.jobs ls).
Proof.
  rewrite bq_start_eq. intros Hr. destruct σ as [s ls|why].
  - exists s, ls. split; [done|].
    by destruct (Fork.fork_invariant _ _ _ _ _ _ _ _ user_laws users_int _ queue0_inv s ls Hr).
  - by destruct (Fork.fork_dies _ _ _ _ _ _ _ _ user_laws users_int _ queue0_inv (λ _, False) why bq_no_crash Hr).
Qed.

(** ** Properties *)

(** [newBlockingQ(size)] for [size >= 0] returns a queue of [size] objects
    with an unlocked mutex and a channel of capacity [size] that is already full,
    without blocking on it; the field [size] of the result is always 0.  A
    negative size panics. *)
Theorem blockingq_new (sz : Z) :
  (0 ≤ sz → ∃ bq c, newBlockingQ sz = Ret (bq, c) ∧ length (Q bq) = Z.to_nat sz ∧
     locked (mu bq) = false ∧ size bq = 0 ∧
     ch_cap c = Z.to_nat sz ∧ length (ch_buf c) = Z.to_nat sz) ∧
  (sz < 0 → newBlockingQ sz = Panic err_makechan).
Proof.
  split; intros Hn.
  - eexists _, _. split; [by apply new_queue|]. simpl. by rewrite !length_replicate.
  - unfold newBlockingQ, make_chan. by rewrite decide_False by lia.
Qed.

Lemma blockingq_new_witness :
  ∃ bq c, newBlockingQ 10 = Ret (bq, c) ∧ length (Q bq) = 10%nat ∧
     locked (mu bq) = false ∧ size bq = 0 ∧ ch_cap c = 10%nat ∧ length (ch_buf c) = 10%nat.
Proof. apply (blockingq_new 10). done. Defined.

(** C25. The channel bounds the users: at every point of every execution of
    [main], nothing has panicked, and the goroutines between the receive of [Get]
    and the send of [Put] together with the tokens left in the channel are exactly
    [poolSize]; so at most ten users have an object at a time. *)
Theorem blockingq_bounded σ (Hr : reachable tstep start σ) :
  ∃ s ls, σ = Running s ls ∧
    (sumf (length ∘ held) (Fork.jobs ls) + length (ch_buf (ch (Fork.inner s))) = Z.to_nat poolSize)%nat.
Proof.
  destruct (bq_alive σ Hr) as (s&ls&->&HI). exists s, ls. split; [done|].
  pose proof (pool_length _ _ _ _ _ _ _ HI) as Hlen. simpl in Hlen. rewrite length_fmap in Hlen.
  change (Z.to_nat poolSize) with 10%nat. lia.
Qed.

(** All ten tokens are taken and the eleventh user is blocked. *)
Lemma blockingq_bounded_witness :
  let sched := replicate 22 (0%nat, ()) ++ flat_map (λ i, [(i, ()); (i, ())]) (seq 1 10)
               ++ [(11%nat, ())] in
  ∃ σ, run tstep sched start = Some σ ∧ exec tstep (11%nat, ()) σ = None ∧
  ∃ s ls, σ = Running s ls ∧
    (sumf (length ∘ held) (Fork.jobs ls) + length (ch_buf (ch (Fork.inner s))) = Z.to_nat poolSize)%nat.
Proof.
  intros sched. eexists. split; [vm_compute; reflexivity|]. split; [vm_compute; reflexivity|].
  apply blockingq_bounded. apply (run_reachable _ sched). vm_compute. reflexivity.
Defined.

(** C27. [main] completes: every execution is finite, no user blocks for ever in
    [Get] or [Put], and one that cannot be continued has started all 1000 users, let
    them and [main] return, and has the channel full again. *)
Theorem blockingq_completes :
  sn (step tstep) start ∧
  ∀ σ, reachable tstep start σ → halted tstep σ →
    ∃ s ls, σ = Running s ls ∧ Fork.Returned ∈ ls ∧ length (Fork.jobs ls) = 1000%nat ∧
      Forall finished (Fork.jobs ls) ∧ length (ch_buf (ch (Fork.inner s))) = Z.to_nat poolSize.
Proof.
  destruct (Fork.fork_join _ _ _ _ _ _ _ _ user_laws users_int _ queue0_inv) as [Hsn Hfin].
  split; [by rewrite bq_start_eq|]. intros σ Hr Hh. destruct (bq_alive σ Hr) as (s&ls&->&HI).
  rewrite bq_start_eq in Hr. destruct (Hfin s ls Hr Hh) as (_&Hlen&Hend&Hret).
  exists s, ls. split; [done|]. split; [done|]. split; [done|]. split; [done|].
  pose proof (pool_idle wstep _ _ _ _ _ _ _ _ _ _ HI Hend) as Hp. simpl in Hp.
  by rewrite <-(length_fmap (λ _, ())), Hp.
Qed.

(** The value receivers make the queue and its lock private to each call: in
    every reachable state the shared struct still is the one [newBlockingQ]
    returned, ten objects long and unlocked, whatever [Get]s and [Put]s have run;
    and neither [Lock] ever waits, so the mutex excludes nobody. *)
Theorem blockingq_queue_is_a_copy s ls (Hr : reachable tstep start (Running s ls)) :
  newBlockingQ poolSize = Ret (blockQ (Fork.inner s), chan0) ∧
  ∀ l, l ∈ Fork.jobs ls → (∃ bq, l = GetLock bq ∨ ∃ ob, l = PutLock bq ob) →
    wstep () (Fork.inner s) l ≠ Fork.Blocked.
Proof.
  destruct (bq_alive _ Hr) as (?&?&[= <- <-]&[_ _ _ Hf Hok]).
  split; [by rewrite Hf, new_queue by done|]. rewrite Forall_forall in Hok.
  intros l Hl [bq [->|[ob ->]]]; apply Hok in Hl; simpl in *; by subst.
Qed.

(** Two users are inside the critical section of [Get] at once. *)
Lemma blockingq_queue_is_a_copy_witness :
  let sched := replicate 4 (0%nat, ()) ++ flat_map (λ i, [(i, ()); (i, ()); (i, ())]) [1; 2]%nat in
  ∃ s ls bq1 bq2, run tstep sched start = Some (Running s ls) ∧
    Fork.jobs ls = [GetPop bq1; GetPop bq2] ∧
    newBlockingQ poolSize = Ret (blockQ (Fork.inner s), chan0).
Proof.
  intros sched. eexists _, _, _, _. split; [vm_compute; reflexivity|]. split; [reflexivity|].
  eapply proj1, blockingq_queue_is_a_copy. apply (run_reachable _ sched). vm_compute. reflexivity.
Defined.

End BlockingQueue.
