(* ===== verification/ConnectionPool.v ===== *)
(** * ConnectionPool: connectionPool/temp.go *)

From S2P Require Import Prelude GoLang GoSched GoSync GoFork TokenPool.

#[local] Open Scope Z_scope.

Module ConnPool.

(** A [*sql.DB]: the address [sql.Open] returned, different at every call. *)
Definition db := nat.

Definition err_open : string := "panic(err) in newConn".
Definition err_exec : string := "panic(err) in benchmarkConnectionPool".
Definition err_deadlock : string := "all goroutines are asleep - deadlock!".

(** ** The pool *)

(** [newConn()]: [next] is the next free address, [ok] whether [sql.Open]
    succeeds. *)
Definition newConn (ok : bool) (next : db) : res (db * db) :=
  if ok then Ret (next, S next) else Panic err_open.

Record ConnectionPool := Pool { maxConn : Z; ch : chan db }.

(** [NewConnectionPool]; [oks i] is the outcome of the [i]-th [sql.Open]. A send
    that blocks here blocks the only goroutine. *)
Definition fill (oks : Z → bool) (i : Z) (st : chan db * db) : res (chan db * db + Empty_set) :=
  '(d, next) ← newConn (oks i) st.2;
  match send st.1 d with
  | COk c _ => Ret (inl (c, next))
  | CBlock => Panic err_deadlock
  | CPanic why => Panic why
  end.

Definition NewConnectionPool (oks : Z → bool) (maxCon : Z) : res ConnectionPool :=
  c ← make_chan maxCon;
  r ← for_lt maxCon (fill oks) (c, 0%nat);
  match r with
  | inl (c', _) => Ret (Pool maxCon c')
  | inr v => match (v : Empty_set) with end
  end.

(** [Get] and [Put] *)
Definition Get (cp : ConnectionPool) : chan_res db (option db) := recv (ch cp).
Definition Put (cp : ConnectionPool) (d : db) : chan_res db () := send (ch cp) d.

(** ** The benchmark

    The loop of [Fork], with the pool as the shared state. *)

(** The bound of the loop of [benchmarkConnectionPool]. *)
Definition queries : Z := 50.
#[global] Arguments queries : simpl never.

Inductive pc :=
| WorkGet              (** [db := Get(cp)] *)
| WorkExec (d : db)    (** [db.Exec("SELECT sleep(0.01);")] *)
| WorkPut (d : db)     (** [Put(cp, db)] *)
| WorkDone             (** [wg.Done()] *)
| WorkRet.

#[export] Instance pc_eq_dec : EqDecision pc.
Proof. solve_decision. Defined.

Definition set_ch (c : chan db) (cp : ConnectionPool) := Pool (maxConn cp) c.

(** The choice says whether the query of the acting goroutine fails. *)
Definition wstep (exec_fails : bool) (cp : ConnectionPool) (l : pc) : Fork.act ConnectionPool pc :=
  match l with
  | WorkGet =>
      match Get cp with
      | COk c (Some d) => Fork.Goes (set_ch c cp) (WorkExec d)
      | COk c None => Fork.Dies err_nil
      | CBlock => Fork.Blocked
      | CPanic why => Fork.Dies why
      end
  | WorkExec d => if exec_fails then Fork.Dies err_exec else Fork.Goes cp (WorkPut d)
  | WorkPut d =>
      match Put cp d with
      | COk c _ => Fork.Goes (set_ch c cp) WorkDone
      | CBlock => Fork.Blocked
      | CPanic why => Fork.Dies why
      end
  | WorkDone => Fork.CallsDone cp WorkRet
  | WorkRet => Fork.Blocked
  end.

Definition tstep := Fork.tstep queries (λ _, WorkGet) wstep.

(** [benchmarkConnectionPool(maxConn)]: the pool is made with 10, not with
    [maxConn]. *)
Definition benchmarkConnectionPool (oks : Z → bool) (maxConn : Z) :
    config (Fork.shared ConnectionPool) (Fork.pc pc) :=
  match NewConnectionPool oks 10 with
  | Ret p => Fork.start p
  | Panic why => Dead why
  end.

(** ** [NewConnectionPool] *)

Definition fill_inv (n : Z) (i : Z) (st : chan db * db) : Prop :=
  st.1 = Chan (Z.to_nat n) (seq 0 (Z.to_nat i)) false ∧ st.2 = Z.to_nat i.

Lemma cp_fill_step oks n i st :
  0 ≤ i < n → oks i = true → fill_inv n i st →
  ∃ st', fill oks i st = Ret (inl st') ∧ fill_inv n (i + 1) st'.
Proof.
  intros Hi Hok [Hc Hn]. destruct st as [c next]. simpl in *. subst.
  unfold fill, newConn. rewrite Hok. simpl. unfold send. simpl.
  rewrite length_seq, decide_True by lia. eexists. split; [done|].
  unfold fill_inv. simpl. rewrite Z2Nat.inj_add, Nat.add_1_r, seq_S by lia. done.
Qed.

Lemma new_pool oks n :
  0 ≤ n → (∀ i, 0 ≤ i < n → oks i = true) →
  NewConnectionPool oks n = Ret (Pool n (Chan (Z.to_nat n) (seq 0 (Z.to_nat n)) false)).
Proof.
  intros Hn Hoks. unfold NewConnectionPool, make_chan. rewrite decide_True by done. simpl.
  destruct (for_lt_inv (fill oks) (fill_inv n) n (Chan (Z.to_nat n) [] false, 0%nat))
    as ([c next]&->&Hc&_); [|done|].
  - intros j t Hj. apply cp_fill_step; [done|by apply Hoks].
  - simpl in *. by rewrite Hc, Z.max_r by lia.
Qed.

(** ** What a goroutine of the benchmark does with its token *)

(** The ten connections. *)
Definition conns : list db := seq 0 10.

Definition held (l : pc) : list db := match l with WorkExec d | WorkPut d => [d] | _ => [] end.

Definition finished (l : pc) : Prop := l = WorkRet.
#[export] Instance finished_dec l : Decision (finished l).
Proof. unfold finished. apply _. Defined.

Definition owes (l : pc) : bool := bool_decide (l ≠ WorkRet).

Definition work (l : pc) : nat :=
  match l with WorkGet => 4 | WorkExec _ => 3 | WorkPut _ => 2 | WorkDone => 1 | WorkRet => 0 end.

#[export] Instance conn_job : TokenJob wstep ch held (λ _, True) (λ _, True) owes finished work.
Proof.
  split; unfold moves.
  1-4: intros fails cp l done cp' l'; destruct l, done; simpl; unfold Get, Put, recv, send;
    intros; repeat case_match; simplify_eq/=; try done; try (repeat split; simpl; lia).
  1-4: rewrite ?app_nil_r; done || solve_Permutation.
  - by intros l ->.
  - intros cp l _ _ Hf Hroom Htok. exists false. destruct l; simpl; try done; unfold Get, Put, recv, send.
    + destruct (ch_buf (ch cp)); [by destruct Htok|done].
    + destruct Hroom as [[_ Hc] Hlt]; [done|]. by rewrite Hc, decide_True.
Qed.

Abbreviation pool_of := (pool_inv ch held (λ _, True) (λ _, True) conns).

Lemma conn_laws : Fork.job_laws queries (λ _, WorkGet) wstep pool_of owes finished work 4.
Proof. apply pool_laws; [apply _|done|]. intros i. repeat split. simpl. lia. Qed.

Definition pool0 : ConnectionPool := Pool 10 (Chan 10 conns false).

Lemma pool0_inv : pool_of pool0 [].
Proof. by split. Qed.

Lemma benchmark_start oks maxConn :
  (∀ i, 0 ≤ i < 10 → oks i = true) → benchmarkConnectionPool oks maxConn = Fork.start pool0.
Proof. intros Hoks. unfold benchmarkConnectionPool. by rewrite new_pool. Qed.

Lemma cp_dies fails cp l rest why :
  pool_of cp (l :: rest) → wstep fails cp l = Fork.Dies why → why = err_exec.
Proof.
  intros [_ _ Ho _ _] Hs.
  destruct l; simpl in Hs; unfold Get, Put, recv, send in Hs; rewrite ?Ho in Hs;
    repeat case_match; simplify_eq/=; done.
Qed.

(** ** Properties *)

(** [NewConnectionPool(maxCon)] for [maxCon >= 0], when every [sql.Open]
    succeeds, returns a pool whose channel is full with [maxCon] different
    connections; it never blocks on its own channel.  A failing [sql.Open] makes
    it panic, and so does a negative [maxCon]. *)
Theorem connpool_new (oks : Z → bool) (n : Z) :
  (0 ≤ n → (∀ i, 0 ≤ i < n → oks i = true) →
     ∃ p, NewConnectionPool oks n = Ret p ∧ maxConn p = n ∧ ch_cap (ch p) = Z.to_nat n ∧
          length (ch_buf (ch p)) = Z.to_nat n ∧ NoDup (ch_buf (ch p))) ∧
  (0 < n → oks 0 = false → NewConnectionPool oks n = Panic err_open) ∧
  (n < 0 → NewConnectionPool oks n = Panic err_makechan).
Proof.
  split; [|split].
  - intros Hn Hoks. eexists. split; [by apply new_pool|]. simpl.
    rewrite length_seq. auto using NoDup_seq.
  - intros Hn Hoks. unfold NewConnectionPool, make_chan. rewrite decide_True by lia. simpl.
    unfold for_lt. destruct (Z.to_nat n) eqn:?; [lia|]. simpl. unfold fill, newConn. by rewrite Hoks.
  - intros Hn. unfold NewConnectionPool, make_chan. by rewrite decide_False by lia.
Qed.

Lemma connpool_new_witness :
  ∃ p, NewConnectionPool (λ _, true) 10 = Ret p ∧ maxConn p = 10 ∧ ch_cap (ch p) = 10%nat ∧
       length (ch_buf (ch p)) = 10%nat ∧ NoDup (ch_buf (ch p)).
Proof. apply (connpool_new (λ _, true) 10); [lia|done]. Defined.

(** C9. A pooled connection is used by one goroutine at a time: at every point of
    every execution of [benchmarkConnectionPool] the connections in the channel
    and those held by goroutines are together the ten that were opened, so no
    connection is held by two goroutines, none is held while it is in the
    channel, and at most ten are in use. *)
Theorem connpool_exclusive (oks : Z → bool) (maxConn : Z) s ls
    (Hoks : ∀ i, 0 ≤ i < 10 → oks i = true)
    (Hr : reachable tstep (benchmarkConnectionPool oks maxConn) (Running s ls)) :
  let cp := Fork.inner s in let js := Fork.jobs ls in
  ch_buf (ch cp) ++ held_all held js ≡ₚ conns ∧
  (∀ i j li lj d, js !! i = Some li → js !! j = Some lj → d ∈ held li →
     (d ∈ held lj → i = j) ∧ d ∉ ch_buf (ch cp)) ∧
  (sumf (length ∘ held) js ≤ 10)%nat.
Proof.
  rewrite benchmark_start in Hr by done.
  destruct (Fork.fork_invariant _ _ _ _ _ _ _ _ conn_laws ltac:(by_compute) _ pool0_inv s ls Hr) as [HP _].
  split; [apply HP|]. split; [|by apply (pool_bound _ _ _ _ conns _ _ HP)].
  intros i j li lj d Hi Hj Hd.
  apply (pool_exclusive _ _ _ _ conns _ _ i j li lj d (NoDup_seq _ _) HP Hi Hj Hd).
Qed.

(** Two goroutines hold two different connections. *)
Lemma connpool_exclusive_witness :
  ∃ s ls, run tstep (map (λ i, (i, false)) [0; 0; 0; 0; 1; 2]%nat)
            (benchmarkConnectionPool (λ _, true) 10) = Some (Running s ls) ∧
  Fork.jobs ls = [WorkExec 0%nat; WorkExec 1%nat] ∧
  ch_buf (ch (Fork.inner s)) ++ held_all held (Fork.jobs ls) ≡ₚ conns ∧
  (sumf (length ∘ held) (Fork.jobs ls) ≤ 10)%nat.
Proof.
  eexists _, _. split; [vm_compute; reflexivity|]. split; [reflexivity|].
  destruct (connpool_exclusive (λ _, true) 10
    (Fork.Shared (Pool 10 (Chan 10 (seq 2 8) false)) (WaitGroup 2))
    [Fork.Loop 2; Fork.Job (WorkExec 0%nat); Fork.Job (WorkExec 1%nat)]) as (H1&_&H3).
  - done.
  - apply (run_reachable _ (map (λ i, (i, false)) [0; 0; 0; 0; 1; 2]%nat)). vm_compute. reflexivity.
  - split; [exact H1|exact H3].
Defined.



End ConnPool.
