(* ===== verification/SqlPool.v ===== *)
(** * SqlPool: connectionPool/main.go, and benchmarkPlain1 of temp.go

    [Production] is the benchmark on one configured [*sql.DB] that all goroutines
    share; [Plain] the benchmarks that open a [*sql.DB] per query.  Both are loops
    that start a goroutine per query ([Fork]), each running [Exec] ([Sqldb]). *)

From S2P Require Import Prelude GoLang GoSched GoSync GoFork GoSql.
Import Sqldb.

#[local] Open Scope Z_scope.

Definition err_opening : string := "Error opening database: ".
Definition err_connecting : string := "Error connecting to the database: ".
Definition err_query : string := "panic(err)".

(** The ids of the queries started so far, [1] to [k]. *)
Lemma seqZ_next k : seqZ 1 (Z.of_nat (S k)) ≡ₚ (Z.of_nat k + 1) :: seqZ 1 (Z.of_nat k).
Proof.
  rewrite seqZ_S, Z.add_comm. symmetry. apply Permutation_cons_append.
Qed.

(** ** The shared pool *)

Module Production.

Definition Hour : Z := 3600 * Second.
Definition Minute : Z := 60 * Second.

Definition configure (db : DB) : DB :=
  SetConnMaxIdleTime (Minute * 5) (SetConnMaxLifetime Hour (SetMaxIdleConns 5 (SetMaxOpenConns 10 db))).

(** The tries of one [db.Ping()], and the steps they can take. *)
Definition ping (o : nat → env) (db : DB) : option (DB * bool) :=
  exec_alone (work (Acquire 0)) o 0 db (Acquire 0).

(** [initDBPool]: the value of [dbPool], or the message of [log.Fatal]. *)
Definition initDBPool (opens : bool) (o : nat → env) : res DB :=
  if opens then
    let db := configure fresh_db in
    match ping o db with
    | Some (db, true) => Ret db
    | _ => Panic err_connecting
    end
  else Panic err_opening.

Record shared := MkShared { pool : DB; logged : list Z }.

Inductive job :=
| Run (queryID : Z) (x : exec)   (** in [pool.Exec] *)
| Logged (queryID : Z)
| End (queryID : Z) (ok : bool).

Definition wstep (e : env) (s : shared) (l : job) : Fork.act shared job :=
  match l with
  | Run q (Done true) => Fork.CallsDone s (End q true)
  | Run q (Done false) => Fork.Goes (MkShared (pool s) (logged s ++ [q])) (Logged q)
  | Run q x =>
      match exec_step e (pool s) x with
      | Some (d, x') => Fork.Goes (MkShared d (logged s)) (Run q x')
      | None => Fork.Blocked
      end
  | Logged q => Fork.CallsDone s (End q false)
  | End _ _ => Fork.Blocked
  end.

(** [go func(queryID int) { ... }(i + 1)] *)
Definition start_job (i : Z) : job := Run (int_add i 1) (Acquire 0).

Abbreviation tstep numQueries := (Fork.tstep numQueries start_job wstep).

(** [pool.Stats()] panics if there is no pool. *)
Definition benchmarkProductionPool (dbPool : option DB) : config (Fork.shared shared) (Fork.pc job) :=
  match dbPool with
  | Some d => Fork.start (MkShared d [])
  | None => Dead err_nil
  end.

(** ** Invariant *)

Definition queryID (l : job) : Z := match l with Run q _ | Logged q | End q _ => q end.
Definition in_use (l : job) : nat := match l with Run _ x => holds x | _ => 0 end.
Definition waiting (l : job) : nat := match l with Run _ x => waits x | _ => 0 end.

(** The queries that failed. *)
Definition failed (l : job) : list Z := match l with Logged q | End q false => [q] | _ => [] end.

Definition owes (l : job) : bool := match l with End _ _ => false | _ => true end.
Definition ended (l : job) : Prop := owes l = false.
Definition job_work (l : job) : nat :=
  match l with Run _ x => work x + 2 | Logged _ => 1 | End _ _ => 0 end.

(** The settings of [initDBPool]. *)
Definition limits (d : DB) : Prop := maxOpen d = 10 ∧ maxIdleCount d = 5 ∧ closed d = false.

Record J (s : shared) (ls : list job) : Prop := {
  J_db : db_ok (pool s) (sumf in_use ls) (sumf waiting ls);
  J_limits : limits (pool s);
  J_ids : queryID <$> ls ≡ₚ seqZ 1 (Z.of_nat (length ls));
  J_logged : logged s ≡ₚ held_all failed ls
}.

Lemma limits_same d d' : limits d → same_limits d d' → limits d'.
Proof. intros (?&?&?) (?&?&?). repeat split; congruence. Qed.

Lemma limits_idle d : limits d → maxIdle d = 5.
Proof. intros (_&H&_). unfold maxIdle. by rewrite H. Qed.

(** A job that stays the same query, neither failing nor using the pool. *)
Lemma J_next s l l' d lg rest :
  J s (l :: rest) → queryID l' = queryID l →
  db_ok d (in_use l' + sumf in_use rest) (waiting l' + sumf waiting rest) → limits d →
  (lg ++ failed l ≡ₚ logged s ++ failed l') →
  J (MkShared d lg) (l' :: rest).
Proof.
  intros [Hdb Hl Hid Hlg] Hq Hd Hl' Hf. split; simpl; [done|done|by rewrite Hq|].
  rewrite held_all_cons in *. apply (Permutation_app_inv_l (failed l)).
  rewrite Permutation_app_comm, Hf, Hlg. solve_Permutation.
Qed.

Lemma run_step e s q x l' rest s' :
  J s (Run q x :: rest) →
  match exec_step e (pool s) x with
  | Some (d, x') => Fork.Goes (MkShared d (logged s)) (Run q x')
  | None => Fork.Blocked
  end = Fork.Goes s' l' →
  J s' (l' :: rest) ∧ owes l' = true ∧ (job_work l' < job_work (Run q x))%nat.
Proof.
  intros HJ Hs. destruct (exec_step e (pool s) x) as [[d x']|] eqn:He; simplify_eq.
  destruct (exec_step_ok _ _ _ _ _ _ _ (J_db _ _ HJ) He) as [Hd Hl].
  pose proof (exec_step_work _ _ _ _ _ He). simpl. split; [|split; [done|lia]].
  apply (J_next s (Run q x)); [done|done|done|by eapply limits_same, Hl; apply HJ|done].
Qed.

(** A job that waits for a connection waits for one that is in use. *)
Lemma J_progress s ls l :
  J s ls → l ∈ ls → ¬ ended l → ∃ e l', l' ∈ ls ∧ wstep e s l' ≠ Fork.Blocked.
Proof.
  intros HJ Hin Hf. apply elem_of_Permutation in Hin as [rest Hp].
  destruct l as [q x|q|q ok]; [|by exists fine, (Logged q); rewrite Hp; set_solver|done].
  assert (Hacts : ∀ q x, exec_step fine (pool s) x ≠ None → wstep fine s (Run q x) ≠ Fork.Blocked).
  { intros q' x' Hx. destruct x' as [| | | |[]]; cbn [wstep]; try done;
      destruct (exec_step fine (pool s) _) as [[]|]; congruence. }
  destruct (decide (exec_step fine (pool s) x = None)) as [Hx|Hx].
  2:{ exists fine, (Run q x). rewrite Hp. split; [set_solver|]. by apply Hacts. }
  assert (Hd : db_ok (pool s) (holds x + sumf in_use rest) (waits x + sumf waiting rest)).
  { pose proof (J_db _ _ HJ) as Hd. by rewrite (sumf_Permutation in_use _ _ Hp), (sumf_Permutation waiting _ _ Hp) in Hd. }
  destruct (blocked_holder (pool s) x _ _ Hd) as [[ok ->]|Hpos].
  - destruct (J_limits _ _ HJ) as (->&_). lia.
  - rewrite (limits_idle _ (J_limits _ _ HJ)). destruct (J_limits _ _ HJ) as (->&_). lia.
  - done.
  - exists fine, (Run q (Done ok)). rewrite Hp. split; [set_solver|]. by destruct ok.
  - destruct (sumf_pos _ _ Hpos) as (j&l&Hj&Hl). destruct l as [q' x'|q'|q' ok']; simpl in Hl; try lia.
    exists fine, (Run q' x'). rewrite Hp. split; [apply elem_of_cons; right; by eapply list_elem_of_lookup_2|].
    apply Hacts, holds_acts. destruct x'; simpl in *; lia.
Qed.

Lemma J_laws n : is_int n → Fork.job_laws n start_job wstep J owes ended job_work 14.
Proof.
  intros Hn. split.
  - intros s ls ls' Hp [Hdb Hl Hid Hlg]. split; [|done|by rewrite <-Hp|by rewrite Hlg, Hp].
    by rewrite <-(sumf_Permutation in_use _ _ Hp), <-(sumf_Permutation waiting _ _ Hp).
  - intros i s ls Hi Hlen [Hdb Hl Hid Hlg]. split; [done|done| |done].
    change (start_job i :: ls) with ([start_job i] ++ ls). simpl. rewrite seqZ_next, <-Hid, Hlen.
    rewrite int_add_id by (unfold is_int, min_int, max_int in *; lia). by rewrite Z2Nat.id by lia.
  - done.
  - intros e s l s' l' rest HJ Hs. destruct l as [q x|q|q ok]; [|done|done].
    destruct x as [a|a|a|a|[]]; [by apply (run_step e s q _ _ _ _ HJ) in Hs..|done|].
    simplify_eq/=. split; [|split; [done|lia]].
    apply (J_next s (Run q (Done false)) (Logged q)); [done|done|apply HJ|apply HJ|].
    simpl. by rewrite app_nil_r.
  - intros e s l s' l' rest HJ Hs.
    assert (Hl : ∃ q, (l = Run q (Done true) ∧ l' = End q true ∨ l = Logged q ∧ l' = End q false) ∧ s' = s).
    { destruct l as [q [a|a|a|a|[]]|q|q ok]; exists q; simpl in *; repeat case_match; simplify_eq; auto. }
    destruct Hl as (q&Hl&->). destruct s as [d lg].
    destruct Hl as [[-> ->]|[-> ->]]; simpl; (split; [|split; [done|split; [done|lia]]]);
      (eapply J_next; [exact HJ|done|apply HJ|apply HJ|done]).
  - done.
  - intros i. done.
  - intros s ls l. apply J_progress.
Qed.

Lemma configured : limits (configure fresh_db) ∧ db_ok (configure fresh_db) 0 0.
Proof. done. Qed.

(** [initDBPool] either ends the process or leaves a configured pool, with at most
    the connection of the ping open. *)
Lemma init_ok opens o d : initDBPool opens o = Ret d → limits d ∧ db_ok d 0 0.
Proof.
  destruct configured as [Hl Hok]. unfold initDBPool. destruct opens; [|done].
  destruct (exec_alone_returns (work (Acquire 0)) o 0 (configure fresh_db) (Acquire 0))
    as (d'&ok&He&Hok'&Hl'); [done|by right|done|].
  unfold ping. rewrite He. destruct ok; [|done]. intros [= <-].
  split; [by eapply limits_same|done].
Qed.

Lemma J_start opens o d : initDBPool opens o = Ret d → J (MkShared d []) [].
Proof. intros [Hl Hok]%init_ok. by split. Qed.

Lemma ended_idle ls l : Forall ended (Fork.jobs ls) → l ∈ Fork.jobs ls → in_use l = 0%nat ∧ waiting l = 0%nat.
Proof. intros Hend Hl. rewrite Forall_forall in Hend. specialize (Hend l Hl). by destruct l. Qed.

(** ** Properties *)

(** C15. Bounds of the configured pool.  At every moment of every execution, for any
    number of queries: at most ten connections are open, at most five are idle, and
    every open connection is idle, on its way to a goroutine that waits for it, or
    in use by exactly one of the goroutines; so at most ten queries run at a time. *)
Theorem pool_bounded (opens : bool) (o : nat → env) (numQueries : Z) (d : DB) s ls
    (Hint : is_int numQueries) (Hinit : initDBPool opens o = Ret d)
    (Hr : reachable (tstep numQueries) (benchmarkProductionPool (Some d)) (Running s ls)) :
  let db := pool (Fork.inner s) in
  (numOpen db ≤ 10)%nat ∧ (free db ≤ 5)%nat ∧ (sumf in_use (Fork.jobs ls) ≤ 10)%nat ∧
  numOpen db = (free db + handed db + sumf in_use (Fork.jobs ls))%nat.
Proof.
  pose proof (Fork.fork_invariant _ _ _ _ _ _ _ _ (J_laws _ Hint) Hint _ (J_start _ _ _ Hinit) s ls Hr)
    as [[[Ho Hw Hi Hm] Hl _ _] _].
  rewrite (limits_idle _ Hl) in Hi. destruct Hl as (Hl&_). rewrite Hl in Hm. simpl. lia.
Qed.


(** The pool after an undisturbed [initDBPool]. *)
Definition ready : DB :=
  match initDBPool true (λ _, fine) with Ret d => d | Panic _ => fresh_db end.

(** Three queries; the first has the connection of the ping, the second its own. *)
Definition two_running : list (nat * env) :=
  map (λ i, (i, fine)) [0; 0; 0; 0; 0; 0; 0; 1; 2; 2; 3]%nat.

Lemma pool_bounded_witness :
  ∃ s ls, run (tstep 3) two_running (benchmarkProductionPool (Some ready)) = Some (Running s ls) ∧
  let db := pool (Fork.inner s) in
  numOpen db = 3%nat ∧ sumf in_use (Fork.jobs ls) = 3%nat ∧
  (numOpen db ≤ 10)%nat ∧ (free db ≤ 5)%nat ∧ (sumf in_use (Fork.jobs ls) ≤ 10)%nat ∧
  numOpen db = (free db + handed db + sumf in_use (Fork.jobs ls))%nat.
Proof.
  eexists _, _. split; [vm_compute; reflexivity|]. cbv zeta.
  split; [vm_compute; reflexivity|]. split; [vm_compute; reflexivity|].
  apply (pool_bounded true (λ _, fine) 3 ready); [by_compute|vm_compute; reflexivity|].
  apply (run_reachable _ two_running). vm_compute. reflexivity.
Defined.


End Production.

(** ** A pool per query *)

Module Plain.

(** [benchmarkPlain] of main.go and [benchmarkPlain1] of temp.go differ in what a
    goroutine does when a call fails. *)
Record style := Style {
  open_panics : bool;     (** a failed [sql.Open] panics (in [newConn]), or is logged *)
  close_deferred : bool   (** [defer db.Close()], or [db.Close()] at the end *)
}.

Record shared := MkShared { logged : list Z }.

(** [panics]: the goroutine is panicking and runs its deferred calls. *)
Inductive job :=
| Opening (queryID : Z)                             (** [sql.Open] *)
| Run (queryID : Z) (db : DB) (x : exec)            (** in [db.Exec] *)
| Closing (queryID : Z) (db : DB) (panics : bool)   (** [db.Close()] *)
| Leaving (queryID : Z) (db : DB) (panics : bool)   (** the deferred [wg.Done()] *)
| Panicking (queryID : Z) (db : DB)
| Left (queryID : Z) (db : DB).

Definition log (q : Z) (s : shared) : shared := MkShared (logged s ++ [q]).

Definition wstep (st : style) (e : env) (s : shared) (l : job) : Fork.act shared job :=
  match l with
  | Opening q =>
      match ans e with
      | Success => Fork.Goes s (Run q fresh_db (Acquire 0))
      | _ => if open_panics st then Fork.Goes s (Leaving q fresh_db true)
             else Fork.Goes (log q s) (Leaving q fresh_db false)
      end
  | Run q d (Done true) => Fork.Goes s (Closing q d false)
  | Run q d (Done false) =>
      Fork.Goes (log q s) (if close_deferred st then Closing q d true else Leaving q d true)
  | Run q d x =>
      match exec_step e d x with
      | Some (d', x') => Fork.Goes s (Run q d' x')
      | None => Fork.Blocked
      end
  | Closing q d panics => Fork.Goes s (Leaving q (Close d) panics)
  | Leaving q d panics => Fork.CallsDone s (if panics then Panicking q d else Left q d)
  | Panicking q d => Fork.Dies err_query
  | Left q d => Fork.Blocked
  end.

Definition start_job (i : Z) : job := Opening (int_add i 1).

Abbreviation tstep st numQueries := (Fork.tstep numQueries start_job (wstep st)).

Definition start : config (Fork.shared shared) (Fork.pc job) := Fork.start (MkShared []).

(** [benchmarkPlain(numQueries)]: its goroutines, and what it starts from. *)
Definition benchmarkPlain (numQueries : Z) := (tstep (Style false true) numQueries, start).

(** [benchmarkPlain1()] *)
Definition benchmarkPlain1 := (tstep (Style true false) 50, start).

(** [main] of main.go: the benchmark, and then the pool, which was never made. *)
Definition main := benchmarkPlain 152.
Definition main_exit (dbPool : option DB) : option DB := Close <$> dbPool.

(** ** Invariant *)

Definition queryID (l : job) : Z :=
  match l with
  | Opening q | Run q _ _ | Closing q _ _ | Leaving q _ _ | Panicking q _ | Left q _ => q
  end.

(** The connections a goroutine's own pool has open. *)
Definition conns (l : job) : nat :=
  match l with
  | Run _ d _ | Closing _ d _ | Leaving _ d _ | Panicking _ d | Left _ d => numOpen d
  | Opening _ => 0
  end.

(** A pool used by one goroutine: no limit, nobody else, at most one connection. *)
Record private (d : DB) (x : exec) : Prop := {
  pr_limits : same_limits fresh_db d;
  pr_alone : requests d = 0%nat ∧ handed d = 0%nat ∧ waits x = 0%nat;
  pr_conns : match x with
             | Done _ => numOpen d = free d ∧ (free d ≤ 1)%nat
             | _ => free d = 0%nat ∧ numOpen d = holds x
             end
}.

(** A connection is left open only by a goroutine that panics before its [db.Close()]. *)
Definition job_ok (st : style) (l : job) : Prop :=
  match l with
  | Opening _ => True
  | Run _ d x => private d x
  | Closing _ d _ => numOpen d = free d ∧ (free d ≤ 1)%nat
  | Leaving _ d panics => (numOpen d ≤ (if panics && negb (close_deferred st) then 1 else 0))%nat
  | Panicking _ d => (numOpen d ≤ (if close_deferred st then 0 else 1))%nat
  | Left _ d => numOpen d = 0%nat
  end.

Definition owes (l : job) : bool := match l with Left _ _ | Panicking _ _ => false | _ => true end.
Definition has_left (l : job) : Prop := match l with Left _ _ => True | _ => False end.
#[export] Instance has_left_dec l : Decision (has_left l).
Proof. destruct l; apply _. Defined.

Definition job_work (l : job) : nat :=
  match l with
  | Opening _ => 17
  | Run _ _ x => work x + 4
  | Closing _ _ _ => 3
  | Leaving _ _ _ => 2
  | Panicking _ _ => 1
  | Left _ _ => 0
  end.

Record J (st : style) (s : shared) (ls : list job) : Prop := {
  J_ok : Forall (job_ok st) ls;
  J_ids : queryID <$> ls ≡ₚ seqZ 1 (Z.of_nat (length ls))
}.

(** Field by field. *)
Ltac books := repeat split; simpl; unfold defaultMaxIdleConns in *; first [done|lia].

Lemma private_step e d x :
  private d x → (∃ ok, x = Done ok) ∨
  ∃ d' x', exec_step e d x = Some (d', x') ∧ private d' x'.
Proof.
  intros [(Hm&Hi&Hc) (Hr&Hh&Hw) Hn]. simpl in Hm, Hi, Hc.
  unfold exec_step, exec_move, room, close_idle, put_conn, drop_conn, maxIdle, retry.
  destruct x as [a|a|a|a|ok]; simpl in *; [right..|left; by eexists]; destruct Hn as [Hf Ho];
    rewrite ?Hm, ?Hc, ?Hi, ?Hf, ?Hr, ?Hh, ?Ho; simpl.
  - rewrite decide_False by lia. eexists _, _. split; [done|].
    books.
  - lia.
  - destruct (ans e); [| |case_decide]; eexists _, _; (split; [done|]); books.
  - destruct (ans e), (good e); try case_decide; simpl; eexists _, _; (split; [done|]);
      books.
Qed.

Lemma job_step st e s l s' l' :
  job_ok st l → wstep st e s l = Fork.Goes s' l' →
  job_ok st l' ∧ queryID l' = queryID l ∧ owes l' = owes l ∧ (job_work l' < job_work l)%nat.
Proof.
  intros Hok Hs. destruct l as [q|q d x|q d p|q d p|q d|q d]; simpl in Hs; try done.
  - destruct (ans e), (open_panics st); simplify_eq/=; books.
  - destruct (private_step e d x Hok) as [[ok ->]|(d'&x'&He&Hp)].
    + destruct Hok as [_ _ [Hn Hf]]. destruct ok; [|destruct (close_deferred st) eqn:Hc];
        simplify_eq/=; rewrite ?Hc; books.
    + pose proof (exec_step_work _ _ _ _ _ He) as Hw.
      destruct x; [rewrite He in Hs; simplify_eq/=; repeat split; try apply Hp; simpl in Hw; lia..|done].
  - simplify_eq/=. destruct Hok as [Hn Hf]. destruct p, (close_deferred st); books.
Qed.

Lemma J_same st s s' l l' rest :
  J st s (l :: rest) → queryID l' = queryID l → (job_ok st l → job_ok st l') → J st s' (l' :: rest).
Proof.
  intros [Hok Hid] Hq Hl. apply Forall_cons in Hok as [? ?].
  split; [constructor; auto|]. simpl in *. by rewrite Hq.
Qed.

Lemma plain_laws st n : is_int n → Fork.job_laws n start_job (wstep st) (J st) owes has_left job_work 17.
Proof.
  intros Hn. split.
  - intros s ls ls' Hp [Hok Hid]. split; by rewrite <-Hp.
  - intros i s ls Hi Hlen [Hok Hid]. split; [by constructor|].
    change (start_job i :: ls) with ([start_job i] ++ ls). simpl. rewrite seqZ_next, <-Hid, Hlen.
    rewrite int_add_id by (unfold is_int, min_int, max_int in *; lia). by rewrite Z2Nat.id by lia.
  - done.
  - intros e s l s' l' rest HJ Hs. assert (Hl : job_ok st l) by (by destruct HJ as [[]%Forall_cons _]).
    destruct (job_step st e s l s' l' Hl Hs) as (?&?&?&?). by split; [eapply J_same|].
  - intros e s l s' l' rest HJ Hs.
    destruct l as [q|q d x|q d panics|q d panics|q d|q d]; simpl in Hs; repeat case_match; simplify_eq.
    + split; [|repeat split; simpl; lia]. eapply J_same; [exact HJ|done|]. simpl. by destruct (close_deferred st).
    + split; [|repeat split; simpl; lia]. eapply J_same; [exact HJ|done|]. simpl. lia.
  - by intros [].
  - intros i. simpl. lia.
  - intros s ls l [Hok _] Hl Hf. exists fine, l. split; [done|]. rewrite Forall_forall in Hok.
    specialize (Hok l Hl). destruct l as [q|q d x|q d panics|q d panics|q d|q d]; simpl in *; try done.
    destruct (private_step fine d x Hok) as [[[] ->]|(d'&x'&He&_)]; [done..|].
    destruct x as [| | | |[]]; by rewrite ?He.
Qed.

Lemma J_nil st : J st (MkShared []) [].
Proof. by split. Qed.

Lemma conns_le st l : job_ok st l → (conns l ≤ 1)%nat.
Proof.
  destruct l as [q|q d x|q d panics|q d panics|q d|q d]; simpl; [lia| |lia|case_match; lia|case_match; lia|lia].
  intros [_ _ Hn]. destruct x; simpl in *; lia.
Qed.

(** What the goroutines have come to when nobody owes a [wg.Done()]. *)
Definition settled (st : style) (l : job) : Prop :=
  match l with
  | Left _ d => numOpen d = 0%nat
  | Panicking _ d => close_deferred st = true → numOpen d = 0%nat
  | _ => False
  end.

Lemma ok_settled st l : job_ok st l → owes l = false → settled st l.
Proof. destruct l; simpl; try done. intros Hok _ Hc. rewrite Hc in Hok. lia. Qed.

(** ** Properties *)



(** [k] goroutines are started, and each has asked for its connection. *)
Definition all_connect (k : nat) : list (nat * env) :=
  replicate (2 * k) (0%nat, fine) ++ ((λ i, (i, fine)) <$> (seq 1 k ++ seq 1 k)).

(** C30. Nothing bounds the connections of the un-pooled benchmark but the number of
    queries: never more are open than there are queries, and in [main] there is a
    moment when all 152 have one. *)
Theorem plain_peak :
  (∀ s ls, reachable main.1 main.2 (Running s ls) → (sumf conns (Fork.jobs ls) ≤ 152)%nat) ∧
  (∃ s ls, reachable main.1 main.2 (Running s ls) ∧ sumf conns (Fork.jobs ls) = 152%nat).
Proof.
  split.
  - intros s ls Hr.
    destruct (Fork.fork_invariant _ _ _ _ _ _ _ _ (plain_laws (Style false true) 152 ltac:(by_compute))
                ltac:(by_compute) _ (J_nil _) s ls Hr) as [[Hok _] Hlen].
    trans (sumf (λ _, 1%nat) (Fork.jobs ls)).
    + apply sumf_le. intros l Hl. rewrite Forall_forall in Hok. by eapply conns_le, Hok.
    + rewrite (sumf_const 1). lia.
  - destruct (run main.1 (all_connect 152) main.2) as [[s ls|]|] eqn:Hr.
    + exists s, ls. split; [by eapply run_reachable|].
      assert (Hc : (match run main.1 (all_connect 152) main.2 with
                    | Some (Running s ls) => sumf conns (Fork.jobs ls) | _ => 0%nat end) = 152%nat)
        by (vm_compute; reflexivity). by rewrite Hr in Hc.
    + by vm_compute in Hr.
    + by vm_compute in Hr.
Qed.

End Plain.
