(* ===== verification/Tickets.v ===== *)
(** * Tickets: pessimistic_locking/main.go *)

From S2P Require Import Prelude GoLang GoSched GoSync.

#[local] Open Scope Z_scope.

Module Tickets.

(** ** The package's variables *)

Record shared := Shared {
  tickets : Z;
  mutex : GoSync.mutex;
  wg : waitgroup;
  printed : list Z   (** the values of [i] at which [bookTicket] printed *)
}.

Definition set_tickets t s := Shared t (mutex s) (wg s) (printed s).
Definition set_mutex m s := Shared (tickets s) m (wg s) (printed s).
Definition set_wg w s := Shared (tickets s) (mutex s) w (printed s).
Definition add_printed i s := Shared (tickets s) (mutex s) (wg s) (printed s ++ [i]).

(** [var tickets = 1000] and the zero values of the other two. *)
Definition init : shared := Shared 1000 (Mutex false) (WaitGroup 0) [].

(** The bound of the loop of [bookTicket]. *)
Definition users : Z := 1000.
#[global] Arguments users : simpl never.

Lemma tk_users_eq : users = 1000.
Proof. done. Qed.

(** ** Program points *)

Inductive pc :=
| BookLoop (i : Z)    (** [for ; i < 1000; ] and [wg.Add(1)] *)
| BookSpawn (i : Z)   (** [go reduceTicketCount()] *)
| BookPrint (i : Z)   (** [if i%23 == 0 { fmt.Println(...) }], [i++] *)
| BookRet
| RedLock             (** [mutex.Lock()] *)
| RedRead             (** [tickets--]: the load *)
| RedWrite (t : Z)    (** [tickets--]: the store of the loaded value less one *)
| RedUnlock           (** [mutex.Unlock()] *)
| RedDone             (** [wg.Done()] *)
| RedRet.

Definition tstep (_ : ()) (s : shared) (l : pc) : outcome shared pc :=
  match l with
  | BookLoop i =>
      if decide (i < users)
      then fallible (wg_add (wg s) 1) (λ w, Next (set_wg w s) (BookSpawn i) [])
      else Next s BookRet []
  | BookSpawn i => Next s (BookPrint i) [RedLock]
  | BookPrint i =>
      fallible (int_rem i 23) (λ r,
        Next (if decide (r = 0) then add_printed i s else s) (BookLoop (int_add i 1)) [])
  | RedLock =>
      match lock (mutex s) with
      | Some m => Next (set_mutex m s) RedRead []
      | None => Wait
      end
  | RedRead => Next s (RedWrite (tickets s)) []
  | RedWrite t => Next (set_tickets (int_sub t 1) s) RedUnlock []
  | RedUnlock => fallible (unlock (mutex s)) (λ m, Next (set_mutex m s) RedDone [])
  | RedDone => fallible (wg_done (wg s)) (λ w, Next (set_wg w s) RedRet [])
  | BookRet | RedRet => Wait
  end.

(** A call of [bookTicket] in a fresh process. *)
Definition start : config shared pc := Running init [BookLoop 0].

Definition returned (l : pc) : Prop := l = BookRet ∨ l = RedRet.

#[export] Instance returned_dec l : Decision (returned l).
Proof. destruct l; first [left; unfold returned; tauto | right; intros [|]; discriminate]. Defined.

(** ** Invariant *)

(** Goroutines inside the critical section, goroutines that have decremented,
    goroutines [wg] still waits for, reducers, loop rounds begun. *)
Definition in_cs (l : pc) : nat := match l with RedRead | RedWrite _ | RedUnlock => 1 | _ => 0 end.
Definition decremented (l : pc) : nat := match l with RedUnlock | RedDone | RedRet => 1 | _ => 0 end.
Definition pending (l : pc) : nat :=
  match l with BookSpawn _ | RedLock | RedRead | RedWrite _ | RedUnlock | RedDone => 1 | _ => 0 end.
Definition reducer (l : pc) : nat :=
  match l with RedLock | RedRead | RedWrite _ | RedUnlock | RedDone | RedRet => 1 | _ => 0 end.
Definition rounds (l : pc) : nat :=
  match l with
  | BookLoop i | BookSpawn i => Z.to_nat i
  | BookPrint i => S (Z.to_nat i)
  | BookRet => Z.to_nat users
  | _ => 0
  end.

Definition room (l : pc) : nat :=
  match l with
  | BookLoop i | BookSpawn i => Z.to_nat (users - i)
  | BookPrint i => Z.to_nat (users - i - 1)
  | _ => 0
  end.

(** The values a program point may hold. *)
Definition pc_ok (s : shared) (l : pc) : Prop :=
  match l with
  | BookLoop i => 0 ≤ i ≤ users
  | BookSpawn i | BookPrint i => 0 ≤ i < users
  | RedWrite t => t = tickets s
  | _ => True
  end.

Record inv (s : shared) (ls : list pc) : Prop := {
  inv_mutex : sumf in_cs ls = if locked (mutex s) then 1%nat else 0%nat;
  inv_tickets : tickets s = 1000 - Z.of_nat (sumf decremented ls);
  inv_wg : wg_count (wg s) = Z.of_nat (sumf pending ls);
  inv_rounds : sumf reducer ls = sumf rounds ls;
  inv_room : (sumf rounds ls + sumf room ls)%nat = Z.to_nat users;
  inv_pc : ∀ k l, ls !! k = Some l → pc_ok s l
}.

Lemma decremented_reducer ls : (sumf decremented ls ≤ sumf reducer ls)%nat.
Proof. apply sumf_le. intros l _. by destruct l; simpl; lia. Qed.

Lemma tk_inv_start : inv init [BookLoop 0].
Proof.
  split; try done. intros [|k] l; simpl; [intros [= <-]; simpl; unfold users; lia|done].
Qed.

(** Only the holder of the mutex writes [tickets], so a loaded value is current. *)
Lemma tk_pc_ok_other s s' ls i l k x :
  inv s ls → ls !! i = Some l → k ≠ i → ls !! k = Some x →
  (tickets s' = tickets s ∨ in_cs l = 1%nat) → pc_ok s' x.
Proof.
  intros HI Hl Hk Hx Ht. pose proof (inv_pc _ _ HI k x Hx) as Hok.
  destruct x; try exact Hok. destruct Ht as [Ht|Hcs]; [by simpl; rewrite Ht|exfalso].
  pose proof (sumf_two in_cs ls i k l _ Hl Hx ltac:(done)) as H2.
  rewrite (inv_mutex _ _ HI), Hcs in H2. simpl in H2. destruct (locked _); lia.
Qed.

Lemma tk_inv_pc_step s s' ls i l l' sp :
  inv s ls → ls !! i = Some l → (tickets s' = tickets s ∨ in_cs l = 1%nat) →
  pc_ok s' l' → Forall (pc_ok s') sp →
  ∀ k x, (<[i:=l']> ls ++ sp) !! k = Some x → pc_ok s' x.
Proof.
  intros HI Hl Ht Hl' Hsp k x Hx.
  destruct (lookup_pool ls sp i l l' k x Hl Hx) as [[_ ->]|[[? ?]|[_ Hin]]]; [done| |].
  - by apply (tk_pc_ok_other s s' ls i l k x).
  - rewrite Forall_forall in Hsp. by apply Hsp.
Qed.

(** Close the five clauses of [inv] after an action. *)
Ltac solve_inv HI Hl :=
  let Hm := fresh in let Ht := fresh in let Hw := fresh in let Hr := fresh in let Hro := fresh in
  pose proof (inv_mutex _ _ HI) as Hm; pose proof (inv_tickets _ _ HI) as Ht;
  pose proof (inv_wg _ _ HI) as Hw; pose proof (inv_rounds _ _ HI) as Hr;
  pose proof (inv_room _ _ HI) as Hro; pose proof tk_users_eq;
  constructor;
  [ try (pool_sums; repeat case_match; simplify_eq; lia) | try pool_lia | try pool_lia | try pool_lia | try pool_lia
  | eapply (tk_inv_pc_step _ _ _ _ _ _ _ HI Hl); simpl;
    first [by left | by right | lia | by repeat constructor | idtac] ].

Lemma tk_inv_step : preserves tstep inv.
Proof.
  intros [] s ls i l HI Hl. pose proof (inv_pc _ _ HI i l Hl) as Hok.
  pose proof (decremented_reducer ls) as Hdr.
  pose proof (sumf_lookup_le in_cs ls i l Hl) as Hcs.
  pose proof (sumf_lookup_le pending ls i l Hl) as Hpe.
  destruct l; simpl in *; try done.
  - case_decide; [|by solve_inv HI Hl]. unfold wg_add.
    rewrite decide_False by (rewrite (inv_wg _ _ HI); lia). simpl. solve_inv HI Hl.
  - solve_inv HI Hl.
  - rewrite int_add_id by (unfold is_int, min_int, max_int; pose proof tk_users_eq; lia).
    case_decide; solve_inv HI Hl.
  - unfold lock. destruct (locked (mutex s)) eqn:Hlk; [done|]. solve_inv HI Hl.
  - solve_inv HI Hl.
  - assert (is_int (t - 1)) by (unfold is_int, min_int, max_int; pose proof tk_users_eq;
      pose proof (inv_tickets _ _ HI); pose proof (inv_rounds _ _ HI); pose proof (inv_room _ _ HI); lia).
    unfold int_sub. rewrite wrap64_id by done. solve_inv HI Hl.
  - pose proof (inv_mutex _ _ HI) as Hmx. unfold unlock.
    destruct (locked (mutex s)) eqn:Hlk; [|lia]. simpl. solve_inv HI Hl.
  - unfold wg_done, wg_add. rewrite decide_False by (rewrite (inv_wg _ _ HI); lia). simpl.
    solve_inv HI Hl.
Qed.

(** ** Termination *)

Definition work (l : pc) : nat :=
  match l with
  | BookLoop i => 9 * Z.to_nat (users - i) + 1
  | BookSpawn i => 9 * Z.to_nat (users - i)
  | BookPrint i => 9 * Z.to_nat (users - i) - 6
  | RedLock => 5
  | RedRead => 4
  | RedWrite _ => 3
  | RedUnlock => 2
  | RedDone => 1
  | BookRet | RedRet => 0
  end.

Lemma tk_work_decreases : decreases tstep inv work.
Proof.
  intros c s ls i l s' l' sp HI Hl Ht. pose proof (inv_pc _ _ HI i l Hl) as Hok.
  pose proof tk_users_eq.
  destruct l; simpl in *; unfold fallible, wg_done, wg_add, unlock, lock, int_rem in *;
    repeat case_match; simplify_eq/=; unfold sumf; simpl;
    rewrite ?int_add_id by (unfold is_int, min_int, max_int; lia); lia.
Qed.

(** Unless every goroutine has returned, one can act: the holder of the mutex,
    or, when it is free, any goroutine. *)
Lemma tk_progress s ls l i :
  inv s ls → ls !! i = Some l → ¬ returned l →
  ∃ c j l', ls !! j = Some l' ∧ tstep c s l' ≠ Wait.
Proof.
  intros HI Hl Hn. exists (). pose proof (inv_mutex _ _ HI) as Hm.
  destruct (locked (mutex s)) eqn:Hlk.
  - destruct (sumf_pos in_cs ls) as (j&l'&Hj&Hcs); [lia|]. exists j, l'. split; [done|].
    destruct l'; simpl in *; try lia; try done. unfold unlock. by rewrite Hlk.
  - exists i, l. split; [done|]. unfold returned in Hn.
    destruct l; simpl; unfold fallible, lock, wg_done, wg_add, unlock; rewrite ?Hlk;
      repeat case_match; naive_solver.
Qed.

(** Mutual exclusion: whatever the interleaving of the goroutines that
    [bookTicket] starts, at most one is between [mutex.Lock()] and
    [mutex.Unlock()], and [tickets] is always 1000 minus the number of
    goroutines that have executed the decrement. *)
Theorem tickets_mutual_exclusion (σ : config shared pc) (Hr : reachable tstep start σ) :
  ∃ s ls, σ = Running s ls ∧ (sumf in_cs ls ≤ 1)%nat ∧
    tickets s = 1000 - Z.of_nat (sumf decremented ls).
Proof.
  destruct (invariant_reachable tstep inv init [BookLoop 0] σ tk_inv_step tk_inv_start Hr)
    as (s&ls&->&HI).
  exists s, ls. split; [done|]. split; [|apply HI].
  rewrite (inv_mutex _ _ HI). by destruct (locked _); lia.
Qed.

(** The first goroutine has taken the mutex and the second one is waiting. *)
Lemma tickets_mutual_exclusion_witness :
  ∃ σ, run tstep (map (λ i, (i, ())) [0; 0; 0; 0; 0; 0; 1; 1; 1]%nat) start = Some σ ∧
  ∃ s ls, σ = Running s ls ∧ (sumf in_cs ls ≤ 1)%nat ∧
    tickets s = 1000 - Z.of_nat (sumf decremented ls).
Proof.
  eexists. split; [vm_compute; reflexivity|]. apply tickets_mutual_exclusion.
  apply (run_reachable _ (map (λ i, (i, ())) [0; 0; 0; 0; 0; 0; 1; 1; 1]%nat)). reflexivity.
Defined.

(** C20. [bookTicket] books exactly the 1000 tickets: every execution is finite,
    none panics or deadlocks, and one that cannot be continued has started
    exactly 1000 goroutines, all of which have returned, with [tickets == 0], the
    mutex released and the wait group at zero. *)
Theorem tickets_all_booked :
  sn (step tstep) start ∧
  ∀ σ, reachable tstep start σ → halted tstep σ →
    ∃ s ls, σ = Running s ls ∧ Forall returned ls ∧ sumf reducer ls = 1000%nat ∧
      tickets s = 0 ∧ locked (mutex s) = false ∧ wg_wait (wg s) = Some ().
Proof.
  destruct (completes tstep inv returned work init [BookLoop 0] tk_inv_step tk_work_decreases tk_progress
              tk_inv_start) as [Hsn Hfin].
  split; [done|]. intros σ Hr Hh. destruct (Hfin σ Hr Hh) as (s&ls&->&HI&Hret).
  exists s, ls. split; [done|]. split; [done|].
  assert (Hz : ∀ l, l ∈ ls → in_cs l = 0%nat ∧ pending l = 0%nat ∧ room l = 0%nat
                              ∧ decremented l = reducer l).
  { intros l Hl. eapply Forall_forall in Hret as [->| ->]; [done..|exact Hl]. }
  assert (Hd : sumf decremented ls = sumf reducer ls).
  { apply Nat.le_antisymm; apply sumf_le; intros l Hl%Hz; lia. }
  pose proof (sumf_zero in_cs ls ltac:(intros l Hl%Hz; lia)) as Hcs.
  pose proof (sumf_zero pending ls ltac:(intros l Hl%Hz; lia)) as Hpe.
  pose proof (sumf_zero room ls ltac:(intros l Hl%Hz; lia)) as Hroom.
  destruct HI as [Hm Ht Hw Hr' Hro _]. pose proof tk_users_eq.
  split; [lia|]. split; [lia|]. split; [by destruct (locked _); [lia|]|].
  unfold wg_wait. rewrite decide_True by lia. done.
Qed.

End Tickets.
