(* ===== verification/ObdIssue.v ===== *)
(** * ObdIssue: pessimistic_locking/obdIssue.go and the [main] that drives it *)

From S2P Require Import Prelude GoLang GoSched GoSync.

#[local] Open Scope Z_scope.

Module Obd.

(** ** The unbuffered channel of one call

    The caller is the only receiver.  A send completes by handing the value to
    the waiting receiver; it blocks while there is none and panics once the
    channel is closed, also when it was already blocked. *)
Inductive rendezvous := Idle | Waiting | Delivered (data : string).

Record uchan := UChan { slot : rendezvous; closed : bool }.

Definition make_uchan : uchan := UChan Idle false.

Record shared := Shared {
  chans : list uchan;       (** the channels the calls have made *)
  wg : waitgroup;
  printed : list string     (** what the goroutines of [main] printed *)
}.

Definition set_chan (ch : nat) (u : uchan) (s : shared) : shared :=
  Shared (<[ch := u]> (chans s)) (wg s) (printed s).
Definition new_chan (s : shared) : shared := Shared (chans s ++ [make_uchan]) (wg s) (printed s).
Definition set_wg w s := Shared (chans s) w (printed s).
Definition add_printed r s := Shared (chans s) (wg s) (printed s ++ [r]).

Definition init : shared := Shared [] (WaitGroup 0) [].

(** The bound of the loop of [main]. *)
Definition calls : Z := 1000.
#[global] Arguments calls : simpl never.

Definition govt_data : string := "NHIS data".
Definition integration_data : string := "Integration data".
Definition timeout_data : string := "timeout".
Definition main_returned : string := "main returned".

(** ** Program points

    [flag] is the value of the goroutine's own [atomic.Bool]: the variable
    [isChannelClosed] of the caller, the parameter [isChanClosed] of the two
    senders, which receive a copy. *)
Inductive pc :=
| MainLoop (i : Z)
| MainSpawn (i : Z)
| MainWait
| CallMake                                  (** [make(chan interface{})], [atomic.Bool{}] *)
| CallGovt (ch : nat) (flag : bool)         (** [go getEnrichedDataFromGovt(...)] *)
| CallIntegration (ch : nat) (flag : bool)  (** [go getEnrichedDataFromIntegration(...)] *)
| CallSelect (ch : nat) (flag : bool)       (** [select] *)
| CallWaiting (ch : nat) (flag : bool)      (** blocked in the [select] *)
| CallStore (ch : nat) (flag : bool) (r : string)  (** deferred: [isChannelClosed.Store(true)] *)
| CallClose (ch : nat) (flag : bool) (r : string)  (** deferred: [close(enrichedDataCh)] *)
| CallPrint (ch : nat) (r : string)         (** [fmt.Println(enrichedData)] *)
| CallDone (ch : nat)                       (** [wg.Done()] *)
| CallRet (ch : nat)
| SendSleep (ch : nat) (flag : bool) (data : string)  (** [time.Sleep] *)
| SendCheck (ch : nat) (flag : bool) (data : string)  (** [if !isChanClosed.Load()] *)
| SendSend (ch : nat) (data : string)       (** [ch <- data] *)
| SendRet.

(** The choice says whether the 45 s timer of the acting call has fired. *)
Definition tstep (fired : bool) (s : shared) (l : pc) : outcome shared pc :=
  match l with
  | MainLoop i =>
      if decide (i < calls)
      then fallible (wg_add (wg s) 1) (λ w, Next (set_wg w s) (MainSpawn i) [])
      else Next s MainWait []
  | MainSpawn i => Next s (MainLoop (int_add i 1)) [CallMake]
  | MainWait => match wg_wait (wg s) with Some _ => Crash main_returned | None => Wait end
  | CallMake => Next (new_chan s) (CallGovt (length (chans s)) false) []
  | CallGovt ch flag => Next s (CallIntegration ch flag) [SendSleep ch flag govt_data]
  | CallIntegration ch flag => Next s (CallSelect ch flag) [SendSleep ch flag integration_data]
  | CallSelect ch flag =>
      match chans s !! ch with
      | Some u =>
          if fired then Next s (CallStore ch flag timeout_data) []
          else Next (set_chan ch (UChan Waiting (closed u)) s) (CallWaiting ch flag) []
      | None => Wait
      end
  | CallWaiting ch flag =>
      match chans s !! ch with
      | Some u =>
          match slot u with
          | Delivered data => Next (set_chan ch (UChan Idle (closed u)) s) (CallStore ch flag data) []
          | _ =>
              if fired
              then Next (set_chan ch (UChan Idle (closed u)) s) (CallStore ch flag timeout_data) []
              else Wait
          end
      | None => Wait
      end
  | CallStore ch flag r => Next s (CallClose ch true r) []
  | CallClose ch flag r =>
      match chans s !! ch with
      | Some u => Next (set_chan ch (UChan (slot u) true) s) (CallPrint ch r) []
      | None => Wait
      end
  | CallPrint ch r => Next (add_printed r s) (CallDone ch) []
  | CallDone ch => fallible (wg_done (wg s)) (λ w, Next (set_wg w s) (CallRet ch) [])
  | SendSleep ch flag data => Next s (SendCheck ch flag data) []
  | SendCheck ch flag data => Next s (if flag then SendRet else SendSend ch data) []
  | SendSend ch data =>
      match chans s !! ch with
      | Some u =>
          if closed u then Crash err_send_closed
          else match slot u with
               | Waiting => Next (set_chan ch (UChan (Delivered data) (closed u)) s) SendRet []
               | _ => Wait
               end
      | None => Wait
      end
  | CallRet _ | SendRet => Wait
  end.

Definition start : config shared pc := Running init [MainLoop 0].

(** ** Counting, per call *)

(** The channel a caller owns, a sender uses. *)
Definition call_of (l : pc) : option nat :=
  match l with
  | CallGovt ch _ | CallIntegration ch _ | CallSelect ch _ | CallWaiting ch _
  | CallStore ch _ _ | CallClose ch _ _ | CallPrint ch _ | CallDone ch | CallRet ch => Some ch
  | _ => None
  end.
Definition send_of (l : pc) : option nat :=
  match l with SendSleep ch _ _ | SendCheck ch _ _ | SendSend ch _ => Some ch | _ => None end.

Definition at_chan (k : nat) (o : option nat) : nat :=
  match o with Some ch => if decide (ch = k) then 1 else 0 | None => 0 end.

Definition caller (k : nat) (l : pc) : nat := at_chan k (call_of l).
Definition sender (k : nat) (l : pc) : nat := at_chan k (send_of l).
(** Senders of [k] its caller has not started yet. *)
Definition unstarted (k : nat) (l : pc) : nat :=
  match l with
  | CallGovt ch _ => 2 * at_chan k (Some ch)
  | CallIntegration ch _ => at_chan k (Some ch)
  | _ => 0
  end.
Definition receiving (k : nat) (l : pc) : nat :=
  match l with CallWaiting ch _ => at_chan k (Some ch) | _ => 0 end.
Definition selected (k : nat) (l : pc) : nat :=
  match l with
  | CallStore ch _ _ | CallClose ch _ _ | CallPrint ch _ | CallDone ch | CallRet ch => at_chan k (Some ch)
  | _ => 0
  end.
Definition returned_call (l : pc) : option nat :=
  match l with CallPrint ch _ | CallDone ch | CallRet ch => Some ch | _ => None end.

Definition delivered (u : uchan) : nat := match slot u with Delivered _ => 1 | _ => 0 end.
Definition busy (u : uchan) : nat := match slot u with Idle => 0 | _ => 1 end.

Definition pending (l : pc) : nat :=
  match l with
  | MainSpawn _ | CallMake | CallGovt _ _ | CallIntegration _ _ | CallSelect _ _ | CallWaiting _ _
  | CallStore _ _ _ | CallClose _ _ _ | CallPrint _ _ | CallDone _ => 1
  | _ => 0
  end.

Definition data_ok (r : string) : Prop := r = govt_data ∨ r = integration_data.
Definition result_ok (r : string) : Prop := data_ok r ∨ r = timeout_data.

Definition pc_ok (s : shared) (l : pc) : Prop :=
  match l with
  | MainLoop i => 0 ≤ i ≤ calls
  | MainSpawn i => 0 ≤ i < calls
  | CallGovt ch flag | CallIntegration ch flag | CallSelect ch flag | CallWaiting ch flag =>
      (ch < length (chans s))%nat ∧ flag = false
  | CallStore ch _ r | CallClose ch _ r => (ch < length (chans s))%nat ∧ result_ok r
  | CallPrint ch r => closed <$> chans s !! ch = Some true ∧ result_ok r
  | CallDone ch | CallRet ch => closed <$> chans s !! ch = Some true
  | SendSleep ch flag data | SendCheck ch flag data =>
      (ch < length (chans s))%nat ∧ flag = false ∧ data_ok data
  | SendSend ch data => (ch < length (chans s))%nat ∧ data_ok data
  | MainWait | CallMake | SendRet => True
  end.

(** What holds of call [k]: one caller, the channel busy exactly while the
    caller is blocked in the [select], and the two senders accounted for. *)
Record chan_inv (k : nat) (u : uchan) (ls : list pc) : Prop := {
  ci_caller : sumf (caller k) ls = 1%nat;
  ci_busy : busy u = sumf (receiving k) ls;
  ci_senders : (2 ≤ sumf (sender k) ls + sumf (unstarted k) ls + delivered u + sumf (selected k) ls)%nat;
  ci_data : match slot u with Delivered d => data_ok d | _ => True end
}.

Record inv (s : shared) (ls : list pc) : Prop := {
  inv_chan : ∀ k u, chans s !! k = Some u → chan_inv k u ls;
  inv_fresh : ∀ k, (length (chans s) ≤ k)%nat → sumf (caller k) ls = 0%nat ∧ sumf (receiving k) ls = 0%nat;
  inv_wg : wg_count (wg s) = Z.of_nat (sumf pending ls);
  inv_pc : ∀ k l, ls !! k = Some l → pc_ok s l;
  inv_main : ∃ l, ls !! 0%nat = Some l ∧ match l with MainLoop _ | MainSpawn _ | MainWait => True | _ => False end;
  inv_printed : Forall result_ok (printed s)
}.

(** ** The invariant is kept *)

Lemma calls_eq : calls = 1000.
Proof. done. Qed.

Definition is_main (l : pc) : bool :=
  match l with MainLoop _ | MainSpawn _ | MainWait => true | _ => false end.

(** Channels are only added, and stay closed once closed. *)
Definition grows (s s' : shared) : Prop :=
  (length (chans s) ≤ length (chans s'))%nat ∧
  ∀ k, closed <$> chans s !! k = Some true → closed <$> chans s' !! k = Some true.

Lemma grows_same s s' : chans s' = chans s → grows s s'.
Proof. intros He. split; by rewrite He. Qed.

Lemma grows_new s : grows s (new_chan s).
Proof.
  split; simpl; [rewrite length_app; lia|]. intros k.
  destruct (chans s !! k) as [u|] eqn:Hk; [|done]. by erewrite lookup_app_l_Some.
Qed.

Lemma grows_set s ch u u' :
  chans s !! ch = Some u → (closed u = true → closed u' = true) → grows s (set_chan ch u' s).
Proof.
  intros Hu Hc. split; simpl; [by rewrite length_insert|]. intros k Hk.
  rewrite list_lookup_insert. case_decide as Hd; [|done]. destruct Hd as [-> _].
  rewrite Hu in Hk. simpl in *. f_equal. apply Hc. congruence.
Qed.

Lemma pc_ok_grows s s' l : grows s s' → pc_ok s l → pc_ok s' l.
Proof.
  intros [Hlen Hcl]. destruct l; simpl; intros; destruct_and?; split_and?; auto with lia.
Qed.

Lemma obd_inv_pc_step s s' ls i l l' sp :
  inv s ls → ls !! i = Some l → grows s s' → pc_ok s' l' → Forall (pc_ok s') sp →
  ∀ k x, (<[i:=l']> ls ++ sp) !! k = Some x → pc_ok s' x.
Proof.
  intros HI Hl Hg Hl' Hsp k x Hx.
  destruct (lookup_pool ls sp i l l' k x Hl Hx) as [[_ ->]|[[_ Hk]|[_ Hin]]]; [done| |].
  - by eapply pc_ok_grows, inv_pc.
  - rewrite Forall_forall in Hsp. by apply Hsp.
Qed.

Lemma inv_main_step s ls i l l' (sp : list pc) :
  inv s ls → ls !! i = Some l → is_main l = is_main l' →
  ∃ l0, (<[i:=l']> ls ++ sp) !! 0%nat = Some l0 ∧
        match l0 with MainLoop _ | MainSpawn _ | MainWait => True | _ => False end.
Proof.
  intros HI Hl He. destruct (inv_main _ _ HI) as (l0&H0&Hm).
  destruct (decide (i = 0%nat)) as [->|Hne].
  - exists l'. rewrite lookup_app_l by (rewrite length_insert; by eapply lookup_lt_Some).
    rewrite list_lookup_insert_eq by (by eapply lookup_lt_Some). split; [done|].
    assert (l0 = l) as -> by congruence. by destruct l, l'.
  - exists l0. split; [|done]. erewrite lookup_app_l_Some; [done|].
    by rewrite list_lookup_insert_ne.
Qed.

(** How a call's account changes when goroutine [i] acts: only its own and the
    new goroutines' contributions do. *)
Lemma chan_inv_step k u u' ls i l l' sp :
  chan_inv k u ls → ls !! i = Some l →
  (caller k l' + sumf (caller k) sp = caller k l)%nat →
  (busy u' + receiving k l = busy u + receiving k l' + sumf (receiving k) sp)%nat →
  (sender k l + unstarted k l + delivered u + selected k l
   ≤ sender k l' + sumf (sender k) sp + unstarted k l' + sumf (unstarted k) sp
     + delivered u' + selected k l' + sumf (selected k) sp)%nat →
  match slot u' with Delivered d => data_ok d | _ => True end →
  chan_inv k u' (<[i:=l']> ls ++ sp).
Proof.
  intros [Hc Hb Hs _] Hl H1 H2 H3 H4.
  pose proof (sumf_insert (caller k) ls i l l' Hl). pose proof (sumf_insert (receiving k) ls i l l' Hl).
  pose proof (sumf_insert (sender k) ls i l l' Hl). pose proof (sumf_insert (unstarted k) ls i l l' Hl).
  pose proof (sumf_insert (selected k) ls i l l' Hl).
  split; rewrite ?sumf_app; [lia|lia|lia|done].
Qed.

(** A call whose channel and account the action does not touch. *)
Definition neutral (l l' : pc) (sp : list pc) (k : nat) : Prop :=
  (caller k l' + sumf (caller k) sp = caller k l ∧ receiving k l' + sumf (receiving k) sp = receiving k l
  ∧ sender k l + unstarted k l + selected k l
    ≤ sender k l' + sumf (sender k) sp + unstarted k l' + sumf (unstarted k) sp
      + selected k l' + sumf (selected k) sp)%nat.

Lemma chan_inv_neutral k u ls i l l' sp :
  chan_inv k u ls → ls !! i = Some l → neutral l l' sp k → chan_inv k u (<[i:=l']> ls ++ sp).
Proof.
  intros HI Hl (?&?&?). eapply chan_inv_step; [done|done|lia|lia|lia|apply HI].
Qed.

Lemma inv_fresh_step s ls i l l' sp :
  inv s ls → ls !! i = Some l →
  (∀ k, (length (chans s) ≤ k)%nat → neutral l l' sp k) →
  ∀ k, (length (chans s) ≤ k)%nat →
    sumf (caller k) (<[i:=l']> ls ++ sp) = 0%nat ∧ sumf (receiving k) (<[i:=l']> ls ++ sp) = 0%nat.
Proof.
  intros HI Hl Hn k Hk. destruct (inv_fresh _ _ HI k Hk). destruct (Hn k Hk) as (?&?&?).
  pose proof (sumf_insert (caller k) ls i l l' Hl). pose proof (sumf_insert (receiving k) ls i l l' Hl).
  rewrite !sumf_app. lia.
Qed.

(** Actions that leave the channels alone. *)
Lemma obd_inv_local s ls i l s' l' sp :
  inv s ls → ls !! i = Some l → chans s' = chans s →
  (∀ k, neutral l l' sp k) →
  wg_count (wg s') + Z.of_nat (pending l) = wg_count (wg s) + Z.of_nat (pending l' + sumf pending sp) →
  is_main l = is_main l' → pc_ok s' l' → Forall (pc_ok s') sp → Forall result_ok (printed s') →
  inv s' (<[i:=l']> ls ++ sp).
Proof.
  intros HI Hl Hch Hn Hw Hm Hl' Hsp Hp. split; try done.
  - rewrite Hch. intros k u Hk. eapply chan_inv_neutral; [by apply HI|done|done].
  - rewrite Hch. apply (inv_fresh_step s ls i l l' sp HI Hl). auto.
  - pose proof (inv_wg _ _ HI). pose proof (sumf_insert pending ls i l l' Hl). rewrite sumf_app. lia.
  - by eapply obd_inv_pc_step; [..|apply grows_same| |].
  - by eapply inv_main_step.
Qed.

(** Actions on the channel [ch] of one call. *)
Lemma obd_inv_set s ls i l l' ch u u' :
  inv s ls → ls !! i = Some l → chans s !! ch = Some u →
  (∀ k, k ≠ ch → neutral l l' [] k) →
  (chan_inv ch u ls → chan_inv ch u' (<[i:=l']> ls ++ [])) →
  (closed u = true → closed u' = true) →
  pending l = pending l' → is_main l = is_main l' → pc_ok (set_chan ch u' s) l' →
  inv (set_chan ch u' s) (<[i:=l']> ls ++ []).
Proof.
  intros HI Hl Hu Hn Hci Hcl Hw Hm Hl'. split.
  - simpl. intros k v [(->&->&_)|[Hne Hk]]%list_lookup_insert_Some.
    + apply Hci, HI, Hu.
    + eapply chan_inv_neutral; [by apply HI|done|by apply Hn].
  - simpl. rewrite length_insert. apply (inv_fresh_step s ls i l l' [] HI Hl).
    intros k Hk. apply Hn. apply lookup_lt_Some in Hu. lia.
  - pose proof (inv_wg _ _ HI). pose proof (sumf_insert pending ls i l l' Hl).
    rewrite sumf_app, sumf_nil. simpl. lia.
  - eapply obd_inv_pc_step; [done|done|by eapply grows_set|done|done].
  - by eapply inv_main_step.
  - apply HI.
Qed.

(** Every action is local to the caller, or concerns the channel of one call. *)
Ltac solve_neutral :=
  intros k; intros; unfold neutral, caller, receiving, sender, unstarted, selected, at_chan, sumf; simpl;
  repeat case_decide; simplify_eq; lia.

Ltac solve_local HI Hl :=
  eapply (obd_inv_local _ _ _ _ _ _ _ HI Hl); [done|solve_neutral| | done| | |try apply HI];
  unfold sumf; simpl; try lia; try done; auto;
  try lazymatch goal with |- Forall _ [_] => apply Forall_singleton; simpl end; unfold result_ok, data_ok in *; intuition (try (done || lia)).

Lemma inv_new_chan s ls i :
  inv s ls → ls !! i = Some CallMake →
  inv (new_chan s) (<[i:=CallGovt (length (chans s)) false]> ls ++ []).
Proof.
  intros HI Hl. split.
  - simpl. intros k u [Hk|[Hlen Hk]]%lookup_app_Some.
    + pose proof (lookup_lt_Some _ _ _ Hk).
      eapply chan_inv_neutral; [by apply HI|done|]. revert k Hk H. solve_neutral.
    + apply list_lookup_singleton_Some in Hk as [Hk <-].
      assert (k = length (chans s)) as -> by lia.
      destruct (inv_fresh _ _ HI (length (chans s)) ltac:(lia)).
      split; try done; pool_sums; unfold caller, receiving, sender, unstarted, selected, at_chan in *;
        simpl in *; rewrite ?decide_True in * by done; unfold busy, delivered; simpl; lia.
  - simpl. rewrite length_app. simpl. intros k Hk. destruct (inv_fresh _ _ HI k ltac:(lia)).
    pool_sums. unfold caller, receiving, at_chan in *; simpl in *.
    rewrite decide_False in * by lia. lia.
  - pose proof (inv_wg _ _ HI). simpl. pool_lia.
  - eapply obd_inv_pc_step; [done|done|apply grows_new| |done]. simpl. rewrite length_app. simpl. split; [lia|done].
  - by eapply inv_main_step.
  - apply HI.
Qed.

Lemma receiving_caller k l : (receiving k l ≤ caller k l)%nat.
Proof. destruct l; unfold receiving, caller; simpl; lia. Qed.

(** The channel of a caller that is not in its [select] is idle. *)
Lemma busy_caller ch u ls i l :
  chan_inv ch u ls → ls !! i = Some l → caller ch l = 1%nat → busy u = receiving ch l.
Proof.
  intros [Hc Hb _ _] Hl H1. rewrite Hb.
  rewrite (sumf_split (caller ch) _ _ _ Hl) in Hc. rewrite (sumf_split (receiving ch) _ _ _ Hl).
  pose proof (sumf_le (receiving ch) (caller ch) (take i ls ++ drop (S i) ls)
    (λ x _, receiving_caller ch x)). lia.
Qed.

Lemma caller_self ch l : call_of l = Some ch → caller ch l = 1%nat.
Proof. intros Hc. unfold caller, at_chan. by rewrite Hc, decide_True. Qed.

(** The account of the channel itself, by computation. *)
Ltac solve_set HI Hl Hu :=
  eapply (obd_inv_set _ _ _ _ _ _ _ _ HI Hl Hu);
  [ solve_neutral
  | intros Hci; eapply (chan_inv_step _ _ _ _ _ _ _ _ Hci Hl);
    pose proof (ci_data _ _ _ Hci);
    try pose proof (busy_caller _ _ _ _ _ Hci Hl ltac:(by apply caller_self));
    unfold caller, receiving, sender, unstarted, selected, at_chan, busy, delivered, sumf in *; simpl in *;
    rewrite ?decide_True in * by done; repeat case_match; simplify_eq/=; try lia; try done
  | first [done | simpl; congruence] | done | done | ].

Lemma obd_inv_step : preserves_alive tstep inv.
Proof.
  intros fired s ls i l HI Hl. pose proof (inv_pc _ _ HI i l Hl) as Hok. pose proof calls_eq.
  pose proof (inv_wg _ _ HI) as Hw. pose proof (sumf_lookup_le pending ls i l Hl) as Hpe.
  destruct l; simpl in *; try done.
  - case_decide; [|by solve_local HI Hl]. unfold wg_add. rewrite decide_False by lia. simpl.
    solve_local HI Hl.
  - rewrite int_add_id by (unfold is_int, min_int, max_int; lia). solve_local HI Hl.
  - by destruct (wg_wait _).
  - by apply inv_new_chan.
  - solve_local HI Hl.
  - solve_local HI Hl.
  - destruct (chans s !! ch) as [u|] eqn:Hu; [|done].
    destruct fired; [by solve_local HI Hl|]. solve_set HI Hl Hu. simpl. by rewrite length_insert.
  - destruct (chans s !! ch) as [u|] eqn:Hu; [|done]. destruct Hok as [Hlen ->].
    destruct (slot u) as [| |data] eqn:Hsl.
    + destruct fired; [|done]. solve_set HI Hl Hu. simpl. rewrite length_insert. split; [done|by right].
    + destruct fired; [|done]. solve_set HI Hl Hu. simpl. rewrite length_insert. split; [done|by right].
    + solve_set HI Hl Hu. simpl. rewrite length_insert. split; [done|]. left.
      pose proof (ci_data _ _ _ (inv_chan _ _ HI ch u Hu)) as Hd. by rewrite Hsl in Hd.
  - solve_local HI Hl.
  - destruct (chans s !! ch) as [u|] eqn:Hu; [|done]. solve_set HI Hl Hu. simpl.
    rewrite list_lookup_insert_eq by (by eapply lookup_lt_Some). split; [done|apply Hok].
  - destruct Hok as [Hcl Hres].
    assert (Forall result_ok (printed s ++ [r])) by (apply Forall_app; split; [apply HI|by constructor]).
    solve_local HI Hl.
  - unfold wg_done, wg_add. rewrite decide_False by lia. simpl. solve_local HI Hl.
  - solve_local HI Hl.
  - destruct Hok as (?&->&?). solve_local HI Hl.
  - destruct (chans s !! ch) as [u|] eqn:Hu; [|done].
    destruct (closed u) eqn:Hcl; [done|]. destruct (slot u) eqn:Hsl; try done.
    solve_set HI Hl Hu; [apply Hok|done].
Qed.

Lemma obd_inv_start : inv init [MainLoop 0].
Proof.
  split; simpl; try done.
  - intros [|k] l; simpl; [intros [= <-]; pose proof calls_eq; simpl; lia|done].
  - by exists (MainLoop 0).
Qed.

Lemma obd_inv_reachable s ls : reachable tstep start (Running s ls) → inv s ls.
Proof. apply invariant_alive; [apply obd_inv_step|apply obd_inv_start]. Qed.

(** ** Termination *)

Definition work (l : pc) : nat :=
  match l with
  | MainLoop i => 18 * Z.to_nat (calls - i) + 1
  | MainSpawn i => 18 * Z.to_nat (calls - i)
  | MainWait => 0
  | CallMake => 15
  | CallGovt _ _ => 14
  | CallIntegration _ _ => 10
  | CallSelect _ _ => 6
  | CallWaiting _ _ => 5
  | CallStore _ _ _ => 4
  | CallClose _ _ _ => 3
  | CallPrint _ _ => 2
  | CallDone _ => 1
  | SendSleep _ _ _ => 3
  | SendCheck _ _ _ => 2
  | SendSend _ _ => 1
  | CallRet _ | SendRet => 0
  end.

Lemma obd_work_decreases : decreases tstep inv work.
Proof.
  intros c s ls i l s' l' sp HI Hl Ht. pose proof (inv_pc _ _ HI i l Hl) as Hok.
  pose proof calls_eq.
  destruct l; simpl in *; unfold fallible, wg_done, wg_add in *;
    repeat case_match; simplify_eq/=; unfold sumf; simpl;
    rewrite ?int_add_id by (unfold is_int, min_int, max_int; lia); lia.
Qed.

(** A goroutine the wait group waits for can act once its timer fires. *)
Lemma pending_acts s ls i l :
  inv s ls → ls !! i = Some l → pending l = 1%nat → tstep true s l ≠ Wait.
Proof.
  intros HI Hl Hp. pose proof (inv_pc _ _ HI i l Hl) as Hok.
  destruct l; simpl in *; try done.
  all: try (destruct Hok as [Hlen _]; apply lookup_lt_is_Some_2 in Hlen as [u ->]).
  all: unfold fallible, wg_done, wg_add; repeat case_match; done.
Qed.

(** While the process runs, some goroutine can act. *)
Lemma obd_not_halted s ls : inv s ls → ¬ halted tstep (Running s ls).
Proof.
  intros HI Hh. destruct (inv_main _ _ HI) as (l&Hl&Hm).
  assert (Hact : ∀ j l', ls !! j = Some l' → tstep true s l' = Wait).
  { intros j l' Hj. specialize (Hh (j, true)). simpl in Hh. rewrite Hj in Hh.
    by destruct (tstep true s l'). }
  pose proof (Hact 0%nat l Hl) as H0. destruct l; simpl in *; try done.
  - unfold fallible, wg_add in H0. by repeat case_match.
  - unfold wg_wait in H0. case_decide as Hz; [done|]. rewrite (inv_wg _ _ HI) in Hz.
    destruct (sumf_pos pending ls) as (j&l'&Hj&Hp); [lia|].
    eapply pending_acts; [done|exact Hj| |by eapply Hact]. destruct l'; simpl in *; lia.
Qed.

(** ** A returned call leaves a sender behind *)

Lemma returned_closed s l ch : pc_ok s l → returned_call l = Some ch → closed <$> chans s !! ch = Some true.
Proof. destruct l; simpl; intros Hok [= <-]; try apply Hok. Qed.

Lemma at_chan_pos k o : (0 < at_chan k o)%nat → o = Some k.
Proof. unfold at_chan. repeat case_match; naive_solver lia. Qed.

Lemma returned_selected ch l :
  returned_call l = Some ch → caller ch l = 1%nat ∧ selected ch l = 1%nat ∧ receiving ch l = 0%nat.
Proof.
  destruct l; intros [= <-]; unfold caller, selected, receiving; simpl; by rewrite !decide_True by done.
Qed.

Lemma weight_le_caller ch (l : pc) :
  (selected ch l ≤ caller ch l ∧ (caller ch l = 0 → unstarted ch l = 0)
   ∧ (selected ch l = 1 → unstarted ch l = 0))%nat.
Proof. destruct l; unfold selected, caller, unstarted, at_chan; simpl; repeat case_decide; lia. Qed.

Lemma returned_has_sender s ls i l ch :
  inv s ls → ls !! i = Some l → returned_call l = Some ch →
  ∃ j l', ls !! j = Some l' ∧ send_of l' = Some ch.
Proof.
  intros HI Hl Hret. destruct (returned_selected ch l Hret) as (Hc1&Hs1&Hr0).
  pose proof (returned_closed s l ch (inv_pc _ _ HI i l Hl) Hret) as Hcl.
  destruct (chans s !! ch) as [u|] eqn:Hu; [|done].
  pose proof (inv_chan _ _ HI ch u Hu) as Hci.
  pose proof (busy_caller ch u ls i l Hci Hl Hc1) as Hb.
  destruct Hci as [Hc _ Hs _].
  assert (Hd : delivered u = 0%nat). { unfold delivered, busy in *. destruct (slot u); simpl in *; lia. }
  set (rest := take i ls ++ drop (S i) ls).
  rewrite (sumf_split (caller ch) _ _ _ Hl) in Hc.
  rewrite (sumf_split (unstarted ch) _ _ _ Hl), (sumf_split (selected ch) _ _ _ Hl) in Hs.
  fold rest in Hc, Hs.
  assert (Hz : ∀ x, x ∈ rest → caller ch x = 0%nat).
  { intros x [j Hj]%list_elem_of_lookup. pose proof (sumf_lookup_le (caller ch) rest j x Hj). lia. }
  assert (sumf (unstarted ch) rest = 0%nat).
  { apply sumf_zero. intros x Hx%Hz. pose proof (weight_le_caller ch x). lia. }
  assert (sumf (selected ch) rest = 0%nat).
  { apply sumf_zero. intros x Hx%Hz. pose proof (weight_le_caller ch x). lia. }
  pose proof (weight_le_caller ch l).
  destruct (sumf_pos (sender ch) ls) as (j&l'&Hj&Hp); [lia|].
  exists j, l'. split; [done|]. by apply at_chan_pos.
Qed.

(** A sender scheduled after the channel is closed brings the process down. *)
Lemma send_closed_panics s ls j ch u data :
  ls !! j = Some (SendSend ch data) → chans s !! ch = Some u → closed u = true →
  run tstep [(j, false)] (Running s ls) = Some (Dead err_send_closed).
Proof.
  intros Hj Hu Hcl. simpl. rewrite Hj. simpl. by rewrite Hu, Hcl.
Qed.

Lemma check_closed_panics s ls j ch u data :
  ls !! j = Some (SendCheck ch false data) → chans s !! ch = Some u → closed u = true →
  run tstep [(j, false); (j, false)] (Running s ls) = Some (Dead err_send_closed).
Proof.
  intros Hj Hu Hcl. cbn [run]. edestruct (exec_next tstep j false s ls) as [-> Hj']; [done|done|]. simpl mbind.
  by eapply send_closed_panics.
Qed.

Lemma sleep_closed_panics s ls j ch u data :
  ls !! j = Some (SendSleep ch false data) → chans s !! ch = Some u → closed u = true →
  run tstep [(j, false); (j, false); (j, false)] (Running s ls) = Some (Dead err_send_closed).
Proof.
  intros Hj Hu Hcl. cbn [run]. edestruct (exec_next tstep j false s ls) as [-> Hj']; [done|done|]. simpl mbind.
  by eapply check_closed_panics.
Qed.

Lemma sender_panics s ls j l ch :
  inv s ls → ls !! j = Some l → send_of l = Some ch → closed <$> chans s !! ch = Some true →
  ∃ n, (n ≤ 3)%nat ∧ run tstep (replicate n (j, false)) (Running s ls) = Some (Dead err_send_closed).
Proof.
  intros HI Hl Hs Hcl. pose proof (inv_pc _ _ HI j l Hl) as Hok.
  destruct (chans s !! ch) as [u|] eqn:Hu; [|done]. injection Hcl as Hcl.
  destruct l; simplify_eq/=.
  - destruct Hok as (_&->&_). exists 3%nat. split; [done|]. by eapply sleep_closed_panics.
  - destruct Hok as (_&->&_). exists 2%nat. split; [lia|]. by eapply check_closed_panics.
  - exists 1%nat. split; [lia|]. by eapply send_closed_panics.
Qed.

(** ** Properties *)

(** A schedule in which the first call gets its answer from the first sender,
    closes the channel and returns while the second sender reaches its guard. *)
Definition one_call : list (nat * bool) :=
  map (λ i, (i, false)) [0; 0; 1; 1; 1; 1; 2; 2; 2; 1; 1; 1; 3]%nat.

(** The guard [if !isChanClosed.Load()] never stops a send: the senders
    receive the [atomic.Bool] by value, so in every reachable state their copy is
    still false, whether or not the caller has stored [true] in its own, and a
    sender at the guard goes on to [ch <- data]. *)
Theorem obd_guard_is_a_copy (s : shared) (ls : list pc) (i ch : nat) (flag : bool) (data : string)
    (fired : bool) (Hr : reachable tstep start (Running s ls))
    (Hi : ls !! i = Some (SendCheck ch flag data)) :
  exec tstep (i, fired) (Running s ls) = Some (Running s (<[i:=SendSend ch data]> ls ++ [])).
Proof.
  pose proof (inv_pc _ _ (obd_inv_reachable s ls Hr) i _ Hi) as (_&->&_). simpl. by rewrite Hi.
Qed.

Lemma obd_guard_is_a_copy_witness :
  ∃ s ls, run tstep one_call start = Some (Running s ls) ∧
    exec tstep (3%nat, false) (Running s ls)
    = Some (Running s (<[3%nat:=SendSend 0 integration_data]> ls ++ [])).
Proof.
  eexists _, _. split; [vm_compute; reflexivity|].
  eapply obd_guard_is_a_copy; [|reflexivity].
  apply (run_reachable _ one_call). vm_compute. reflexivity.
Defined.

(** C21. Every call that has returned leaves a goroutine that will bring the
    process down: in any reachable state in which a call of
    [getEnrichedDataFromGovtOrIntegration] has returned, some sender of its closed
    channel has not finished, and scheduling that sender alone ends the process
    within three actions with the panic "send on closed channel". *)
Theorem obd_returned_call_panics (s : shared) (ls : list pc) (i ch : nat) (l : pc)
    (Hr : reachable tstep start (Running s ls))
    (Hi : ls !! i = Some l) (Hret : returned_call l = Some ch) :
  ∃ j n, (n ≤ 3)%nat ∧
    run tstep (replicate n (j, false)) (Running s ls) = Some (Dead err_send_closed).
Proof.
  pose proof (obd_inv_reachable s ls Hr) as HI.
  destruct (returned_has_sender s ls i l ch HI Hi Hret) as (j&l'&Hj&Hs).
  exists j. eapply sender_panics; [done|done|done|].
  apply (returned_closed s l ch); [by apply (inv_pc _ _ HI i)|done].
Qed.

Lemma obd_returned_call_panics_witness :
  ∃ s ls, run tstep one_call start = Some (Running s ls) ∧
    ∃ j n, (n ≤ 3)%nat ∧
      run tstep (replicate n (j, false)) (Running s ls) = Some (Dead err_send_closed).
Proof.
  eexists _, _. split; [vm_compute; reflexivity|].
  eapply (obd_returned_call_panics _ _ 1 0); [|reflexivity|reflexivity].
  apply (run_reachable _ one_call). vm_compute. reflexivity.
Defined.

Lemma obd_crash_reason c s ls i l why :
  inv s ls → ls !! i = Some l → tstep c s l = Crash why →
  why = main_returned ∨ why = err_send_closed.
Proof.
  intros HI Hl Ht. pose proof (inv_wg _ _ HI) as Hw.
  pose proof (sumf_lookup_le pending ls i l Hl) as Hp.
  destruct l; simpl in *; unfold fallible, wg_done, wg_add in *;
    repeat case_match; simplify_eq/=; auto; lia.
Qed.

(** C28. The program always ends: no execution of [main] is infinite, none is
    stuck while the process runs, and a process that cannot continue has either
    returned from [main] or died of a "send on closed channel"; the wait group
    never panics.  What the calls printed until then are only the two data and
    "timeout". *)
Theorem obd_terminates :
  sn (step tstep) start ∧
  ∀ σ, reachable tstep start σ →
    match σ with
    | Running s ls => ¬ halted tstep σ ∧ Forall result_ok (printed s)
    | Dead why => why = main_returned ∨ why = err_send_closed
    end.
Proof.
  split; [by apply step_sn with inv work; [apply obd_inv_step|apply obd_work_decreases|apply obd_inv_start]|].
  intros [s ls|why] Hr;
    [|by eapply (dies_of tstep inv (λ why, why = main_returned ∨ why = err_send_closed)); [apply obd_inv_step|apply obd_inv_start|apply obd_crash_reason|]].
  pose proof (obd_inv_reachable s ls Hr) as HI. split; [by apply obd_not_halted|apply HI].
Qed.

End Obd.
