(* ===== verification/LoadBalancer.v ===== *)
(** * LoadBalancer: LoadBalancer/main.go

    [LB.Proxy] runs in one goroutine per connection.  It updates [LastUsed]
    without holding the mutex, so its load and its store are separate actions. *)

From S2P Require Import Prelude GoLang GoSched GoSync.

#[local] Open Scope Z_scope.

Module Balancer.

(** ** Data *)

Record Backend := MkBackend { Host : string; Port : string; Total : Z }.

Record LB := MkLB { Servers : list Backend; LastUsed : Z }.

Definition NewLB : LB :=
  MkLB [MkBackend "localhost" "8000" 0; MkBackend "localhost" "9000" 0] 1.

#[export] Instance Backend_eq_dec : EqDecision Backend.
Proof. solve_decision. Defined.

Record shared := Shared {
  lb : LB;
  mu : mutex;
  printed : list Z   (** the [lb.LastUsed] that each [Proxy] printed *)
}.

Definition set_LastUsed v s := Shared (MkLB (Servers (lb s)) v) (mu s) (printed s).
Definition set_Servers bs s := Shared (MkLB bs (LastUsed (lb s))) (mu s) (printed s).
Definition set_mu m s := Shared (lb s) m (printed s).
Definition add_printed v s := Shared (lb s) (mu s) (printed s ++ [v]).

Definition err_accept : string := "err while accepting connectiong on port 7878".
Definition err_dial : string := "err while dailing on host:port".
Definition err_copy : string := "err while coping".

(** ** Goroutines *)

Inductive pc :=
| Accept                           (** the loop of [main] *)
| ProxyLoad                        (** [lb.LastUsed = (lb.LastUsed + 1) % len(lb.Servers)]: load *)
| ProxyStore (v : Z)               (** ... and store *)
| ProxyPrint                       (** [conn.Read(buggy)], [fmt.Println(..., lb.LastUsed, ...)] *)
| ProxyLock                        (** [mu.Lock()] *)
| ProxyIndex                       (** [lb.Servers[lb.LastUsed].Total++]: the index *)
| ProxyTotal (i : Z)               (** ... load of [Total] *)
| ProxyIncr (i t : Z)              (** ... store of [t + 1] *)
| ProxyPick                        (** [backend := lb.Servers[lb.LastUsed]] *)
| ProxyUnlock (backend : Backend)  (** [mu.Unlock()] *)
| ProxyDial (backend : Backend)    (** [net.Dial], then the two [go func()] *)
| ProxyRet
| Copying                          (** [io.Copy] between the two connections *)
| CopyRet.

(** What the network does: the acting call succeeds, fails, or (for [io.Copy])
    moves some bytes and goes on. *)
Inductive net := Succeeds | Fails | Moves.

(** [lb.Servers[i].Total = t] *)
Definition set_total (bs : list Backend) (i t : Z) : res (list Backend) :=
  b ← index bs i;
  set_index bs i (MkBackend (Host b) (Port b) t).

Definition tstep (c : net) (s : shared) (l : pc) : outcome shared pc :=
  match l with
  | Accept =>
      match c with
      | Fails => Crash err_accept
      | _ => Next s Accept [ProxyLoad]
      end
  | ProxyLoad => Next s (ProxyStore (LastUsed (lb s))) []
  | ProxyStore v =>
      fallible (int_rem (int_add v 1) (Z.of_nat (length (Servers (lb s)))))
        (λ v', Next (set_LastUsed v' s) ProxyPrint [])
  | ProxyPrint => Next (add_printed (LastUsed (lb s)) s) ProxyLock []
  | ProxyLock =>
      match lock (mu s) with Some m => Next (set_mu m s) ProxyIndex [] | None => Wait end
  | ProxyIndex =>
      fallible (index (Servers (lb s)) (LastUsed (lb s)))
        (λ _, Next s (ProxyTotal (LastUsed (lb s))) [])
  | ProxyTotal i =>
      fallible (index (Servers (lb s)) i) (λ b, Next s (ProxyIncr i (Total b)) [])
  | ProxyIncr i t =>
      fallible (set_total (Servers (lb s)) i (int_add t 1))
        (λ bs, Next (set_Servers bs s) ProxyPick [])
  | ProxyPick =>
      fallible (index (Servers (lb s)) (LastUsed (lb s))) (λ b, Next s (ProxyUnlock b) [])
  | ProxyUnlock b => fallible (unlock (mu s)) (λ m, Next (set_mu m s) (ProxyDial b) [])
  | ProxyDial b =>
      match c with
      | Fails => Crash err_dial
      | _ => Next s ProxyRet [Copying; Copying]
      end
  | Copying =>
      match c with
      | Succeeds => Next s CopyRet []
      | Fails => Crash err_copy
      | Moves => Next s Copying []
      end
  | ProxyRet | CopyRet => Wait
  end.

(** [main] once it is listening, with the balancer [lb]. *)
Definition start (lb : LB) : config shared pc := Running (Shared lb (Mutex false) []) [Accept].

(** ** One request on its own *)

(** The code of [Proxy] up to the dial, when no other goroutine runs: the new
    balancer and the backend chosen. *)
Definition Proxy (lb : LB) : res (LB * Backend) :=
  v ← int_rem (int_add (LastUsed lb) 1) (Z.of_nat (length (Servers lb)));
  b ← index (Servers lb) v;
  bs ← set_total (Servers lb) v (int_add (Total b) 1);
  backend ← index bs v;
  Ret (MkLB bs v, backend).

(** [m] requests, one after the other, and the ports they are sent to. *)
Fixpoint Proxies (m : nat) (lb : LB) : res (LB * list string) :=
  match m with
  | O => Ret (lb, [])
  | S m' =>
      '(lb1, b) ← Proxy lb;
      '(lb2, ports) ← Proxies m' lb1;
      Ret (lb2, Port b :: ports)
  end.

(** The points that a goroutine in [Proxy] passes when no other one is in it: from
    the balancer [l0] to the dial of [b], with the balancer [l1]. *)
Inductive proxying (l0 l1 : LB) (b : Backend) : shared → pc → Prop :=
| at_load pr : proxying l0 l1 b (Shared l0 (Mutex false) pr) ProxyLoad
| at_store pr : proxying l0 l1 b (Shared l0 (Mutex false) pr) (ProxyStore (LastUsed l0))
| at_print pr : proxying l0 l1 b (Shared (MkLB (Servers l0) (LastUsed l1)) (Mutex false) pr) ProxyPrint
| at_lock pr : proxying l0 l1 b (Shared (MkLB (Servers l0) (LastUsed l1)) (Mutex false) pr) ProxyLock
| at_index pr : proxying l0 l1 b (Shared (MkLB (Servers l0) (LastUsed l1)) (Mutex true) pr) ProxyIndex
| at_total pr :
    proxying l0 l1 b (Shared (MkLB (Servers l0) (LastUsed l1)) (Mutex true) pr) (ProxyTotal (LastUsed l1))
| at_incr pr b0 :
    index (Servers l0) (LastUsed l1) = Ret b0 →
    proxying l0 l1 b (Shared (MkLB (Servers l0) (LastUsed l1)) (Mutex true) pr)
      (ProxyIncr (LastUsed l1) (Total b0))
| at_pick pr : proxying l0 l1 b (Shared l1 (Mutex true) pr) ProxyPick
| at_unlock pr : proxying l0 l1 b (Shared l1 (Mutex true) pr) (ProxyUnlock b)
| at_dial pr : proxying l0 l1 b (Shared l1 (Mutex false) pr) (ProxyDial b).

(** Undisturbed, the goroutines' code computes what the function [Proxy] does: it
    gets from each of these points to the next, up to the dial. *)
Lemma proxying_step l0 l1 b s l :
  Proxy l0 = Ret (l1, b) → proxying l0 l1 b s l →
  (l = ProxyDial b ∧ ∃ pr, s = Shared l1 (Mutex false) pr) ∨
  ((∀ b', l ≠ ProxyDial b') ∧ ∃ s' l', tstep Succeeds s l = Next s' l' [] ∧ proxying l0 l1 b s' l').
Proof.
  unfold Proxy. intros HP Hl.
  destruct (int_rem _ _) as [v|] eqn:Hv; [|done]. cbn [mbind res_bind] in HP.
  destruct (index (Servers l0) v) as [b0|] eqn:Hb0; [|done]. cbn [mbind res_bind] in HP.
  destruct (set_total (Servers l0) v _) as [bs|] eqn:Hbs; [|done]. cbn [mbind res_bind] in HP.
  destruct (index bs v) as [b1|] eqn:Hb1; [|done]. injection HP as <- <-.
  assert (Hn : ∀ s l s' l', tstep Succeeds s l = Next s' l' [] → proxying l0 (MkLB bs v) b1 s' l' →
    ∃ s' l', tstep Succeeds s l = Next s' l' [] ∧ proxying l0 (MkLB bs v) b1 s' l') by eauto.
  destruct Hl as [pr|pr|pr|pr|pr|pr|pr b0' H0|pr|pr|pr]; [right; (split; [done|])..|left; eauto].
  - eapply Hn; [reflexivity|apply at_store].
  - eapply Hn; [cbn; by rewrite Hv|apply at_print].
  - eapply Hn; [reflexivity|apply at_lock].
  - eapply Hn; [reflexivity|apply at_index].
  - eapply Hn; [cbn; by rewrite Hb0|apply at_total].
  - eapply Hn; [cbn; by rewrite Hb0|by apply at_incr].
  - cbn in H0. rewrite Hb0 in H0. injection H0 as <-. eapply Hn; [cbn; by rewrite Hbs|apply at_pick].
  - eapply Hn; [cbn; by rewrite Hb1|apply at_unlock].
  - eapply Hn; [reflexivity|apply at_dial].
Qed.

(** A balancer [NewLB] could have made, for any number of servers. *)
Definition wf (lb : LB) : Prop :=
  0 ≤ LastUsed lb < Z.of_nat (length (Servers lb)) ∧ is_int (Z.of_nat (length (Servers lb))).

Lemma next_server lb v :
  wf lb → 0 ≤ v < Z.of_nat (length (Servers lb)) →
  int_rem (int_add v 1) (Z.of_nat (length (Servers lb)))
  = Ret ((v + 1) `mod` Z.of_nat (length (Servers lb))).
Proof.
  intros [Hl Hi] Hv. unfold is_int, min_int, max_int in Hi.
  rewrite int_add_id by (unfold is_int, min_int, max_int; lia). apply int_rem_pos; lia.
Qed.

Lemma server_index {A} (l : list A) i : 0 ≤ i < Z.of_nat (length l) → ∃ x, index l i = Ret x ∧ l !! Z.to_nat i = Some x.
Proof.
  intros Hi. destruct (lookup_lt_is_Some_2 l (Z.to_nat i)) as [x Hx]; [lia|].
  exists x. split; [|done]. by apply index_ok; [lia|].
Qed.

Lemma set_total_ok bs i b t :
  0 ≤ i → bs !! Z.to_nat i = Some b →
  set_total bs i t = Ret (<[Z.to_nat i := MkBackend (Host b) (Port b) t]> bs).
Proof.
  intros Hi Hb. unfold set_total. rewrite (index_ok bs i b) by done. simpl.
  apply set_index_ok. apply lookup_lt_Some in Hb. lia.
Qed.

(** ** Round robin *)

(** How many of the first [p] requests go to server [j] of [n]. *)
Definition share (n j p : nat) : nat := (p + n - 1 - j) / n.

Lemma share_S n j p :
  (j < n)%nat → share n j (S p) = (share n j p + if decide (p mod n = j) then 1 else 0)%nat.
Proof.
  intros Hj. unfold share. pose proof (Nat.div_mod_eq p n) as Hp.
  pose proof (Nat.mod_upper_bound p n ltac:(lia)) as Hr.
  set (q := (p / n)%nat) in *. set (r := (p mod n)%nat) in *.
  assert (Hdiv : ∀ x k, (k * n <= x < (k + 1) * n)%nat → (x / n = k)%nat).
  { intros x k Hx. symmetry. apply (Nat.div_unique x n k (x - k * n)); nia. }
  case_decide as Hd.
  - rewrite (Hdiv (p + n - 1 - j)%nat q) by nia. apply Hdiv. nia.
  - destruct (decide (j < r)%nat).
    + rewrite (Hdiv (p + n - 1 - j)%nat (q + 1)%nat) by nia. rewrite Nat.add_0_r. apply Hdiv. nia.
    + rewrite (Hdiv (p + n - 1 - j)%nat q) by nia. rewrite Nat.add_0_r. apply Hdiv. nia.
Qed.

(** Two servers' shares differ by at most one. *)
Lemma share_balanced n i j p : (i < n)%nat → (j < n)%nat → (share n i p ≤ share n j p + 1)%nat.
Proof.
  intros Hi Hj. unfold share. transitivity ((p + n - 1 - j + 1 * n) / n)%nat.
  - apply Nat.Div0.div_le_mono. lia.
  - rewrite Nat.div_add by lia. lia.
Qed.

Lemma share_le n j p : (j < n)%nat → (share n j p ≤ p)%nat.
Proof.
  intros Hj. induction p as [|p IH].
  - unfold share. rewrite Nat.div_small by lia. lia.
  - rewrite share_S by done. case_decide; lia.
Qed.

Definition with_total (t : nat → Z) (j : nat) (b : Backend) : Backend :=
  MkBackend (Host b) (Port b) (t j).

(** The balancer after [p] requests. *)
Definition after (lb0 : LB) (p : nat) : LB :=
  let n := length (Servers lb0) in
  MkLB (imap (with_total (λ j, Z.of_nat (share n j p))) (Servers lb0))
       (Z.of_nat ((p + n - 1) mod n)).

Lemma after_length lb0 p : length (Servers (after lb0 p)) = length (Servers lb0).
Proof. apply length_imap. Qed.

Lemma after_wf lb0 p : wf lb0 → wf (after lb0 p).
Proof.
  intros [Hl Hi]. split; rewrite after_length; [|done]. simpl.
  pose proof (Nat.mod_upper_bound (p + length (Servers lb0) - 1) (length (Servers lb0)) ltac:(lia)). lia.
Qed.

Lemma after_next lb0 p :
  wf lb0 →
  (LastUsed (after lb0 p) + 1) `mod` Z.of_nat (length (Servers lb0))
  = Z.of_nat (p mod length (Servers lb0)).
Proof.
  intros [Hl _]. set (n := length (Servers lb0)) in *. simpl. fold n.
  replace (Z.of_nat ((p + n - 1) mod n) + 1) with (Z.of_nat ((p + n - 1) mod n + 1)) by lia.
  rewrite <-Nat2Z.inj_mod. f_equal. rewrite Nat.Div0.add_mod_idemp_l.
  replace (p + n - 1 + 1)%nat with (p + 1 * n)%nat by lia. apply Nat.Div0.mod_add.
Qed.

(** Serving one request increments exactly the share of its server. *)
Lemma after_servers lb0 p b :
  wf lb0 → Servers lb0 !! (p mod length (Servers lb0))%nat = Some b →
  let n := length (Servers lb0) in
  <[(p mod n)%nat := MkBackend (Host b) (Port b) (Z.of_nat (share n (p mod n) p) + 1)]>
    (Servers (after lb0 p)) = Servers (after lb0 (S p)).
Proof.
  intros [Hl _] Hb n. apply list_eq. intros j. rewrite list_lookup_insert, after_length.
  fold n in Hb, Hl |- *. simpl. fold n. rewrite !list_lookup_imap.
  destruct (Servers lb0 !! j) as [c|] eqn:Hc.
  - apply lookup_lt_Some in Hc as Hj. simpl. case_decide as Hd.
    + destruct Hd as [<- _]. simplify_eq. unfold with_total. do 2 f_equal.
      rewrite share_S by (fold n in Hj; lia). rewrite decide_True by done. lia.
    + unfold with_total. do 2 f_equal. rewrite share_S by (fold n in Hj; lia).
      rewrite decide_False by naive_solver. lia.
  - apply lookup_ge_None in Hc. rewrite decide_False by (fold n in Hc; lia). done.
Qed.

Lemma after_Proxy lb0 p :
  wf lb0 → is_int (Z.of_nat (S p)) →
  ∃ b, Servers lb0 !! (p mod length (Servers lb0))%nat = Some b ∧
    ∃ b', Proxy (after lb0 p) = Ret (after lb0 (S p), b') ∧ Port b' = Port b.
Proof.
  intros Hwf Hp. pose proof Hwf as [Hl _]. set (n := length (Servers lb0)) in *.
  pose proof (Nat.mod_upper_bound p n ltac:(lia)) as Hm.
  destruct (lookup_lt_is_Some_2 (Servers lb0) (p mod n)%nat) as [b Hb]; [done|].
  exists b. split; [done|].
  assert (Hn : 0 ≤ LastUsed (after lb0 p) < Z.of_nat (length (Servers (after lb0 p)))) by by apply after_wf.
  pose proof (next_server _ _ (after_wf lb0 p Hwf) Hn) as Hnext.
  rewrite after_length in Hnext. rewrite after_next in Hnext by done. fold n in Hnext.
  assert (Hsrv : Servers (after lb0 p) !! (p mod n)%nat
                 = Some (MkBackend (Host b) (Port b) (Z.of_nat (share n (p mod n) p)))).
  { simpl. by rewrite list_lookup_imap, Hb. }
  pose proof (share_le n (p mod n) p ltac:(lia)) as Hs.
  unfold Proxy. rewrite after_length. fold n. rewrite Hnext. cbn [mbind res_bind].
  erewrite index_ok by (lia || (rewrite Nat2Z.id; exact Hsrv)). cbn [mbind res_bind].
  erewrite set_total_ok by (lia || (rewrite Nat2Z.id; exact Hsrv)). cbn [mbind res_bind].
  rewrite Nat2Z.id. cbn [Host Port Total].
  rewrite int_add_id by (unfold is_int, min_int, max_int in *; lia).
  pose proof (after_servers lb0 p b Hwf Hb) as Ha. cbv zeta in Ha. fold n in Ha. rewrite Ha.
  rewrite (index_ok (Servers (after lb0 (S p))) (Z.of_nat (p mod n))
    (MkBackend (Host b) (Port b) (Z.of_nat (share n (p mod n) (S p))))); [|lia|].
  - cbn [mbind res_bind]. eexists (MkBackend _ _ _). split; [|reflexivity].
    replace (Z.of_nat (p mod n)) with (LastUsed (after lb0 (S p))); [reflexivity|]. simpl. fold n. f_equal.
    replace (p + n - 0)%nat with (p + 1 * n)%nat by lia. apply Nat.Div0.mod_add.
  - rewrite Nat2Z.id. simpl. by rewrite list_lookup_imap, Hb.
Qed.

Lemma after_Proxies lb0 m p :
  wf lb0 → is_int (Z.of_nat (p + m)) →
  ∃ ports, Proxies m (after lb0 p) = Ret (after lb0 (p + m), ports) ∧ length ports = m ∧
    ∀ k, (k < m)%nat → ports !! k = Port <$> Servers lb0 !! ((p + k) mod length (Servers lb0))%nat.
Proof.
  intros Hwf. revert p. induction m as [|m IH]; intros p Hm; simpl.
  { exists []. rewrite Nat.add_0_r. split; [done|]. split; [done|]. intros; lia. }
  assert (is_int (Z.of_nat (S p))) by (unfold is_int, min_int, max_int in *; lia).
  destruct (after_Proxy lb0 p Hwf) as (b&Hb&b'&->&Hport); [done|]. simpl.
  destruct (IH (S p)) as (ports&->&Hlen&Hk); [by replace (S p + m)%nat with (p + S m)%nat by lia|].
  simpl. rewrite Nat.add_succ_r. eexists. split; [done|]. split; [simpl; by rewrite Hlen|].
  intros [|k] Hlt; simpl.
  - by rewrite Nat.add_0_r, Hb, Hport.
  - rewrite Hk by lia. by rewrite Nat.add_succ_r.
Qed.

(** A balancer before its first request. *)
Definition fresh (lb : LB) : Prop :=
  LastUsed lb = Z.of_nat (length (Servers lb)) - 1 ∧ Forall (λ b, Total b = 0) (Servers lb).

Lemma after_fresh lb : wf lb → fresh lb → after lb 0 = lb.
Proof.
  intros [Hl _] [Hu Ht]. unfold after. destruct lb as [bs u]. simpl in *. f_equal.
  - apply list_eq. intros j. rewrite list_lookup_imap.
    destruct (bs !! j) as [b|] eqn:Hb; [|done]. simpl. f_equal.
    pose proof (Forall_lookup_1 _ _ _ _ Ht Hb) as Hz. simpl in Hz.
    unfold with_total, share. rewrite Nat.div_small; [by destruct b; simpl in *; subst|].
    apply lookup_lt_Some in Hb. lia.
  - rewrite Nat.mod_small by lia. lia.
Qed.

(** ** The invariant of the concurrent program *)

Definition in_cs (l : pc) : nat :=
  match l with ProxyIndex | ProxyTotal _ | ProxyIncr _ _ | ProxyPick | ProxyUnlock _ => 1 | _ => 0 end.
(** Goroutines that have incremented a [Total]. *)
Definition counted (l : pc) : nat :=
  match l with ProxyPick | ProxyUnlock _ | ProxyDial _ | ProxyRet => 1 | _ => 0 end.

Definition total (bs : list Backend) : Z := foldr (λ b z, Total b + z) 0 bs.

Definition valid_index (s : shared) (i : Z) : Prop := 0 ≤ i < Z.of_nat (length (Servers (lb s))).

Definition pc_ok (s : shared) (l : pc) : Prop :=
  match l with
  | ProxyStore v => valid_index s v
  | ProxyTotal i => valid_index s i
  | ProxyIncr i t => valid_index s i ∧ Total <$> Servers (lb s) !! Z.to_nat i = Some t
  | _ => True
  end.

Record inv (n : nat) (s : shared) (ls : list pc) : Prop := {
  inv_servers : length (Servers (lb s)) = n ∧ is_int (Z.of_nat n);
  inv_last : valid_index s (LastUsed (lb s));
  inv_mutex : sumf in_cs ls = if locked (mu s) then 1%nat else 0%nat;
  inv_total : wrap64 (total (Servers (lb s))) = wrap64 (Z.of_nat (sumf counted ls));
  inv_printed : Forall (valid_index s) (printed s);
  inv_pc : ∀ k l, ls !! k = Some l → pc_ok s l
}.

Lemma total_insert bs i b b' :
  bs !! i = Some b → total (<[i:=b']> bs) = total bs - Total b + Total b'.
Proof.
  revert i. induction bs as [|c bs IH]; intros [|i] Hb; simplify_eq/=; [lia|].
  rewrite (IH i Hb). lia.
Qed.

Lemma wrap64_add_r a b : wrap64 (a + wrap64 b) = wrap64 (a + b).
Proof. by rewrite Z.add_comm, wrap64_add_l, Z.add_comm. Qed.

Lemma wrap64_congr a b c : wrap64 a = wrap64 b → wrap64 (a + c) = wrap64 (b + c).
Proof. intros He. by rewrite <-(wrap64_add_l a), He, wrap64_add_l. Qed.

(** What the other goroutines know survives: only the holder of the mutex writes
    to [Servers], and the number of servers never changes. *)
Lemma lb_pc_ok_other n s s' ls i l k x :
  inv n s ls → ls !! i = Some l → k ≠ i → ls !! k = Some x →
  length (Servers (lb s')) = length (Servers (lb s)) →
  (Servers (lb s') = Servers (lb s) ∨ in_cs l = 1%nat) → pc_ok s' x.
Proof.
  intros HI Hl Hk Hx Hlen Hs. pose proof (inv_pc _ _ _ HI k x Hx) as Hok.
  unfold pc_ok, valid_index in *. rewrite Hlen. destruct x; try exact Hok.
  destruct Hs as [->|Hcs]; [exact Hok|exfalso].
  pose proof (sumf_two in_cs ls i k l _ Hl Hx ltac:(done)) as H2.
  rewrite (inv_mutex _ _ _ HI), Hcs in H2. simpl in H2. destruct (locked _); lia.
Qed.

Lemma lb_pc_step n s s' ls i l l' sp :
  inv n s ls → ls !! i = Some l →
  length (Servers (lb s')) = length (Servers (lb s)) →
  (Servers (lb s') = Servers (lb s) ∨ in_cs l = 1%nat) →
  pc_ok s' l' → Forall (pc_ok s') sp →
  ∀ k x, (<[i:=l']> ls ++ sp) !! k = Some x → pc_ok s' x.
Proof.
  intros HI Hl Hlen Hs Hl' Hsp k x Hx.
  destruct (lookup_pool ls sp i l l' k x Hl Hx) as [[_ ->]|[[? ?]|[_ Hin]]]; [done| |].
  - by apply (lb_pc_ok_other n s s' ls i l k x).
  - rewrite Forall_forall in Hsp. by apply Hsp.
Qed.

(** An action that leaves [Servers] alone. *)
Lemma lb_inv_same n s ls i l s' l' sp :
  inv n s ls → ls !! i = Some l →
  Servers (lb s') = Servers (lb s) → valid_index s (LastUsed (lb s')) →
  Forall (valid_index s) (printed s') →
  ((if locked (mu s') then 1 else 0) + in_cs l = (if locked (mu s) then 1 else 0) + in_cs l')%nat →
  sumf in_cs sp = 0%nat → (counted l' + sumf counted sp = counted l)%nat →
  pc_ok s' l' → Forall (pc_ok s') sp → inv n s' (<[i:=l']> ls ++ sp).
Proof.
  intros HI Hl Hs Hlast Hpr Hm Hsp Hc Hl' Hok. destruct (inv_servers _ _ _ HI) as [Hlen Hint].
  pose proof (sumf_insert in_cs ls i l l' Hl). pose proof (sumf_insert counted ls i l l' Hl).
  pose proof (inv_mutex _ _ _ HI).
  split.
  - by rewrite Hs.
  - unfold valid_index in *. by rewrite Hs.
  - rewrite sumf_app. lia.
  - rewrite Hs, sumf_app, (inv_total _ _ _ HI). do 2 f_equal. lia.
  - unfold valid_index in *. by rewrite Hs.
  - eapply lb_pc_step; [done|done|by rewrite Hs|by left|done|done].
Qed.

Lemma lb_index_ok n s ls i :
  inv n s ls → valid_index s i →
  ∃ b, index (Servers (lb s)) i = Ret b ∧ Servers (lb s) !! Z.to_nat i = Some b ∧ 0 ≤ i.
Proof.
  intros _ Hi. destruct (server_index _ _ Hi) as (b&?&?). exists b. unfold valid_index in Hi.
  split; [done|]. split; [done|lia].
Qed.

Lemma lb_incr n s ls k i t :
  inv n s ls → ls !! k = Some (ProxyIncr i t) →
  ∃ bs, set_total (Servers (lb s)) i (int_add t 1) = Ret bs ∧
    inv n (set_Servers bs s) (<[k:=ProxyPick]> ls ++ []).
Proof.
  intros HI Hl. destruct (inv_pc _ _ _ HI k _ Hl) as [Hi Ht].
  destruct (lb_index_ok n s ls i HI Hi) as (b&_&Hb&Hpos). rewrite Hb in Ht. injection Ht as Ht.
  eexists. split; [by apply set_total_ok|]. destruct (inv_servers _ _ _ HI) as [Hlen Hint].
  pose proof (sumf_insert in_cs ls k _ ProxyPick Hl). pose proof (sumf_insert counted ls k _ ProxyPick Hl).
  pose proof (inv_last _ _ _ HI). pose proof (inv_printed _ _ _ HI) as Hpr.
  split; simpl in *; unfold valid_index in *; simpl in *; rewrite ?length_insert; try done.
  - rewrite sumf_app, sumf_nil. pose proof (inv_mutex _ _ _ HI). lia.
  - rewrite (total_insert _ _ _ _ Hb). simpl. rewrite Ht. unfold int_add.
    rewrite wrap64_add_r, sumf_app, sumf_nil.
    replace (total (Servers (lb s)) - t + (t + 1)) with (total (Servers (lb s)) + 1) by lia.
    rewrite (wrap64_congr _ _ 1 (inv_total _ _ _ HI)). f_equal. lia.
  - eapply lb_pc_step; [done|done|simpl; by rewrite length_insert|by right|done|done].
Qed.

Ltac solve_same HI Hl :=
  pose proof (inv_last _ _ _ HI); pose proof (inv_printed _ _ _ HI);
  eapply (lb_inv_same _ _ _ _ _ _ _ _ HI Hl); simpl;
  first [done | lia | by repeat constructor | idtac].

Lemma lb_step_alive n : preserves_alive tstep (inv n).
Proof.
  intros c s ls i l HI Hl. pose proof (inv_pc _ _ _ HI i l Hl) as Hok.
  destruct (inv_servers _ _ _ HI) as [Hlen Hint].
  destruct l; simpl in Hok |- *; try done.
  - by destruct c; [solve_same HI Hl|done|solve_same HI Hl].
  - solve_same HI Hl.
  - unfold valid_index in Hok. rewrite next_server; [|split; [apply (inv_last _ _ _ HI)|by rewrite Hlen]|done].
    simpl. solve_same HI Hl. unfold valid_index. apply Z.mod_pos_bound. lia.
  - solve_same HI Hl. apply Forall_app. split; [apply (inv_printed _ _ _ HI)|].
    apply Forall_singleton, (inv_last _ _ _ HI).
  - unfold lock. destruct (locked (mu s)) eqn:Hlk; [done|]. solve_same HI Hl. by rewrite Hlk.
  - destruct (lb_index_ok n s ls _ HI (inv_last _ _ _ HI)) as (b&->&_). simpl. solve_same HI Hl.
  - destruct (lb_index_ok n s ls _ HI Hok) as (b&->&Hb&?). simpl. solve_same HI Hl.
    split; [done|]. by rewrite Hb.
  - destruct (lb_incr n s ls i _ _ HI Hl) as (bs&->&?). done.
  - destruct (lb_index_ok n s ls _ HI (inv_last _ _ _ HI)) as (b&->&_). simpl. solve_same HI Hl.
  - pose proof (inv_mutex _ _ _ HI). pose proof (sumf_lookup_le in_cs ls i _ Hl). simpl in *.
    unfold unlock. destruct (locked (mu s)) eqn:Hlk; [|lia]. simpl. solve_same HI Hl. by rewrite Hlk.
  - destruct c; [solve_same HI Hl|done|solve_same HI Hl].
  - destruct c; [solve_same HI Hl|done|solve_same HI Hl].
Qed.

(** The only ways to die are the three calls of [log.Fatal]. *)
Definition fatal (why : string) : Prop := why = err_accept ∨ why = err_dial ∨ why = err_copy.

Lemma lb_crash n c s ls i l why :
  inv n s ls → ls !! i = Some l → tstep c s l = Crash why → c = Fails ∧ fatal why.
Proof.
  intros HI Hl Ht. pose proof (inv_pc _ _ _ HI i l Hl) as Hok.
  destruct (inv_servers _ _ _ HI) as [Hlen Hint]. unfold fatal.
  destruct l; simpl in Hok, Ht; try (destruct c; simplify_eq; auto; done).
  - unfold valid_index in Hok. rewrite next_server in Ht; [done|split; [apply (inv_last _ _ _ HI)|by rewrite Hlen]|done].
  - by destruct (lock _).
  - destruct (lb_index_ok n s ls _ HI (inv_last _ _ _ HI)) as (b&Hb&_). by rewrite Hb in Ht.
  - destruct (lb_index_ok n s ls _ HI Hok) as (b&Hb&_). by rewrite Hb in Ht.
  - destruct (lb_incr n s ls i _ _ HI Hl) as (bs&Hb&_). by rewrite Hb in Ht.
  - destruct (lb_index_ok n s ls _ HI (inv_last _ _ _ HI)) as (b&Hb&_). by rewrite Hb in Ht.
  - pose proof (inv_mutex _ _ _ HI). pose proof (sumf_lookup_le in_cs ls i _ Hl). simpl in *.
    unfold unlock in Ht. destruct (locked (mu s)); [done|lia].
Qed.

Lemma lb_start lb0 :
  wf lb0 → Forall (λ b, Total b = 0) (Servers lb0) →
  inv (length (Servers lb0)) (Shared lb0 (Mutex false) []) [Accept].
Proof.
  intros [Hl Hi] Ht.
  assert (Hz : total (Servers lb0) = 0).
  { clear Hl Hi. induction Ht as [|b bs Hb _ IH]; [done|]. simpl. by rewrite Hb, IH. }
  split; simpl; [done|done|done|by rewrite Hz|done|]. intros [|k] l; [by intros [= <-]|done].
Qed.

(** ** Properties *)

(** C11. Round robin: starting from a balancer with [n] servers, [LastUsed = n-1]
    and zero totals (as [NewLB] makes it), [m] requests served one after the other
    all find a backend, request [k] goes to server [k mod n], and afterwards every
    server's [Total] is its exact share, so that any two differ by at most one. *)
Theorem lb_round_robin (lb0 : LB) (m : nat)
    (Hwf : wf lb0) (Hfresh : fresh lb0) (Hm : is_int (Z.of_nat m)) :
  ∃ lb ports, Proxies m lb0 = Ret (lb, ports) ∧ length ports = m ∧
    (∀ k, (k < m)%nat → ports !! k = Port <$> Servers lb0 !! (k mod length (Servers lb0))%nat) ∧
    (∀ i j bi bj, Servers lb !! i = Some bi → Servers lb !! j = Some bj →
       Total bi ≤ Total bj + 1 ∧ Total bi = Z.of_nat (share (length (Servers lb0)) i m)).
Proof.
  destruct (after_Proxies lb0 m 0 Hwf Hm) as (ports&Hp&Hlen&Hk).
  rewrite after_fresh in Hp by done. exists (after lb0 m), ports.
  split; [done|]. split; [done|]. split; [intros k Hlt; by apply Hk|].
  clear Hlen Hk Hp. intros i j bi bj Hi Hj. simpl in Hi, Hj. rewrite list_lookup_imap in Hi, Hj.
  destruct (Servers lb0 !! i) eqn:Hi0; [|done]. destruct (Servers lb0 !! j) eqn:Hj0; [|done].
  simplify_eq/=. apply lookup_lt_Some in Hi0, Hj0.
  pose proof (share_balanced (length (Servers lb0)) i j m Hi0 Hj0). lia.
Qed.

(** Five requests to [NewLB()]: ports 8000 and 9000 alternate. *)
Lemma lb_round_robin_witness :
  ∃ lb ports, Proxies 5 NewLB = Ret (lb, ports) ∧ length ports = 5%nat ∧
    (∀ k, (k < 5)%nat → ports !! k = Port <$> Servers NewLB !! (k mod 2)%nat) ∧
    (∀ i j bi bj, Servers lb !! i = Some bi → Servers lb !! j = Some bj →
       Total bi ≤ Total bj + 1 ∧ Total bi = Z.of_nat (share 2 i 5)).
Proof.
  apply (lb_round_robin NewLB 5); [split; by_compute|split; by_compute|by_compute].
Defined.

(** C19. Safety of the concurrent program: for any number of connections and any
    interleaving, although [LastUsed] is updated without the mutex it always
    indexes a server, so no [Proxy] panics; at most one goroutine is between
    [mu.Lock()] and [mu.Unlock()]; and no increment of a [Total] is lost: their
    sum is (modulo 2^64) the number of requests that have passed the increment. *)
Theorem lb_concurrent_safe (lb0 : LB) (s : shared) (ls : list pc)
    (Hwf : wf lb0) (Hzero : Forall (λ b, Total b = 0) (Servers lb0))
    (Hr : reachable tstep (start lb0) (Running s ls)) :
  0 ≤ LastUsed (lb s) < Z.of_nat (length (Servers (lb s))) ∧
  (sumf in_cs ls ≤ 1)%nat ∧
  wrap64 (total (Servers (lb s))) = wrap64 (Z.of_nat (sumf counted ls)).
Proof.
  pose proof (invariant_alive tstep _ _ _ s ls (lb_step_alive _) (lb_start lb0 Hwf Hzero) Hr) as HI.
  split; [apply HI|]. split; [|apply HI]. rewrite (inv_mutex _ _ _ HI). by destruct (locked _); lia.
Qed.

(** Two requests are between the load and the store of [LastUsed]. *)
Definition two_requests : list (nat * net) :=
  map (λ i, (i, Succeeds)) [0; 0; 1; 2; 1; 2; 1; 1; 1; 1; 1]%nat.

Lemma lb_concurrent_safe_witness :
  ∃ s ls, run tstep two_requests (start NewLB) = Some (Running s ls) ∧
  0 ≤ LastUsed (lb s) < Z.of_nat (length (Servers (lb s))) ∧
  (sumf in_cs ls ≤ 1)%nat ∧
  wrap64 (total (Servers (lb s))) = wrap64 (Z.of_nat (sumf counted ls)).
Proof.
  eexists _, _. split; [vm_compute; reflexivity|].
  eapply (lb_concurrent_safe NewLB); [split; by_compute|by_compute|].
  apply (run_reachable _ two_requests). vm_compute. reflexivity.
Defined.

(** The first goroutine always is [main] in its [Accept] loop. *)
Lemma lb_accepts lb0 s ls : reachable tstep (start lb0) (Running s ls) → ls !! 0%nat = Some Accept.
Proof.
  apply (invariant_alive tstep (λ _ ls, ls !! 0%nat = Some Accept)); [|done].
  intros c s0 ls0 i l H0 Hl. destruct (tstep c s0 l) as [|s' l' sp|] eqn:Ht; [done| |done].
  erewrite lookup_app_l_Some; [done|]. destruct (decide (i = 0%nat)) as [->|Hne].
  - pose proof (lookup_lt_Some _ _ _ H0). simplify_eq.
    apply list_lookup_insert_Some. left. by destruct c; simplify_eq/=.
  - by rewrite list_lookup_insert_ne.
Qed.

(** What can end the balancer: it dies only of one of its [log.Fatal]s, and
    then only because a network call failed; and while it runs it always accepts
    the next connection.  So a single backend that refuses a connection, or a
    single failing copy, takes the whole balancer down. *)
Theorem lb_dies_of_network (lb0 : LB) (Hwf : wf lb0)
    (Hzero : Forall (λ b, Total b = 0) (Servers lb0)) :
  (∀ why, reachable tstep (start lb0) (Dead why) → fatal why) ∧
  (∀ s ls i l, reachable tstep (start lb0) (Running s ls) → ls !! i = Some l →
     (∀ b, l = ProxyDial b → exec tstep (i, Fails) (Running s ls) = Some (Dead err_dial)) ∧
     (l = Copying → exec tstep (i, Fails) (Running s ls) = Some (Dead err_copy))) ∧
  (∀ s ls, reachable tstep (start lb0) (Running s ls) →
     exec tstep (0%nat, Succeeds) (Running s ls) = Some (Running s (ls ++ [ProxyLoad]))).
Proof.
  split; [|split].
  - intros why Hr. eapply (dies_of tstep _ fatal); [apply (lb_step_alive (length (Servers lb0)))|by apply lb_start| |done].
    intros c s ls i l w HI Hl Ht. by eapply lb_crash.
  - intros s ls i l _ Hl. simpl. rewrite Hl. split; [by intros b ->|by intros ->].
  - intros s ls Hr. pose proof (lb_accepts lb0 s ls Hr) as H0. simpl.
    rewrite H0. simpl. by rewrite (list_insert_id ls 0 Accept).
Qed.

Lemma lb_dies_of_network_witness :
  (∀ why, reachable tstep (start NewLB) (Dead why) → fatal why) ∧
  (∀ s ls i l, reachable tstep (start NewLB) (Running s ls) → ls !! i = Some l →
     (∀ b, l = ProxyDial b → exec tstep (i, Fails) (Running s ls) = Some (Dead err_dial)) ∧
     (l = Copying → exec tstep (i, Fails) (Running s ls) = Some (Dead err_copy))) ∧
  (∀ s ls, reachable tstep (start NewLB) (Running s ls) →
     exec tstep (0%nat, Succeeds) (Running s ls) = Some (Running s (ls ++ [ProxyLoad]))).
Proof. apply lb_dies_of_network; [split; by_compute|by_compute]. Defined.

(** Two connections at once: both load [LastUsed] before either stores it. *)
Definition both_load : list (nat * net) :=
  map (λ i, (i, Succeeds)) ([0; 0; 1; 2] ++ replicate 8 1 ++ replicate 8 2)%nat.

(** The second request advances [LastUsed] between the increment of a [Total] and
    the choice of the backend by the first. *)
Definition overtake : list (nat * net) :=
  map (λ i, (i, Succeeds)) ([0; 0] ++ replicate 7 1 ++ replicate 3 2 ++ replicate 2 1)%nat.

(** The race on [LastUsed] is real: from [NewLB()] there is an interleaving of
    two requests that sends both to port 8000, and one in which a request is
    counted in the [Total] of port 8000 and dials port 9000. *)
Theorem lb_race :
  (∃ s ls b1 b2, reachable tstep (start NewLB) (Running s ls) ∧
     ls !! 1%nat = Some (ProxyDial b1) ∧ ls !! 2%nat = Some (ProxyDial b2) ∧
     Port b1 = "8000"%string ∧ Port b2 = "8000"%string) ∧
  (∃ s ls b, reachable tstep (start NewLB) (Running s ls) ∧
     ls !! 1%nat = Some (ProxyDial b) ∧ Port b = "9000"%string ∧ Total b = 0 ∧
     Total <$> Servers (lb s) !! 0%nat = Some 1).
Proof.
  split.
  - eexists _, _, _, _. split; [apply (run_reachable _ both_load); vm_compute; reflexivity|].
    repeat split.
  - eexists _, _, _. split; [apply (run_reachable _ overtake); vm_compute; reflexivity|].
    repeat split.
Qed.

End Balancer.
