(* ===== verification/AirlineCheckin.v ===== *)
(** * AirlineCheckin: airlineCheckin/main.go

    One goroutine per user books the first free seat in a transaction.  MySQL is
    the interface [SeatDB]: the calls the program makes, and the documented
    behaviour of InnoDB's [select ... for update] and of commit and rollback that
    the program relies on. *)

From S2P Require Import Prelude GoLang GoSched GoSync.

#[local] Open Scope Z_scope.

Module Airline.

(** ** Data *)

(** [name] is a [sql.NullString]: [None] is [NULL]. *)
Record Seat := MkSeat { id : Z; seat : string; name : option string }.

Record User := MkUser { user_id : Z; user_name : string }.

#[export] Instance Seat_eq_dec : EqDecision Seat.
Proof. solve_decision. Defined.

(** A transaction handle, what [Db.Begin()] returns. *)
Abbreviation tx := nat.

(** [select id from seat where name is NULL ORDER BY id LIMIT 1], on a table
    listed in the order of its primary key. *)
Fixpoint first_empty (tb : list Seat) : option Z :=
  match tb with
  | [] => None
  | s :: tb' => match name s with None => Some (id s) | Some _ => first_empty tb' end
  end.

(** [update seat set name = ? where id = ?] *)
Definition set_name (nm : string) (i : Z) (tb : list Seat) : list Seat :=
  (λ s, if decide (id s = i) then MkSeat (id s) (seat s) (Some nm) else s) <$> tb.

(** ** Specification: bookings one after the other *)

(** One booking on a table nobody else touches. *)
Definition book (tb : list Seat) (nm : string) : list Seat :=
  match first_empty tb with Some i => set_name nm i tb | None => tb end.

Definition book_all (tb : list Seat) (nms : list string) : list Seat := foldl book tb nms.

(** Seat numbers are distinct and positive, as an auto-increment key's are. *)
Definition table_ok (tb : list Seat) : Prop := NoDup (id <$> tb) ∧ Forall (λ s, 0 < id s) tb.

(** What a sequence of bookings does to the names of a table: it fills the empty
    seats, in order. *)
Fixpoint fill (names : list (option string)) (nms : list string) : list (option string) :=
  match names, nms with
  | [], _ => []
  | Some x :: names', _ => Some x :: fill names' nms
  | None :: names', nm :: nms' => Some nm :: fill names' nms'
  | None :: _, [] => names
  end.

Section booking.
Implicit Types (tb : list Seat) (nm : string).

Lemma first_empty_elem tb i : first_empty tb = Some i → i ∈ id <$> tb.
Proof.
  induction tb as [|s tb IH]; simpl; [done|]. destruct (name s).
  - intros Hi%IH. by apply list_elem_of_further.
  - intros [= <-]. apply list_elem_of_here.
Qed.

Lemma first_empty_pos tb i : table_ok tb → first_empty tb = Some i → 0 < i.
Proof.
  intros [_ Hp] Hi%first_empty_elem. apply list_elem_of_fmap in Hi as (s&->&Hs).
  rewrite Forall_forall in Hp. by apply Hp.
Qed.

Lemma set_name_id nm i tb : id <$> set_name nm i tb = id <$> tb.
Proof.
  unfold set_name. rewrite <-list_fmap_compose. apply list_fmap_ext.
  intros ? s _. simpl. by case_decide.
Qed.

Lemma set_name_seat nm i tb : seat <$> set_name nm i tb = seat <$> tb.
Proof.
  unfold set_name. rewrite <-list_fmap_compose. apply list_fmap_ext.
  intros ? s _. simpl. by case_decide.
Qed.

Lemma set_name_notin nm i tb : i ∉ id <$> tb → set_name nm i tb = tb.
Proof.
  intros Hi. unfold set_name. rewrite <-(list_fmap_id tb) at 2. apply list_fmap_ext.
  intros k s Hs. simpl. case_decide as E; [|done]. destruct Hi.
  rewrite <-E. by apply list_elem_of_fmap_2, list_elem_of_lookup_2 with k.
Qed.

Lemma book_id nm tb : id <$> book tb nm = id <$> tb.
Proof. unfold book. destruct (first_empty tb); [apply set_name_id|done]. Qed.

Lemma book_all_id nms tb : id <$> book_all tb nms = id <$> tb.
Proof.
  revert tb. induction nms as [|nm nms IH]; intros tb; [done|]. simpl. by rewrite IH, book_id.
Qed.

Lemma book_all_seat nms tb : seat <$> book_all tb nms = seat <$> tb.
Proof.
  revert tb. induction nms as [|nm nms IH]; intros tb; [done|]. simpl. rewrite IH.
  unfold book. destruct (first_empty tb); [apply set_name_seat|done].
Qed.

Lemma table_ok_id tb tb' : id <$> tb' = id <$> tb → table_ok tb → table_ok tb'.
Proof.
  intros He [Hn Hp]. split; [by rewrite He|].
  apply (Forall_fmap id (λ i, 0 < i)). rewrite He. by apply Forall_fmap.
Qed.

Lemma book_all_ok nms tb : table_ok tb → table_ok (book_all tb nms).
Proof. apply table_ok_id, book_all_id. Qed.

Lemma fill_nil names : fill names [] = names.
Proof. induction names as [|[x|] l IHl]; simpl; congruence. Qed.

Lemma book_names nm tb :
  NoDup (id <$> tb) → name <$> book tb nm = fill (name <$> tb) [nm].
Proof.
  induction tb as [|s tb IH]; [done|]. rewrite fmap_cons, NoDup_cons. intros [Hs Hn].
  specialize (IH Hn). unfold book in *. cbn [first_empty]. rewrite fmap_cons.
  destruct (name s) as [x|] eqn:Hx; cbn [fill].
  - rewrite <-IH. destruct (first_empty tb) as [i|] eqn:Hi; [|by rewrite fmap_cons, Hx].
    unfold set_name. rewrite !fmap_cons, decide_False; [by rewrite Hx|].
    intros <-. by apply Hs, first_empty_elem.
  - unfold set_name at 1. rewrite !fmap_cons, decide_True by done. cbn [name]. f_equal.
    fold (set_name nm (id s) tb). rewrite set_name_notin by done. by rewrite fill_nil.
Qed.

Lemma fill_cons nm nms names : fill (fill names [nm]) nms = fill names (nm :: nms).
Proof.
  induction names as [|[x|] names IH]; simpl; [done|by rewrite IH|].
  by rewrite fill_nil.
Qed.

(** Filling empty seats keeps the occupied ones. *)
Lemma fill_keeps names nms k nm :
  names !! k = Some (Some nm) → fill names nms !! k = Some (Some nm).
Proof.
  revert nms k. induction names as [|[x|] names IH]; intros nms [|k] Hk; simplify_eq/=; auto.
  - by destruct nms; apply IH || exact Hk.
Qed.

Lemma book_all_names nms tb :
  NoDup (id <$> tb) → name <$> book_all tb nms = fill (name <$> tb) nms.
Proof.
  revert tb. induction nms as [|nm nms IH]; intros tb Hn.
  - by rewrite fill_nil.
  - cbn [book_all foldl]. rewrite IH by by rewrite book_id. rewrite book_names by done. apply fill_cons.
Qed.
End booking.

(** ** The database *)

Inductive qres (DB : Type) :=
| QBlock                          (** waits for a row lock *)
| QErr (db : DB)
| QRow (r : option Z) (db : DB).  (** the row of the result, if it has one *)
Arguments QBlock {DB}.
Arguments QErr {DB} _.
Arguments QRow {DB} _ _.

(** The calls.  [E] is what the environment decides at a call. *)
Class SeatOps (DB E : Type) := {
  db_prepare : E → DB → bool;
  db_users : E → DB → option (list (option User));  (** a [None] row fails to scan *)
  db_begin : E → DB → option (tx * DB);
  tx_prepare : E → tx → DB → bool;
  tx_select : E → tx → DB → qres DB;
  tx_next : E → option Z → option Z;   (** the row that [rows.Next()] comes to *)
  tx_scan : E → Z → option Z;
  tx_update : E → tx → string → Z → DB → option Z * DB;   (** rows affected *)
  tx_commit : E → tx → DB → DB;
  tx_rollback : E → tx → DB → DB
}.

(** What the calls do, seen through the committed table, the transaction that
    holds the row locks together with its own version of the table, and the
    handles given out. *)
Class SeatDB (DB E : Type) `{SeatOps DB E} := {
  table : DB → list Seat;
  locker : DB → option (tx * list Seat);
  started : DB → gset tx;

  begin_fresh e db t db' :
    db_begin e db = Some (t, db') →
    (t ∉ started db) ∧ started db' = {[t]} ∪ started db ∧
    table db' = table db ∧ locker db' = locker db;

  (** a locking read waits for, or gives up on, rows another transaction has
      locked *)
  select_locked e t t' w db :
    locker db = Some (t', w) → t ≠ t' →
    match tx_select e t db with
    | QBlock => True
    | QErr db' => table db' = table db ∧ locker db' = locker db ∧ started db' = started db
    | QRow _ _ => False
    end;
  (** otherwise it reads the committed table and locks *)
  select_free e t db :
    locker db = None →
    match tx_select e t db with
    | QBlock => False
    | QErr db' => table db' = table db ∧ locker db' = None ∧ started db' = started db
    | QRow r db' =>
        r = first_empty (table db) ∧ table db' = table db ∧
        locker db' = Some (t, table db) ∧ started db' = started db
    end;
  (** [rows.Next()] is false after the last row, and on an error *)
  next_row e r i : tx_next e r = Some i → r = Some i;
  scan_id e i v : tx_scan e i = Some v → v = i;
  (** an update is visible to its own transaction only *)
  update_own e t nm i w db :
    locker db = Some (t, w) →
    let (r, db') := tx_update e t nm i db in
    table db' = table db ∧ started db' = started db ∧
    match r with
    | Some _ => locker db' = Some (t, set_name nm i w)
    | None => locker db' = locker db
    end;
  (** a commit makes it visible and unlocks; one that fails unlocks only *)
  commit_own e t w db :
    locker db = Some (t, w) →
    (table (tx_commit e t db) = w ∨ table (tx_commit e t db) = table db) ∧
    locker (tx_commit e t db) = None ∧ started (tx_commit e t db) = started db;
  rollback_own e t w db :
    locker db = Some (t, w) →
    table (tx_rollback e t db) = table db ∧ locker (tx_rollback e t db) = None ∧
    started (tx_rollback e t db) = started db;
  rollback_other e t db :
    (∀ w, locker db ≠ Some (t, w)) →
    table (tx_rollback e t db) = table db ∧ locker (tx_rollback e t db) = locker db ∧
    started (tx_rollback e t db) = started db
}.

(** A server on which no call fails and whose [user] table holds [us]. *)
Record reliable (DB E : Type) `{SeatDB DB E} (us : list User) : Prop := {
  ok_users e db : db_users e db = Some (Some <$> us);
  ok_prepare e db : db_prepare e db = true;
  ok_begin e db : db_begin e db ≠ None;
  ok_tx_prepare e t db : tx_prepare e t db = true;
  ok_select e t db db' : tx_select e t db ≠ QErr db';
  ok_next e r : tx_next e r = r;
  ok_scan e i : tx_scan e i = Some i;
  ok_update e t nm i w db :
    locker db = Some (t, w) → i ∈ (id <$> w) → (tx_update e t nm i db).1 = Some 1;
  ok_commit e t w db : locker db = Some (t, w) → table (tx_commit e t db) = w
}.

(** ** Goroutines *)

(** The lines a booking prints. *)
Inductive line :=
| Booked (i : Z) (userName : string)
| Failed (userName : string)
| AllBooked (userName : string)
| Error (userName : string).

Inductive pc :=
| BookPrepare                        (** [makeBooking]: [Db.Prepare("select * from user")] *)
| BookQuery                          (** [dbStmt.Query()] and the scans *)
| BookAdd (us : list User)           (** [for _, user := range users { wg.Add(1) *)
| BookGo (u : User) (us : list User) (** [go reserveEmptyForUser(user.name, &wg)] *)
| BookWait                           (** [wg.Wait()] *)
| BookRet
| ResBegin (nm : string)             (** [Db.Begin()] *)
| ResPrepare (nm : string) (t : tx)  (** [tx.Prepare(... for update)] *)
| ResQuery (nm : string) (t : tx)    (** [dbStmt.Query()] *)
| ResScan (nm : string) (t : tx) (r : option Z)   (** [if rows.Next() { rows.Scan }] *)
| ResUpdate (nm : string) (t : tx) (i : Z)        (** [tx.Exec("update seat ...")] *)
| ResCommit (nm : string) (t : tx)   (** [tx.Commit()] *)
| ResRollback (nm : string) (t : tx) (** [tx.Rollback()] on an error path *)
| ResDone (nm : string)              (** deferred [wg.Done()] *)
| ResRet (nm : string)
| ResPanicDone (nm : string)         (** the same, on the panic of [tx.Rollback()] on the nil [tx] *)
| ResPanic (nm : string).            (** ... after which the process ends *)

#[export] Instance pc_eq_dec : EqDecision pc.
Proof.
  assert (EqDecision User) by solve_decision. solve_decision.
Defined.

Section program.
Context {DB E : Type} {ops : SeatOps DB E} {sdb : SeatDB DB E}.

Record shared := Shared { db : DB; wg : waitgroup; printed : list line }.

Definition set_db d s := Shared d (wg s) (printed s).
Definition set_wg w s := Shared (db s) w (printed s).
Definition print x s := Shared (db s) (wg s) (printed s ++ [x]).

(** After the scan: update the seat found, or report that there is none. *)
Definition after_scan (nm : string) (t : tx) (emptySeatId : Z) (s : shared) : outcome shared pc :=
  if decide (emptySeatId = 0) then Next (print (AllBooked nm) s) (ResCommit nm t) []
  else Next s (ResUpdate nm t emptySeatId) [].

Definition tstep (e : E) (s : shared) (l : pc) : outcome shared pc :=
  match l with
  | BookPrepare => if db_prepare e (db s) then Next s BookQuery [] else Next s BookRet []
  | BookQuery =>
      match db_users e (db s) ≫= scan_all with
      | Some us => Next s (BookAdd us) []
      | None => Next s BookRet []
      end
  | BookAdd [] => Next s BookWait []
  | BookAdd (u :: us) => fallible (wg_add (wg s) 1) (λ w, Next (set_wg w s) (BookGo u us) [])
  | BookGo u us => Next s (BookAdd us) [ResBegin (user_name u)]
  | BookWait => match wg_wait (wg s) with Some _ => Next s BookRet [] | None => Wait end
  | ResBegin nm =>
      match db_begin e (db s) with
      | Some (t, d) => Next (set_db d s) (ResPrepare nm t) []
      | None => Next s (ResPanicDone nm) []
      end
  | ResPrepare nm t =>
      if tx_prepare e t (db s) then Next s (ResQuery nm t) []
      else Next (print (Error nm) s) (ResRollback nm t) []
  | ResQuery nm t =>
      match tx_select e t (db s) with
      | QBlock => Wait
      | QErr d => Next (print (Error nm) (set_db d s)) (ResRollback nm t) []
      | QRow r d => Next (set_db d s) (ResScan nm t r) []
      end
  | ResScan nm t r =>
      match tx_next e r with
      | None => after_scan nm t 0 s
      | Some i =>
          match tx_scan e i with
          | Some v => after_scan nm t v s
          | None => Next (print (Error nm) s) (ResRollback nm t) []
          end
      end
  | ResUpdate nm t i =>
      let (r, d) := tx_update e t nm i (db s) in
      match r with
      | Some rowsAffected =>
          Next (print (if decide (rowsAffected = 1) then Booked i nm else Failed nm) (set_db d s))
               (ResCommit nm t) []
      | None => Next (print (Error nm) (set_db d s)) (ResRollback nm t) []
      end
  | ResCommit nm t => Next (set_db (tx_commit e t (db s)) s) (ResDone nm) []
  | ResRollback nm t => Next (set_db (tx_rollback e t (db s)) s) (ResDone nm) []
  | ResDone nm => fallible (wg_done (wg s)) (λ w, Next (set_wg w s) (ResRet nm) [])
  | ResPanicDone nm => fallible (wg_done (wg s)) (λ w, Next (set_wg w s) (ResPanic nm) [])
  | ResPanic nm => Crash err_nil
  | BookRet | ResRet _ => Wait
  end.

(** [makeBooking()] on the database [d]. *)
Definition start (d : DB) : config shared pc := Running (Shared d (WaitGroup 0) []) [BookPrepare].

End program.

(** ** Invariant *)

(** The transaction of a goroutine; the users whose booking has ended;
    goroutines [wg] still waits for; goroutines whose transaction can hold the
    row locks. *)
Definition tx_of (l : pc) : list tx :=
  match l with
  | ResPrepare _ t | ResQuery _ t | ResScan _ t _ | ResUpdate _ t _ | ResCommit _ t
  | ResRollback _ t => [t]
  | _ => []
  end.
Definition done_of (l : pc) : list string :=
  match l with ResDone nm | ResRet nm => [nm] | _ => [] end.
Definition pending (l : pc) : nat :=
  match l with
  | BookPrepare | BookQuery | BookAdd _ | BookWait | BookRet | ResRet _ | ResPanic _ => 0
  | _ => 1
  end.
Definition holds (l : pc) : bool :=
  match l with ResScan _ _ _ | ResUpdate _ _ _ | ResCommit _ _ | ResRollback _ _ => true | _ => false end.
Definition returned (l : pc) : Prop := match l with BookRet | ResRet _ => True | _ => False end.

#[export] Instance returned_dec l : Decision (returned l).
Proof. destruct l; simpl; apply _. Defined.

Section invariant.
Context {DB E : Type} {ops : SeatOps DB E} {sdb : SeatDB DB E}.
Variable tb0 : list Seat.
Hypothesis Htb0 : table_ok tb0.
Implicit Types (s : @shared DB) (ls : list pc) (l : pc) (t : tx).

(** [rows.Next()] may miss a row. *)
Definition lossy : Prop := ∃ e i, tx_next e (Some i) = None.

(** What a transaction past its locking read knows: it holds the locks and has
    read the committed table. *)
Definition pc_ok s l : Prop :=
  match l with
  | ResScan _ t r => locker (db s) = Some (t, table (db s)) ∧ r = first_empty (table (db s))
  | ResUpdate _ t i =>
      locker (db s) = Some (t, table (db s)) ∧ first_empty (table (db s)) = Some i
  | ResCommit nm t => ∃ w, locker (db s) = Some (t, w) ∧
      (w = book (table (db s)) nm ∨ lossy ∧ w = table (db s))
  | _ => True
  end.

Record inv s ls : Prop := {
  inv_table : ∃ names, table (db s) = book_all tb0 names ∧ names ⊆+ held_all done_of ls;
  inv_wg : wg_count (wg s) = Z.of_nat (sumf pending ls);
  inv_tx : NoDup (held_all tx_of ls) ∧ ∀ t, t ∈ held_all tx_of ls → t ∈ started (db s);
  inv_lock t w : locker (db s) = Some (t, w) →
    ∃ k l, ls !! k = Some l ∧ t ∈ tx_of l ∧ holds l = true;
  inv_pc k l : ls !! k = Some l → pc_ok s l
}.

Lemma inv_table_ok s ls : inv s ls → table_ok (table (db s)).
Proof. intros HI. destruct (inv_table _ _ HI) as (names&->&_). by apply book_all_ok. Qed.

(** Only the holder of the locks changes the table or the locks. *)
Lemma air_pc_ok_other s s' ls i l k x :
  inv s ls → ls !! i = Some l → k ≠ i → ls !! k = Some x →
  (table (db s') = table (db s) ∧ locker (db s') = locker (db s)) ∨
  locker (db s) = None ∨ (∃ t w, locker (db s) = Some (t, w) ∧ t ∈ tx_of l) →
  pc_ok s' x.
Proof.
  intros HI Hl Hk Hx Hch. pose proof (inv_pc _ _ HI k x Hx) as Hok.
  destruct Hch as [[Ht Hlk]|[Hnone|(t&w&Hlk&Ht)]].
  - destruct x; simpl in *; by rewrite ?Ht, ?Hlk.
  - destruct x; simpl in *; naive_solver congruence.
  - destruct x; simpl in *; try exact I; exfalso; destruct Hk;
      (eapply (held_all_unique tx_of ls k i _ _ t (proj1 (inv_tx _ _ HI)) Hx Hl); [|exact Ht]);
      simpl; apply list_elem_of_singleton; naive_solver congruence.
Qed.

(** What an action has to show for the invariant. *)
Lemma air_inv_next s ls i l s' l' sp :
  inv s ls → ls !! i = Some l →
  (wg_count (wg s') = wg_count (wg s) - Z.of_nat (pending l) + Z.of_nat (pending l' + sumf pending sp)) →
  (tx_of l' ++ held_all tx_of sp ⊆+ tx_of l ∧ started (db s') = started (db s)) ∨
  (∃ t, tx_of l = [] ∧ tx_of l' = [t] ∧ sp = [] ∧ (t ∉ started (db s)) ∧
        started (db s') = {[t]} ∪ started (db s)) →
  (∃ nms, table (db s') = book_all (table (db s)) nms ∧ nms ++ done_of l ⊆+ done_of l') →
  (table (db s') = table (db s) ∧ locker (db s') = locker (db s)) ∨
  locker (db s) = None ∨ (∃ t w, locker (db s) = Some (t, w) ∧ t ∈ tx_of l) →
  (∀ t w, locker (db s') = Some (t, w) →
     (t ∈ tx_of l' ∧ holds l' = true) ∨
     ((∃ w', locker (db s) = Some (t, w')) ∧ (holds l = false ∨ t ∉ tx_of l))) →
  pc_ok s' l' → Forall (pc_ok s') sp →
  inv s' (<[i:=l']> ls ++ sp).
Proof.
  intros HI Hl Hwg Htx (nms&Htb&Hnms) Hch Hlk Hok Hsp. split.
  - destruct (inv_table _ _ HI) as (names&Ht&Hd). exists (names ++ nms).
    split; [unfold book_all in *; by rewrite Htb, foldl_app, Ht|].
    destruct (held_all_next done_of ls i l l' sp Hl) as (rest&H1&H2).
    rewrite H1 in Hd. rewrite H2, <-app_assoc.
    apply (submseteq_trade names nms (done_of l)); [|done].
    trans (done_of l ++ rest); [done|]. apply submseteq_app; [done|].
    apply submseteq_inserts_l. done.
  - pose proof (inv_wg _ _ HI). pose proof (sumf_lookup_le pending ls i l Hl). pool_lia.
  - destruct (inv_tx _ _ HI) as [Hnd Hst].
    destruct (held_all_next tx_of ls i l l' sp Hl) as (rest&H1&H2).
    rewrite H1 in Hnd. setoid_rewrite H1 in Hst. rewrite H2. setoid_rewrite H2.
    destruct Htx as [[Hsub ->]|(t&Hl0&->&->&Hfresh&->)].
    + apply submseteq_Permutation in Hsub as [k Hk]. rewrite Hk in Hnd. setoid_rewrite Hk in Hst.
      rewrite !NoDup_app in *. set_solver.
    + rewrite Hl0 in *. simpl in *. split; [|set_solver]. constructor; [set_solver|done].
  - intros t w Hw. destruct (Hlk t w Hw) as [[Ht Hh]|[[w' Hw'] Hne]].
    + exists i, l'. split; [|done]. apply lookup_app_l_Some, list_lookup_insert_eq.
      by eapply lookup_lt_Some.
    + destruct (inv_lock _ _ HI t w' Hw') as (k&x&Hk&Ht&Hh). exists k, x. split; [|done].
      apply lookup_app_l_Some. rewrite list_lookup_insert_ne; [done|]. intros <-.
      simplify_eq. destruct Hne as [Hne|Hne]; [congruence|done].
  - intros k x Hx. destruct (lookup_pool ls sp i l l' k x Hl Hx) as [[_ ->]|[[? ?]|[_ Hin]]];
      [done| |by rewrite Forall_forall in Hsp; apply Hsp].
    by apply (air_pc_ok_other s s' ls i l k x).
Qed.

(** An action that leaves the database's tables and locks alone. *)
Lemma air_inv_quiet s ls i l s' l' sp :
  inv s ls → ls !! i = Some l →
  table (db s') = table (db s) → locker (db s') = locker (db s) →
  started (db s') = started (db s) →
  (wg_count (wg s') = wg_count (wg s) - Z.of_nat (pending l) + Z.of_nat (pending l' + sumf pending sp)) →
  (tx_of l' = tx_of l ∨ tx_of l' = []) → held_all tx_of sp = [] →
  done_of l ⊆+ done_of l' → (holds l = true → holds l' = true ∧ tx_of l' = tx_of l) →
  pc_ok s' l' → Forall (pc_ok s') sp →
  inv s' (<[i:=l']> ls ++ sp).
Proof.
  intros HI Hl Htb Hlk Hst Hwg Htx Hsp Hdone Hholds Hok Hoks.
  apply (air_inv_next s ls i l); [done|done|done| | |by left| |done|done].
  - left. rewrite Hsp, app_nil_r, Hst. split; [|done].
    destruct Htx as [-> | ->]; [done|auto with proto].
  - by exists [].
  - intros t w Ht. rewrite Hlk in Ht. destruct (holds l) eqn:Hh; [|by right; eauto].
    destruct (Hholds eq_refl) as [? ->]. destruct (decide (t ∈ tx_of l)); [by left|right; eauto].
Qed.

Lemma air_tx_in ls i l t : ls !! i = Some l → t ∈ tx_of l → t ∈ held_all tx_of ls.
Proof. intros Hl Ht. by apply (held_all_elem tx_of ls i l t). Qed.

(** [Db.Begin()] gives a transaction nobody else has. *)
Lemma air_inv_begin e s ls i nm t d :
  inv s ls → ls !! i = Some (ResBegin nm) → db_begin e (db s) = Some (t, d) →
  inv (set_db d s) (<[i:=ResPrepare nm t]> ls).
Proof.
  intros HI Hl Hb. destruct (begin_fresh _ _ _ _ Hb) as (Hf&Hst&Htb&Hlk).
  rewrite <-(app_nil_r (<[i:=_]> ls)).
  apply (air_inv_next s ls i (ResBegin nm)); simpl; try done.
  - pool_lia.
  - right. by exists t.
  - by exists [].
  - by left.
  - intros t' w. rewrite Hlk. right. eauto.
Qed.

(** The locking read does not succeed while another transaction has the locks. *)
Lemma air_inv_select e s ls i nm t :
  inv s ls → ls !! i = Some (ResQuery nm t) →
  match tx_select e t (db s) with
  | QBlock => ∃ t' w, locker (db s) = Some (t', w)
  | QErr d => table d = table (db s) ∧ locker d = locker (db s) ∧ started d = started (db s)
  | QRow r d =>
      r = first_empty (table (db s)) ∧ table d = table (db s) ∧
      locker (db s) = None ∧ locker d = Some (t, table (db s)) ∧ started d = started (db s)
  end.
Proof.
  intros HI Hl. destruct (locker (db s)) as [[t' w]|] eqn:Hlk.
  - assert (t ≠ t').
    { intros ->. destruct (inv_lock _ _ HI t' w Hlk) as (k&x&Hk&Ht&Hh).
      assert (k = i) as ->; [|by simplify_eq].
      eapply (held_all_unique tx_of ls k i _ _ t' (proj1 (inv_tx _ _ HI)) Hk Hl); [done|].
      by apply list_elem_of_singleton. }
    pose proof (select_locked e t t' w (db s) Hlk ltac:(done)) as Hs.
    destruct (tx_select e t (db s)); [eauto|by rewrite Hlk in Hs|done].
  - pose proof (select_free e t (db s) Hlk) as Hs. destruct (tx_select e t (db s)); naive_solver.
Qed.

Lemma air_inv_query e s ls i nm t r d :
  inv s ls → ls !! i = Some (ResQuery nm t) → tx_select e t (db s) = QRow r d →
  inv (set_db d s) (<[i:=ResScan nm t r]> ls).
Proof.
  intros HI Hl Hq. pose proof (air_inv_select e s ls i nm t HI Hl) as Hs. rewrite Hq in Hs.
  destruct Hs as (->&Htb&Hnone&Hlk&Hst). rewrite <-(app_nil_r (<[i:=_]> ls)).
  apply (air_inv_next s ls i (ResQuery nm t)); simpl; rewrite ?Htb, ?Hlk; try done.
  - pool_lia.
  - by left.
  - by exists [].
  - right; by left.
  - intros t' w [= <- <-]. left. by rewrite list_elem_of_singleton.
Qed.

Lemma air_inv_scan e s ls i nm t r :
  inv s ls → ls !! i = Some (ResScan nm t r) →
  match tstep e s (ResScan nm t r) with
  | Next s' l' sp => inv s' (<[i:=l']> ls ++ sp)
  | _ => False
  end.
Proof.
  intros HI Hl. destruct (inv_pc _ _ HI i _ Hl) as [Hlk Hr]. simpl. unfold after_scan.
  pose proof (λ k, first_empty_pos _ k (inv_table_ok _ _ HI)) as Hpos.
  destruct (tx_next e r) as [k|] eqn:Hn.
  - apply next_row in Hn as ->. specialize (Hpos k (eq_sym Hr)). destruct (tx_scan e k) as [v|] eqn:Hv.
    + apply scan_id in Hv as ->. rewrite decide_False by lia.
      eapply air_inv_quiet; eauto; simpl; try done; pool_lia.
    + eapply air_inv_quiet; eauto; simpl; try done; pool_lia.
  - eapply air_inv_quiet; eauto; simpl; try done; [pool_lia|].
    eexists. split; [exact Hlk|]. destruct r as [k|]; [right; split; [by exists e, k|done]|left].
    unfold book. by rewrite <-Hr.
Qed.

Lemma air_inv_update e s ls i nm t k r d :
  inv s ls → ls !! i = Some (ResUpdate nm t k) → tx_update e t nm k (db s) = (r, d) →
  table d = table (db s) ∧
  inv (set_db d s) (<[i:=match r with Some _ => ResCommit nm t | None => ResRollback nm t end]> ls).
Proof.
  intros HI Hl Hu. destruct (inv_pc _ _ HI i _ Hl) as [Hlk Hk].
  pose proof (update_own e t nm k _ (db s) Hlk) as Hup. rewrite Hu in Hup.
  destruct Hup as (Htb&Hst&Hr). split; [done|].
  rewrite <-(app_nil_r (<[i:=_]> ls)). destruct r as [rows|].
  - apply (air_inv_next s ls i (ResUpdate nm t k)); simpl; rewrite ?Htb, ?Hr; try done.
    + pool_lia.
    + by left.
    + by exists [].
    + right; right. exists t, (table (db s)). by rewrite list_elem_of_singleton.
    + intros t' w [= <- <-]. left. by rewrite list_elem_of_singleton.
    + eexists. split; [done|left]. unfold book. by rewrite Hk.
  - eapply air_inv_quiet; eauto; simpl; try done; pool_lia.
Qed.

(** A commit publishes the booking, or, when it fails, nothing. *)
Lemma air_inv_commit e s ls i nm t :
  inv s ls → ls !! i = Some (ResCommit nm t) →
  inv (set_db (tx_commit e t (db s)) s) (<[i:=ResDone nm]> ls).
Proof.
  intros HI Hl. destruct (inv_pc _ _ HI i _ Hl) as (w0&Hlk&Hw0).
  destruct (commit_own e t _ _ Hlk) as (Htb&Hno&Hst). rewrite <-(app_nil_r (<[i:=_]> ls)).
  apply (air_inv_next s ls i (ResCommit nm t)); simpl; rewrite ?Hno; try done.
  - pool_lia.
  - left. split; [auto with proto|done].
  - destruct Htb as [Htb|Htb]; rewrite Htb; [destruct Hw0 as [-> |[_ ->]]; [by exists [nm]|]|];
      exists []; (split; [done|auto with proto]).
  - right; right. eexists t, _. split; [exact Hlk|by apply list_elem_of_singleton].
Qed.

Lemma air_inv_rollback e s ls i nm t :
  inv s ls → ls !! i = Some (ResRollback nm t) →
  inv (set_db (tx_rollback e t (db s)) s) (<[i:=ResDone nm]> ls).
Proof.
  intros HI Hl. rewrite <-(app_nil_r (<[i:=_]> ls)).
  assert ((∃ w, locker (db s) = Some (t, w)) ∨ ∀ w, locker (db s) ≠ Some (t, w)) as [[w Hlk]|Hno].
  { destruct (locker (db s)) as [[t' w]|]; [|by right].
    destruct (decide (t = t')) as [->|]; [left; eauto|right; congruence]. }
  - destruct (rollback_own e t _ _ Hlk) as (Htb&Hno&Hst).
    apply (air_inv_next s ls i (ResRollback nm t)); simpl; rewrite ?Htb, ?Hno; try done.
    + pool_lia.
    + left. split; [auto with proto|done].
    + exists []. split; [done|auto with proto].
    + right; right. eexists t, _. split; [exact Hlk|by apply list_elem_of_singleton].
  - destruct (rollback_other e t (db s) Hno) as (Htb&Hlk&Hst).
    apply (air_inv_next s ls i (ResRollback nm t)); simpl; rewrite ?Htb, ?Hlk; try done.
    + pool_lia.
    + left. split; [auto with proto|done].
    + exists []. split; [done|auto with proto].
    + by left.
    + intros t' w Ht'. right. split; [eauto|]. right. rewrite list_elem_of_singleton.
      intros ->. by apply (Hno w).
Qed.

(** Close an action that does not touch the database. *)
Ltac quiet HI Hl :=
  eapply air_inv_quiet; [exact HI|exact Hl|..]; simpl; try done; try (by auto); try pool_lia;
  try (by repeat constructor).

Lemma air_inv_set_printed s ls x : inv s ls ↔ inv (print x s) ls.
Proof. split; intros [? ? ? ? ?]; by split. Qed.

Lemma air_inv_step : preserves_alive tstep inv.
Proof.
  intros e s ls i l HI Hl.
  pose proof (sumf_lookup_le pending ls i l Hl) as Hpe. pose proof (inv_wg _ _ HI) as Hwg.
  destruct l as [| |[|u us]|u us| | |nm|nm t|nm t|nm t r|nm t k|nm t|nm t|nm|nm|nm|nm]; try done.
  - simpl. destruct (db_prepare _ _); quiet HI Hl.
  - simpl. destruct (_ ≫= _); quiet HI Hl.
  - quiet HI Hl.
  - simpl. unfold wg_add. rewrite decide_False by lia. quiet HI Hl.
  - quiet HI Hl.
  - simpl. destruct (wg_wait _); [|done]. quiet HI Hl.
  - simpl. destruct (db_begin _ _) as [[t d]|] eqn:Hb; [|quiet HI Hl].
    rewrite app_nil_r. by eapply air_inv_begin.
  - simpl. destruct (tx_prepare _ _ _); quiet HI Hl.
  - simpl. pose proof (air_inv_select e s ls i nm t HI Hl) as Hs.
    destruct (tx_select e t (db s)) eqn:Hq; [done|destruct Hs as (?&?&?); quiet HI Hl|].
    rewrite app_nil_r. by eapply air_inv_query.
  - pose proof (air_inv_scan e s ls i nm t r HI Hl) as Hs. by destruct (tstep e s _).
  - simpl. destruct (tx_update _ _ _ _ _) as [r d] eqn:Hu.
    destruct (air_inv_update e s ls i nm t k r d HI Hl Hu) as [_ Hi].
    destruct r; simpl; rewrite app_nil_r; by apply (air_inv_set_printed (set_db d s)).
  - simpl; rewrite app_nil_r. by eapply air_inv_commit.
  - simpl; rewrite app_nil_r. by eapply air_inv_rollback.
  - simpl. simpl in Hpe. unfold wg_done, wg_add. rewrite decide_False by lia. quiet HI Hl.
  - simpl. simpl in Hpe. unfold wg_done, wg_add. rewrite decide_False by lia. quiet HI Hl.
Qed.

Lemma air_inv_start d :
  table d = tb0 → locker d = None → inv (Shared d (WaitGroup 0) []) [BookPrepare].
Proof.
  intros Ht Hl. split; simpl; [|done| | |].
  - exists []. split; [done|auto with proto].
  - split; [constructor|]. intros t. by rewrite elem_of_nil.
  - intros t w. by rewrite Hl.
  - intros [|k] l; simpl; [by intros [= <-]|done].
Qed.

(** The committed table changes by a commit only, and by one whole booking. *)
Lemma air_table_step e s ls i l s' l' sp :
  inv s ls → ls !! i = Some l → tstep e s l = Next s' l' sp →
  table (db s') = table (db s) ∨
  ∃ nm t, l = ResCommit nm t ∧ table (db s') = book (table (db s)) nm.
Proof.
  intros HI Hl Ht. pose proof (inv_pc _ _ HI i l Hl) as Hok.
  destruct l as [| |[|u us]|u us| | |nm|nm t|nm t|nm t r|nm t k|nm t|nm t|nm|nm|nm|nm];
    simpl in Ht; unfold fallible, after_scan in Ht; repeat case_match; simplify_eq/=; try by left.
  all: try by left; eapply air_inv_update.
  - left. by edestruct begin_fresh as (_&_&Htb&_).
  - left. pose proof (air_inv_select e s ls i nm t HI Hl) as Hs. rewrite H in Hs. by destruct Hs.
  - left. pose proof (air_inv_select e s ls i nm t HI Hl) as Hs. rewrite H in Hs. by destruct Hs as (?&?&?).
  - destruct Hok as (w0&Hlk&Hw0). destruct (commit_own e t _ _ Hlk) as ([Htb|Htb]&_); [|by left].
    rewrite Htb. destruct Hw0 as [-> |[_ ->]]; [right; by exists nm, t|by left].
  - left. destruct (locker (db s)) as [[t' w]|] eqn:Hlk.
    + destruct (decide (t = t')) as [->|]; [by edestruct rollback_own|].
      edestruct (rollback_other e t (db s)) as [Htb _]; [|exact Htb]. rewrite Hlk. congruence.
    + edestruct (rollback_other e t (db s)) as [Htb _]; [|exact Htb]. by rewrite Hlk.
Qed.

(** ** Termination *)

Definition querying (l : pc) : Prop := l = BookPrepare ∨ l = BookQuery.

(** Nothing bounds the work before the query has returned its users. *)
Definition work (l : pc) : nat :=
  match l with
  | BookPrepare | BookQuery => 0
  | BookAdd us => 9 * length us + 2
  | BookGo _ us => 9 * length us + 10
  | BookWait => 1
  | ResBegin _ => 7
  | ResPrepare _ _ => 6
  | ResQuery _ _ => 5
  | ResScan _ _ _ => 4
  | ResUpdate _ _ _ => 3
  | ResCommit _ _ | ResRollback _ _ => 2
  | ResPanicDone _ => 2
  | ResDone _ | ResPanic _ => 1
  | BookRet | ResRet _ => 0
  end.

Lemma air_work e s l s' l' sp :
  tstep e s l = Next s' l' sp → ¬ querying l →
  (work l' + sumf work sp < work l)%nat ∧ ¬ querying l' ∧ Forall (λ x, ¬ querying x) sp.
Proof.
  unfold querying. intros Ht Hq.
  destruct l as [| |[|u us]|u us| | |nm|nm t|nm t|nm t r|nm t k|nm t|nm t|nm|nm|nm|nm];
    simpl in Ht; unfold fallible, after_scan in Ht; repeat case_match; simplify_eq/=;
    try tauto; unfold sumf; simpl;
    (split; [lia|split; [naive_solver|]]); repeat constructor; naive_solver.
Qed.

Definition inv_work s ls : Prop := inv s ls ∧ Forall (λ l, ¬ querying l) ls.

Lemma air_sn s ls : inv_work s ls → sn (step tstep) (Running s ls).
Proof.
  intros HI0. apply (step_sn tstep inv_work work); [| |exact HI0].
  - intros e s' ls' i l [HI Hq] Hl. pose proof (air_inv_step e s' ls' i l HI Hl) as Hs.
    destruct (tstep e s' l) as [|s1 l1 sp|] eqn:Ht; [done| |done]. split; [done|].
    destruct (air_work _ _ _ _ _ _ Ht) as (_&?&?); [by eapply (Forall_lookup_1 _ _ _ _ Hq Hl)|].
    apply Forall_app. split; [|done]. by apply Forall_insert.
  - intros e s' ls' i l s1 l1 sp [_ Hq] Hl Ht. eapply air_work; [exact Ht|].
    by eapply (Forall_lookup_1 _ _ _ _ Hq Hl).
Qed.

Lemma air_progress (e : E) s ls l i :
  inv s ls → ls !! i = Some l → ¬ returned l →
  ∃ c j l', ls !! j = Some l' ∧ tstep c s l' ≠ Wait.
Proof.
  intros HI Hl Hn. exists e. destruct (locker (db s)) as [[t w]|] eqn:Hlk.
  - destruct (inv_lock _ _ HI t w Hlk) as (k&x&Hk&_&Hh). exists k, x. split; [done|].
    destruct x; simpl in *; try done; unfold after_scan; repeat case_match; done.
  - destruct (decide (l = BookWait ∧ wg_count (wg s) ≠ 0)) as [[-> Hw]|Hw].
    + rewrite (inv_wg _ _ HI) in Hw. destruct (sumf_pos pending ls) as (k&x&Hk&Hp); [lia|].
      exists k, x. split; [done|]. destruct x; simpl in *; try lia; try done;
        unfold fallible, after_scan; repeat case_match; try done.
      pose proof (select_free e t (db s) Hlk). by case_match.
    + exists i, l. split; [done|].
      destruct l as [| |[|u us]|u us| | |nm|nm t|nm t|nm t r|nm t k|nm t|nm t|nm|nm|nm|nm];
        simpl in *; unfold fallible, after_scan; try done; repeat case_match; try done.
      * unfold wg_wait in *. case_decide; naive_solver.
      * pose proof (select_free e t (db s) Hlk). by case_match.
Qed.

(** When nothing can act any more, everything has returned. *)
Lemma air_halted (e : E) s ls :
  inv s ls → halted tstep (Running s ls) →
  Forall returned ls ∧ wg_count (wg s) = 0 ∧ locker (db s) = None.
Proof.
  intros HI Hh. assert (Hret : Forall returned ls).
  { apply (halted_done tstep inv returned s ls); [|done|done].
    intros l i. by apply (air_progress e). }
  split; [done|]. rewrite Forall_forall in Hret. split.
  - rewrite (inv_wg _ _ HI), sumf_zero; [done|].
    intros l Hl. specialize (Hret l Hl). by destruct l.
  - destruct (locker (db s)) as [[t w]|] eqn:Hlk; [exfalso|done].
    destruct (inv_lock _ _ HI t w Hlk) as (k&l&Hl&_&Hh').
    specialize (Hret l (list_elem_of_lookup_2 _ _ _ Hl)). by destruct l.
Qed.

(** ** A server that never fails *)

Variable us : list User.

(** The users of the goroutines, started or still to be started. *)
Definition who (l : pc) : list string :=
  match l with
  | BookPrepare | BookQuery => user_name <$> us
  | BookAdd us' => user_name <$> us'
  | BookGo u us' => user_name <$> u :: us'
  | BookWait | BookRet => []
  | ResBegin nm | ResPrepare nm _ | ResQuery nm _ | ResScan nm _ _ | ResUpdate nm _ _
  | ResCommit nm _ | ResRollback nm _ | ResDone nm | ResRet nm | ResPanicDone nm | ResPanic nm => [nm]
  end.

Lemma who_returned ls : Forall returned ls → held_all done_of ls = held_all who ls.
Proof.
  induction 1 as [|l ls Hl _ IH]; [done|]. rewrite !held_all_cons, IH. by destruct l.
Qed.

(** What no goroutine comes to. *)
Definition rolling_back (l : pc) : Prop :=
  match l with ResRollback _ _ | ResPanicDone _ | ResPanic _ => True | _ => False end.

(** The table with the booking that is being made, if one is. *)
Definition current s : list Seat := match locker (db s) with Some (_, w) => w | None => table (db s) end.

(** What a printed line claims. *)
Definition line_ok (tb : list Seat) (x : line) : Prop :=
  match x with
  | Booked i nm => ∃ st, MkSeat i st (Some nm) ∈ tb
  | AllBooked _ => first_empty tb = None
  | Failed _ | Error _ => False
  end.

Record inv_rel s ls : Prop := {
  rel_inv : inv s ls;
  rel_names : ∃ names, table (db s) = book_all tb0 names ∧ names ≡ₚ held_all done_of ls;
  rel_who : held_all who ls ≡ₚ user_name <$> us;
  rel_pc k l : ls !! k = Some l → ¬ rolling_back l;
  rel_lines : Forall (line_ok (current s)) (printed s)
}.

Lemma book_full nm tb : first_empty tb = None → book tb nm = tb.
Proof. intros Hn. unfold book. by rewrite Hn. Qed.

(** A further booking keeps what has been printed true. *)
Lemma line_ok_book nm tb x : NoDup (id <$> tb) → line_ok tb x → line_ok (book tb nm) x.
Proof.
  intros Hnd. destruct x as [k nm'| | |]; simpl; [|done|by intros Hn; rewrite book_full|done].
  intros [st Hin]. exists st. unfold book. destruct (first_empty tb) as [i|] eqn:Hi; [|done].
  unfold set_name. apply list_elem_of_fmap. exists (MkSeat k st (Some nm')). split; [|done].
  simpl. rewrite decide_False; [done|]. intros <-. clear -Hnd Hin Hi.
  induction tb as [|s tb IH]; simpl in *; [done|].
  apply NoDup_cons in Hnd as [Hs Hnd]. apply elem_of_cons in Hin as [<-|Hin]; simpl in *.
  - by apply Hs, first_empty_elem.
  - destruct (name s); [by apply IH|]. simplify_eq/=. apply Hs.
    by apply (list_elem_of_fmap_2 id _ _ Hin).
Qed.

Lemma book_booked tb nm i :
  first_empty tb = Some i → ∃ st, MkSeat i st (Some nm) ∈ book tb nm.
Proof.
  intros Hi. pose proof (first_empty_elem _ _ Hi) as Hin. unfold book. rewrite Hi.
  apply list_elem_of_fmap in Hin as (st&->&Hst). exists (seat st).
  unfold set_name. apply list_elem_of_fmap. exists st. by rewrite decide_True.
Qed.

Lemma reliable_users (Hrel : reliable DB E us) e d : db_users e d ≫= scan_all = Some us.
Proof. rewrite (ok_users _ _ _ Hrel). apply scan_all_rows. Qed.

Lemma air_rel_next s ls i l s' l' sp :
  inv_rel s ls → ls !! i = Some l → inv s' (<[i:=l']> ls ++ sp) →
  (table (db s') = table (db s) ∧ done_of l' = done_of l) ∨
  (∃ nm, table (db s') = book (table (db s)) nm ∧ done_of l = [] ∧ done_of l' = [nm]) →
  who l' ++ held_all who sp ≡ₚ who l → ¬ rolling_back l' →
  Forall (λ x, done_of x = [] ∧ ¬ rolling_back x) sp → Forall (line_ok (current s')) (printed s') →
  inv_rel s' (<[i:=l']> ls ++ sp).
Proof.
  intros HI Hl HI' Hnm Hwho Hrb Hsp Hlines. split; [done| | | |done].
  - destruct (rel_names _ _ HI) as (names&Ht&Hp).
    destruct (held_all_next done_of ls i l l' sp Hl) as (rest&H1&H2). rewrite H1 in Hp.
    setoid_rewrite H2. rewrite (held_all_nil done_of sp), app_nil_r
      by (eapply Forall_impl; [exact Hsp|naive_solver]).
    destruct Hnm as [[-> ->]|(nm&->&Hd&->)]; [by exists names|]. exists (names ++ [nm]).
    split; [unfold book_all in *; by rewrite foldl_app, <-Ht|].
    rewrite Hp, Hd. simpl. by rewrite Permutation_app_comm.
  - destruct (held_all_next who ls i l l' sp Hl) as (rest&H1&H2).
    by rewrite H2, Hwho, <-H1, (rel_who _ _ HI).
  - intros k x Hx. destruct (lookup_pool ls sp i l l' k x Hl Hx) as [[_ ->]|[[_ Hk]|[_ Hin]]];
      [done|by apply (rel_pc _ _ HI k)|]. rewrite Forall_forall in Hsp. by apply Hsp.
Qed.

(** Close an action after which the printed lines claim what they did. *)
Ltac rel HI Hl HI' :=
  eapply (air_rel_next _ _ _ _ _ _ _ HI Hl HI'); simpl; try done; try tauto;
  try exact (rel_lines _ _ HI); try (repeat constructor; simpl; tauto);
  try (unfold held_all; simpl; solve_Permutation).

(** The update succeeds, and the line it prints is true. *)
Lemma air_rel_update (Hrel : reliable DB E us) e s ls i nm t k :
  inv_rel s ls → ls !! i = Some (ResUpdate nm t k) →
  ∃ d, tx_update e t nm k (db s) = (Some 1, d) ∧ table d = table (db s) ∧
    Forall (line_ok (current (set_db d s))) (printed s ++ [Booked k nm]).
Proof.
  intros HI Hl. pose proof (rel_inv _ _ HI) as HI0. destruct (inv_pc _ _ HI0 i _ Hl) as [Hlk Hk].
  pose proof (ok_update _ _ _ Hrel e t nm k _ _ Hlk (first_empty_elem _ _ Hk)) as Hr.
  pose proof (update_own e t nm k _ _ Hlk) as Hup.
  destruct (tx_update e t nm k (db s)) as [r d]. simpl in Hr. subst r.
  destruct Hup as (Htb&_&Hlk'). exists d. split; [done|]. split; [done|].
  assert (Hcur : current (set_db d s) = book (current s) nm)
    by (unfold current, book; simpl; by rewrite Hlk', Hlk, Hk).
  assert (Hcs : current s = table (db s)) by (unfold current; by rewrite Hlk).
  destruct (inv_table_ok _ _ HI0) as [Hnd _]. rewrite <-Hcs in Hnd, Hk.
  rewrite Hcur. apply Forall_app. split.
  - eapply Forall_impl; [exact (rel_lines _ _ HI)|]. intros x. by apply line_ok_book.
  - repeat constructor. by apply book_booked.
Qed.

Lemma air_rel_step (Hrel : reliable DB E us) : preserves tstep inv_rel.
Proof.
  intros e s ls i l HI Hl. pose proof (rel_inv _ _ HI) as HI0.
  pose proof (air_inv_step e s ls i l HI0 Hl) as Hinv. pose proof (inv_pc _ _ HI0 i l Hl) as Hok.
  pose proof (sumf_lookup_le pending ls i l Hl) as Hpe. pose proof (inv_wg _ _ HI0) as Hwg.
  destruct l as [| |[|u us']|u us'| | |nm|nm t|nm t|nm t r|nm t k|nm t|nm t|nm|nm|nm|nm];
    simpl in *; try done.
  - rewrite (ok_prepare _ _ _ Hrel) in *. rel HI Hl Hinv.
  - rewrite (reliable_users Hrel) in *. rel HI Hl Hinv.
  - rel HI Hl Hinv.
  - unfold wg_add in *. rewrite decide_False in * by lia. simpl in *. rel HI Hl Hinv.
  - rel HI Hl Hinv.
  - destruct (wg_wait _); [|done]. rel HI Hl Hinv.
  - destruct (db_begin _ _) as [[t d]|] eqn:Hb; [|by apply (ok_begin _ _ _ Hrel) in Hb].
    destruct (begin_fresh _ _ _ _ Hb) as (_&_&Htb&Hlk).
    rel HI Hl Hinv. unfold current. simpl. rewrite Htb, Hlk. apply HI.
  - rewrite (ok_tx_prepare _ _ _ Hrel) in *. rel HI Hl Hinv.
  - pose proof (air_inv_select e s ls i nm t HI0 Hl) as Hs.
    destruct (tx_select e t (db s)) eqn:Hq; [done|by apply (ok_select _ _ _ Hrel) in Hq|].
    destruct Hs as (->&Htb&Hno&Hlk&_). rel HI Hl Hinv.
    pose proof (rel_lines _ _ HI) as Hli. unfold current in *. simpl. by rewrite Hlk, Hno in *.
  - rewrite (ok_next _ _ _ Hrel) in *. destruct Hok as [Hlk Hr]. pose proof (rel_lines _ _ HI) as Hli.
    destruct r as [k|]; [rewrite (ok_scan _ _ _ Hrel) in *|]; unfold after_scan in *; simpl in *.
    + pose proof (first_empty_pos _ k (inv_table_ok _ _ HI0) (eq_sym Hr)).
      rewrite decide_False in * by lia. rel HI Hl Hinv.
    + rel HI Hl Hinv. apply Forall_app. split; [done|]. repeat constructor. simpl.
      unfold current. simpl. by rewrite Hlk.
  - destruct (air_rel_update Hrel e s ls i nm t k HI Hl) as (d&Hu&Htb&Hlines).
    rewrite Hu in *. simpl in *. rel HI Hl Hinv.
  - destruct Hok as (w0&Hlk&[-> |[(e'&k&Hk) _]]); [|by rewrite (ok_next _ _ _ Hrel) in Hk].
    destruct (commit_own e t _ _ Hlk) as (_&Hno&_).
    pose proof (ok_commit _ _ _ Hrel e t _ _ Hlk) as Htb. rel HI Hl Hinv; [right; eauto|].
    pose proof (rel_lines _ _ HI) as Hli. unfold current in *. simpl. by rewrite Hlk, Hno, Htb in *.
  - destruct (rel_pc _ _ HI _ _ Hl). done.
  - unfold wg_done, wg_add in *. rewrite decide_False in * by lia. simpl in *.
    rel HI Hl Hinv.
  - destruct (rel_pc _ _ HI _ _ Hl). done.
  - destruct (rel_pc _ _ HI _ _ Hl). done.
Qed.

Lemma air_rel_start d :
  table d = tb0 → locker d = None → inv_rel (Shared d (WaitGroup 0) []) [BookPrepare].
Proof.
  intros Ht Hl. split; [by apply air_inv_start| | | |done].
  - by exists [].
  - unfold held_all. simpl. by rewrite app_nil_r.
  - intros [|k] l; simpl; [intros [= <-]; simpl; tauto|done].
Qed.

(** Every execution is finite: two actions of [makeBooking] come before the
    number of users is known. *)
Lemma air_start_sn d :
  table d = tb0 → locker d = None → sn (step tstep) (start d).
Proof.
  intros Ht Hl. pose proof (air_inv_start d Ht Hl) as HI.
  constructor. intros σ [[[|k] c] He]; [|done]. simpl in He.
  assert (Hr : sn (step tstep) (Running (Shared d (WaitGroup 0) []) [BookRet])).
  { constructor. intros σ' [[[|k] c'] He']; done. }
  destruct (db_prepare c d); simplify_eq/=; [|exact Hr].
  constructor. intros σ [[[|k] c'] He]; [|done]. simpl in He.
  destruct (db_users c' d ≫= scan_all) as [us'|]; simplify_eq/=; [|exact Hr].
  apply air_sn. split; [|repeat constructor; unfold querying; naive_solver].
  pose proof (air_inv_quiet _ _ 0 BookPrepare (Shared d (WaitGroup 0) []) (BookAdd us') []
                HI eq_refl) as Hq. simpl in Hq.
  apply Hq; try done; try auto with proto; auto.
Qed.

(** What [bookings made so far] means between two moments. *)
Lemma air_table_later s1 ls1 s2 ls2 :
  inv s1 ls1 → reachable tstep (Running s1 ls1) (Running s2 ls2) →
  ∃ nms, table (db s2) = book_all (table (db s1)) nms.
Proof.
  intros HI Hr. set (I := λ s ls, inv s ls ∧ ∃ nms, table (db s) = book_all (table (db s1)) nms).
  assert (HII : preserves_alive tstep I).
  { intros e s ls i l [Hi (nms&Ht)] Hl. pose proof (air_inv_step e s ls i l Hi Hl) as Hs.
    destruct (tstep e s l) as [|s' l' sp|] eqn:Hn; [done| |done]. split; [done|].
    destruct (air_table_step e s ls i l s' l' sp Hi Hl Hn) as [-> |(nm&t&_&->)]; [by exists nms|].
    exists (nms ++ [nm]). unfold book_all in *. by rewrite foldl_app, <-Ht. }
  apply (invariant_alive tstep I s1 ls1 s2 ls2 HII); [|done]. split; [done|by exists []].
Qed.

End invariant.

(** ** A server in memory

    The smallest server that has the documented behaviour.  [flt e] is the call
    that fails at the choice [e]. *)
Module Mem.

Inductive fault := NoFault | FPrepare | FQuery | FBegin | FSelect | FNext | FScan | FUpdate | FCommit.

#[export] Instance fault_eq_dec : EqDecision fault.
Proof. solve_decision. Defined.

Record mem := MkMem { m_table : list Seat; m_lock : option (tx * list Seat); m_next : nat }.

Section mem.
Context {E : Type} (flt : E → fault) (users : list User).

Definition ok (f : fault) (e : E) : bool := bool_decide (flt e ≠ f).

Definition mine (t : tx) (m : mem) : option (list Seat) :=
  match m_lock m with Some (t', w) => if decide (t = t') then Some w else None | None => None end.

Definition release (t : tx) (tb : list Seat) (m : mem) : mem :=
  match mine t m with Some _ => MkMem tb None (m_next m) | None => m end.

Definition mem_ops : SeatOps mem E := {|
  db_prepare e _ := ok FPrepare e;
  db_users e _ := if ok FQuery e then Some (Some <$> users) else None;
  db_begin e m :=
    if ok FBegin e then Some (m_next m, MkMem (m_table m) (m_lock m) (S (m_next m))) else None;
  tx_prepare e _ _ := ok FPrepare e;
  tx_select e t m :=
    if ok FSelect e then
      match m_lock m with
      | None => QRow (first_empty (m_table m)) (MkMem (m_table m) (Some (t, m_table m)) (m_next m))
      | Some (t', w) => if decide (t = t') then QRow (first_empty w) m else QBlock
      end
    else QErr m;
  tx_next e r := if ok FNext e then r else None;
  tx_scan e i := if ok FScan e then Some i else None;
  tx_update e t nm i m :=
    match mine t m with
    | Some w =>
        if ok FUpdate e then
          (Some (if decide (i ∈ id <$> w) then 1 else 0),
           MkMem (m_table m) (Some (t, set_name nm i w)) (m_next m))
        else (None, m)
    | None => (None, m)
    end;
  tx_commit e t m :=
    release t (match mine t m with Some w => if ok FCommit e then w else m_table m | None => m_table m end) m;
  tx_rollback e t m := release t (m_table m) m
|}.

#[local] Existing Instance mem_ops.
#[local] Arguments set_seq : simpl never.

Definition mem_db : SeatDB mem E.
Proof.
  refine {| table := m_table; locker := m_lock; started m := set_seq 0 (m_next m) |};
    simpl; unfold release, mine.
  - intros e m t m' Hb. case_match; simplify_eq/=. rewrite elem_of_set_seq.
    split; [lia|]. split; [|done]. apply set_eq. intros x.
    rewrite elem_of_union, elem_of_singleton, !elem_of_set_seq. lia.
  - intros e t t' w m Hl Ht. rewrite Hl, decide_False by done. destruct (ok _ e); auto.
  - intros e t m Hl. rewrite Hl. destruct (ok _ e); auto.
  - intros e r i. case_match; naive_solver.
  - intros e i v. case_match; naive_solver.
  - intros e t nm i w m Hl. rewrite Hl, decide_True by done. destruct (ok _ e); auto.
  - intros e t w m Hl. rewrite Hl, decide_True by done. destruct (ok _ e); simpl; auto.
  - intros e t w m Hl. by rewrite Hl, decide_True by done.
  - intros e t m Hl. destruct (m_lock m) as [[t' w]|] eqn:E'; [|done].
    rewrite decide_False; [done|]. intros ->. by apply (Hl w).
Defined.

Lemma mem_reliable : (∀ e, flt e = NoFault) → @reliable mem E mem_ops mem_db users.
Proof.
  intros Hf. assert (Hok : ∀ f e, f ≠ NoFault → ok f e = true).
  { intros f e Hn. unfold ok. rewrite Hf. apply bool_decide_eq_true_2. congruence. }
  split; simpl; unfold release, mine; intros; rewrite ?Hok by done; try done.
  - case_match; [case_match; case_match|]; done.
  - rewrite H, decide_True by done. rewrite decide_True; done.
  - rewrite H, decide_True by done. done.
Qed.
End mem.

End Mem.


(** ** [printSeats] *)

Inductive cell := Newline | Cell (text : string).

(** The output for the rows read so far, [count] of them already printed. *)
Fixpoint printSeats_from (count : Z) (rows : list Seat) : list cell :=
  match rows with
  | [] => [Newline]
  | us :: rows' =>
      let count := int_add count 1 in
      (if decide (Z.rem count 7 = 0) then [Newline] else [])
      ++ Cell (default ""%string (name us)) :: printSeats_from count rows'
  end.

Definition printSeats (rows : list Seat) : list cell := printSeats_from 0 rows.

Lemma printSeats_from_eq count rows :
  0 ≤ count → is_int (count + Z.of_nat (length rows)) →
  printSeats_from count rows =
  mjoin (imap (λ k s, (if decide ((count + Z.of_nat k + 1) `mod` 7 = 0) then [Newline] else [])
                      ++ [Cell (default ""%string (name s))]) rows) ++ [Newline].
Proof.
  revert count. induction rows as [|st rows IH]; intros count Hc Hi; [done|].
  cbn [printSeats_from imap]. rewrite length_cons in Hi.
  rewrite int_add_id by (unfold is_int, min_int, max_int in *; lia).
  rewrite Z.rem_mod_nonneg by lia. rewrite Z.add_0_r. cbn [mjoin list_join].
  rewrite <-!app_assoc. f_equal. cbn [app]. f_equal.
  rewrite IH by (try lia; by replace (count + 1 + Z.of_nat (length rows))
                   with (count + Z.of_nat (S (length rows))) by lia).
  do 2 f_equal. apply imap_ext. intros k x _. simpl.
  by replace (count + 1 + Z.of_nat k + 1) with (count + Z.of_nat (S k) + 1) by lia.
Qed.

(** ** Properties *)

Section properties.
Context {DB E : Type} {ops : SeatOps DB E} {sdb : SeatDB DB E}.
Implicit Types (d : DB) (s : @shared DB).

(** C10. Serializability.  Whatever the interleaving of the transactions and
    whatever calls fail, the committed table is at every moment the one that
    bookings made one after the other would have produced: the bookings of some
    of the users whose goroutines have ended, each taking the first empty seat.
    So nobody's seat is given away: the occupied seats keep their names and the
    others are filled in order. *)
Theorem air_serializable d s ls (Hok : table_ok (table d)) (Hfree : locker d = None)
    (Hr : reachable tstep (start d) (Running s ls)) :
  ∃ names, table (db s) = book_all (table d) names ∧ names ⊆+ held_all done_of ls ∧
    id <$> table (db s) = id <$> table d ∧ seat <$> table (db s) = seat <$> table d ∧
    name <$> table (db s) = fill (name <$> table d) names.
Proof.
  pose proof (invariant_alive tstep (inv (table d)) _ _ s ls (air_inv_step _ Hok)
                (air_inv_start _ d eq_refl Hfree) Hr) as HI.
  destruct (inv_table _ _ _ HI) as (names&Ht&Hsub). exists names. split; [done|]. split; [done|].
  rewrite Ht. split; [apply book_all_id|]. split; [apply book_all_seat|].
  apply book_all_names, Hok.
Qed.

(** A seat that has been committed to somebody stays theirs: between any
    two moments of a run, with any calls failing in between. *)
Theorem air_never_reassigned d s1 ls1 s2 ls2 k nm
    (Hok : table_ok (table d)) (Hfree : locker d = None)
    (Hr1 : reachable tstep (start d) (Running s1 ls1))
    (Hr2 : reachable tstep (Running s1 ls1) (Running s2 ls2))
    (Hk : (name <$> table (db s1)) !! k = Some (Some nm)) :
  (name <$> table (db s2)) !! k = Some (Some nm).
Proof.
  pose proof (invariant_alive tstep (inv (table d)) _ _ s1 ls1 (air_inv_step _ Hok)
                (air_inv_start _ d eq_refl Hfree) Hr1) as HI.
  destruct (air_table_later _ Hok _ _ _ _ HI Hr2) as (nms&->).
  rewrite book_all_names by apply (inv_table_ok _ Hok _ _ HI). by apply fill_keeps.
Qed.

(** C17. With a server on which no call fails, [makeBooking] terminates, cannot
    crash or deadlock, and when nothing can act any more the users have all been
    served, in some order: the table is the one their bookings one after the
    other give, every goroutine has returned, the wait group is at zero, and
    every printed line is true of the table: the seat of each "booked" line bears
    the user's name, and "All seats booked" is printed only if they are. *)
Theorem air_all_booked (us : list User) d (e : E)
    (Hrel : reliable DB E us) (Hok : table_ok (table d)) (Hfree : locker d = None) :
  sn (step tstep) (start d) ∧
  ∀ σ, reachable tstep (start d) σ → halted tstep σ →
    ∃ s ls names, σ = Running s ls ∧ Forall returned ls ∧ wg_count (wg s) = 0 ∧
      names ≡ₚ user_name <$> us ∧ table (db s) = book_all (table d) names ∧
      Forall (line_ok (table (db s))) (printed s).
Proof.
  split; [by apply (air_start_sn (table d))|]. intros σ Hr Hh.
  destruct (invariant_reachable tstep (inv_rel (table d) us) _ _ σ (air_rel_step _ Hok us Hrel)
              (air_rel_start _ us d eq_refl Hfree) Hr) as (s&ls&->&HI).
  destruct (air_halted _ e s ls (rel_inv _ _ _ _ HI) Hh) as (Hret&Hwg&Hlk).
  destruct (rel_names _ _ _ _ HI) as (names&Ht&Hn). exists s, ls, names.
  do 3 (split; [done|]). split; [|split; [done|]].
  - rewrite Hn, <-(rel_who _ _ _ _ HI). by rewrite (who_returned us).
  - pose proof (rel_lines _ _ _ _ HI) as Hli. unfold current in Hli. by rewrite Hlk in Hli.
Qed.

(** C39. On any server every run is finite.  The process can only die of the
    nil pointer that [tx.Rollback()] dereferences after [Db.Begin()] has failed;
    if it has not died when nothing can act any more, all goroutines have
    returned and no row is left locked. *)
Theorem air_ends d (e : E) (Hok : table_ok (table d)) (Hfree : locker d = None) :
  sn (step tstep) (start d) ∧
  (∀ why, reachable tstep (start d) (Dead why) → why = err_nil) ∧
  (∀ s ls, reachable tstep (start d) (Running s ls) → halted tstep (Running s ls) →
     Forall returned ls ∧ wg_count (wg s) = 0 ∧ locker (db s) = None).
Proof.
  pose proof (air_inv_start (table d) d eq_refl Hfree) as H0.
  split; [by apply (air_start_sn (table d))|]. split.
  - intros why. apply (dies_of tstep (inv (table d)) (λ w, w = err_nil) _ _ why
                         (air_inv_step _ Hok) H0).
    clear. intros c s ls i l why HI Hl. pose proof (inv_wg _ _ _ HI) as Hwg.
    pose proof (sumf_lookup_le pending ls i l Hl) as Hpe.
    destruct l as [| |[|u us]|u us| | |nm|nm t|nm t|nm t r|nm t k|nm t|nm t|nm|nm|nm|nm];
      simpl in *; unfold fallible, after_scan, wg_done, wg_add; intros Hs;
      repeat case_match; simplify_eq/=; try done; lia.
  - intros s ls Hr Hh.
    pose proof (invariant_alive tstep _ _ _ s ls (air_inv_step _ Hok) H0 Hr) as HI.
    by apply (air_halted (table d) e).
Qed.
End properties.

(** ** Runs on the server in memory *)

Module Runs.

Definition users : list User := [MkUser 1 "ann"; MkUser 2 "bob"].
Definition seats : list Seat :=
  [MkSeat 1 "1-A" None; MkSeat 2 "1-B" (Some "zoe"); MkSeat 3 "1-C" None].
Definition d0 : Mem.mem := Mem.MkMem seats None 1.

Lemma seats_ok : table_ok seats.
Proof. split; [by_compute|]. repeat constructor. Qed.

(** The server on which every call succeeds, and one that fails as told. *)
#[global] Instance good_ops : SeatOps Mem.mem () := Mem.mem_ops (λ _, Mem.NoFault) users.
#[global] Instance good_db : SeatDB Mem.mem () := Mem.mem_db (λ _, Mem.NoFault) users.
#[global] Instance bad_ops : SeatOps Mem.mem Mem.fault := Mem.mem_ops (λ f, f) users.
#[global] Instance bad_db : SeatDB Mem.mem Mem.fault := Mem.mem_db (λ f, f) users.

(** [makeBooking] up to [wg.Wait()], then the two bookings, bob's first. *)
Definition both : list (nat * ()) :=
  map (λ i, (i, ())) [0; 0; 0; 0; 0; 0; 0; 1; 2; 1; 2; 2; 2; 2; 2; 2; 1; 1; 1; 1; 1; 0]%nat.

(** Ann's commit fails after her seat has been announced; bob books after her. *)
Definition failing : list (nat * Mem.fault) :=
  map (λ i, (i, Mem.NoFault)) [0; 0; 0; 0; 0; 0; 0; 1; 1; 1; 1; 1]%nat
  ++ (1%nat, Mem.FCommit) :: map (λ i, (i, Mem.NoFault)) [1; 2; 2; 2; 2; 2; 2]%nat.

Definition state {DB} (σ : option (config (@shared DB) pc)) (d : DB) : @shared DB * list pc :=
  match σ with Some (Running s ls) => (s, ls) | _ => (Shared d (WaitGroup 0) [], []) end.

Definition failed : @shared Mem.mem * list pc := state (run tstep failing (start d0)) d0.
Definition mid : @shared Mem.mem * list pc := state (run tstep (take 16 both) (start d0)) d0.
Definition fin : @shared Mem.mem * list pc := state (run tstep both (start d0)) d0.

End Runs.

(** Ann's commit has failed and bob has her seat. *)
Lemma air_serializable_witness :
  printed Runs.failed.1 = [Booked 1 "ann"; Booked 1 "bob"] ∧
  ∃ names, Mem.m_table (db Runs.failed.1) = book_all Runs.seats names ∧
    names ⊆+ held_all done_of Runs.failed.2 ∧
    id <$> Mem.m_table (db Runs.failed.1) = id <$> Runs.seats ∧
    seat <$> Mem.m_table (db Runs.failed.1) = seat <$> Runs.seats ∧
    name <$> Mem.m_table (db Runs.failed.1) = fill (name <$> Runs.seats) names.
Proof.
  split; [vm_compute; reflexivity|].
  refine (air_serializable (E := Mem.fault) Runs.d0 Runs.failed.1 Runs.failed.2 Runs.seats_ok eq_refl _).
  apply (run_reachable _ Runs.failing). vm_compute. reflexivity.
Defined.

(** Bob's seat while ann books hers. *)
Lemma air_never_reassigned_witness :
  name <$> Mem.m_table (db Runs.mid.1) = [Some "bob"; Some "zoe"; None] ∧
  name <$> Mem.m_table (db Runs.fin.1) = [Some "bob"; Some "zoe"; Some "ann"] ∧
  (name <$> Mem.m_table (db Runs.fin.1)) !! 0%nat = Some (Some "bob").
Proof.
  split; [reflexivity|]. split; [reflexivity|].
  refine (air_never_reassigned (E := ()) Runs.d0 Runs.mid.1 Runs.mid.2 Runs.fin.1 Runs.fin.2 0 "bob"
            Runs.seats_ok eq_refl _ _ eq_refl).
  - apply (run_reachable _ (take 16 Runs.both)). reflexivity.
  - apply (run_reachable _ (drop 16 Runs.both)). reflexivity.
Defined.

Lemma air_all_booked_witness :
  (∃ s ls, run tstep Runs.both (start Runs.d0) = Some (Running s ls) ∧
     halted (tstep (E := ())) (Running s ls) ∧
     name <$> Mem.m_table (db s) = [Some "bob"; Some "zoe"; Some "ann"]) ∧
  sn (step (tstep (E := ()))) (start Runs.d0) ∧
  ∀ σ, reachable (tstep (E := ())) (start Runs.d0) σ → halted (tstep (E := ())) σ →
    ∃ s ls names, σ = Running s ls ∧ Forall returned ls ∧ wg_count (wg s) = 0 ∧
      names ≡ₚ user_name <$> Runs.users ∧ Mem.m_table (db s) = book_all (Mem.m_table Runs.d0) names ∧
      Forall (line_ok (Mem.m_table (db s))) (printed s).
Proof.
  split.
  - eexists _, _. split; [vm_compute; reflexivity|]. split; [|reflexivity].
    intros [[|[|[|k]]] []]; reflexivity.
  - refine (air_all_booked Runs.users Runs.d0 () _ Runs.seats_ok eq_refl).
    by apply Mem.mem_reliable.
Defined.

(** The server refuses ann's transaction. *)
Lemma air_ends_witness :
  run tstep (map (λ i, (i, Mem.NoFault)) [0; 0; 0; 0]%nat ++ [(1%nat, Mem.FBegin); (1%nat, Mem.NoFault); (1%nat, Mem.NoFault)]) (start Runs.d0)
    = Some (Dead err_nil) ∧
  sn (step (tstep (E := Mem.fault))) (start Runs.d0) ∧
  (∀ why, reachable (tstep (E := Mem.fault)) (start Runs.d0) (Dead why) → why = err_nil) ∧
  (∀ s ls, reachable (tstep (E := Mem.fault)) (start Runs.d0) (Running s ls) → halted (tstep (E := Mem.fault)) (Running s ls) →
     Forall returned ls ∧ wg_count (wg s) = 0 ∧ locker (db s) = None).
Proof.
  split; [vm_compute; reflexivity|].
  exact (air_ends (E := Mem.fault) Runs.d0 Mem.NoFault Runs.seats_ok eq_refl).
Defined.

(** [reserveEmptyForUser] does not look at the result of [tx.Commit()]: on a
    server whose commit fails, it announces a seat that is not booked, and
    announces it again for the next user. *)
Theorem air_booked_not_committed :
  ∃ s ls, run tstep (take 14 Runs.failing) (start Runs.d0) = Some (Running s ls) ∧
    printed s = [Booked 1 "ann"] ∧ ls !! 1%nat = Some (ResRet "ann") ∧
    name <$> Mem.m_table (db s) = [None; Some "zoe"; None].
Proof. eexists _, _. split; [vm_compute; reflexivity|]. repeat split. Qed.

(** Nor at [rows.Err()]: where the rows of the empty seats are cut short, it announces
    that all seats are booked, and one of them is free. *)
Theorem air_not_all_booked :
  ∃ s ls, run tstep (map (λ i, (i, Mem.NoFault)) (replicate 7 0 ++ [1; 1; 1])%nat ++ [(1%nat, Mem.FNext)])
            (start Runs.d0) = Some (Running s ls) ∧
    printed s = [AllBooked "ann"] ∧ first_empty (Mem.m_table (db s)) ≠ None.
Proof. eexists _, _. split; [vm_compute; reflexivity|]. by split. Qed.

(** [printSeats] prints every name once, in the order of the rows, an empty
    string for an empty seat, and breaks the line before each seventh. *)
Theorem air_printSeats rows (Hlen : is_int (Z.of_nat (length rows))) :
  printSeats rows =
  mjoin (imap (λ k s, (if decide ((Z.of_nat k + 1) `mod` 7 = 0) then [Newline] else [])
                      ++ [Cell (default ""%string (name s))]) rows) ++ [Newline].
Proof. by apply (printSeats_from_eq 0). Qed.

Lemma air_printSeats_witness :
  let rows := replicate 6 (MkSeat 1 "1-A" None) ++ [MkSeat 7 "2-A" (Some "zoe")] in
  printSeats rows = replicate 6 (Cell "") ++ [Newline; Cell "zoe"; Newline] ∧
  printSeats rows =
  mjoin (imap (λ k s, (if decide ((Z.of_nat k + 1) `mod` 7 = 0) then [Newline] else [])
                      ++ [Cell (default ""%string (name s))]) rows) ++ [Newline].
Proof. split; [reflexivity|]. apply air_printSeats. by_compute. Defined.

End Airline.
