(* ===== verification/AirlineMain.v ===== *)
(** * AirlineMain: the main of airlineCheckin/main.go

    Connect, print the plan of the seats, make the bookings, print it again. *)

From S2P Require Import Prelude GoLang GoSched GoSync AirlineCheckin.
Import Airline.

#[local] Open Scope Z_scope.

Module Checkin.

(** The query of [printSeats] and its rows, of which some may fail to scan. *)
Class SeatQuery (DB E : Type) := { db_seats : E → DB → option (list (option Seat)) }.

(** ** What is printed *)

Inductive item := Plan (c : cell) | ErrLine (text : string).

Definition err_open : string := "error while connecting to mysql DB | ".
Definition err_prepare : string := "error while preparing seat fetch stmt, err =  ".
Definition err_query : string := "error while executing user seat, err =  ".
Definition err_scan : string := "error while Scan seat data, err =  ".

(** [for rows.Next() { ... }] and the [fmt.Println()] after it. *)
Fixpoint print_rows (count : Z) (rs : list (option Seat)) : list item :=
  match rs with
  | [] => [Plan Newline]
  | None :: _ => [ErrLine err_scan]
  | Some us :: rs' =>
      let count := int_add count 1 in
      (if decide (Z.rem count 7 = 0) then [Plan Newline] else [])
      ++ Plan (Cell (default ""%string (name us))) :: print_rows count rs'
  end.

Lemma print_rows_all count rows : print_rows count (Some <$> rows) = Plan <$> printSeats_from count rows.
Proof.
  revert count. induction rows as [|s rows IH]; intros count; [done|]. cbn.
  rewrite fmap_app, fmap_cons, <-IH. by case_decide.
Qed.

Section program.
Context {DB E : Type} {ops : SeatOps DB E} {sdb : SeatDB DB E} {sq : SeatQuery DB E}.
Implicit Types (d : DB) (s : @shared DB) (ls : list pc).

(** [printSeats()]: its two calls have the outcomes [e1] and [e2]. *)
Definition printSeats_run (e1 e2 : E) d : list item :=
  if db_prepare e1 d then
    match db_seats e2 d with
    | Some rs => print_rows 0 rs
    | None => [ErrLine err_query]
    end
  else [ErrLine err_prepare].

(** [connectToDb()]: [log.Fatal] if [sql.Open] fails. *)
Definition connectToDb (opens : bool) : res () := if opens then Ret () else Panic err_open.

(** How [main] ends. *)
Inductive ended :=
| Printed (before after : list item) (d' : DB)
| Died (before : list item) (why : string).

(** [main()] on the database [d]: [makeBooking()] has returned when its goroutine is at
    its end. *)
Inductive main d : ended → Prop :=
| main_connect why :
    connectToDb false = Panic why → main d (Died [] why)
| main_dies e1 e2 why :
    connectToDb true = Ret () → reachable tstep (start d) (Dead why) →
    main d (Died (printSeats_run e1 e2 d) why)
| main_done e1 e2 e3 e4 s ls :
    connectToDb true = Ret () → reachable tstep (start d) (Running s ls) → BookRet ∈ ls →
    main d (Printed (printSeats_run e1 e2 d) (printSeats_run e3 e4 (db s)) (db s)).

(** ** When [makeBooking] has returned, so have all its goroutines *)

Definition is_main (l : pc) : nat :=
  match l with
  | BookPrepare | BookQuery | BookAdd _ | BookGo _ _ | BookWait | BookRet => 1
  | _ => 0
  end.

Definition early (l : pc) : Prop := l = BookPrepare ∨ l = BookQuery.

Record quiet (ls : list pc) : Prop := {
  q_main : sumf is_main ls = 1%nat;
  q_early l : l ∈ ls → early l → ls = [l];
  q_ret : BookRet ∈ ls → Forall returned ls
}.

(** The steps of [makeBooking]'s goroutine that neither return nor are its first. *)
Lemma quiet_main ls i l l' sp :
  quiet ls → ls !! i = Some l → is_main l = 1%nat → is_main l' = 1%nat →
  l' ≠ BookRet → (early l' → ls = [l] ∧ sp = []) → Forall (λ x, is_main x = 0%nat) sp →
  quiet (<[i:=l']> ls ++ sp).
Proof.
  intros [Hm He Hr] Hl H1 H1' Hne Hearly Hsp.
  assert (Hsp0 : sumf is_main sp = 0%nat).
  { apply sumf_zero. intros x Hx. rewrite Forall_forall in Hsp. by apply Hsp. }
  assert (Hoth : ∀ k x, (<[i:=l']> ls ++ sp) !! k = Some x → x = l' ∨ is_main x = 0%nat).
  { intros k x Hx. destruct (lookup_pool _ _ _ _ _ _ _ Hl Hx) as [[_ ->]|[[Hk Hx']|[_ Hin]]]; [by left| |].
    - right. pose proof (sumf_two is_main _ _ _ _ _ Hx' Hl Hk). lia.
    - right. rewrite Forall_forall in Hsp. by apply Hsp. }
  split.
  - pose proof (sumf_insert is_main ls i l l' Hl). rewrite sumf_app. lia.
  - intros x Hx Hex. apply list_elem_of_lookup in Hx as [k Hk].
    destruct (Hoth k x Hk) as [-> |Hx0]; [|by destruct Hex as [-> | ->]].
    destruct (Hearly Hex) as [-> ->]. by destruct i.
  - intros Hin. apply list_elem_of_lookup in Hin as [k Hk]. by destruct (Hoth k _ Hk).
Qed.

(** If everything has returned, so has [makeBooking]. *)
Lemma quiet_returned ls : quiet ls → Forall returned ls → BookRet ∈ ls.
Proof.
  intros Hq Hret. destruct (sumf_pos is_main ls) as (k&l&Hk&Hl); [rewrite (q_main _ Hq); lia|].
  pose proof (Forall_lookup_1 _ _ _ _ Hret Hk). destruct l; simpl in *; try lia; try done.
  by eapply list_elem_of_lookup_2.
Qed.

(** A booking's step. *)
Lemma quiet_booking ls i l l' :
  quiet ls → ls !! i = Some l → is_main l = 0%nat → is_main l' = 0%nat → ¬ returned l →
  quiet (<[i:=l']> ls).
Proof.
  intros [Hm He Hr] Hl H0 H0' Hn. pose proof (list_elem_of_lookup_2 _ _ _ Hl) as Hin.
  assert (Hold : ∀ x, x ∈ <[i:=l']> ls → x = l' ∨ x ∈ ls).
  { intros x (k&[(_&<-&_)|[_ Hk]]%list_lookup_insert_Some)%list_elem_of_lookup; [by left|].
    right. by eapply list_elem_of_lookup_2. }
  split.
  - pose proof (sumf_insert is_main ls i l l' Hl). lia.
  - intros x Hx Hex. destruct (Hold x Hx) as [-> |Hx']; [by destruct Hex as [-> | ->]|].
    rewrite (He x Hx' Hex) in Hin. apply list_elem_of_singleton in Hin as ->. by destruct Hex as [-> | ->].
  - intros Hret. destruct (Hold _ Hret) as [<-|Hret']; [done|].
    apply Hr in Hret'. rewrite Forall_forall in Hret'. exfalso. by apply Hn, Hret'.
Qed.

(** [makeBooking] alone. *)
Lemma quiet_one l : is_main l = 1%nat → quiet [l].
Proof.
  intros Hl. split; [unfold sumf; simpl; lia| |]; [intros x Hx%list_elem_of_singleton _; by subst|].
  intros Hin%list_elem_of_singleton. subst. by repeat constructor.
Qed.

(** It returns from [wg.Wait()]: nobody is pending. *)
Lemma quiet_waited s ls i tb0 :
  inv tb0 s ls → (∀ k l, ls !! k = Some l → ¬ rolling_back l) → quiet ls → ls !! i = Some BookWait → wg_count (wg s) = 0 → quiet (<[i:=BookRet]> ls).
Proof.
  intros HI Hno [Hm He Hr] Hl Hwg.
  assert (Hrest : ∀ k x, k ≠ i → ls !! k = Some x → returned x).
  { intros k x Hk Hx. pose proof (sumf_two is_main _ _ _ _ _ Hx Hl Hk) as H2. simpl in H2.
    pose proof (inv_wg _ _ _ HI). pose proof (sumf_lookup_le pending ls k x Hx).
    specialize (Hno k x Hx). destruct x; simpl in *; lia || done. }
  assert (Hall : Forall returned (<[i:=BookRet]> ls)).
  { apply Forall_lookup. intros k x [(_&<-&_)|[Hne Hk]]%list_lookup_insert_Some; [done|].
    by apply (Hrest k). }
  split; [|intros x Hx Hex|done].
  - pose proof (sumf_insert is_main ls i _ BookRet Hl). simpl in *. lia.
  - rewrite Forall_forall in Hall. apply Hall in Hx. by destruct Hex as [-> | ->].
Qed.

Lemma quiet_step tb0 us (Htb0 : table_ok tb0) (Hrel : reliable DB E us) :
  preserves_alive tstep (λ s ls, inv_rel tb0 us s ls ∧ quiet ls).
Proof.
  intros e s ls i l [HR Hq] Hl. pose proof (air_rel_step tb0 Htb0 us Hrel e s ls i l HR Hl) as Hs.
  pose proof (rel_inv _ _ _ _ HR) as HI. pose proof (rel_pc _ _ _ _ HR) as Hno.
  destruct (tstep e s l) as [|s' l' sp|] eqn:Ht; [done| |done]. split; [done|]. clear Hs.
  pose proof (list_elem_of_lookup_2 _ _ _ Hl) as Hin.
  assert (Halone : early l → <[i:=l']> ls ++ sp = l' :: sp).
  { intros Hex. pose proof (q_early _ Hq l Hin Hex) as ->. by destruct i. }
  destruct l as [| |[|u us']|u us'| | |nm|nm t|nm t|nm t r|nm t k|nm t|nm t|nm|nm|nm|nm];
    simpl in Ht; unfold fallible, after_scan in Ht; repeat case_match; simplify_eq/=;
    rewrite ?app_nil_r;
    try (by apply quiet_booking with (1 := Hq) (2 := Hl); tauto).
  1-4: rewrite <-(app_nil_r (<[i:=_]> ls)), Halone by (unfold early; tauto); by apply quiet_one.
  4: { apply (quiet_waited s' ls i tb0 HI Hno Hq Hl). unfold wg_wait in *. by case_decide. }
  1-2: rewrite <-(app_nil_r (<[i:=_]> ls)).
  all: eapply quiet_main; [exact Hq|exact Hl|done..|by intros [|]|by repeat constructor].
Qed.

(** ** Properties *)

(** C18. The whole program, on a server on which no call fails.  Once connected, every
    run of the bookings is finite, and when nothing can act any more [main] gets to its
    end.  It prints the plan of the seats, and then the plan with every user seated, in
    some order, in the first seats that were empty; every other seat is printed as it
    was.  It can only die before that, of a failed connection. *)
Theorem air_main (us : list User) d (e : E)
    (Hrel : reliable DB E us) (Hok : table_ok (table d)) (Hfree : locker d = None)
    (Hseats : ∀ e' (d' : DB), db_seats e' d' = Some (Some <$> table d')) :
  sn (step tstep) (start d) ∧
  (∀ σ, reachable tstep (start d) σ → halted tstep σ →
     ∃ before after d', main d (Printed before after d')) ∧
  (∀ before after d', main d (Printed before after d') →
     ∃ names, names ≡ₚ user_name <$> us ∧
       before = Plan <$> printSeats (table d) ∧ after = Plan <$> printSeats (table d') ∧
       id <$> table d' = id <$> table d ∧ seat <$> table d' = seat <$> table d ∧
       name <$> table d' = fill (name <$> table d) names) ∧
  (∀ before why, main d (Died before why) → before = [] ∧ why = err_open).
Proof.
  assert (Hps : ∀ e1 e2 d', printSeats_run e1 e2 d' = Plan <$> printSeats (table d')).
  { intros e1 e2 d'. unfold printSeats_run. rewrite (ok_prepare _ _ _ Hrel), Hseats. apply print_rows_all. }
  assert (Hinv : ∀ σ, reachable tstep (start d) σ →
                   ∃ s ls, σ = Running s ls ∧ inv_rel (table d) us s ls ∧ quiet ls).
  { intros σ Hr. pose proof (air_rel_start _ us d eq_refl Hfree) as H0.
    destruct (invariant_reachable tstep _ _ _ _ (air_rel_step _ Hok us Hrel) H0 Hr) as (s&ls&->&HI).
    exists s, ls. split; [done|]. split; [done|].
    exact (proj2 (invariant_alive tstep _ _ _ s ls (quiet_step _ us Hok Hrel)
                    (conj H0 (quiet_one BookPrepare eq_refl)) Hr)). }
  split; [by apply (air_start_sn (table d))|]. split; [|split].
  - intros σ Hr Hh. destruct (Hinv σ Hr) as (s&ls&->&HI&Hq). eexists _, _, _.
    apply (main_done d e e e e s ls); [done|done|]. apply quiet_returned; [done|].
    by apply (air_halted (table d) e s ls (rel_inv _ _ _ _ HI)).
  - intros before after d' Hm. inversion Hm as [| |e1 e2 e3 e4 s ls _ Hr Hret]; subst.
    destruct (Hinv _ Hr) as (?&?&[= <- <-]&HI&Hq).
    destruct (rel_names _ _ _ _ HI) as (names&Ht&Hn). exists names. rewrite !Hps, Ht.
    split; [|split; [done|split; [done|]]].
    + rewrite Hn, (who_returned us) by by apply Hq. apply (rel_who _ _ _ _ HI).
    + split; [apply book_all_id|]. split; [apply book_all_seat|]. apply book_all_names, Hok.
  - intros before why Hm. inversion Hm as [? Hc|e1 e2 ? _ Hr|]; subst; [by injection Hc|].
    by destruct (Hinv _ Hr) as (?&?&[=]&_).
Qed.

End program.
(** ** A run on the server in memory *)

Module Mem.

#[global] Instance mem_query : SeatQuery Airline.Mem.mem () :=
  {| db_seats _ m := Some (Some <$> Airline.Mem.m_table m) |}.

End Mem.

(** Two users and two free seats; bob is served first. *)
Lemma air_main_witness :
  let d' := db Runs.fin.1 in
  main Runs.d0 (Printed (Plan <$> [Cell ""; Cell "zoe"; Cell ""; Newline])
                        (Plan <$> [Cell "bob"; Cell "zoe"; Cell "ann"; Newline]) d') ∧
  ∃ names, names ≡ₚ ["ann"; "bob"]%string ∧
    name <$> table d' = fill [None; Some "zoe"; None]%string names.
Proof.
  assert (Hm : main Runs.d0 (Printed (Plan <$> [Cell ""; Cell "zoe"; Cell ""; Newline])
                        (Plan <$> [Cell "bob"; Cell "zoe"; Cell "ann"; Newline]) (db Runs.fin.1))).
  { refine (main_done Runs.d0 () () () () Runs.fin.1 Runs.fin.2 eq_refl _ _); [|by_compute].
    apply (run_reachable _ Runs.both). vm_compute. reflexivity. }
  split; [exact Hm|].
  destruct (air_main (E := ()) Runs.users Runs.d0 ()) as (_&_&Hp&_);
    [by apply Airline.Mem.mem_reliable|exact Runs.seats_ok|reflexivity|reflexivity|].
  destruct (Hp _ _ _ Hm) as (names&Hn&_&_&_&_&Ht). exists names. split; [exact Hn|exact Ht].
Defined.

End Checkin.
