(* ===== verification/GoHttp.v ===== *)
(** * GoHttp: request handlers

    The servers register functions that net/http runs, one goroutine per
    request, and others that the socket.io library runs, one per event, in a goroutine
    of the connection; both libraries recover a handler's panic.  A handler is a finite
    program over the calls it makes: those on its [http.ResponseWriter], modelled here
    as net/http documents it, and those of the application (the database, shared maps,
    ...), which the application's file interprets.  [alone] runs a handler undisturbed; [tstep] interleaves the calls
    of any number of handlers; [safe] is the rule by which a property of single
    handlers becomes one of the whole server. *)

From S2P Require Import Prelude GoLang GoSched.

#[local] Open Scope Z_scope.

(** ** Responses *)

(** The values given to [json.Marshal], by shape. *)
Inductive json :=
| JNum (z : Z)
| JStr (s : string)
| JBool (b : bool)
| JTime (ns : Z)
| JArr (l : list json)
| JObj (l : list (string * json)).

(** [Flushed] marks that everything before it has been sent on. *)
Inductive part := Text (s : string) | Json (v : json) | Flushed.

Record response := Response {
  status : option Z;                 (** once the header has been written *)
  header : list (string * string);   (** as the handler has set it *)
  sent : list (string * string);     (** as it was when the status was written *)
  body : list part
}.

Definition no_response : response := Response None [] [] [].

(** A response that is one text. *)
Definition text_response (code : Z) (text : string) : response := Response (Some code) [] [] [Text text].

Definition StatusOK : Z := 200.
Definition StatusBadRequest : Z := 400.
Definition StatusInternalServerError : Z := 500.

(** [w.WriteHeader(code)]: ignored, with a log message, after the first. *)
Definition WriteHeader (code : Z) (w : response) : response :=
  match status w with
  | None => Response (Some code) (header w) (header w) (body w)
  | Some _ => w
  end.

(** [w.Header().Add(k, v)] *)
Definition AddHeader (k v : string) (w : response) : response :=
  Response (status w) (header w ++ [(k, v)]) (sent w) (body w).

(** [w.Write(p)]: writes the header [200] first if none was written; nothing
    arrives at the client if it fails. *)
Definition Write (p : part) (ok : bool) (w : response) : response :=
  let w' := WriteHeader StatusOK w in
  if ok then Response (status w') (header w') (sent w') (body w' ++ [p]) else w'.

(** ** Programs *)

(** The calls a handler can make. *)
Inductive call (D : Type) :=
| CHeader (code : Z)
| CAdd (k v : string)
| CWrite (p : part)
| CFlush
| CApp (d : D).
Arguments CHeader {D} _.
Arguments CAdd {D} _ _.
Arguments CWrite {D} _.
Arguments CFlush {D}.
Arguments CApp {D} _.

(** What they answer: [w.Write] says whether it succeeded. *)
Definition answer {D} (ans : D → Type) (c : call D) : Type :=
  match c with CWrite _ => bool | CApp d => ans d | _ => () end.

Section prog.
Context {D : Type} (ans : D → Type).

Inductive prog (A : Type) : Type :=
| Pure (a : A)
| Throw (why : string)                         (** a panic *)
| Exit (why : string)                          (** [log.Fatal]: ends the process *)
| Do (c : call D) (k : answer ans c → prog A)
| Go (p : prog ()) (k : prog A).               (** [go p] *)
End prog.

Arguments Pure {D ans A} _.
Arguments Throw {D ans A} _.
Arguments Exit {D ans A} _.
Arguments Do {D ans A} _ _.
Arguments Go {D ans A} _ _.

Fixpoint prog_bind {D} {ans : D → Type} {A B : Type} (f : A → prog ans B) (p : prog ans A) : prog ans B :=
  match p with
  | Pure a => f a
  | Throw why => Throw why
  | Exit why => Exit why
  | Do c k => Do c (λ x, prog_bind f (k x))
  | Go q k => Go q (prog_bind f k)
  end.

#[export] Instance prog_mret {D} {ans : D → Type} : MRet (prog ans) := λ A a, Pure a.
#[export] Instance prog_mbind {D} {ans : D → Type} : MBind (prog ans) :=
  λ A B f p, prog_bind f p.

(** An expression that may panic. *)
Definition lift {D} {ans : D → Type} {A} (r : res A) : prog ans A :=
  match r with Ret a => Pure a | Panic why => Throw why end.

(** The calls, as programs. *)
Section calls.
Context {D : Type} {ans : D → Type}.

Definition app (d : D) : prog ans (ans d) := Do (CApp d) Pure.
Definition writeHeader (code : Z) : prog ans () := Do (CHeader code) Pure.
Definition addHeader (k v : string) : prog ans () := Do (CAdd k v) Pure.
Definition write (p : part) : prog ans bool := Do (CWrite p) Pure.
(** [w.(http.Flusher).Flush()]; net/http's writers are Flushers. *)
Definition flush : prog ans () := Do CFlush Pure.
Definition go (p : prog ans ()) : prog ans () := Go p (Pure ()).

(** [w.WriteHeader(code); w.Write([]byte(text))], the way every handler reports. *)
Definition reply (code : Z) (text : string) : prog ans () :=
  writeHeader code;; _ ← write (Text text); Pure ().
End calls.

(** ** Running them *)

Section run.
Context {D : Type} {ans : D → Type} {S C : Type}.
(** The application's calls, on its state. *)
Variable perform : ∀ d : D, C → S → ans d * S.

(** One call, with what the environment decides: [C] for the application,
    [bool] for the connection to the client. *)
Definition act (c : call D) (e : C * bool) (s : S) (w : response) : answer ans c * S * response :=
  match c with
  | CHeader code => ((), s, WriteHeader code w)
  | CAdd k v => ((), s, AddHeader k v w)
  | CWrite p => (e.2, s, Write p e.2 w)
  | CFlush => ((), s, Write Flushed true w)
  | CApp d => let (x, s') := perform d e.1 s in (x, s', w)
  end.

Record result (A : Type) := Result {
  r_value : res A;
  r_state : S;
  r_resp : response;
  r_spawned : list (prog ans ())
}.
Arguments Result {A} _ _ _ _.
Arguments r_value {A} _.
Arguments r_state {A} _.
Arguments r_resp {A} _.
Arguments r_spawned {A} _.

(** A program run undisturbed; the [n]-th decision of the environment is [o n]. *)
Fixpoint alone {A : Type} (o : nat → C * bool) (n : nat) (p : prog ans A) (s : S) (w : response) : result A :=
  match p with
  | Pure a => Result (Ret a) s w []
  | Throw why | Exit why => Result (Panic why) s w []
  | Do c k => let '(x, s', w') := act c (o n) s w in alone o (Datatypes.S n) (k x) s' w'
  | Go q k =>
      let r := alone o n k s w in
      Result (r_value r) (r_state r) (r_resp r) (q :: r_spawned r)
  end.

(** Every write to the client succeeds. *)
Definition connected (o : nat → C * bool) : Prop := ∀ n, (o n).2 = true.

Lemma alone_reply (o : nat → C * bool) n code text s :
  connected o →
  alone o n (reply code text) s no_response = Result (Ret ()) s (text_response code text) [].
Proof. intros Ho. cbn. by rewrite Ho. Qed.

(** [p], run alone from [s] and [w], ends whatever the environment decides: it returns
    in [Q], or panics or ends the process in [X]. *)
Section ensures.
Variable X : string → S → response → Prop.

Fixpoint ensures {A : Type} (p : prog ans A) (Q : A → S → response → Prop) (s : S) (w : response) : Prop :=
  match p with
  | Pure a => Q a s w
  | Throw why | Exit why => X why s w
  | Do c k => ∀ e, let '(x, s', w') := act c e s w in ensures (k x) Q s' w'
  | Go _ k => ensures k Q s w
  end.

Lemma ensures_alone {A} o n (p : prog ans A) Q s w :
  ensures p Q s w →
  match r_value (alone o n p s w) with
  | Ret a => Q a (r_state (alone o n p s w)) (r_resp (alone o n p s w))
  | Panic why => X why (r_state (alone o n p s w)) (r_resp (alone o n p s w))
  end.
Proof.
  revert n Q s w. induction p as [A a|A why|A why|A c k IH|A q _ k IHk]; intros n Q s w; simpl; try done.
  - intros Hc. specialize (Hc (o n)). destruct (act c (o n) s w) as [[x s'] w']. by apply IH.
  - apply IHk.
Qed.

Lemma ensures_bind {A B} (f : A → prog ans B) (p : prog ans A) Q s w :
  ensures p (λ a s w, ensures (f a) Q s w) s w → ensures (prog_bind f p) Q s w.
Proof.
  revert B f Q s w. induction p as [A a|A why|A why|A c k IH|A q _ k IHk]; intros B f Q s w; simpl; auto.
  intros Hc e. specialize (Hc e). destruct (act c e s w) as [[x s'] w']. by apply IH.
Qed.

Lemma ensures_mono {A} (p : prog ans A) (Q Q' : A → S → response → Prop) s w :
  (∀ a s w, Q a s w → Q' a s w) → ensures p Q s w → ensures p Q' s w.
Proof.
  revert Q Q' s w. induction p as [A a|A why|A why|A c k IH|A q _ k IHk]; intros Q Q' s w HQ; simpl; eauto.
  intros Hc e. specialize (Hc e). destruct (act c e s w) as [[x s'] w']. by eapply IH.
Qed.
End ensures.

(** ** The server *)

Variable Req : Type.
(** The handler a request is routed to. *)
Variable serve : Req → prog ans ().

Inductive thread :=
| Listen                                                        (** the accept loop *)
| Handler (r : option Req) (w : response) (p : prog ans ())     (** [None]: a plain [go] *)
| Recovered (r : Req) (w : response) (why : string).            (** the library recovered a panic *)

Inductive choice := Request (r : Req) | Act (e : C * bool).

Definition tstep (c : choice) (s : S) (l : thread) : outcome S thread :=
  match l, c with
  | Listen, Request r => Next s Listen [Handler (Some r) no_response (serve r)]
  | Handler r w (Do c k), Act e => let '(x, s', w') := act c e s w in Next s' (Handler r w' (k x)) []
  | Handler r w (Go q k), Act _ => Next s (Handler r w k) [Handler None no_response q]
  | Handler (Some r) w (Throw why), Act _ => Next s (Recovered r w why) []
  | Handler None w (Throw why), Act _ => Crash why
  | Handler _ w (Exit why), Act _ => Crash why
  | _, _ => Wait
  end.

Definition start (s : S) : config S thread := Running s [Listen].

(** What the handlers did in a run: the requests whose goroutines acted, each with
    what the environment answered. *)
Definition acts (σ : config S thread) (ic : nat * choice) : list (Req * (C * bool)) :=
  match σ, ic.2 with
  | Running _ ls, Act e => match ls !! ic.1 with Some (Handler (Some r) _ _) => [(r, e)] | _ => [] end
  | _, _ => []
  end.

Fixpoint acted (sched : list (nat * choice)) (σ : config S thread) : list (Req * (C * bool)) :=
  match sched with
  | [] => []
  | ic :: sched' => acts σ ic ++ match exec tstep ic σ with Some σ' => acted sched' σ' | None => [] end
  end.

(** ** From single handlers to the server

    [R] is what every action of every handler does to the shared state, and so
    also what a handler has to expect of the others between two of its own; [X] is
    what a handler may end the process with. *)
Section rely.
Variable R : S → S → Prop.
Context `{!PreOrder R}.
Variable X : string → Prop.

(** The handler [p], started in [s] with the response so far [w], only acts
    within [R] whatever the others do, as long as the environment answers it
    within [M]; it panics at most with [T], ends the process at most with [X], and
    ends in [Q]. *)
Fixpoint safe {A : Type} (M : C * bool → Prop) (p : prog ans A) (T : string → Prop)
    (Q : A → S → response → Prop) (s : S) (w : response) : Prop :=
  match p with
  | Pure a => ∀ s1, R s s1 → Q a s1 w
  | Throw why => T why
  | Exit why => X why
  | Do c k => ∀ e s1, M e → R s s1 →
      let '(x, s2, w2) := act c e s1 w in R s1 s2 ∧ safe M (k x) T Q s2 w2
  | Go q k =>
      (∀ s1, R s s1 → safe (λ _, True) q (λ _, False) (λ _ _ _, True) s1 no_response) ∧ safe M k T Q s w
  end.

Lemma safe_later {A} M (p : prog ans A) T Q s s' w : R s s' → safe M p T Q s w → safe M p T Q s' w.
Proof.
  revert M T Q s s' w. induction p as [A a|A why|A why|A c k IH|A q IHq k IHk]; intros M T Q s s' w Hs; simpl.
  - intros HQ s1 H1. apply HQ. by trans s'.
  - done.
  - done.
  - intros Hc e s1 He H1. apply Hc; [done|]. by trans s'.
  - intros [Hq Hk]. split; [|by apply (IHk _ _ _ s)]. intros s1 H1. apply Hq. by trans s'.
Qed.

Lemma safe_bind {A B} M (f : A → prog ans B) (p : prog ans A) T Q s w :
  safe M p T (λ a s w, safe M (f a) T Q s w) s w → safe M (prog_bind f p) T Q s w.
Proof.
  revert B M f T Q s w. induction p as [A a|A why|A why|A c k IH|A q IHq k IHk]; intros B M f T Q s w; simpl.
  - intros Hf. by apply Hf.
  - done.
  - done.
  - intros Hc e s1 He H1. specialize (Hc e s1 He H1). destruct (act c e s1 w) as [[x s2] w2].
    destruct Hc as [? ?]. auto.
  - intros [Hq Hk]. auto.
Qed.

Lemma safe_mono {A} M (p : prog ans A) T (T' : string → Prop) Q (Q' : A → S → response → Prop) s w :
  (∀ why, T why → T' why) → (∀ a s w, Q a s w → Q' a s w) → safe M p T Q s w → safe M p T' Q' s w.
Proof.
  revert M T T' Q Q' s w. induction p as [A a|A why|A why|A c k IH|A q IHq k IHk];
    intros M T T' Q Q' s w HT HQ; simpl; auto.
  - intros Hc e s1 He H1. specialize (Hc e s1 He H1). destruct (act c e s1 w) as [[x s2] w2].
    destruct Hc as [? ?]. eauto.
  - intros [Hq Hk]. eauto.
Qed.

Lemma safe_restrict {A} (M M' : C * bool → Prop) (p : prog ans A) T Q s w :
  (∀ e, M' e → M e) → safe M p T Q s w → safe M' p T Q s w.
Proof.
  intros HM. revert T Q s w. induction p as [A a|A why|A why|A c k IH|A q IHq k IHk]; intros T Q s w; simpl; auto.
  - intros Hc e s1 He H1. specialize (Hc e s1 (HM e He) H1). destruct (act c e s1 w) as [[x s2] w2].
    destruct Hc as [? ?]. auto.
  - intros [Hq Hk]. auto.
Qed.

(** What the environment may answer to a request's handler; what the handler may
    panic with, and what holds when it has returned.  The server starts in [s0]. *)
Variable N : Req → C * bool → Prop.
Variable T : Req → string → Prop.
Variable Q : Req → S → response → Prop.
Variable s0 : S.
Hypothesis serve_safe : ∀ r s, R s0 s → safe (N r) (serve r) (T r) (λ _, Q r) s no_response.

Definition thread_ok (s : S) (l : thread) : Prop :=
  match l with
  | Listen => True
  | Handler (Some r) w p => safe (N r) p (T r) (λ _, Q r) s w
  | Handler None w p => safe (λ _, True) p (λ _, False) (λ _ _ _, True) s w
  | Recovered r w why => T r why
  end.

Lemma thread_ok_later s s' l : R s s' → thread_ok s l → thread_ok s' l.
Proof. intros Hs. destruct l as [|[r|] w p|]; simpl; eauto using safe_later. Qed.

(** What the environment answers to the goroutine [l] is allowed. *)
Definition allowed (l : thread) (c : choice) : Prop :=
  match l, c with Handler (Some r) _ _, Act e => N r e | _, _ => True end.

(** Every action is within [R]; what it leaves is still safe. *)
Lemma thread_step c s l s' l' sp :
  R s0 s → allowed l c → thread_ok s l → tstep c s l = Next s' l' sp →
  R s s' ∧ thread_ok s' l' ∧ Forall (thread_ok s') sp.
Proof.
  assert (Hrefl : ∀ x, R x x) by reflexivity.
  intros H0 Hc Hl Ht. destruct l as [|r w [[]|why|why|d k|q k]|]; destruct c as [r'|e]; try done;
    try (destruct r; simplify_eq/=; try done).
  - simplify_eq/=. split; [done|]. split; [done|]. repeat constructor. by apply serve_safe.
  - simpl in *. specialize (Hl e s Hc (Hrefl s)). destruct (act d e s w) as [[x s2] w2].
    simplify_eq. by destruct Hl.
  - simpl in *. specialize (Hl e s Hc (Hrefl s)). destruct (act d e s w) as [[x s2] w2].
    simplify_eq. by destruct Hl.
  - destruct Hl as [Hq Hk]. split; [done|]. split; [done|]. repeat constructor. by apply Hq.
  - destruct Hl as [Hq Hk]. split; [done|]. split; [done|]. repeat constructor. by apply Hq.
Qed.

Lemma thread_crash c s l why : thread_ok s l → tstep c s l = Crash why → X why.
Proof.
  intros Hl Ht. destruct l as [|[r|] w [[]|w'|w'|d k|q k]|]; destruct c; simplify_eq/=; try done;
    by destruct (act _ _ _ _) as [[? ?] ?].
Qed.

Definition server_ok (σ : config S thread) : Prop :=
  match σ with
  | Running s ls => R s0 s ∧ ∀ k l, ls !! k = Some l → thread_ok s l
  | Dead why => X why
  end.

Lemma server_ok_exec ic σ σ' :
  (∀ r e, (r, e) ∈ acts σ ic → N r e) → exec tstep ic σ = Some σ' → server_ok σ → server_ok σ'.
Proof.
  destruct σ as [s ls|why]; [|done]. destruct ic as [i c]. cbn. intros HN He [H0 Hls].
  destruct (ls !! i) as [l|] eqn:Hl; [|done].
  assert (Hc : allowed l c).
  { destruct l as [|[r|] w p|], c as [r'|e]; cbn; try done. apply HN. set_solver. }
  destruct (tstep c s l) as [|s' l' sp|why] eqn:Ht; [done| |]; injection He as <-.
  - destruct (thread_step c s l s' l' sp H0 Hc (Hls i l Hl) Ht) as (Hs&Hl'&Hsp).
    split; [by trans s|]. intros k x Hx.
    destruct (lookup_pool ls sp i l l' k x Hl Hx) as [[_ ->]|[[_ Hk]|[_ Hin]]]; [done| |].
    + by apply (thread_ok_later s), (Hls k).
    + rewrite Forall_forall in Hsp. by apply Hsp.
  - by eapply thread_crash, Ht; apply (Hls i).
Qed.

Lemma server_ok_run sched σ σ' :
  (∀ r e, (r, e) ∈ acted sched σ → N r e) → run tstep sched σ = Some σ' → server_ok σ → server_ok σ'.
Proof.
  revert σ. induction sched as [|ic sched IH]; intros σ HN Hr Hσ; [by injection Hr as <-|].
  cbn [run acted] in *. destruct (exec tstep ic σ) as [σ1|] eqn:He; [|done].
  apply (IH σ1); [set_solver|done|]. eapply server_ok_exec; [|exact He|done]. set_solver.
Qed.

(** What the rule concludes of a state of the server. *)
Definition server_well (σ : config S thread) : Prop :=
  match σ with
  | Dead why => X why
  | Running s ls =>
      R s0 s ∧
      (∀ k r w u, ls !! k = Some (Handler (Some r) w (Pure u)) → Q r s w) ∧
      (∀ k r w why, ls !! k = Some (Recovered r w why) → T r why)
  end.

(** The rule, for a run: a server whose handlers are safe dies only of [X], moves
    its state within [R] only, and has given every returned handler's response its
    [Q]. *)
Theorem server_run sched σ :
  (∀ r e, (r, e) ∈ acted sched (start s0) → N r e) →
  run tstep sched (start s0) = Some σ → server_well σ.
Proof.
  intros HN Hr. assert (Hok : server_ok σ).
  { eapply server_ok_run; [exact HN|exact Hr|]. split; [done|].
    intros [|k] l; [by intros [= <-]|done]. }
  destruct σ as [s ls|why]; [|done]. destruct Hok as [H0 Hls]. split; [done|]. split.
  - intros k r w u Hk. specialize (Hls k _ Hk). simpl in Hls. by apply Hls.
  - intros k r w why Hk. apply (Hls k _ Hk).
Qed.
End rely.

(** The same for any reachable state, when the environment is not restricted. *)
Theorem server_safe (R : S → S → Prop) `{!PreOrder R} X T Q s0 σ :
  (∀ r s, R s0 s → safe R X (λ _, True) (serve r) (T r) (λ _, Q r) s no_response) →
  reachable tstep (start s0) σ → server_well R X T Q s0 σ.
Proof.
  intros Hs [sched Hr]%reachable_run. by apply (server_run R X (λ _ _, True) T Q s0 Hs sched).
Qed.
End run.

Arguments Result {D ans S A} _ _ _ _.
Arguments r_value {D ans S A} _.
Arguments r_state {D ans S A} _.
Arguments r_resp {D ans S A} _.
Arguments r_spawned {D ans S A} _.
