(* ===== verification/GoMux.v ===== *)
(** * GoMux: [http.ServeMux]

    What the web servers use of net/http's request multiplexer (Go 1.22): patterns
    of literal segments, wildcards [{name}] and a trailing slash; the conflicts for
    which registering a pattern panics; the choice of a pattern for a path, with the
    redirections of net/http.  Methods, hosts, [{$}] and [{name...}] are not used by
    the programs and are not parsed. *)

From Stdlib Require Import Ascii.
From S2P Require Import Prelude GoLang.

#[local] Open Scope string_scope.

(** ** Patterns *)

Inductive segment :=
| Lit (s : string)
| Wild (name : string)   (** one segment *)
| Multi.                 (** the rest of the path, after a trailing slash *)

#[export] Instance segment_eq_dec : EqDecision segment.
Proof. solve_decision. Defined.

Abbreviation pattern := (list segment).

Definition hex (c : ascii) : option nat :=
  let n := nat_of_ascii c in
  if decide (48 ≤ n ≤ 57)%nat then Some (n - 48)%nat
  else if decide (65 ≤ n ≤ 70)%nat then Some (n - 55)%nat
  else if decide (97 ≤ n ≤ 102)%nat then Some (n - 87)%nat
  else None.

(** [url.PathUnescape] *)
Fixpoint PathUnescape (s : string) : option string :=
  match s with
  | EmptyString => Some EmptyString
  | String c s' =>
      if decide (c = "%"%char) then
        match s' with
        | String a (String b s'') =>
            x ← hex a; y ← hex b;
            String (ascii_of_nat (16 * x + y)) <$> PathUnescape s''
        | _ => None
        end
      else String c <$> PathUnescape s'
  end.

(** What cannot be decoded stands for itself. *)
Definition unescape (s : string) : string := default s (PathUnescape s).

Definition ident_char (c : ascii) : bool :=
  let n := nat_of_ascii c in
  bool_decide (48 ≤ n ≤ 57 ∨ 65 ≤ n ≤ 90 ∨ 97 ≤ n ≤ 122 ∨ n = 95)%nat.

(** The name of a wildcard, what is left of it up to its closing brace. *)
Fixpoint wild_name (s : string) : option string :=
  match s with
  | EmptyString => None
  | String c s' =>
      if decide (s = "}") then Some ""
      else if ident_char c then String c <$> wild_name s' else None
  end.

Definition parse_segment (s : string) : option segment :=
  match s with
  | EmptyString => None
  | String c s' =>
      if decide (c = "{"%char) then
        name ← wild_name s'; if decide (name = "") then None else Some (Wild name)
      else if free_of "{" s then Some (Lit (unescape s)) else None
  end.

Fixpoint parse_segments (l : list string) : option pattern :=
  match l with
  | [] => Some []
  | [""] => Some [Multi]
  | s :: l' => g ← parse_segment s; cons g <$> parse_segments l'
  end.

(** [parsePattern] *)
Definition parsePattern (s : string) : option pattern :=
  match split_on "/" s with "" :: l => parse_segments l | _ => None end.

(** The wildcards, in order. *)
Definition wild_names (p : pattern) : list string :=
  omap (λ g, match g with Wild name => Some name | _ => None end) p.

(** ** Conflicts *)

Inductive relationship := Equivalent | MoreGeneral | MoreSpecific | Disjoint | Overlaps.

#[export] Instance relationship_eq_dec : EqDecision relationship.
Proof. solve_decision. Defined.

Definition inverse (r : relationship) : relationship :=
  match r with MoreGeneral => MoreSpecific | MoreSpecific => MoreGeneral | _ => r end.

Definition combineRelationships (r1 r2 : relationship) : relationship :=
  match r1 with
  | Equivalent => r2
  | Disjoint => Disjoint
  | Overlaps => if decide (r2 = Disjoint) then Disjoint else Overlaps
  | _ => if decide (r2 = Equivalent) then r1 else if decide (r2 = inverse r1) then Overlaps else r2
  end.

Definition compareSegments (s1 s2 : segment) : relationship :=
  match s1, s2 with
  | Multi, Multi => Equivalent
  | Multi, _ => MoreGeneral
  | _, Multi => MoreSpecific
  | Wild _, Wild _ => Equivalent
  | Wild _, Lit _ => MoreGeneral
  | Lit _, Wild _ => MoreSpecific
  | Lit a, Lit b => if decide (a = b) then Equivalent else Disjoint
  end.

(** [comparePaths], from the relationship of the segments before. *)
Fixpoint compare_from (r : relationship) (p1 p2 : pattern) : relationship :=
  match p1, p2 with
  | [], [] => r
  | s1 :: p1', s2 :: p2' =>
      let r := combineRelationships r (compareSegments s1 s2) in
      match p1', p2' with
      | [], _ :: _ => if decide (s1 = Multi) then combineRelationships r MoreGeneral else Disjoint
      | _ :: _, [] => if decide (s2 = Multi) then combineRelationships r MoreSpecific else Disjoint
      | _, _ => compare_from r p1' p2'
      end
  | _, _ => Disjoint
  end.

Definition comparePaths (p1 p2 : pattern) : relationship := compare_from Equivalent p1 p2.

Definition conflictsWith (p1 p2 : pattern) : bool :=
  bool_decide (comparePaths p1 p2 = Equivalent ∨ comparePaths p1 p2 = Overlaps).

(** ** The multiplexer *)

Section mux.
Context {H : Type}.
Implicit Types (h : H).

(** The patterns registered, with their handlers. *)
Definition mux : Type := list (pattern * H).

Definition err_pattern : string := "http: invalid pattern".
Definition err_conflict : string := "http: pattern conflicts with pattern".

(** [http.Handle] and [http.HandleFunc] *)
Definition Handle (pat : string) (h : H) (m : mux) : res mux :=
  match parsePattern pat with
  | None => Panic err_pattern
  | Some p => if existsb (λ q, conflictsWith p q.1) m then Panic err_conflict else Ret (m ++ [(p, h)])%list
  end.

(** What remains of the patterns that begin with the literal [s], with a wildcard, or
    with a trailing slash; each keeps its entry. *)
Abbreviation tree := (list (pattern * (pattern * H))).

Definition literal (s : string) (t : tree) : tree :=
  omap (λ x, match x.1 with Lit a :: p => if decide (a = s) then Some (p, x.2) else None | _ => None end) t.
Definition wildcard (t : tree) : tree :=
  omap (λ x, match x.1 with Wild _ :: p => Some (p, x.2) | _ => None end) t.
Definition ending (e : pattern) (t : tree) : option (pattern * H) :=
  snd <$> find (λ x : pattern * (pattern * H), bool_decide (x.1 = e)) t.

(** [matchPath]: literals before wildcards before trailing slashes, from the left;
    with the values of the wildcards.  A path that ends in a slash has the last
    segment ["/"], which a wildcard does not match. *)
Fixpoint matchPath (t : tree) (segs : list string) : option (pattern * H * list string) :=
  match segs with
  | [] => (λ e, (e, [])) <$> ending [] t
  | s :: segs' =>
      match matchPath (literal s t) segs' with
      | Some r => Some r
      | None =>
          match (if decide (s = "/") then None
                 else prod_map id (cons s) <$> matchPath (wildcard t) segs') with
          | Some r => Some r
          | None => (λ e, (e, [])) <$> ending [Multi] t
          end
      end
  end.

Definition tree_of (m : mux) : tree := (λ e, (e.1, e)) <$> m.

(** ** From a path to a handler *)

(** The segments of an escaped path, which begins with a slash, still escaped. *)
Definition raw_segments (path : string) : list string := tail (split_on "/" path).

(** [firstSegment], repeatedly. *)
Definition decode (raw : string) : string := if decide (raw = "") then "/" else unescape raw.

Definition ends_slash (path : string) : bool := bool_decide (last (raw_segments path) = Some "").

(** The segments that [path.Clean] keeps; [stack] are those so far, the last first. *)
Fixpoint clean_segments (stack segs : list string) : list string :=
  match segs with
  | [] => reverse stack
  | s :: segs' =>
      if decide (s = "" ∨ s = ".") then clean_segments stack segs'
      else if decide (s = "..") then clean_segments (tail stack) segs'
      else clean_segments (s :: stack) segs'
  end.

(** [cleanPath], of a path that begins with a slash. *)
Definition cleanPath (p : string) : string :=
  let np := String "/" (join_on "/" (clean_segments [] (raw_segments p))) in
  if ends_slash p && negb (bool_decide (np = "/")) then np +:+ "/" else np.

(** The entry that matches, the values of its wildcards. *)
Definition find_entry (m : mux) (path : string) : option (pattern * H * list string) :=
  matchPath (tree_of m) (map decode (raw_segments path)).

(** [exactMatch]: not by way of a trailing slash of the pattern that matches more. *)
Definition exactMatch (r : option (pattern * H * list string)) (path : string) : bool :=
  match r with
  | None => false
  | Some (p, _, _) =>
      if decide (last p = Some Multi)
      then ends_slash path && bool_decide (length p = length (raw_segments path))
      else true
  end.

Inductive found :=
| To (p : pattern) (h : H) (matches : list string)
| RedirectTo (path : string)
| NotFound.

(** [findHandler], for [r.URL.EscapedPath()] and a method other than [CONNECT]. *)
Definition findHandler (m : mux) (escapedPath : string) : found :=
  let path := cleanPath escapedPath in
  let r := find_entry m path in
  if negb (exactMatch r path) && negb (ends_slash path) && exactMatch (find_entry m (path +:+ "/")) (path +:+ "/")
  then RedirectTo (path +:+ "/")
  else if decide (path = escapedPath) then
    match r with Some (p, h, matches) => To p h matches | None => NotFound end
  else RedirectTo path.

(** [r.PathValue(name)] *)
Definition PathValue (p : pattern) (matches : list string) (name : string) : string :=
  default "" (snd <$> find (λ x : string * string, bool_decide (x.1 = name)) (zip (wild_names p) matches)).

End mux.
Arguments mux : clear implicits.

Arguments found : clear implicits.
Arguments To {H} _ _ _.
Arguments RedirectTo {H} _.
Arguments NotFound {H}.

(** ** Clean paths *)

(** A segment that cleaning keeps and that is one segment. *)
Definition plain (s : string) : Prop := s ≠ "" ∧ s ≠ "." ∧ s ≠ ".." ∧ free_of "/" s = true.

#[export] Instance plain_dec s : Decision (plain s).
Proof. unfold plain. apply _. Defined.

(** The path of plain segments, with a slash at its end or not. *)
Definition path_of (segs : list string) (slash : bool) : string :=
  String "/" (join_on "/" (if slash then segs ++ [""] else segs)%list).

Lemma clean_segments_plain stack segs :
  Forall plain segs → clean_segments stack segs = (reverse stack ++ segs)%list.
Proof.
  intros Hs. revert stack. induction Hs as [|s segs (H0&H1&H2&_) _ IH]; intros stack; simpl.
  - by rewrite app_nil_r.
  - rewrite decide_False by tauto. rewrite decide_False by done. rewrite IH, reverse_cons.
    by rewrite <-app_assoc.
Qed.

Lemma split_join segs :
  segs ≠ [] → Forall (λ s, free_of "/" s = true) segs → split_on "/" (join_on "/" segs) = segs.
Proof.
  intros Hne Hs. induction Hs as [|s segs H0 Hs IH]; [done|]. destruct segs as [|s' segs].
  - by apply split_on_free.
  - change (join_on "/" (s :: s' :: segs)) with (s +:+ String "/" (join_on "/" (s' :: segs))).
    rewrite split_on_app by done. by rewrite IH.
Qed.

Lemma clean_segments_app stack segs r :
  Forall plain segs → clean_segments stack (segs ++ r)%list = clean_segments (reverse segs ++ stack)%list r.
Proof.
  intros Hs. revert stack. induction Hs as [|s segs (H0&H1&H2&_) _ IH]; intros stack; [done|]. simpl.
  rewrite decide_False by tauto. rewrite decide_False by done. rewrite IH, reverse_cons.
  by rewrite <-app_assoc.
Qed.

(** Cleaning leaves plain segments. *)
Lemma clean_segments_are_plain stack segs :
  Forall plain stack → Forall (λ s, free_of "/" s = true) segs → Forall plain (clean_segments stack segs).
Proof.
  intros Hk Hs. revert stack Hk. induction Hs as [|s segs H0 Hs IH]; intros stack Hk; simpl.
  - by apply Forall_reverse.
  - case_decide as H1; [by apply IH|]. case_decide as H2; apply IH; [by destruct Hk|].
    constructor; [|done]. unfold plain. tauto.
Qed.

Lemma split_on_free_of sep s : Forall (λ x, free_of sep x = true) (split_on sep s).
Proof.
  induction s as [|c s IH]; simpl; [by repeat constructor|]. case_decide; [by constructor|].
  destruct IH as [|w ws Hw Hws]; repeat constructor; try done; simpl;
    rewrite bool_decide_eq_true_2 by done; done.
Qed.

Lemma join_on_slash segs : segs ≠ [] → join_on "/" (segs ++ [""])%list = join_on "/" segs +:+ "/".
Proof.
  intros Hne. induction segs as [|s segs IH]; [done|]. destruct segs as [|s' segs]; [done|].
  change (s +:+ String "/" (join_on "/" ((s' :: segs) ++ [""])%list)
          = (s +:+ String "/" (join_on "/" (s' :: segs))) +:+ "/").
  rewrite IH by done. by rewrite <-(assoc_L String.append).
Qed.

(** Every clean path is made of plain segments. *)
Definition is_path (segs : list string) (slash : bool) : Prop := segs ≠ [] ∨ slash = true.

Section paths.
Variables (segs : list string) (slash : bool).
Hypothesis Hplain : Forall plain segs.
Hypothesis Hpath : is_path segs slash.

Lemma raw_path_of : raw_segments (path_of segs slash) = (if slash then segs ++ [""] else segs)%list.
Proof.
  assert (Hfree : Forall (λ s, free_of "/" s = true) segs)
    by (eapply Forall_impl; [exact Hplain|]; by intros s (_&_&_&?)).
  unfold raw_segments, path_of. simpl. destruct slash; apply split_join.
  - by destruct segs.
  - apply Forall_app. by repeat constructor.
  - by destruct Hpath.
  - done.
Qed.

Lemma ends_slash_path_of : ends_slash (path_of segs slash) = slash.
Proof.
  unfold ends_slash. rewrite raw_path_of. destruct slash.
  - by rewrite last_snoc.
  - apply bool_decide_eq_false_2. intros Hl%last_Some_elem_of.
    rewrite Forall_forall in Hplain. by apply Hplain in Hl as [? _].
Qed.

Lemma clean_path_of : cleanPath (path_of segs slash) = path_of segs slash.
Proof.
  unfold cleanPath. rewrite ends_slash_path_of, raw_path_of.
  assert (Hc : clean_segments [] (if slash then segs ++ [""] else segs)%list = segs).
  { destruct slash; [rewrite clean_segments_app by done; simpl|by rewrite clean_segments_plain].
    rewrite app_nil_r. apply reverse_involutive. }
  rewrite Hc. destruct slash; [|done]. destruct (decide (segs = [])) as [->|Hne]; [done|].
  rewrite bool_decide_eq_false_2.
  - unfold path_of. simpl. by rewrite join_on_slash.
  - destruct Hplain as [|s l (H0&_) _]; [done|]. destruct s; [done|]. by destruct l.
Qed.
End paths.

Lemma cleanPath_form p :
  ∃ segs slash, Forall plain segs ∧ is_path segs slash ∧ cleanPath ("/" +:+ p) = path_of segs slash.
Proof.
  set (segs := clean_segments [] (raw_segments ("/" +:+ p))).
  assert (Hp : Forall plain segs).
  { apply clean_segments_are_plain; [done|]. unfold raw_segments. simpl. apply split_on_free_of. }
  unfold cleanPath. fold segs. destruct segs as [|s l] eqn:Hs.
  - exists [], true. split; [done|]. split; [by right|]. by rewrite andb_false_r.
  - rewrite <-Hs in *. exists segs. destruct (ends_slash _ && _).
    + exists true. split; [done|]. split; [by right|]. unfold path_of. by rewrite join_on_slash by (by rewrite Hs).
    + exists false. split; [done|]. split; [left; by rewrite Hs|done].
Qed.

Lemma clean_paths p : cleanPath ("/" +:+ p) = "/" +:+ p →
  ∃ segs slash, Forall plain segs ∧ is_path segs slash ∧ "/" +:+ p = path_of segs slash.
Proof. intros <-. apply cleanPath_form. Qed.

(** ** [findHandler] on clean paths *)

Section handlers.
Context {H : Type}.
Implicit Types (m : mux H) (t : list (pattern * (pattern * H))).

Definition full (segs : list string) (slash : bool) : list string :=
  (map unescape segs ++ if slash then ["/"] else [])%list.

(** [exactMatch], of a path of [n] segments. *)
Definition exact (r : option (pattern * H * list string)) (slash : bool) (n : nat) : bool :=
  match r with
  | None => false
  | Some (p, _, _) => if decide (last p = Some Multi) then slash && bool_decide (length p = n) else true
  end.

Definition found_of (r : option (pattern * H * list string)) : found H :=
  match r with Some (p, h, matches) => To p h matches | None => NotFound end.

(** A path that only lacks the slash of a pattern is redirected to it. *)
Definition lacks_slash m (segs : list string) (slash : bool) : bool :=
  negb slash && negb (exact (matchPath (tree_of m) (full segs slash)) false (length segs))
  && exact (matchPath (tree_of m) (full segs true)) true (S (length segs)).

(** The handler for the segments [segs]. *)
Definition route m (segs : list string) (slash : bool) : found H :=
  if lacks_slash m segs slash then RedirectTo (path_of segs true)
  else found_of (matchPath (tree_of m) (full segs slash)).

Section clean.
Variables (m : mux H) (segs : list string) (slash : bool).
Hypothesis Hplain : Forall plain segs.
Hypothesis Hpath : is_path segs slash.

Lemma find_entry_path_of : find_entry m (path_of segs slash) = matchPath (tree_of m) (full segs slash).
Proof.
  unfold find_entry, full. rewrite raw_path_of by done.
  assert (Hd : map decode segs = map unescape segs).
  { apply (list_fmap_ext decode unescape). intros k s Hs. unfold decode. rewrite decide_False; [done|].
    by apply (Forall_lookup_1 _ _ _ _ Hplain Hs). }
  destruct slash; [by rewrite map_app, Hd|by rewrite app_nil_r, Hd].
Qed.

Lemma exact_path_of r :
  exactMatch r (path_of segs slash) = exact r slash (length segs + if slash then 1 else 0).
Proof.
  unfold exactMatch, exact. rewrite ends_slash_path_of, raw_path_of by done.
  destruct slash; [by rewrite length_app|by rewrite Nat.add_0_r].
Qed.
End clean.

Lemma findHandler_cleaned m p segs slash :
  Forall plain segs → is_path segs slash → cleanPath p = path_of segs slash →
  findHandler m p =
    if lacks_slash m segs slash then RedirectTo (path_of segs true)
    else if decide (path_of segs slash = p) then found_of (matchPath (tree_of m) (full segs slash))
    else RedirectTo (path_of segs slash).
Proof.
  intros Hs Hp Hc. unfold findHandler, lacks_slash. rewrite Hc.
  rewrite find_entry_path_of, exact_path_of, ends_slash_path_of by done. destruct slash; simpl.
  { by rewrite andb_false_r. }
  assert (Hne : segs ≠ []) by by destruct Hp.
  assert (Ht : path_of segs false +:+ "/" = path_of segs true).
  { unfold path_of. by rewrite join_on_slash. }
  rewrite Ht, find_entry_path_of, exact_path_of by (done || by right).
  by rewrite Nat.add_0_r, Nat.add_1_r, andb_true_r.
Qed.

Lemma findHandler_path_of m segs slash :
  Forall plain segs → is_path segs slash → findHandler m (path_of segs slash) = route m segs slash.
Proof.
  intros Hs Hp. rewrite (findHandler_cleaned m _ segs slash) by (done || by apply clean_path_of).
  by rewrite decide_True by done.
Qed.

(** A path that is not clean is redirected. *)
Lemma findHandler_unclean m p : cleanPath p ≠ p → ∃ q, findHandler m p = RedirectTo q.
Proof. intros Hp. unfold findHandler. case_match; [eauto|]. rewrite decide_False by done. eauto. Qed.

Lemma matchPath_nil segs : matchPath ([] : list (pattern * (pattern * H))) segs = None.
Proof. induction segs as [|s segs IH]; [done|]. simpl. rewrite IH. by case_decide. Qed.

(** One pattern left, of one or two wildcards. *)
Lemma matchPath_wild x (e : pattern * H) segs :
  matchPath [([Wild x], e)] segs =
  match segs with [u] => if decide (u = "/") then None else Some (e, [u]) | _ => None end.
Proof.
  destruct segs as [|u [|v segs]]; [done| |]; simpl; [by case_decide|].
  rewrite !matchPath_nil. by repeat case_decide.
Qed.

Lemma matchPath_wilds x y (e : pattern * H) segs :
  matchPath [([Wild x; Wild y], e)] segs =
  match segs with
  | [u; v] => if decide (u = "/" ∨ v = "/") then None else Some (e, [u; v])
  | _ => None
  end.
Proof.
  destruct segs as [|u segs]; [done|]. cbn [matchPath]. rewrite matchPath_nil. simpl (wildcard _).
  rewrite matchPath_wild. destruct segs as [|v [|w segs]]; simpl; try by case_decide.
  repeat case_decide; simplify_eq/=; tauto.
Qed.

Lemma matchPath_multi (e : pattern * H) segs :
  matchPath [([Multi], e)] segs = match segs with [] => None | _ => Some (e, []) end.
Proof.
  destruct segs as [|u segs]; [done|]. simpl. rewrite matchPath_nil. by case_decide.
Qed.

Lemma matchPath_end (e : pattern * H) segs :
  matchPath [([], e)] segs = match segs with [] => Some (e, []) | _ => None end.
Proof.
  destruct segs as [|u segs]; [done|]. simpl. rewrite matchPath_nil. by case_decide.
Qed.

(** ** One page beside the file server *)

(** The two ways the servers register them. *)
Definition page_routes (x : string) (page files : H) : mux H := [([Lit x], page); ([Multi], files)].

Lemma match_page x page files s segs :
  matchPath (tree_of (page_routes x page files)) (s :: segs) =
  Some (if decide (s = x ∧ segs = []) then ([Lit x], page, [] : list string) else ([Multi], files, [])).
Proof.
  cbn [matchPath].
  replace (literal s (tree_of (page_routes x page files))) with
    (if decide (x = s) then [([] : pattern, ([Lit x], page))] else [])
    by (unfold literal, tree_of; cbn; by case_decide).
  replace (wildcard (tree_of (page_routes x page files))) with ([] : list (pattern * (pattern * H))) by done.
  rewrite matchPath_nil.
  destruct segs; repeat (case_decide; simplify_eq/=); rewrite ?matchPath_end, ?matchPath_nil; naive_solver.
Qed.

(** The path of the page is the only one that reaches it. *)
Theorem page_only x page files p (Hne : page ≠ files) (Hsl : x ≠ "/") :
  (∃ pt v, findHandler (page_routes x page files) ("/" +:+ p) = To pt page v) ↔
  ∃ a, "/" +:+ p = path_of [a] false ∧ plain a ∧ unescape a = x.
Proof.
  split.
  - intros (pt&v&Hf). destruct (decide (cleanPath ("/" +:+ p) = "/" +:+ p)) as [Hc|Hc].
    2: { destruct (findHandler_unclean (page_routes x page files) _ Hc) as [q Hq]. by rewrite Hq in Hf. }
    destruct (clean_paths p Hc) as (segs&slash&Hs&Hp&Heq). rewrite Heq in *.
    rewrite findHandler_path_of in Hf by done. unfold route in Hf. case_match; [done|]. clear H0.
    unfold full in Hf. destruct segs as [|a segs]; cbn [map Datatypes.app] in Hf.
    { destruct Hp as [| ->]; [done|]. rewrite match_page, decide_False in Hf by naive_solver. by injection Hf. }
    rewrite match_page in Hf. cbn [found_of] in Hf. case_decide as Ha; [|by injection Hf].
    destruct Ha as [Ha Hn]. apply app_eq_nil in Hn as [Hn Hn']. apply map_eq_nil in Hn as ->.
    destruct slash; [done|]. exists a. rewrite Forall_cons in Hs. by destruct Hs.
  - intros (a&->&Ha&Hx). rewrite findHandler_path_of by (by apply Forall_singleton) || (by left).
    unfold route, lacks_slash, full. cbn [map Datatypes.app]. rewrite match_page, decide_True by done. cbn. eauto.
Qed.
End handlers.

#[local] Arguments unescape : simpl never.
