(* ===== verification/SlackDb.v ===== *)
(** * SlackDb: the SQL statements of slack/main.go

    MySQL is not part of the program: [SlackDB] is the interface through which
    the handlers use it, one constructor of [sql] per statement in the source.
    [sql_step] says what each statement does to the tables as MySQL documents it,
    with the foreign keys of the schema in slack/brainstroming.md; what the
    documentation leaves open (which row a query meets first, whether a call
    fails, how many rows of a result arrive, the precision of times) is left open
    here. *)

From stdpp Require Import sorting.
From S2P Require Import Prelude GoLang.

#[local] Open Scope Z_scope.

Module Sql.

(** ** Rows *)

Record User := MkUser { Id : Z; UserName : string; LastTimestamp : Z }.
Record Channel := MkChannel { ChannelID : Z; ChannelType : string; ChannelName : string }.
Record Membership := MkMembership { MembershipID : Z; m_ChannelID : Z; UserID : Z }.
Record Message := MkMessage {
  MessageID : Z; SenderID : Z; c_ChannelID : Z; Msg : string; CreatedAt : Z
}.

#[export] Instance User_eq_dec : EqDecision User.
Proof. solve_decision. Defined.
#[export] Instance Channel_eq_dec : EqDecision Channel.
Proof. solve_decision. Defined.
#[export] Instance Membership_eq_dec : EqDecision Membership.
Proof. solve_decision. Defined.
#[export] Instance Message_eq_dec : EqDecision Message.
Proof. solve_decision. Defined.

Record tables := Tables {
  users : list User;
  channels : list Channel;
  members : list Membership;
  messages : list Message
}.

Definition set_users us tb := Tables us (channels tb) (members tb) (messages tb).
Definition add_channel c tb := Tables (users tb) (channels tb ++ [c]) (members tb) (messages tb).
Definition add_member m tb := Tables (users tb) (channels tb) (members tb ++ [m]) (messages tb).
Definition add_message m tb := Tables (users tb) (channels tb) (members tb) (messages tb ++ [m]).

(** ** Statements *)

Inductive sql :=
| SelUser (nm : string)         (** select id, userName from user where userName = ? *)
| InsUser (nm : string) (t : Z) (** insert into user (userName, last_timestamp) values (?, ?) *)
| SelUserId (nm : string)       (** select id from user where userName = ? *)
| SelChannels (a b : Z)         (** the join of channel with two memberships *)
| InsChannel (typ nm : string)  (** insert into channel (channel_type, channel_name) values (?, ?) *)
| InsMessage (sender chan : Z) (msg : string) (t : Z)
                                (** insert into message (...) values (?, ?, ?, ?) *)
| InsMember (chan user : Z)     (** insert into membership (channel_id, user_id) values (?, ?) *)
| SelLast (chan : Z)            (** select * from message ... order by created_at desc limit 10 *)
| InsMessageS (sender chan : string) (msg : string) (t : Z) (** with the ids as strings *)
| SelMembers (chan : string)    (** select * from membership where channel_id = ? *)
| SelUserName (user : string)   (** select userName from user where id = ? *)
| PrepHeartbeat                 (** [Db.Prepare] of the next one *)
| InsHeartbeat (user nm : string) (t : Z)
    (** insert into user (...) values (?, ?, ?) on duplicate key update last_timestamp = ? *)
| SelUsers.                     (** select * from user *)

(** [QueryRow] and [Scan]: the outcomes the code distinguishes. *)
Inductive row (A : Type) := RowErr | ScanErr | NoRows | Row (a : A).
Arguments RowErr {A}.
Arguments ScanErr {A}.
Arguments NoRows {A}.
Arguments Row {A} _.

(** [Query]: an error, or rows of which each may fail to scan. *)
Definition rows (A : Type) : Type := option (list (option A)).

(** An [insert] whose new id is asked for; [None] is an error. *)
Definition ans (q : sql) : Type :=
  match q with
  | SelUser _ => row (Z * string)
  | InsUser _ _ => option Z
  | SelUserId _ => row Z
  | SelChannels _ _ => rows Channel
  | InsChannel _ _ => option (option Z)   (** [LastInsertId] may fail too *)
  | InsMessage _ _ _ _ => option Z
  | InsMember _ _ => bool
  | SelLast _ => rows Message
  | InsMessageS _ _ _ _ => bool
  | SelMembers _ => rows Membership
  | SelUserName _ => row string
  | PrepHeartbeat => bool
  | InsHeartbeat _ _ _ => bool
  | SelUsers => rows User
  end.

(** ** What they do *)

Section semantics.
(** The collation's equality of names, and the number that MySQL reads in a
    string; [None] if it refuses it. *)
Variable same_name : string → string → bool.
Variable to_int : string → option Z.
(** What the columns [created_at] and [last_timestamp] keep of a time. *)
Variable stamp store : Z → Z.
(** All rows of the result arrive. *)
Variable whole : Prop.

Definition user_id (tb : tables) (i : Z) : Prop := i ∈ (Id <$> users tb).
Definition channel_id (tb : tables) (i : Z) : Prop := i ∈ (ChannelID <$> channels tb).

(** [a] and [b] are both members of the channel. *)
Definition between (tb : tables) (a b : Z) (c : Channel) : Prop :=
  c ∈ channels tb ∧
  (∃ i, MkMembership i (ChannelID c) a ∈ members tb) ∧
  (∃ i, MkMembership i (ChannelID c) b ∈ members tb).

(** The rows of the join: one per channel and pair of memberships. *)
Definition join (tb : tables) (a b : Z) : list Channel :=
  c ← channels tb;
  _ ← filter (λ m, m_ChannelID m = ChannelID c ∧ UserID m = a) (members tb);
  _ ← filter (λ m, m_ChannelID m = ChannelID c ∧ UserID m = b) (members tb);
  [c].

Lemma elem_of_join tb a b c : c ∈ join tb a b ↔ between tb a b c.
Proof.
  assert (Hm : ∀ u ch, (∃ m, m ∈ filter (λ m, m_ChannelID m = ch ∧ UserID m = u) (members tb)) ↔
    ∃ i, MkMembership i ch u ∈ members tb).
  { intros u ch. split.
    - intros (m&[[Hc Hu] Hm]%list_elem_of_filter). exists (MembershipID m). destruct m. by simplify_eq/=.
    - intros [i Hi]. exists (MkMembership i ch u). by apply list_elem_of_filter. }
  unfold join, between. rewrite <-!Hm. setoid_rewrite list_elem_of_bind. split.
  - intros (c'&(m1&(m2&Hc&Hm2)%list_elem_of_bind&Hm1)%list_elem_of_bind&Hin).
    apply list_elem_of_singleton in Hc as <-. eauto.
  - intros (Hin&[m1 Hm1]&[m2 Hm2]). exists c. split; [|done].
    apply list_elem_of_bind. exists m1. split; [|done]. apply list_elem_of_bind. exists m2.
    split; [by apply list_elem_of_singleton|done].
Qed.

(** The latest first. *)
Definition latest (m m' : Message) : Prop := CreatedAt m' ≤ CreatedAt m.
#[export] Instance latest_dec : RelDecision latest := λ m m', decide (CreatedAt m' ≤ CreatedAt m).

(** An auto-increment key. *)
Definition fresh (i : Z) (used : list Z) : Prop := 0 < i ∧ (i ∉ used).

(** The foreign keys of [message] and [membership]. *)
Definition message_row (tb : tables) (s c : Z) (msg : string) (t i : Z) (tb' : tables) : Prop :=
  user_id tb s ∧ channel_id tb c ∧ fresh i (MessageID <$> messages tb) ∧
  tb' = add_message (MkMessage i s c msg (stamp t)) tb.

Definition touch (i t : Z) (us : list User) : list User :=
  (λ u, if decide (Id u = i) then MkUser i (UserName u) t else u) <$> us.

Definition sql_step (q : sql) (tb : tables) : ans q → tables → Prop :=
  match q with
  | SelUser nm => λ x tb', tb' = tb ∧
      match x with
      | Row (i, n) => same_name n nm = true ∧ ∃ t, MkUser i n t ∈ users tb
      | NoRows => ∀ u, u ∈ users tb → same_name (UserName u) nm = false
      | _ => True
      end
  | InsUser nm t => λ x tb',
      match x with
      | Some i => fresh i (Id <$> users tb) ∧ tb' = set_users (users tb ++ [MkUser i nm (store t)]) tb
      | None => tb' = tb
      end
  | SelUserId nm => λ x tb', tb' = tb ∧
      match x with
      | Row i => ∃ u, u ∈ users tb ∧ Id u = i ∧ same_name (UserName u) nm = true
      | NoRows => ∀ u, u ∈ users tb → same_name (UserName u) nm = false
      | _ => True
      end
  | SelChannels a b => λ x tb', tb' = tb ∧
      match x with
      | Some rs => delivers whole (join tb a b) rs
      | None => True
      end
  | InsChannel typ nm => λ x tb',
      match x with
      | Some (Some i) =>
          fresh i (ChannelID <$> channels tb) ∧ tb' = add_channel (MkChannel i typ nm) tb
      | Some None =>
          ∃ i, fresh i (ChannelID <$> channels tb) ∧ tb' = add_channel (MkChannel i typ nm) tb
      | None => tb' = tb
      end
  | InsMessage s c msg t => λ x tb',
      match x with Some i => message_row tb s c msg t i tb' | None => tb' = tb end
  | InsMember c u => λ x tb',
      if x then
        channel_id tb c ∧ user_id tb u ∧
        ∃ i, fresh i (MembershipID <$> members tb) ∧ tb' = add_member (MkMembership i c u) tb
      else tb' = tb
  | SelLast c => λ x tb', tb' = tb ∧
      match x with
      | Some rs => ∃ l, l ≡ₚ filter (λ m, c_ChannelID m = c) (messages tb) ∧ Sorted latest l ∧
          delivers_in_order whole (take 10 l) rs
      | None => True
      end
  | InsMessageS s c msg t => λ x tb',
      if x then ∃ s' c' i, to_int s = Some s' ∧ to_int c = Some c' ∧ message_row tb s' c' msg t i tb'
      else tb' = tb
  | SelMembers c => λ x tb', tb' = tb ∧
      match x with
      | Some rs => delivers whole (filter (λ m, to_int c = Some (m_ChannelID m)) (members tb)) rs
      | None => True
      end
  | SelUserName u => λ x tb', tb' = tb ∧
      match x with
      | Row n => ∃ r, r ∈ users tb ∧ to_int u = Some (Id r) ∧ UserName r = n
      | NoRows => ∀ r, r ∈ users tb → to_int u ≠ Some (Id r)
      | _ => True
      end
  | PrepHeartbeat => λ _ tb', tb' = tb
  | InsHeartbeat u nm t => λ x tb',
      if x then
        ∃ i, to_int u = Some i ∧
          ((user_id tb i ∧ tb' = set_users (touch i (store t) (users tb)) tb) ∨
           ∃ j, fresh j (Id <$> users tb) ∧ (i = j ∨ i = 0) ∧
             tb' = set_users (users tb ++ [MkUser j nm (store t)]) tb)
      else tb' = tb
  | SelUsers => λ x tb', tb' = tb ∧
      match x with Some rs => delivers whole (users tb) rs | None => True end
  end.

(** *** Consequences *)

Section facts.
Context {q : sql} {tb tb' : tables} {x : ans q}.
Hypothesis Hq : sql_step q tb x tb'.

Ltac cases := destruct q; cbn [sql_step ans] in *; repeat first
  [ progress simplify_eq | progress destruct_and! | progress destruct_or! | case_match
  | match goal with H : ∃ _, _ |- _ => destruct H end
  | progress unfold message_row in * ].

(** No statement deletes or changes a message or a membership. *)
Lemma messages_grow : messages tb `prefix_of` messages tb'.
Proof. cases; simpl; done || by eexists. Qed.

Lemma members_grow : members tb `prefix_of` members tb'.
Proof. cases; simpl; done || by eexists. Qed.

Lemma channels_grow : channels tb `prefix_of` channels tb'.
Proof. cases; simpl; done || by eexists. Qed.

(** Nor does one remove a user. *)
Lemma user_ids_grow : (Id <$> users tb) `prefix_of` (Id <$> users tb').
Proof.
  cases; simpl; try done; rewrite ?fmap_app; try by eexists.
  unfold touch. rewrite <-list_fmap_compose.
  match goal with |- _ `prefix_of` ?l => replace l with (Id <$> users tb); [done|] end.
  apply list_fmap_ext. intros ? u _. simpl. by case_decide.
Qed.
End facts.

(** The foreign keys, as a property of the tables. *)
Definition foreign_keys (tb : tables) : Prop :=
  (∀ m, m ∈ members tb → channel_id tb (m_ChannelID m) ∧ user_id tb (UserID m)) ∧
  (∀ m, m ∈ messages tb → channel_id tb (c_ChannelID m) ∧ user_id tb (SenderID m)).

Lemma user_id_later q tb x tb' i : sql_step q tb x tb' → user_id tb i → user_id tb' i.
Proof.
  intros Hq Hi. destruct (user_ids_grow Hq) as [l Hl]. unfold user_id in *. rewrite Hl. set_solver.
Qed.

Lemma channel_id_later q tb x tb' i : sql_step q tb x tb' → channel_id tb i → channel_id tb' i.
Proof.
  intros Hq Hi. destruct (channels_grow Hq) as [l Hl]. unfold channel_id in *.
  rewrite Hl, fmap_app. set_solver.
Qed.

End semantics.

(** ** The interface *)

Class SlackDB (DB E : Type) := {
  exec : ∀ q : sql, E → DB → ans q * DB;
  view : DB → tables;
  same_name : string → string → bool;
  to_int : string → option Z;
  stamp : Z → Z;
  store : Z → Z;
  whole : E → Prop;
  exec_step q e db :
    sql_step same_name to_int stamp store (whole e) q (view db) (exec q e db).1 (view (exec q e db).2);
  same_name_refl nm : same_name nm nm = true
}.

(** ** A database in memory

    The tables themselves; a statement fails when the environment says so, or when
    a foreign key is missing.  Names are compared as they are. *)
Module Mem.

(** How a call fares; [Cut]: the connection breaks before the first row of a result. *)
Inductive luck := Works | Fails | Cut.

Definition next (l : list Z) : Z := 1 + foldr Z.max 0 l.

Lemma next_fresh l : fresh (next l) l.
Proof.
  unfold fresh, next. assert (H : ∀ i, i ∈ l → i ≤ foldr Z.max 0 l).
  { induction l as [|j l IH]; intros i Hi; [by apply elem_of_nil in Hi|]. simpl.
    apply elem_of_cons in Hi as [->|Hi]; [lia|]. specialize (IH i Hi). lia. }
  split; [|intros Hi%H; lia].
  enough (0 ≤ foldr Z.max 0 l) by lia. clear. induction l; simpl; lia.
Qed.

Definition number (s : string) : option Z := if decide (Atoi s = 0) then None else Some (Atoi s).

Definition by_name (tb : tables) (nm : string) : option User :=
  head (filter (λ u, UserName u = nm) (users tb)).

Definition add_msg (s c : Z) (msg : string) (t : Z) (tb : tables) : option (Z * tables) :=
  if decide (s ∈ (Id <$> users tb) ∧ c ∈ (ChannelID <$> channels tb)) then
    let i := next (MessageID <$> messages tb) in Some (i, add_message (MkMessage i s c msg t) tb)
  else None.

Definition run (q : sql) (tb : tables) : ans q * tables :=
  match q with
  | SelUser nm => (match by_name tb nm with Some u => Row (Id u, UserName u) | None => NoRows end, tb)
  | InsUser nm t =>
      let i := next (Id <$> users tb) in (Some i, set_users (users tb ++ [MkUser i nm t]) tb)
  | SelUserId nm => (match by_name tb nm with Some u => Row (Id u) | None => NoRows end, tb)
  | SelChannels a b => (Some (Some <$> join tb a b), tb)
  | InsChannel typ nm =>
      let i := next (ChannelID <$> channels tb) in (Some (Some i), add_channel (MkChannel i typ nm) tb)
  | InsMessage s c msg t =>
      match add_msg s c msg t tb with Some (i, tb') => (Some i, tb') | None => (None, tb) end
  | InsMember c u =>
      if decide (c ∈ (ChannelID <$> channels tb) ∧ u ∈ (Id <$> users tb)) then
        (true, add_member (MkMembership (next (MembershipID <$> members tb)) c u) tb)
      else (false, tb)
  | SelLast c =>
      (Some (Some <$> take 10 (merge_sort latest (reverse (filter (λ m, c_ChannelID m = c) (messages tb))))), tb)
  | InsMessageS s c msg t =>
      match number s, number c with
      | Some s', Some c' =>
          match add_msg s' c' msg t tb with Some (_, tb') => (true, tb') | None => (false, tb) end
      | _, _ => (false, tb)
      end
  | SelMembers c => (Some (Some <$> filter (λ m, number c = Some (m_ChannelID m)) (members tb)), tb)
  | SelUserName u =>
      (match head (filter (λ r, number u = Some (Id r)) (users tb)) with
       | Some r => Row (UserName r) | None => NoRows end, tb)
  | PrepHeartbeat => (true, tb)
  | InsHeartbeat u nm t =>
      match number u with
      | Some i =>
          if decide (i ∈ (Id <$> users tb)) then (true, set_users (touch i t (users tb)) tb)
          else if decide (0 < i) then (true, set_users (users tb ++ [MkUser i nm t]) tb)
          else (false, tb)
      | None => (false, tb)
      end
  | SelUsers => (Some (Some <$> users tb), tb)
  end.

Definition fails (q : sql) : ans q :=
  match q with
  | SelUser _ | SelUserId _ | SelUserName _ => RowErr
  | InsMember _ _ | InsMessageS _ _ _ _ | PrepHeartbeat | InsHeartbeat _ _ _ => false
  | _ => None
  end.

Definition cut (q : sql) (x : ans q) : ans q :=
  match q return ans q → ans q with
  | SelChannels _ _ | SelLast _ | SelMembers _ | SelUsers => λ _, Some []
  | _ => λ x, x
  end x.

Definition exec (q : sql) (l : luck) (tb : tables) : ans q * tables :=
  match l with
  | Works => run q tb
  | Fails => (fails q, tb)
  | Cut => let (x, tb') := run q tb in (cut q x, tb')
  end.

Lemma head_filter {A} (P : A → Prop) `{∀ x, Decision (P x)} (l : list A) :
  match head (filter P l) with
  | Some x => x ∈ l ∧ P x
  | None => ∀ x, x ∈ l → ¬ P x
  end.
Proof.
  destruct (filter P l) as [|x l'] eqn:Hf; simpl.
  - intros x Hx HP. assert (Hin : x ∈ filter P l) by by apply list_elem_of_filter.
    rewrite Hf in Hin. by apply elem_of_nil in Hin.
  - assert (Hin : x ∈ filter P l) by (rewrite Hf; set_solver). apply list_elem_of_filter in Hin. tauto.
Qed.

Lemma add_msg_row s c msg t tb i tb' :
  add_msg s c msg t tb = Some (i, tb') → message_row id tb s c msg t i tb'.
Proof.
  unfold add_msg. case_decide as Hd; [|done]. intros [= <- <-].
  split; [apply Hd|]. split; [apply Hd|]. by split; [apply next_fresh|].
Qed.

Definition same (a b : string) : bool := bool_decide (a = b).

Lemma by_name_spec tb nm :
  match by_name tb nm with
  | Some u => u ∈ users tb ∧ same (UserName u) nm = true
  | None => ∀ u, u ∈ users tb → same (UserName u) nm = false
  end.
Proof.
  unfold by_name, same. pose proof (head_filter (λ u, UserName u = nm) (users tb)) as Hh.
  destruct (head _); setoid_rewrite bool_decide_eq_true || setoid_rewrite bool_decide_eq_false; done.
Qed.

#[export] Instance latest_total : Total latest.
Proof. intros a b. unfold latest. lia. Qed.

Lemma mem_run_step (wh : Prop) q tb : sql_step same number id id wh q tb (run q tb).1 (run q tb).2.
Proof.
  destruct q; cbn.
  - split; [done|]. pose proof (by_name_spec tb nm) as Hn. destruct (by_name tb nm) as [[]|]; naive_solver.
  - split; [apply next_fresh|done].
  - split; [done|]. pose proof (by_name_spec tb nm) as Hn. destruct (by_name tb nm) as [u|]; [|done].
    exists u. naive_solver.
  - split; [done|]. apply delivers_all.
  - split; [apply next_fresh|done].
  - destruct (add_msg _ _ _ _ _) as [[i tb']|] eqn:Hm; [|done]. by eapply add_msg_row.
  - case_decide as Hd; [|done]. split; [apply Hd|]. split; [apply Hd|]. eexists. split; [apply next_fresh|done].
  - split; [done|]. eexists. split; [|split; [apply Sorted_merge_sort, _|apply delivers_all_in_order]].
    by rewrite merge_sort_Permutation, reverse_Permutation.
  - destruct (number sender) as [s'|] eqn:Hs; [|done]. destruct (number chan) as [c'|] eqn:Hc; [|done].
    destruct (add_msg _ _ _ _ _) as [[i tb']|] eqn:Hm; [|done]. exists s', c', i.
    split; [done|]. split; [done|]. by eapply add_msg_row.
  - split; [done|]. apply delivers_all.
  - split; [done|]. pose proof (head_filter (λ r, number user = Some (Id r)) (users tb)) as Hh.
    destruct (head _) as [r|]; [exists r; naive_solver|done].
  - done.
  - destruct (number user) as [i|] eqn:Hi; [|done]. case_decide as Hd; [|case_decide; [|done]].
    + exists i. split; [done|]. by left.
    + exists i. split; [done|]. right. exists i. repeat split; auto.
  - split; [done|]. apply delivers_all.
Qed.

Lemma exec_step q l tb : sql_step same number id id (l = Works) q tb (exec q l tb).1 (exec q l tb).2.
Proof.
  unfold exec. destruct l; [apply mem_run_step|by destruct q|].
  pose proof (mem_run_step (Cut = Works) q tb) as Hq. destruct q; try (destruct (run _ tb); exact Hq); cbn; (split; [done|]).
  - by apply delivers_cut.
  - exists (merge_sort latest (filter (λ m, c_ChannelID m = chan) (messages tb))).
    split; [apply merge_sort_Permutation|]. split; [apply Sorted_merge_sort, _|by apply delivers_cut_in_order].
  - by apply delivers_cut.
  - by apply delivers_cut.
Qed.

#[global] Instance mem_db : SlackDB tables luck.
Proof.
  refine {| Sql.exec := exec; view tb := tb; same_name := same; to_int := number; stamp := id; store := id;
            whole l := l = Works; Sql.exec_step := exec_step |}.
  intros nm. by apply bool_decide_eq_true.
Defined.

End Mem.

End Sql.
