(* ===== verification/Slack.v ===== *)
(** * Slack: slack/main.go

    The HTTP handlers, the socket.io heartbeat handler and the goroutines they
    start, as programs over the database ([SlackDb]), the maps [wsMap] and
    [timeTaken], which have no lock, and the sockets.  The response to the client and
    the server's interleavings come from [GoHttp]. *)

From Stdlib Require Import Ascii.
From stdpp Require Import sorting.
From S2P Require Import Prelude GoLang GoSched GoSync GoHttp SlackDb.

#[local] Open Scope Z_scope.

Module Slack.
Import Sql.

(** ** State and calls *)

(** A [*socketio.Conn]; the library is not part of the program. *)
Abbreviation conn := nat.

Inductive op :=
| Now                                  (** [time.Now()] *)
| Sql (q : sql)
| WsBegin (write : bool)               (** an access to [wsMap] begins *)
| WsGet (userId : Z)                   (** [wsMap[userId]] *)
| WsSet (userId : Z) (c : conn)        (** [wsMap[userId] = c] *)
| Emit (c : conn) (payload : string)   (** [c.Emit("realtime", payload)] *)
| TimeBegin (write : bool)             (** an access to [timeTaken] begins *)
| TimeSet (id : string) (t : Z)        (** [timeTaken[id] = t] *)
| TimeGet (id : string).               (** [timeTaken[id]] *)

(** The beginning of an access answers whether it overlaps with no other. *)
Definition op_ans (o : op) : Type :=
  match o with
  | Now => Z
  | Sql q => ans q
  | WsBegin _ | TimeBegin _ => bool
  | WsGet _ => option conn
  | WsSet _ _ | Emit _ _ | TimeSet _ _ => ()
  | TimeGet _ => Z
  end.

Abbreviation handler := (prog op_ans ()).

Definition sql_call (q : sql) : prog op_ans (ans q) := app (ans := op_ans) (Sql q).
Definition now : prog op_ans Z := app (ans := op_ans) Now.

(** An access to one of the maps. *)
Definition ws_access {A} (write : bool) (p : prog op_ans A) : prog op_ans A :=
  ok ← app (ans := op_ans) (WsBegin write);
  if ok : bool then p else Exit err_map.

Definition time_access {A} (write : bool) (p : prog op_ans A) : prog op_ans A :=
  ok ← app (ans := op_ans) (TimeBegin write);
  if ok : bool then p else Exit err_map.

(** ** Encoding *)

Definition json_User (u : User) : json :=
  JObj [("id", JNum (Id u)); ("userName", JStr (UserName u)); ("lastTimestamp", JTime (LastTimestamp u))].

Definition json_Message (m : Message) : json :=
  JObj [("message_id", JNum (MessageID m)); ("sender_id", JNum (SenderID m));
        ("channel_id", JNum (c_ChannelID m)); ("msg", JStr (Msg m)); ("created_at", JTime (CreatedAt m))].

(** The last lines of the handlers that answer with JSON. *)
Definition reply_json (v : json) : handler :=
  addHeader "content-type" "application/json";;
  writeHeader StatusOK;;
  ok ← write (Json v);
  if ok : bool then Pure () else reply StatusInternalServerError "try again".

(** ** [createUser] *)

(** The user found, or the zero [User]. *)
Definition found (x : row (Z * string)) : User :=
  match x with Row (i, n) => MkUser i n zero_time | _ => MkUser 0 "" zero_time end.

Definition createUser (userName : string) : handler :=
  x ← sql_call (SelUser userName);
  match x : row (Z * string) with
  | RowErr => reply StatusInternalServerError "fetch try again"
  | ScanErr => reply StatusInternalServerError "scan try again"
  | x =>
      let user := found x in
      if decide (UserName user = "") then
        currTime ← now;
        res ← sql_call (InsUser userName currTime);
        match res : option Z with
        | None => reply StatusInternalServerError "try again"
        | Some id => reply_json (json_User (MkUser id userName zero_time))
        end
      else reply_json (json_User user)
  end.

(** ** [sendMessageOverWebSocket] *)

Fixpoint sendMessageOverWebSocket (members : list Membership) (msg userName : string) : handler :=
  match members with
  | [] => Pure ()
  | member :: members' =>
      wsServer ← ws_access false (app (ans := op_ans) (WsGet (UserID member)));
      match wsServer : option conn with
      | Some c => app (ans := op_ans) (Emit c (userName +:+ ":" +:+ msg));;
                  sendMessageOverWebSocket members' msg userName
      | None => sendMessageOverWebSocket members' msg userName
      end
  end.

(** ** [createChannel] *)

(** The id found, or the zero of the variable. *)
Definition id_or_zero (x : row Z) : Z := match x with Row i => i | _ => 0 end.

(** [var ch Channel] after the loop: the last row. *)
Definition last_channel (cs : list Channel) : Channel := default (MkChannel 0 "" "") (last cs).

(** The branch that makes a channel. *)
Definition new_channel (senderName receiverName : string) (sender receiver : Z) : handler :=
  result ← sql_call (InsChannel "DM" (senderName +:+ "_" +:+ receiverName));
  match result : option (option Z) with
  | None | Some None => reply StatusInternalServerError "fetch try again"
  | Some (Some channelId) =>
      let msg := "channel created b/w you and " +:+ receiverName in
      t ← now;
      result ← sql_call (InsMessage sender channelId msg t);
      match result : option Z with
      | None => reply StatusInternalServerError "fetch try again"
      | Some messageId =>
          go (sendMessageOverWebSocket [MkMembership 0 channelId receiver] msg senderName);;
          ok ← sql_call (InsMember channelId sender);
          if ok : bool then
            ok ← sql_call (InsMember channelId receiver);
            if ok : bool then
              reply_json (JArr [json_Message (MkMessage messageId 0 channelId msg zero_time)])
            else reply StatusInternalServerError "fetch try again"
          else reply StatusInternalServerError "fetch try again"
      end
  end.

(** The branch that shows an existing one. *)
Definition show_channel (ch : Channel) : handler :=
  rs ← sql_call (SelLast (ChannelID ch));
  match rs : rows Message with
  | None => reply StatusInternalServerError "try again"
  | Some rs =>
      match scan_all rs with
      | None => reply StatusInternalServerError "try again"
      | Some output => reply_json (JArr (json_Message <$> output))
      end
  end.

(** From the query for the channel on, between the two ids. *)
Definition open_channel (senderName receiverName : string) (sender receiver : Z) : handler :=
  rs ← sql_call (SelChannels sender receiver);
  match (rs : rows Channel) ≫= scan_all with
  | None => reply StatusInternalServerError "try again"
  | Some cs =>
      let ch := last_channel cs in
      if decide (ChannelID ch = 0)
      then new_channel senderName receiverName sender receiver
      else show_channel ch
  end.

(** From the query for the receiver on. *)
Definition find_receiver (senderName receiverName : string) (sender : Z) : handler :=
  y ← sql_call (SelUserId receiverName);
  match y : row Z with
  | RowErr => reply StatusInternalServerError "fetch try again"
  | ScanErr => reply StatusInternalServerError "scan try again"
  | y => open_channel senderName receiverName sender (id_or_zero y)
  end.

Definition createChannel (senderName receiverName : string) : handler :=
  x ← sql_call (SelUserId senderName);
  match x : row Z with
  | RowErr => reply StatusInternalServerError "fetch try again"
  | ScanErr => reply StatusInternalServerError "scan try again"
  | x => find_receiver senderName receiverName (id_or_zero x)
  end.

(** ** [sendMessage] *)

(** [http.Error(w, text, code)] *)
Definition http_error (text : string) (code : Z) : handler :=
  addHeader "Content-Type" "text/plain; charset=utf-8";;
  addHeader "X-Content-Type-Options" "nosniff";;
  writeHeader code;;
  _ ← write (Text (text +:+ String (ascii_of_nat 10) ""));
  Pure ().

(** [req] is what the JSON decoder makes of the body, [None] its error. *)
Definition sendMessage (senderId channelId : string) (req : option string) : handler :=
  currentTime ← now;
  match req with
  | None => http_error "Invalid request payload" StatusBadRequest
  | Some msg =>
      ok ← sql_call (InsMessageS senderId channelId msg currentTime);
      if ok : bool then
        rs ← sql_call (SelMembers channelId);
        match rs : rows Membership with
        | None => reply StatusInternalServerError "fetch try again"
        | Some rs =>
            match scan_all rs with
            | None => reply StatusInternalServerError "try again"
            | Some ms =>
                let members := filter (λ m, UserID m ≠ Atoi senderId) ms in
                x ← sql_call (SelUserName senderId);
                match x : row string with
                | RowErr => reply StatusInternalServerError "fetch try again"
                | ScanErr => reply StatusInternalServerError "scan try again"
                | x =>
                    let userName := match x with Row n => n | _ => "" end in
                    sendMessageOverWebSocket members msg userName;;
                    reply_json (JObj [("msg", JStr msg)])
                end
            end
        end
      else reply StatusInternalServerError "fetch try again"
  end.

(** ** The heartbeat *)

(** The [interface{}] of the event. *)
Inductive any := Nil | AString (s : string) | Other.

Definition heartbeat (c : conn) (msg : any) : handler :=
  currentTime ← now;
  match msg with
  | Nil => Pure ()
  | Other => Throw err_conversion
  | AString userIdPlusUsername =>
      let splitArr := split_on ","%char userIdPlusUsername in
      user ← lift (index splitArr 0);
      ws_access true (app (ans := op_ans) (WsSet (Atoi user) c));;
      ok ← sql_call PrepHeartbeat;
      if ok : bool then
        name ← lift (index splitArr 1);
        _ ← sql_call (InsHeartbeat user name currentTime);
        Pure ()
      else Pure ()
  end.

(** ** The connection log *)

(** [id] is [c.ID()]. *)
Definition onConnect (id : string) : handler :=
  t ← now; time_access true (app (ans := op_ans) (TimeSet id t)).

(** Prints how long the connection lasted. *)
Definition onDisconnect (id : string) : handler :=
  _ ← time_access false (app (ans := op_ans) (TimeGet id));
  _ ← now;
  Pure ().

(** ** [fetchOnlineOfflineStatus] *)

Definition online (currentTime : Z) (u : User) : bool :=
  bool_decide (time_sub currentTime (LastTimestamp u) ≤ 10 * Second).

(** The map after the rows [us], in order. *)
Definition statuses (currentTime : Z) (us : list User) : gmap string bool :=
  foldl (λ m u, <[UserName u := online currentTime u]> m) ∅ us.

(** [json.Marshal] writes a map's keys in increasing order. *)
Definition key_le (a b : string * bool) : Prop := String.leb a.1 b.1 = true.
#[export] Instance key_le_dec : RelDecision key_le := λ a b, decide (String.leb a.1 b.1 = true).

Definition json_statuses (m : gmap string bool) : json :=
  JObj ((λ kb : string * bool, (kb.1, JBool kb.2)) <$> merge_sort key_le (map_to_list m)).

Definition fetchOnlineOfflineStatus : handler :=
  rs ← sql_call SelUsers;
  match rs : rows User with
  | None => reply StatusInternalServerError "error from db"
  | Some rs =>
      currentTime ← now;
      match scan_all rs with
      | None => reply StatusInternalServerError "error from db"
      | Some us =>
          writeHeader StatusOK;;
          _ ← write (Json (json_statuses (statuses currentTime us)));
          Pure ()
      end
  end.

(** ** The server *)

Inductive request :=
| ReqCreateUser (userName : string)
| ReqChannel (senderName receiverName : string)
| ReqMessage (senderId channelId : string) (req : option string)
| ReqStatus
| ReqHeartbeat (c : conn) (msg : any)
| OnConnect (id : string)
| OnDisconnect (id : string).

(** The routes of [main] and of [connectToWebsocket]. *)
Definition serve (r : request) : handler :=
  match r with
  | ReqCreateUser userName => createUser userName
  | ReqChannel senderName receiverName => createChannel senderName receiverName
  | ReqMessage senderId channelId req => sendMessage senderId channelId req
  | ReqStatus => fetchOnlineOfflineStatus
  | ReqHeartbeat c msg => heartbeat c msg
  | OnConnect id => onConnect id
  | OnDisconnect id => onDisconnect id
  end.

Section semantics.
Context {DB E : Type} {sdb : SlackDB DB E}.

Record shared := Shared {
  db : DB;
  wsMap : gomap Z conn;
  emitted : list (conn * string);
  timeTaken : gomap string Z
}.

Definition set_wsMap m (s : shared) : shared := Shared (db s) m (emitted s) (timeTaken s).
Definition set_timeTaken m (s : shared) : shared := Shared (db s) (wsMap s) (emitted s) m.

(** What the environment decides: the clock, and the database's choice. *)
Record env := Env { clock : Z; db_env : E }.

Definition perform (o : op) (e : env) (s : shared) : op_ans o * shared :=
  match o with
  | Now => (clock e, s)
  | Sql q => let (x, d) := exec q (db_env e) (db s) in (x, Shared d (wsMap s) (emitted s) (timeTaken s))
  | WsBegin write =>
      match begin_access write (wsMap s) with Some m => (true, set_wsMap m s) | None => (false, s) end
  | WsGet u => (map_get u (wsMap s), set_wsMap (end_read (wsMap s)) s)
  | WsSet u c => ((), set_wsMap (map_set u c (wsMap s)) s)
  | Emit c p => ((), Shared (db s) (wsMap s) (emitted s ++ [(c, p)]) (timeTaken s))
  | TimeBegin write =>
      match begin_access write (timeTaken s) with Some m => (true, set_timeTaken m s) | None => (false, s) end
  | TimeSet id t => ((), set_timeTaken (map_set id t (timeTaken s)) s)
  | TimeGet id => (default zero_time (map_get id (timeTaken s)), set_timeTaken (end_read (timeTaken s)) s)
  end.

(** A handler on its own, against any behaviour of the environment. *)
Definition run_alone (o : nat → env * bool) (p : handler) (s : shared) :
    result (ans := op_ans) (S := shared) () :=
  alone perform o 0 p s no_response.

(** *** What every action respects *)

(** A message whose text is [msg] has been stored. *)
Definition stored (s : shared) (msg : string) : Prop := ∃ m, m ∈ messages (view (db s)) ∧ Msg m = msg.

Definition announces (s : shared) (p : conn * string) : Prop :=
  ∃ name msg, stored s msg ∧ p.2 = name +:+ ":" +:+ msg.

(** Messages are never lost, sockets' output only grows, and what is emitted
    announces a stored message. *)
Definition later (s s' : shared) : Prop :=
  messages (view (db s)) `prefix_of` messages (view (db s')) ∧
  ∃ l, emitted s' = emitted s ++ l ∧ Forall (announces s') l.

Lemma stored_later s s' msg : later s s' → stored s msg → stored s' msg.
Proof.
  intros [[l Hl] _] (m&Hm&Hmsg). exists m. split; [|done]. rewrite Hl. set_solver.
Qed.

Lemma announces_later s s' p : later s s' → announces s p → announces s' p.
Proof. intros Hs (name&msg&Hm&Hp). exists name, msg. eauto using stored_later. Qed.

#[export] Instance later_preorder : PreOrder later.
Proof.
  split.
  - intros s. split; [done|]. exists []. by rewrite app_nil_r.
  - intros s1 s2 s3 H12 H23. split; [etrans; [apply H12|apply H23]|].
    destruct H12 as [_ (l&Hl&Hf)]. pose proof H23 as [_ (l'&Hl'&Hf')]. exists (l ++ l').
    rewrite Hl', Hl, app_assoc. split; [done|]. apply Forall_app. split; [|done].
    eapply Forall_impl; [exact Hf|]. intros p. by apply announces_later.
Qed.

Lemma later_quiet s s' :
  messages (view (db s)) `prefix_of` messages (view (db s')) → emitted s' = emitted s → later s s'.
Proof. intros Hm He. split; [done|]. exists []. by rewrite He, app_nil_r. Qed.

(** *** Rules for the calls *)

Section rules.
Context {A : Type} (T : string → Prop) (Q : A → shared → response → Prop).
Implicit Types (s : shared) (w : response).
Abbreviation safe := (safe perform later (λ why, why = err_map) (λ _, True)).

Lemma safe_sql q (k : ans q → prog op_ans A) s w :
  (∀ e x s1 s2, later s s1 → later s1 s2 →
     sql_step same_name to_int stamp store (whole e) q (view (db s1)) x (view (db s2)) → safe (k x) T Q s2 w) →
  safe (Do (CApp (Sql q)) k) T Q s w.
Proof.
  intros Hk e s1 _ H1. simpl. pose proof (exec_step q (db_env e.1) (db s1)) as Hq.
  destruct (exec q (db_env e.1) (db s1)) as [x d]. simpl in *.
  assert (later s1 (Shared d (wsMap s1) (emitted s1) (timeTaken s1)))
    by (apply later_quiet; [by apply (messages_grow _ _ _ _ _ Hq)|done]).
  split; [done|]. by apply (Hk (db_env e.1) x s1).
Qed.

Lemma safe_quiet o (k : op_ans o → prog op_ans A) s w :
  match o with Sql _ | Emit _ _ => False | _ => True end →
  (∀ x s1, later s s1 → safe (k x) T Q s1 w) → safe (Do (CApp o) k) T Q s w.
Proof.
  intros Ho Hk e s1 _ H1. cbn.
  assert (Hq : later s1 (perform o e.1 s1).2).
  { destruct o as [|q|write|u|u c|c p|write|id t|id]; try done; cbn; try (destruct (begin_access _ _));
      by apply later_quiet. }
  destruct (perform o e.1 s1) as [x s2]. split; [done|]. apply Hk. by trans s1.
Qed.

(** Programs that begin with an access to a map. *)
Lemma safe_ws_access write (k : bool → prog op_ans A) s w :
  k false = Exit err_map → (∀ s1, later s s1 → safe (k true) T Q s1 w) →
  safe (Do (CApp (WsBegin write)) k) T Q s w.
Proof. intros Hf Hk. apply safe_quiet; [done|]. intros [] s1 H1; [by apply Hk|by rewrite Hf]. Qed.

Lemma safe_time_access write (k : bool → prog op_ans A) s w :
  k false = Exit err_map → (∀ s1, later s s1 → safe (k true) T Q s1 w) →
  safe (Do (CApp (TimeBegin write)) k) T Q s w.
Proof. intros Hf Hk. apply safe_quiet; [done|]. intros [] s1 H1; [by apply Hk|by rewrite Hf]. Qed.

Lemma safe_emit c p (k : () → prog op_ans A) s w :
  announces s (c, p) → (∀ s1, later s s1 → safe (k tt) T Q s1 w) →
  safe (Do (CApp (Emit c p)) k) T Q s w.
Proof.
  intros Ha Hk e s1 _ H1. simpl.
  assert (H2 : later s1 (Shared (db s1) (wsMap s1) (emitted s1 ++ [(c, p)]) (timeTaken s1))).
  { split; [done|]. exists [(c, p)]. split; [done|]. repeat constructor.
    exact (announces_later s s1 (c, p) H1 Ha). }
  split; [done|]. apply Hk. by trans s1.
Qed.

Lemma safe_reply code v (f : () → prog op_ans A) s w :
  (∀ w' s1, later s s1 → status w' = Some (default code (status w)) → safe (f tt) T Q s1 w') →
  safe (prog_bind f (reply code v)) T Q s w.
Proof.
  intros Hf [e b1] s1 _ H1. assert (Hr : ∀ x, later x x) by reflexivity.
  split; [done|]. intros [e2 b] s2 _ H2. split; [done|].
  apply Hf; [by trans s1|]. unfold Write, WriteHeader. destruct (status w) eqn:Hw; simpl; rewrite ?Hw;
    destruct b; simpl; by rewrite ?Hw.
Qed.
End rules.

(** *** Every handler is safe *)

#[local] Arguments GoHttp.safe : simpl never.

(** The response has a status, one of the three the handlers use. *)
Definition answered (w : response) : Prop :=
  ∃ c, status w = Some c ∧ c ∈ [StatusOK; StatusBadRequest; StatusInternalServerError].

Section handlers.
Implicit Types (s : shared) (T : string → Prop).
Abbreviation safe := (safe perform later (λ why, why = err_map) (λ _, True)).
Abbreviation safe_answer p T s := (safe p T (λ _ _ w, answered w) s no_response).

Lemma safe_answer_reply T s code v :
  code ∈ [StatusOK; StatusBadRequest; StatusInternalServerError] → safe_answer (reply code v) T s.
Proof.
  intros Hc. apply (safe_reply T (λ _ _ w, answered w) code v Pure). intros w s1 _ Hw s2 _.
  by exists code.
Qed.

Lemma safe_answer_json T s v : safe_answer (reply_json v) T s.
Proof.
  assert (Hr : ∀ x, later x x) by reflexivity.
  intros e1 s1 _ H1. split; [done|]. intros e2 s2 _ H2. split; [done|].
  intros [e3 b] s3 _ H3. split; [done|]. cbn [snd]. destruct b; simpl.
  - intros s4 _. exists StatusOK. split; [done|set_solver].
  - apply (safe_reply T (λ _ _ w, answered w) _ _ Pure). intros w s4 _ Hw s5 _.
    exists StatusOK. split; [done|set_solver].
Qed.

(** Announcing a stored message is safe, and so is what may follow. *)
Lemma safe_announce T ms msg name s w :
  stored s msg → safe (sendMessageOverWebSocket ms msg name) T (λ _ s1 w1, later s s1 ∧ w1 = w) s w.
Proof.
  enough (Hgen : ∀ s0, later s0 s → stored s msg →
    safe (sendMessageOverWebSocket ms msg name) T (λ _ s1 w1, later s0 s1 ∧ w1 = w) s w)
    by (intros Hst; apply Hgen; [reflexivity|done]).
  revert s. induction ms as [|m ms IH]; intros s s0 H0 Hst; cbn.
  - intros s1 H1. split; [by trans s|done].
  - apply safe_ws_access; [done|]. intros s1 H1. cbn. apply safe_quiet; [done|]. intros x s2 H2.
    assert (H02 : later s s2) by by trans s1. cbn. destruct x as [c|]; cbn.
    + apply safe_emit; [exists name, msg; split; [by eapply stored_later|done]|]. intros s3 H3.
      apply IH; [trans s; [done|by trans s2]|]. eapply stored_later; [|exact Hst]. by trans s2.
    + apply IH; [by trans s|by eapply stored_later].
Qed.

Lemma safe_ws {A} T Q ms msg name (k : () → prog op_ans A) s w :
  stored s msg → (∀ s1, later s s1 → safe (k tt) T Q s1 w) →
  safe (prog_bind k (sendMessageOverWebSocket ms msg name)) T Q s w.
Proof.
  intros Hst Hk. apply safe_bind; [apply _|].
  apply (safe_mono perform later _ _ _ T T (λ _ s1 w1, later s s1 ∧ w1 = w)); [done| |by apply safe_announce].
  intros [] s1 w1 [H1 ->]. by apply Hk.
Qed.

#[local] Arguments sendMessageOverWebSocket : simpl never.
#[local] Arguments reply : simpl never.
#[local] Arguments reply_json : simpl never.

(** Close the branches that end in a reply. *)
Ltac answer := cbn; try first [ apply safe_answer_reply; set_solver | apply safe_answer_json ].

Lemma safe_createUser T nm s : safe_answer (createUser nm) T s.
Proof.
  apply safe_sql. intros e0 x s1 s2 _ _ _. destruct x as [| | |[i n]]; answer.
  - apply safe_quiet; [done|]. intros t s3 _. apply safe_sql. intros ? [i|] ? ? _ _ _; answer.
  - case_decide; answer. apply safe_quiet; [done|]. intros t s3 _. apply safe_sql.
    intros ? [j|] ? ? _ _ _; answer.
Qed.

Lemma message_row_stored s1 s2 i c msg t id :
  message_row stamp (view (db s1)) i c msg t id (view (db s2)) → stored s2 msg.
Proof.
  intros (_&_&_&Hv). eexists (MkMessage id i c msg (stamp t)). split; [|done]. rewrite Hv. simpl. set_solver.
Qed.

Lemma safe_new_channel T sn rn sid rid s : safe_answer (new_channel sn rn sid rid) T s.
Proof.
  apply safe_sql. intros ? [[c|]|] s1 s2 _ _ _; answer.
  apply safe_quiet; [done|]. intros t s3 _. apply safe_sql.
  intros ? [i|] s4 s5 _ _ Hq; answer. apply message_row_stored in Hq.
  split.
  - intros s6 H6. apply (safe_mono perform later _ _ _ (λ _, False) _ (λ _ s7 w7, later s6 s7 ∧ w7 = no_response));
      [done|done|]. apply safe_announce. by eapply stored_later.
  - apply safe_sql. intros ? [] ? ? _ _ _; answer. apply safe_sql. intros ? [] ? ? _ _ _; answer.
Qed.

Lemma safe_open_channel T sn rn i j s : safe_answer (open_channel sn rn i j) T s.
Proof.
  apply safe_sql. intros ? x ? ? _ _ _; cbn. destruct (_ ≫= _); answer. case_decide.
  - apply safe_new_channel.
  - apply safe_sql. intros ? [rs|] ? ? _ _ _; answer. destruct (scan_all rs); answer.
Qed.

Lemma safe_createChannel T sn rn s : safe_answer (createChannel sn rn) T s.
Proof.
  apply safe_sql. intros ? x s1 s2 _ _ _.
  destruct x; answer; apply safe_sql; intros ? y ? ? _ _ _; destruct y; answer;
    apply safe_open_channel.
Qed.

Lemma safe_sendMessage T sid cid req s : safe_answer (sendMessage sid cid req) T s.
Proof.
  apply safe_quiet; [done|]. intros t s1 _. destruct req as [msg|]; cbn.
  - apply safe_sql. intros ? [] s2 s3 _ _ Hq; answer.
    destruct Hq as (s'&c'&i&_&_&Hst%message_row_stored).
    apply safe_sql. intros ? [rs|] s4 s5 H4 H5 _; answer. destruct (scan_all rs); answer.
    apply safe_sql. intros ? x s6 s7 H6 H7 _.
    assert (stored s7 msg) by (eapply stored_later; [|exact Hst]; by trans s4; [|trans s5; [|trans s6]]).
    destruct x; answer; (apply safe_ws; [done|intros s8 _; answer]).
  - intros e2 s2 _ H2. assert (Hr : ∀ x, later x x) by reflexivity.
    split; [done|]. intros e3 s3 _ H3. split; [done|]. intros e4 s4 _ H4. split; [done|].
    intros [e5 b] s5 _ H5. split; [done|]. intros s6 _. exists StatusBadRequest.
    split; [by destruct b|set_solver].
Qed.

Lemma safe_status T s : safe_answer fetchOnlineOfflineStatus T s.
Proof.
  apply safe_sql. intros ? [rs|] s1 s2 _ _ _; answer. apply safe_quiet; [done|]. intros t s3 _.
  destruct (scan_all rs); answer. assert (Hr : ∀ x, later x x) by reflexivity.
  intros e4 s4 _ H4. split; [done|].
  intros [e5 b] s5 _ H5. split; [done|]. intros s6 _. exists StatusOK.
  split; [by destruct b|set_solver].
Qed.

(** A heartbeat panics on a message that is not a string or has no comma. *)
Definition bad_heartbeat (why : string) : Prop := why = err_conversion ∨ why = err_index.

Lemma safe_heartbeat c msg s w :
  safe (heartbeat c msg) bad_heartbeat (λ _ _ _, True) s w.
Proof.
  apply safe_quiet; [done|]. intros t s1 _. destruct msg as [|m|]; cbn; [done| |by left].
  assert (Hix : ∀ i why, index (split_on ","%char m) i = Panic why → bad_heartbeat why).
  { intros i why. unfold index. repeat case_match; intros [= <-]; by right. }
  destruct (index _ 0) as [u|why] eqn:H0; [|by eapply Hix]. cbn.
  apply safe_ws_access; [done|]. intros s2 _. apply safe_quiet; [done|]. intros _ s3 _.
  apply safe_sql. intros ? [] ? ? _ _ _; cbn; [|done].
  destruct (index _ 1) as [n|why] eqn:H1; [|by eapply Hix]. cbn.
  apply safe_sql. by intros.
Qed.
End handlers.

(** ** The server as a whole *)

Definition T (r : request) (why : string) : Prop :=
  match r with ReqHeartbeat _ _ => bad_heartbeat why | _ => False end.

Definition Q (r : request) (_ : shared) (w : response) : Prop :=
  match r with ReqHeartbeat _ _ | OnConnect _ | OnDisconnect _ => True | _ => answered w end.

Lemma slack_serve_safe r s :
  safe perform later (λ why, why = err_map) (λ _, True) (serve r) (T r) (λ _, Q r) s no_response.
Proof.
  destruct r as [nm|sn rn|sid cid req| |c msg|id|id];
    [exact (safe_createUser _ nm s)|exact (safe_createChannel _ sn rn s)
    |exact (safe_sendMessage _ sid cid req s)|exact (safe_status _ s)
    |exact (safe_heartbeat c msg s no_response)|..].
  - apply safe_quiet; [done|]. intros t s1 _. apply safe_time_access; [done|]. intros s2 _.
    apply safe_quiet; [done|]. by intros.
  - apply safe_time_access; [done|]. intros s1 _. apply safe_quiet; [done|]. intros t s2 _.
    apply safe_quiet; [done|]. by intros.
Qed.

(** C3. Persist first.  Whatever requests arrive, however the handlers and the
    goroutines they start interleave, and whatever calls to the database or
    writes to clients fail: the server dies of nothing but a data race on one of its
    maps, and until then every text ever sent to a socket is that of a message that is
    stored in the database by then; stored messages are never lost; every HTTP
    request whose handler has returned got one of the statuses 200, 400 and 500; and
    the only panics that have been recovered are those of heartbeats. *)
Theorem slack_persist_first (s0 : shared) (σ : config shared (thread request))
    (Hr : reachable (tstep perform request serve) (GoHttp.start request s0) σ) :
  match σ with
  | Dead why => why = err_map
  | Running s ls =>
      messages (view (db s0)) `prefix_of` messages (view (db s)) ∧
      (∃ l, emitted s = emitted s0 ++ l ∧ Forall (announces s) l) ∧
      (∀ k r w, ls !! k = Some (Handler request (Some r) w (Pure ())) →
         match r with ReqHeartbeat _ _ | OnConnect _ | OnDisconnect _ => True | _ => answered w end) ∧
      (∀ k r w why, ls !! k = Some (Recovered request r w why) →
         match r with ReqHeartbeat _ _ => bad_heartbeat why | _ => False end)
  end.
Proof.
  pose proof (server_safe perform request serve later (λ why, why = err_map) T Q s0 σ
    (λ r s _, slack_serve_safe r s) Hr) as Hw.
  destruct σ as [s ls|why]; [|exact Hw]. destruct Hw as ([Hm He]&HQ&HT).
  split; [done|]. split; [done|]. split; [|exact HT]. intros k r w. by apply HQ.
Qed.

(** ** Single handlers

    Each run alone, with the client's connection up, against any behaviour of
    the database. *)

Definition json_response (v : json) : response :=
  let h := [("content-type", "application/json")] in Response (Some StatusOK) h h [Json v].

Lemma alone_json o n v s :
  connected o → alone perform o n (reply_json v) s no_response = Result (Ret ()) s (json_response v) [].
Proof. intros Ho. cbn. rewrite Ho. done. Qed.

#[local] Arguments reply : simpl never.
#[local] Arguments reply_json : simpl never.

(** Turn the goal into a postcondition of the run. *)
Ltac focus_run :=
  cbv zeta;
  match goal with |- context [run_alone ?o ?p ?s] =>
    pattern (run_alone o p s);
    match goal with |- ?P _ => let post := fresh "post" in set (post := P) end;
    unfold run_alone
  end.

(** Replace the statement executed next by an arbitrary outcome of it. *)
Ltac next_call :=
  cbn;
  match goal with |- context [exec ?q ?e ?d] =>
    let H := fresh "Hq" in let x := fresh "x" in let d' := fresh "d" in let E := fresh "Ex" in
    pose proof (exec_step q e d) as H; destruct (exec q e d) as [x d'] eqn:E; cbn in H
  end.

(** Evaluate the statements that the postcondition mentions: as in the run, and
    arbitrarily if the run has not come to them. *)
Ltac known_calls :=
  repeat match goal with E : exec _ _ _ = _ |- _ => progress (rewrite E; cbn) end;
  repeat match goal with |- context [exec ?q ?e ?d] => destruct (exec q e d); cbn end.

(** A run that has come to its reply. *)
Ltac replied Ho post :=
  cbn; rewrite ?(alone_reply _ _ _ _ _ _ Ho), ?(alone_json _ _ _ _ Ho); unfold post; cbn; known_calls;
  repeat (split; [done|]).


(** The sockets of those of [ms] that have one. *)
Definition notified (sockets : gmap Z conn) (ms : list Membership) (text : string) : list (conn * string) :=
  omap (λ m, (λ c, (c, text)) <$> sockets !! UserID m) ms.

Lemma alone_announce {A} o n ms msg name (k : () → prog op_ans A) s w :
  idle (wsMap s) →
  ∃ n', alone perform o n (sendMessageOverWebSocket ms msg name ≫= k) s w
  = alone perform o n' (k tt)
      (Shared (db s) (wsMap s) (emitted s ++ notified (entries (wsMap s)) ms (name +:+ ":" +:+ msg)) (timeTaken s)) w.
Proof.
  unfold mbind, prog_mbind. revert n s. induction ms as [|m ms IH]; intros n s Hi.
  - exists n. simpl. rewrite app_nil_r. by destruct s.
  - unfold notified. cbn [sendMessageOverWebSocket]. cbn.
    destruct (read_alone _ Hi) as (mp&Hb&He&Hr). rewrite Hb. cbn. unfold map_get, set_wsMap. cbn. rewrite Hr, He.
    destruct (entries (wsMap s) !! UserID m) as [c|]; cbn.
    + destruct (IH (S (S (S n))) (Shared (db s) (wsMap s) (emitted s ++ [(c, name +:+ ":" +:+ msg)]) (timeTaken s)) Hi)
        as [n' Hn].
      exists n'. rewrite Hn. simpl. by rewrite <-app_assoc.
    + destruct s. apply IH, Hi.
Qed.

Definition bad_request : response :=
  let h := [("Content-Type", "text/plain; charset=utf-8"); ("X-Content-Type-Options", "nosniff")] in
  Response (Some StatusBadRequest) h h [Text ("Invalid request payload" +:+ String (ascii_of_nat 10) "")].

(** C6. [sendMessage] on every branch.  A body that is not the JSON asked for gets
    400 and changes nothing; if the insert fails, 500 and nothing changes; otherwise
    the message is stored, under the sender and channel whose numbers were given and
    with the time at which the handler started.  If a later statement or a row fails,
    500 and nobody is notified; and if not, the text, preceded by the sender's name,
    has been sent once to the socket of each member read that has one and is not the
    sender, and to nobody else.  The members read are members of the channel, no row
    twice, and all of them if the rows have arrived to the end. *)
Theorem slack_sendMessage (o : nat → env * bool) senderId channelId req (s : shared)
    (Ho : connected o) (Hidle : idle (wsMap s)) :
  let r := run_alone o (sendMessage senderId channelId req) s in
  let tb := view (db s) in let tb' := view (db (r_state r)) in
  let time := clock (o 0%nat).1 in
  r_value r = Ret () ∧ r_spawned r = [] ∧ wsMap (r_state r) = wsMap s ∧
  match req with
  | None => tb' = tb ∧ emitted (r_state r) = emitted s ∧ r_resp r = bad_request
  | Some msg =>
      let '(x, d1) := exec (InsMessageS senderId channelId msg time) (db_env (o 1%nat).1) (db s) in
      let '(rs, d2) := exec (SelMembers channelId) (db_env (o 2%nat).1) d1 in
      let '(y, _) := exec (SelUserName senderId) (db_env (o 3%nat).1) d2 in
      if x then
        ∃ sender channel i, to_int senderId = Some sender ∧ to_int channelId = Some channel ∧
          message_row stamp tb sender channel msg time i tb' ∧
          match rs ≫= scan_all, y with
          | Some ms, Row name =>
              (∃ u, u ∈ users tb ∧ Id u = sender ∧ UserName u = name) ∧
              ms ⊆+ filter (λ m, m_ChannelID m = channel) (members tb) ∧
              (whole (db_env (o 2%nat).1) → ms ≡ₚ filter (λ m, m_ChannelID m = channel) (members tb)) ∧
              emitted (r_state r) = emitted s ++
                notified (entries (wsMap s)) (filter (λ m, UserID m ≠ Atoi senderId) ms) (name +:+ ":" +:+ msg) ∧
              r_resp r = json_response (JObj [("msg", JStr msg)])
          | Some _, NoRows => False
          | _, _ => emitted (r_state r) = emitted s ∧
              ∃ text, r_resp r = text_response StatusInternalServerError text
          end
      else tb' = tb ∧ emitted (r_state r) = emitted s ∧
           r_resp r = text_response StatusInternalServerError "fetch try again"
  end.
Proof.
  focus_run. unfold sendMessage. destruct req as [msg|].
  2: { cbn. rewrite (Ho _). unfold post. cbn. known_calls. by repeat (split; [done|]). }
  next_call. destruct x.
  2: { replied Ho post. done. }
  destruct Hq as (sender&channel&i&Hs&Hc&Hrow). next_call. destruct Hq as [Htb Hms].
  destruct x as [rs|].
  2: { replied Ho post. rewrite Htb. eauto 10. }
  destruct (scan_all rs) as [ms|] eqn:Hscan.
  2: { replied Ho post. rewrite Htb, Hscan. eauto 10. }
  apply (delivers_scan _ _ _ _ Hms) in Hscan as Hin. next_call. destruct Hq as [Htb1 Hu].
  rewrite Htb in Htb1, Hu. pose proof Hrow as (Hid&_&_&Hv). rewrite Hv in Hin, Hu. cbn in Hin, Hu.
  assert (Hf : ∀ m, to_int channelId = Some (m_ChannelID m) ↔ m_ChannelID m = channel) by naive_solver.
  rewrite (list_filter_iff _ (λ m, m_ChannelID m = channel) _ Hf) in Hin.
  destruct x as [| | |name].
  - replied Ho post. rewrite Htb1, Hscan. eauto 10.
  - replied Ho post. rewrite Htb1, Hscan. eauto 10.
  - exfalso. apply list_elem_of_fmap in Hid as (u&->&Hin'). by apply (Hu u).
  - destruct Hu as (u&Hin'&Hto&<-). cbn.
    match goal with |- context [alone perform o ?n (sendMessageOverWebSocket ?ms ?msg ?nm ≫= ?k) ?s ?w] =>
      destruct (alone_announce o n ms msg nm k s w Hidle) as [n' ->] end. replied Ho post.
    rewrite Htb1, Hscan. exists sender, channel, i. do 3 (split; [done|]).
    split; [exists u; split; [done|split; [congruence|done]]|]. split; [apply Hin|]. split; [apply Hin|]. done.
Qed.

(** *** [createChannel] *)

(** What a name stands for in [createChannel]: the id of a user of that name, or
    0 if there is none. *)
Definition resolves (tb : tables) (nm : string) (i : Z) : Prop :=
  (∃ u, u ∈ users tb ∧ Id u = i ∧ same_name (UserName u) nm = true) ∨
  (i = 0 ∧ ∀ u, u ∈ users tb → same_name (UserName u) nm = false).

Definition greeting (receiverName : string) : string := "channel created b/w you and " +:+ receiverName.

(** The tables after the first [k] inserts that make the channel [c] between [i] and
    [j] at the time [t], with the first message's id [mid]. *)
Definition making (tb : tables) (sn rn : string) (i j t c mid : Z) (k : nat) (tb' : tables) : Prop :=
  let tb1 := add_channel (MkChannel c "DM" (sn +:+ "_" +:+ rn)) tb in
  match k with
  | O => tb' = tb
  | S k =>
      fresh c (ChannelID <$> channels tb) ∧
      match k with
      | O => tb' = tb1
      | S k =>
          ∃ tb2, message_row stamp tb1 i c (greeting rn) t mid tb2 ∧
          match k with
          | O => tb' = tb2
          | S k =>
              ∃ m1, let tb3 := add_member (MkMembership m1 c i) tb2 in
              match k with
              | O => tb' = tb3
              | S _ => user_id tb j ∧ ∃ m2, tb' = add_member (MkMembership m2 c j) tb3
              end
          end
      end
  end.

Definition notify (sn rn : string) (j c : Z) : handler :=
  sendMessageOverWebSocket [MkMembership 0 c j] (greeting rn) sn.

(** How many of the four inserts have been made, from what they answer. *)
Definition inserts (c : option (option Z)) (mid : option Z) (b1 b2 : bool) : nat :=
  match c, mid, b1, b2 with
  | None, _, _, _ => 0
  | Some None, _, _, _ | _, None, _, _ => 1
  | _, _, false, _ => 2
  | _, _, _, false => 3
  | _, _, _, true => 4
  end.

(** What [new_channel] does, when the [n]-th call is its first. *)
Definition channel_made (o : nat → env * bool) (n : nat) sn rn (i j : Z) (s : shared)
    (r : result (ans := op_ans) (S := shared) ()) : Prop :=
  let t := clock (o (1 + n)%nat).1 in
  let '(x, d1) := exec (InsChannel "DM" (sn +:+ "_" +:+ rn)) (db_env (o n).1) (db s) in
  let c := default 0 (mjoin x) in
  let '(mid, d2) := exec (InsMessage i c (greeting rn) t) (db_env (o (2 + n)%nat).1) d1 in
  let '(b1, d3) := exec (InsMember c i) (db_env (o (3 + n)%nat).1) d2 in
  let '(b2, d4) := exec (InsMember c j) (db_env (o (4 + n)%nat).1) d3 in
  let k := inserts x mid b1 b2 in
  ∃ c' mid', (mjoin x = None ∨ c' = c) ∧
    making (view (db s)) sn rn i j t c' mid' k (view (db (r_state r))) ∧
    r_spawned r = (if decide (2 ≤ k)%nat then [notify sn rn j c] else []) ∧
    r_resp r =
      (if decide (k = 4)%nat
       then json_response (JArr [json_Message (MkMessage mid' 0 c (greeting rn) zero_time)])
       else text_response StatusInternalServerError "fetch try again").

Lemma alone_new_channel o n sn rn i j s :
  connected o →
  let r := alone perform o n (new_channel sn rn i j) s no_response in
  r_value r = Ret () ∧ emitted (r_state r) = emitted s ∧ wsMap (r_state r) = wsMap s ∧
  channel_made o n sn rn i j s r.
Proof.
  intros Ho. cbv zeta. pattern (alone perform o n (new_channel sn rn i j) s no_response).
  match goal with |- ?P _ => set (post := P) end.
  unfold channel_made, making, greeting in post. unfold new_channel.
  next_call. destruct x as [[c|]|].
  - destruct Hq as [Hc Htb]. next_call. destruct x as [mid|].
    + rename Hq into Hrow. rewrite Htb in Hrow. next_call. destruct x.
      * destruct Hq as (_&_&m1&_&Htb1). next_call. destruct x.
        -- destruct Hq as (_&Hj&m2&_&Htb2). replied Ho post.
           exists c, mid. split; [by right|]. split; [|done]. split; [done|]. exists (view d0).
           split; [done|]. exists m1. rewrite <-Htb1. split; [|by exists m2].
           destruct Hrow as (_&_&_&Hrow). unfold user_id in *. by rewrite Htb1, Hrow in Hj.
        -- replied Ho post.
           exists c, mid. split; [by right|]. split; [|done]. split; [done|]. exists (view d0).
           split; [done|]. exists m1. congruence.
      * replied Ho post.
        exists c, mid. split; [by right|]. split; [|done]. split; [done|]. exists (view d0). by split.
    + replied Ho post.
      exists c, 0. split; [by right|]. split; [|done]. split; [done|congruence].
  - destruct Hq as (c&Hc&Htb). replied Ho post.
    exists c, 0. split; [by left|]. done.
  - replied Ho post. exists 0, 0. split; [by left|]. done.
Qed.

(** What [show_channel] does, when the [n]-th call is its first. *)
Definition channel_shown (o : nat → env * bool) (n : nat) (ch : Channel) (s : shared)
    (r : result (ans := op_ans) (S := shared) ()) : Prop :=
  let '(rs, _) := exec (SelLast (ChannelID ch)) (db_env (o n).1) (db s) in
  view (db (r_state r)) = view (db s) ∧ r_spawned r = [] ∧
  match rs ≫= scan_all with
  | None => r_resp r = text_response StatusInternalServerError "try again"
  | Some ms =>
      (∃ l, l ≡ₚ filter (λ m, c_ChannelID m = ChannelID ch) (messages (view (db s))) ∧ Sorted latest l ∧
         ms `prefix_of` take 10 l ∧ (whole (db_env (o n).1) → ms = take 10 l)) ∧
      r_resp r = json_response (JArr (json_Message <$> ms))
  end.

Lemma alone_show_channel o n ch s :
  connected o →
  let r := alone perform o n (show_channel ch) s no_response in
  r_value r = Ret () ∧ emitted (r_state r) = emitted s ∧ wsMap (r_state r) = wsMap s ∧
  channel_shown o n ch s r.
Proof.
  intros Ho. cbv zeta. pattern (alone perform o n (show_channel ch) s no_response).
  match goal with |- ?P _ => set (post := P) end. unfold show_channel, channel_shown in *.
  next_call. destruct Hq as [Htb Hms]. destruct x as [rs|]; [|by replied Ho post].
  destruct Hms as (l&Hl&Hsort&Hd). destruct (scan_all rs) as [ms|] eqn:Hs; replied Ho post; rewrite Hs; [|done].
  split; [|done]. exists l. split; [done|]. split; [done|]. by eapply delivers_scan_in_order.
Qed.

Lemma last_channel_elem cs : cs ≠ [] → last_channel cs ∈ cs.
Proof.
  unfold last_channel. destruct (last cs) as [c|] eqn:Hl; [|by apply last_None in Hl].
  intros _. simpl. apply last_Some in Hl as [l ->]. set_solver.
Qed.

(** What [open_channel] does, when the [n]-th call is its first. *)
Definition channel_opened (o : nat → env * bool) (n : nat) sn rn (i j : Z) (s : shared)
    (r : result (ans := op_ans) (S := shared) ()) : Prop :=
  let tb := view (db s) in
  let '(rs, d1) := exec (SelChannels i j) (db_env (o n).1) (db s) in
  let s1 := Shared d1 (wsMap s) (emitted s) (timeTaken s) in
  match rs ≫= scan_all with
  | None => view (db (r_state r)) = tb ∧ r_spawned r = [] ∧
      r_resp r = text_response StatusInternalServerError "try again"
  | Some [] => (whole (db_env (o n).1) → ∀ c, ¬ between tb i j c) ∧
      view d1 = tb ∧ channel_made o (S n) sn rn i j s1 r
  | Some cs => between tb i j (last_channel cs) ∧
      view d1 = tb ∧ channel_shown o (S n) (last_channel cs) s1 r
  end.

#[local] Arguments new_channel : simpl never.
#[local] Arguments show_channel : simpl never.

Lemma alone_open_channel o n sn rn i j s :
  connected o → Forall (λ c, 0 < ChannelID c) (channels (view (db s))) →
  let r := alone perform o n (open_channel sn rn i j) s no_response in
  r_value r = Ret () ∧ emitted (r_state r) = emitted s ∧ wsMap (r_state r) = wsMap s ∧
  channel_opened o n sn rn i j s r.
Proof.
  intros Ho Hpos. cbv zeta. match goal with |- r_value ?r = _ ∧ _ => pattern r end.
  match goal with |- ?P _ => set (post := P) end. unfold channel_opened in post.
  next_call. destruct Hq as [Htb Hrs]. destruct x as [rs|]; cbn; [|by replied Ho post].
  destruct (scan_all rs) as [cs|] eqn:Hs; cbn; [|by replied Ho post; rewrite Hs].
  pose proof (delivers_scan _ _ _ _ Hrs Hs) as [Hsub Hall].
  set (s1 := Shared d (wsMap s) (emitted s) (timeTaken s)).
  destruct cs as [|c0 cs'].
  - rewrite decide_True by done.
    pose proof (alone_new_channel o (S n) sn rn i j s1 Ho) as (Hv&He&Hw&Hm).
    unfold post. cbn [mbind option_bind]. rewrite Hs. do 3 (split; [assumption|]). split; [|by split].
    intros Hwh c Hc%elem_of_join. specialize (Hall Hwh). apply Permutation_nil_l in Hall.
    rewrite <-Hall in Hc. by apply elem_of_nil in Hc.
  - assert (Hch : between (view (db s)) i j (last_channel (c0 :: cs'))).
    { apply elem_of_join. eapply elem_of_submseteq; [by apply last_channel_elem|done]. }
    rewrite decide_False.
    2: { destruct Hch as [Hin _]. rewrite Forall_forall in Hpos. specialize (Hpos _ Hin). lia. }
    pose proof (alone_show_channel o (S n) (last_channel (c0 :: cs')) s1 Ho) as (Hv&He&Hw&Hm).
    unfold post. cbn [mbind option_bind]. rewrite Hs. by do 4 (split; [assumption|]).
Qed.

#[local] Arguments open_channel : simpl never.

Lemma resolves_row (tb : tables) nm (x : row Z) :
  match x with
  | Row i => ∃ u, u ∈ users tb ∧ Id u = i ∧ same_name (UserName u) nm = true
  | NoRows => ∀ u, u ∈ users tb → same_name (UserName u) nm = false
  | _ => True
  end →
  match x with RowErr | ScanErr => True | _ => resolves tb nm (id_or_zero x) end.
Proof. destruct x; [done|done|by right|by left]. Qed.

(** What [createChannel] does. *)
Definition channel_asked (o : nat → env * bool) sn rn (s : shared)
    (r : result (ans := op_ans) (S := shared) ()) : Prop :=
  let tb := view (db s) in
  let failed text := view (db (r_state r)) = tb ∧ r_spawned r = [] ∧
    r_resp r = text_response StatusInternalServerError text in
  let '(x, d1) := exec (SelUserId sn) (db_env (o 0%nat).1) (db s) in
  let '(y, d2) := exec (SelUserId rn) (db_env (o 1%nat).1) d1 in
  match x, y with
  | RowErr, _ => failed "fetch try again"
  | ScanErr, _ => failed "scan try again"
  | _, RowErr => failed "fetch try again"
  | _, ScanErr => failed "scan try again"
  | _, _ =>
      resolves tb sn (id_or_zero x) ∧ resolves tb rn (id_or_zero y) ∧ view d2 = tb ∧
      channel_opened o 2 sn rn (id_or_zero x) (id_or_zero y) (Shared d2 (wsMap s) (emitted s) (timeTaken s)) r
  end.

Lemma createChannel_run (o : nat → env * bool) sn rn (s : shared) (Ho : connected o)
    (Hpos : Forall (λ c, 0 < ChannelID c) (channels (view (db s)))) :
  let r := run_alone o (createChannel sn rn) s in
  r_value r = Ret () ∧ emitted (r_state r) = emitted s ∧ wsMap (r_state r) = wsMap s ∧
  channel_asked o sn rn s r.
Proof.
  focus_run. unfold channel_asked in post. unfold createChannel. next_call. destruct Hq as [Htb Hx%resolves_row].
  assert (Hmain : ∀ i, resolves (view (db s)) sn i → x = Row i ∨ x = NoRows ∧ i = 0 →
    post (alone perform o 1 (find_receiver sn rn i) (Shared d (wsMap s) (emitted s) (timeTaken s)) no_response)).
  { intros i Hi Hxi. unfold find_receiver. next_call. destruct Hq as [Htb1 Hy%resolves_row]. rewrite Htb in Htb1, Hy.
    destruct x0 as [| | |j]; try (by replied Ho post; destruct Hxi as [->|[-> ->]]).
    - pose proof (alone_open_channel o 2 sn rn i 0 (Shared d0 (wsMap s) (emitted s) (timeTaken s)) Ho) as Hch.
      cbn in Hch. rewrite Htb1 in Hch. destruct (Hch Hpos) as (H1&H2&H3&H4). clear Hch.
      unfold post. by destruct Hxi as [->|[-> ->]]; do 6 (split; [assumption|]).
    - pose proof (alone_open_channel o 2 sn rn i j (Shared d0 (wsMap s) (emitted s) (timeTaken s)) Ho) as Hch.
      cbn in Hch. rewrite Htb1 in Hch. destruct (Hch Hpos) as (H1&H2&H3&H4). clear Hch.
      unfold post. by destruct Hxi as [->|[-> ->]]; do 6 (split; [assumption|]). }
  destruct x as [| | |i]; [by replied Ho post..|by apply (Hmain 0); auto|by apply (Hmain i); auto].
Qed.

(** C7. [createChannel] on every branch ([channel_asked]).  It looks up both names;
    unless that fails (500, nothing changed), then with [i] and [j] the ids found (0
    for a name that nobody has), it reads the channels that the two share
    ([channel_opened]).  If that fails, 500 and nothing changed.  If it has read any,
    [channel_shown]: it answers with the latest messages of the last of them, ten at
    most, and has changed nothing.  If it has read none (the two share none, unless the
    rows did not arrive to the end), [channel_made]: it has executed the first [k] of
    the four inserts that make one, in order: the channel, its first message, the two
    memberships, where [k] is how many succeeded.  All four, and the answer is that
    message; less, and the answer is 500 and what has been inserted stays.  The
    receiver's socket is told, in a goroutine, as soon as the message is stored. *)
Theorem slack_createChannel (o : nat → env * bool) sn rn (s : shared) (Ho : connected o)
    (Hpos : Forall (λ c, 0 < ChannelID c) (channels (view (db s)))) :
  let r := run_alone o (createChannel sn rn) s in
  r_value r = Ret () ∧ emitted (r_state r) = emitted s ∧ wsMap (r_state r) = wsMap s ∧
  channel_asked o sn rn s r.
Proof. by apply createChannel_run. Qed.

(** A name that resolves to a user's id is somebody's. *)
Lemma resolves_known (tb : tables) nm i :
  Forall (λ u, 0 < Id u) (users tb) → resolves tb nm i → user_id tb i →
  ∃ u, u ∈ users tb ∧ same_name (UserName u) nm = true.
Proof.
  intros Hpos [(u&?&_&?)|[-> _]]; [by exists u|]. unfold user_id.
  intros (u&Hz&Hu)%list_elem_of_fmap. rewrite Forall_forall in Hpos. specialize (Hpos u Hu). lia.
Qed.

(** The foreign keys leave nothing to show or make for an id that is nobody's. *)
Lemma opened_known o n sn rn i j (s : shared) r :
  foreign_keys (view (db s)) → status (r_resp r) = Some StatusOK → channel_opened o n sn rn i j s r →
  user_id (view (db s)) i ∧ user_id (view (db s)) j.
Proof.
  intros [Hfk _] Hok. unfold channel_opened. destruct (exec (SelChannels i j) _ _) as [rs d]. cbn.
  destruct (rs ≫= scan_all) as [[|c cs]|].
  - intros (_&Hd&Hm). unfold channel_made in Hm.
    repeat match goal with H : context [exec ?q ?e ?d] |- _ => destruct (exec q e d) end.
    destruct Hm as (c'&mid'&_&Hk&_&Hr). cbn in Hk. rewrite Hd in Hk.
    destruct (decide (_ = 4%nat)) as [H4|_]; [|by rewrite Hr in Hok].
    rewrite H4 in Hk. destruct Hk as (_&tb2&(Hui&_)&m1&Huj&_). by split.
  - intros ((_&[m1 Hm1]&[m2 Hm2])&_). split; [apply (Hfk _ Hm1)|apply (Hfk _ Hm2)].
  - intros (_&_&Hr). by rewrite Hr in Hok.
Qed.

(** A channel is only ever shown or made between two existing users: when
    [createChannel] answers 200, both names belong to somebody.  For an unknown
    name it goes on with the id 0, and it is the foreign keys of the schema that
    then make one of its inserts fail. *)
Theorem slack_channel_known (o : nat → env * bool) sn rn (s : shared) (Ho : connected o)
    (Hch : Forall (λ c, 0 < ChannelID c) (channels (view (db s))))
    (Hus : Forall (λ u, 0 < Id u) (users (view (db s))))
    (Hfk : foreign_keys (view (db s)))
    (Hok : status (r_resp (run_alone o (createChannel sn rn) s)) = Some StatusOK) :
  (∃ u, u ∈ users (view (db s)) ∧ same_name (UserName u) sn = true) ∧
  (∃ u, u ∈ users (view (db s)) ∧ same_name (UserName u) rn = true).
Proof.
  destruct (createChannel_run o sn rn s Ho Hch) as (_&_&_&H). revert H.
  generalize dependent (run_alone o (createChannel sn rn) s). intros r Hok. unfold channel_asked.
  destruct (exec (SelUserId sn) _ _) as [x d1]. destruct (exec (SelUserId rn) _ _) as [y d2].
  destruct x, y; try (intros (_&_&Hr); by rewrite Hr in Hok);
    intros (Hi&Hj&Hd&[Hui Huj]%opened_known); cbn in *; try done; rewrite Hd in *; eauto using resolves_known.
Qed.

(** ** [fetchOnlineOfflineStatus] and the heartbeat *)

(** The last of the rows with a name decides. *)
Lemma statuses_lookup t us n :
  statuses t us !! n = online t <$> last (filter (λ u, UserName u = n) us).
Proof.
  unfold statuses. induction us as [|u us IH] using rev_ind; [done|].
  rewrite foldl_snoc, filter_app, filter_cons, filter_nil. case_decide as Hn.
  - subst n. rewrite lookup_insert_eq, last_snoc. done.
  - rewrite app_nil_r, lookup_insert_ne by done. apply IH.
Qed.

#[export] Instance key_le_total : Total key_le.
Proof. intros a b. unfold key_le. by destruct (String.leb_total a.1 b.1); [left|right]. Qed.

(** C32. [fetchOnlineOfflineStatus] changes nothing.  It answers 500 exactly if the
    select or a row fails, and otherwise 200 with an object that has one field per name
    of a user read, in increasing order of the names: true exactly if the last row with
    that name was touched at most ten seconds before the time the handler read.  No user
    is read twice, and all are if the rows have arrived to the end. *)
Theorem slack_status (o : nat → env * bool) (s : shared) (Ho : connected o) :
  let r := run_alone o fetchOnlineOfflineStatus s in
  r_value r = Ret () ∧ view (db (r_state r)) = view (db s) ∧ emitted (r_state r) = emitted s ∧
  match (exec SelUsers (db_env (o 0%nat).1) (db s)).1 ≫= scan_all with
  | None => r_resp r = text_response StatusInternalServerError "error from db"
  | Some us => us ⊆+ users (view (db s)) ∧
      (whole (db_env (o 0%nat).1) → us ≡ₚ users (view (db s))) ∧
      ∃ fields, r_resp r = Response (Some StatusOK) [] []
          [Json (JObj ((λ nb : string * bool, (nb.1, JBool nb.2)) <$> fields))] ∧
        Sorted key_le fields ∧ NoDup (fields.*1) ∧
        ∀ n b, (n, b) ∈ fields ↔
          ∃ u, last (filter (λ u, UserName u = n) us) = Some u ∧
            (b = true ↔ clock (o 1%nat).1 - LastTimestamp u ≤ 10 * Second)
  end.
Proof.
  focus_run. unfold fetchOnlineOfflineStatus. next_call. destruct Hq as [Htb Hus].
  destruct x as [rs|]; cbn; [|rewrite ?(alone_reply _ _ _ _ _ _ Ho); unfold post; by rewrite ?Ex].
  destruct (scan_all rs) as [us|] eqn:Hs; cbn.
  2: { rewrite ?(alone_reply _ _ _ _ _ _ Ho). unfold post. cbn. by rewrite ?Ex, Hs. }
  rewrite (Ho _). unfold post. cbn. rewrite ?Ex, Hs. do 3 (split; [done|]).
  pose proof (delivers_scan _ _ _ _ Hus Hs) as [Hsub Hall]. split; [done|]. split; [done|].
  set (m := statuses (clock (o 1%nat).1) us).
  exists (merge_sort key_le (map_to_list m)). split; [done|split; [|split]].
  - apply Sorted_merge_sort, _.
  - rewrite merge_sort_Permutation. apply NoDup_fst_map_to_list.
  - intros n b. rewrite merge_sort_Permutation, elem_of_map_to_list. subst m.
    rewrite statuses_lookup, fmap_Some. split; intros (u&Hu&Hb); exists u; (split; [done|]).
    + subst b. unfold online. rewrite bool_decide_eq_true.
      apply time_sub_le. unfold min_int, max_int, Second. lia.
    + rewrite <-(time_sub_le _ _ (10 * Second)) in Hb by (unfold min_int, max_int, Second; lia).
      unfold online. destruct b; symmetry; [by apply bool_decide_eq_true, Hb|].
      apply bool_decide_eq_false. intros Hle. by apply Hb in Hle.
Qed.

(** C33. A heartbeat on every branch.  Nothing but a string has an effect; a message of
    another type panics.  For a string, the sender's socket is the one on which it came
    from then on, under the number before the first comma (0 if that is not a number),
    whatever happens next.  If the statement cannot be prepared, that is all.  If it can
    and there is no comma, the handler panics; with a comma, the insert is run, with the
    time at which the handler started: it fails and nothing changes, or the user's row
    has that time, or a row with that time and the name between the first two commas is
    inserted. *)
Theorem slack_heartbeat (o : nat → env * bool) c msg (s : shared) (Hidle : idle (wsMap s)) :
  let r := run_alone o (heartbeat c msg) s in
  let tb := view (db s) in let tb' := view (db (r_state r)) in
  let time := clock (o 0%nat).1 in
  emitted (r_state r) = emitted s ∧ r_resp r = no_response ∧ r_spawned r = [] ∧
  match msg with
  | Nil => r_value r = Ret () ∧ tb' = tb ∧ wsMap (r_state r) = wsMap s
  | Other => r_value r = Panic err_conversion ∧ tb' = tb ∧ wsMap (r_state r) = wsMap s
  | AString text =>
      ∃ user rest, split_on ","%char text = user :: rest ∧
        wsMap (r_state r) = GoMap (<[Atoi user := c]> (entries (wsMap s))) 0 false ∧
        let '(prepared, d1) := exec PrepHeartbeat (db_env (o 3%nat).1) (db s) in
        match prepared, rest with
        | false, _ => r_value r = Ret () ∧ tb' = tb
        | true, [] => r_value r = Panic err_index ∧ tb' = tb
        | true, name :: _ =>
            let '(ok, d2) := exec (InsHeartbeat user name time) (db_env (o 4%nat).1) d1 in
            r_value r = Ret () ∧ db (r_state r) = d2 ∧
            if ok then
              ∃ i, to_int user = Some i ∧
                (user_id tb i ∧ tb' = set_users (touch i (store time) (users tb)) tb ∨
                 ∃ j, fresh j (Id <$> users tb) ∧ (i = j ∨ i = 0) ∧
                   tb' = set_users (users tb ++ [MkUser j name (store time)]) tb)
            else tb' = tb
        end
  end.
Proof.
  focus_run. unfold heartbeat. destruct msg as [|text|].
  1,3: by unfold post; cbn; repeat split.
  pose proof (split_on_length ","%char text) as Hlen. cbn.
  destruct (split_on ","%char text) as [|user rest] eqn:Hsplit; [simpl in Hlen; lia|].
  rewrite (index_ok _ 0 user) by done. cbn.
  destruct (write_alone (Atoi user) c _ Hidle) as (m&Hb&_&Hset). rewrite Hb. cbn. unfold set_wsMap. cbn.
  rewrite Hset. next_call. destruct x.
  - destruct rest as [|name rest'].
    + change (index [user] 1) with (@Panic string err_index). replied Ho post. exists user, [].
      by repeat (split; [done|]).
    + rewrite (index_ok _ 1 name) by done. next_call. rewrite Hq in Hq0. unfold post.
      destruct x; cbn; known_calls; do 3 (split; [done|]); exists user, (name :: rest'); cbn; known_calls;
        by repeat (split; [done|]).
  - unfold post. cbn. known_calls. do 3 (split; [done|]). exists user, rest. by repeat (split; [done|]).
Qed.

End semantics.

(** ** Runs on the database in memory *)

Module Runs.

Definition tb0 : tables := Tables
  [MkUser 1 "ann" 0; MkUser 2 "bob" 0; MkUser 3 "cy" 0] [MkChannel 7 "DM" "ann_bob"]
  [MkMembership 1 7 1; MkMembership 2 7 2] [MkMessage 1 1 7 "hello" 0].

Definition s0 : @shared tables := Shared tb0 (GoMap {[2 := 4%nat]} 0 false) [] make_map.

(** A good minute: the clock, a database and clients that do not fail. *)
Definition good : @env Mem.luck * bool := (Env (15 * Second) Mem.Works, true).
Definition fine : nat → @env Mem.luck * bool := λ _, good.

Lemma fine_connected : connected fine.
Proof. intros n. reflexivity. Qed.

(** [n] actions of goroutine [i]. *)
Definition acts (i n : nat) : list (nat * @choice (@env Mem.luck) request) :=
  replicate n (i, Act request good).

Definition arrives (r : request) : list (nat * @choice (@env Mem.luck) request) := [(0%nat, Request request r)].

Definition server := tstep (perform (sdb := Mem.mem_db)) request serve.

(** Cy's heartbeat, then ann's message to a channel she shares with bob. *)
Definition day : list (nat * @choice (@env Mem.luck) request) :=
  arrives (ReqHeartbeat 9 (AString "3,cy")) ++ acts 1 5
  ++ arrives (ReqMessage "1" "7" (Some "hi")) ++ acts 2 10.

Definition after_day : config (@shared tables) (thread request) :=
  default (Dead "") (run server day (GoHttp.start request s0)).

(** Bob's heartbeat, whose write to [wsMap] is under way when ann's message is about to
    look his socket up. *)
Definition collision : list (nat * @choice (@env Mem.luck) request) :=
  arrives (ReqHeartbeat 9 (AString "2,bob")) ++ arrives (ReqMessage "1" "7" (Some "hi"))
  ++ acts 2 4 ++ acts 1 2 ++ acts 2 2.

(** The connection to the database breaks as the rows of the third call are due. *)
Definition broken : nat → @env Mem.luck * bool :=
  λ n, if decide (n = 2%nat) then (Env (15 * Second) Mem.Cut, true) else good.

(** Two clients create the user "dee" at the same time: both look before either
    inserts. *)
Definition twins : list (nat * @choice (@env Mem.luck) request) :=
  arrives (ReqCreateUser "dee") ++ arrives (ReqCreateUser "dee") ++ acts 1 1 ++ acts 2 1
  ++ acts 1 5 ++ acts 2 5.

End Runs.

Lemma slack_persist_first_witness :
  match Runs.after_day with
  | Dead _ => False
  | Running s ls =>
      emitted s = [(4%nat, "ann:hi")] ∧ length ls = 3%nat ∧
      messages Runs.tb0 `prefix_of` messages (db s) ∧
      ∃ l, emitted s = [] ++ l ∧ Forall (announces s) l
  end.
Proof.
  assert (Hr : reachable Runs.server (GoHttp.start request Runs.s0) Runs.after_day)
    by (apply (run_reachable _ Runs.day); vm_compute; reflexivity).
  pose proof (slack_persist_first (sdb := Mem.mem_db) Runs.s0 Runs.after_day Hr) as H.
  assert (Hw : match Runs.after_day with
               | Running s ls => emitted s = [(4%nat, "ann:hi")] ∧ length ls = 3%nat
               | Dead _ => False
               end) by (vm_compute; split; reflexivity).
  destruct Runs.after_day as [s ls|why]; [|exact Hw].
  destruct Hw as [H1 H2]. destruct H as (H3&H4&_).
  split; [exact H1|]. split; [exact H2|]. split; [exact H3|exact H4].
Defined.

(** The race on [wsMap] is there. *)
Theorem slack_race : run Runs.server Runs.collision (GoHttp.start request Runs.s0) = Some (Dead err_map).
Proof. vm_compute. reflexivity. Qed.

(** A broken connection gives two users who share a channel a second one. *)
Theorem slack_second_channel :
  let r := run_alone Runs.broken (createChannel "ann" "bob") Runs.s0 in
  between Runs.tb0 1 2 (MkChannel 7 "DM" "ann_bob") ∧ status (r_resp r) = Some StatusOK ∧
  join (db (r_state r)) 1 2 = [MkChannel 7 "DM" "ann_bob"; MkChannel 8 "DM" "ann_bob"].
Proof.
  split; [|split; vm_compute; reflexivity]. apply elem_of_join. vm_compute. left.
Qed.

Definition dee := run_alone Runs.fine (createUser "dee") Runs.s0.


Lemma runs_idle : idle (wsMap Runs.s0).
Proof. split; reflexivity. Qed.

Lemma slack_sendMessage_witness :
  let r := run_alone Runs.fine (sendMessage "1" "7" (Some "hi")) Runs.s0 in
  r_value r = Ret () ∧ emitted (r_state r) = [(4%nat, "ann:hi")] ∧
  r_resp r = json_response (JObj [("msg", JStr "hi")]).
Proof.
  destruct (slack_sendMessage (sdb := Mem.mem_db) Runs.fine "1" "7" (Some "hi") Runs.s0 Runs.fine_connected runs_idle)
    as (H1&_&_&_&_&_&_&_&_&_&_&_&H2&H3).
  split; [exact H1|]. split; [exact H2|exact H3].
Defined.

Lemma slack_createChannel_witness :
  let r := run_alone Runs.fine (createChannel "ann" "cy") Runs.s0 in
  members (db (r_state r)) = members Runs.tb0 ++ [MkMembership 3 8 1; MkMembership 4 8 3] ∧
  r_value r = Ret () ∧ channel_asked Runs.fine "ann" "cy" Runs.s0 r.
Proof.
  split; [vm_compute; reflexivity|].
  destruct (slack_createChannel Runs.fine "ann" "cy" Runs.s0 Runs.fine_connected) as (H1&_&_&H2);
    [repeat constructor|]. split; [exact H1|exact H2].
Defined.

Lemma slack_heartbeat_witness :
  let r := run_alone Runs.fine (heartbeat 9 (AString "2,bob")) Runs.s0 in
  wsMap (r_state r) = GoMap {[2 := 9%nat]} 0 false ∧
  users (db (r_state r)) = [MkUser 1 "ann" 0; MkUser 2 "bob" (15 * Second); MkUser 3 "cy" 0] ∧
  r_resp r = no_response.
Proof.
  split; [vm_compute; reflexivity|]. split; [vm_compute; reflexivity|].
  exact (proj1 (proj2 (slack_heartbeat Runs.fine 9 (AString "2,bob") Runs.s0 runs_idle))).
Defined.

Lemma slack_channel_known_witness :
  (∃ u, u ∈ users Runs.tb0 ∧ Mem.same (UserName u) "ann" = true) ∧
  (∃ u, u ∈ users Runs.tb0 ∧ Mem.same (UserName u) "bob" = true).
Proof.
  refine (slack_channel_known (sdb := Mem.mem_db) Runs.fine "ann" "bob" Runs.s0 Runs.fine_connected _ _ _ _);
    [repeat constructor|repeat constructor| |vm_compute; reflexivity].
  split; apply Forall_forall; repeat constructor.
Defined.

Lemma slack_status_witness :
  r_resp (run_alone Runs.fine fetchOnlineOfflineStatus
            (r_state (run_alone Runs.fine (heartbeat 4 (AString "2,bob")) Runs.s0)))
  = Response (Some StatusOK) [] []
      [Json (JObj [("ann", JBool false); ("bob", JBool true); ("cy", JBool false)])] ∧
  r_value (run_alone Runs.fine fetchOnlineOfflineStatus
            (r_state (run_alone Runs.fine (heartbeat 4 (AString "2,bob")) Runs.s0))) = Ret ().
Proof.
  split; [vm_compute; reflexivity|].
  exact (proj1 (slack_status Runs.fine _ Runs.fine_connected)).
Defined.

(** [createUser] is check-then-act: two requests for the same new name can both
    insert it, and both clients get an id. *)
Theorem slack_duplicate_user :
  ∃ s ls, run Runs.server Runs.twins (GoHttp.start request Runs.s0) = Some (Running s ls) ∧
    users (db s) = users Runs.tb0 ++ [MkUser 4 "dee" (15 * Second); MkUser 5 "dee" (15 * Second)] ∧
    Forall (λ l, match l with Handler _ _ w _ => status w = Some StatusOK | _ => True end) ls.
Proof.
  eexists _, _. split; [vm_compute; reflexivity|]. split; [reflexivity|]. repeat constructor.
Qed.

(** The inserts of [createChannel] are not a transaction: asked for a channel
    with a name that nobody has, it answers 500 and leaves a channel with one
    message and one member, and does so again at every retry. *)
Theorem slack_half_channel :
  let r1 := run_alone Runs.fine (createChannel "ann" "nobody") Runs.s0 in
  let r2 := run_alone Runs.fine (createChannel "ann" "nobody") (r_state r1) in
  status (r_resp r1) = Some StatusInternalServerError ∧
  status (r_resp r2) = Some StatusInternalServerError ∧
  channels (db (r_state r2)) =
    channels Runs.tb0 ++ [MkChannel 8 "DM" "ann_nobody"; MkChannel 9 "DM" "ann_nobody"] ∧
  members (db (r_state r2)) = members Runs.tb0 ++ [MkMembership 3 8 1; MkMembership 4 9 1].
Proof. vm_compute. repeat split. Qed.

End Slack.
