(* ===== verification/SlackMain.v ===== *)
(** * SlackMain: the main of slack/main.go

    What happens before the server answers anything, and which handler a request
    reaches.  The globals [Db] and [wsMap] are [nil] until they are set. *)

From Stdlib Require Import Ascii.
From S2P Require Import Prelude GoLang GoSched GoSync GoHttp GoMux SlackDb Slack.

Import Sql Slack.

Module Start.

(** What a pattern is registered with. *)
Inductive endpoint := Files | CreateUser | CreateChannel | SendMessage | SocketIO | Status.

Section start.
Context {DB E : Type} {sdb : SlackDB DB E}.

Record globals := Globals {
  g_Db : option DB;
  g_wsMap : option (gomap Z conn);
  g_timeTaken : option (gomap string Z);   (** of the closures of [connectToWebsocket] *)
  g_mux : mux endpoint                    (** [http.DefaultServeMux] *)
}.

Definition handle (pat : string) (h : endpoint) (g : globals) : res globals :=
  m ← Handle pat h (g_mux g); Ret (Globals (g_Db g) (g_wsMap g) (g_timeTaken g) m).

Definition make_wsMap (g : globals) : globals := Globals (g_Db g) (Some make_map) (g_timeTaken g) (g_mux g).

Definition err_connect : string := "error while connecting to mysql DB | ".

(** [opens] is what [sql.Open] returns. *)
Definition connectToDb (opens : option DB) (g : globals) : res globals :=
  match opens with
  | Some d => Ret (Globals (Some d) (g_wsMap g) (g_timeTaken g) (g_mux g))
  | None => Panic err_connect
  end.

Definition connectToWebsocket (g : globals) : globals :=
  Globals (g_Db g) (g_wsMap g) (Some make_map) (g_mux g).

(** [main], up to [http.ListenAndServe]. *)
Definition boot (opens : option DB) : res globals :=
  g ← handle "/" Files (Globals None None None []);
  g ← handle "/createUser/{userName}" CreateUser g;
  g ← handle "/channel/{senderName}/{receiverName}" CreateChannel g;
  g ← handle "/message/{senderId}/{channelId}" SendMessage g;
  let g := make_wsMap g in
  g ← connectToDb opens g;
  let g := connectToWebsocket g in
  g ← handle "/socket.io/" SocketIO g;
  handle "/status" Status g.

(** The routes in place when [main] listens. *)
Definition routes : mux endpoint :=
  [([Multi], Files);
   ([Lit "createUser"; Wild "userName"], CreateUser);
   ([Lit "channel"; Wild "senderName"; Wild "receiverName"], CreateChannel);
   ([Lit "message"; Wild "senderId"; Wild "channelId"], SendMessage);
   ([Lit "socket.io"; Multi], SocketIO);
   ([Lit "status"], Status)]%string.

Lemma boot_eq opens :
  boot opens = match opens with
               | Some d => Ret (Globals (Some d) (Some make_map) (Some make_map) routes)
               | None => Panic err_connect
               end.
Proof. by destruct opens. Qed.

Definition to_files : option (pattern * endpoint * list string) := Some ([Multi], Files, []).

Lemma match_routes s segs :
  matchPath (tree_of routes) (s :: segs) =
  if decide (s = "createUser") then
    match segs with
    | [u] => if decide (u = "/") then to_files
             else Some ([Lit "createUser"; Wild "userName"], CreateUser, [u])
    | _ => to_files
    end
  else if decide (s = "channel") then
    match segs with
    | [u; v] => if decide (u = "/" ∨ v = "/") then to_files
                else Some ([Lit "channel"; Wild "senderName"; Wild "receiverName"], CreateChannel, [u; v])
    | _ => to_files
    end
  else if decide (s = "message") then
    match segs with
    | [u; v] => if decide (u = "/" ∨ v = "/") then to_files
                else Some ([Lit "message"; Wild "senderId"; Wild "channelId"], SendMessage, [u; v])
    | _ => to_files
    end
  else if decide (s = "socket.io") then
    match segs with [] => to_files | _ => Some ([Lit "socket.io"; Multi], SocketIO, []) end
  else if decide (s = "status") then
    match segs with [] => Some ([Lit "status"], Status, []) | _ => to_files end
  else to_files.
Proof.
  cbn [matchPath]. replace (wildcard (tree_of routes)) with ([] : list (pattern * (pattern * endpoint))) by done.
  replace (ending [Multi] (tree_of routes)) with (Some ([Multi], Files)) by done. rewrite matchPath_nil.
  replace (literal s (tree_of routes)) with
    (if decide (s = "createUser") then [([Wild "userName"], ([Lit "createUser"; Wild "userName"], CreateUser))]
     else if decide (s = "channel") then
       [([Wild "senderName"; Wild "receiverName"], ([Lit "channel"; Wild "senderName"; Wild "receiverName"], CreateChannel))]
     else if decide (s = "message") then
       [([Wild "senderId"; Wild "channelId"], ([Lit "message"; Wild "senderId"; Wild "channelId"], SendMessage))]
     else if decide (s = "socket.io") then [([Multi], ([Lit "socket.io"; Multi], SocketIO))]
     else if decide (s = "status") then [([], ([Lit "status"], Status))] else [])
    by (unfold literal, tree_of, routes; cbn; repeat case_decide; congruence).
  repeat (case_decide; simplify_eq/=);
    rewrite ?matchPath_wild, ?matchPath_wilds, ?matchPath_multi, ?matchPath_end, ?matchPath_nil;
    repeat (case_match; simplify_eq/=); done.
Qed.

(** ** Requests *)

(** What arrives once [main] listens: requests with their escaped path and the body if
    it can be read, and the events of the socket.io library. *)
Inductive request :=
| Http (path : string) (body : option string)
| Heartbeat (c : conn) (msg : any)
| Connected (id : string)
| Disconnected (id : string).

(** The program's handler for it, with [r.PathValue]; [None] if a library answers. *)
Definition routed (m : mux endpoint) (r : request) : option Slack.request :=
  match r with
  | Http path body =>
      match findHandler m path with
      | To p CreateUser v => Some (ReqCreateUser (PathValue p v "userName"))
      | To p CreateChannel v =>
          Some (ReqChannel (PathValue p v "senderName") (PathValue p v "receiverName"))
      | To p SendMessage v =>
          Some (ReqMessage (PathValue p v "senderId") (PathValue p v "channelId") body)
      | To _ Status _ => Some ReqStatus
      | _ => None
      end
  | Heartbeat c msg => Some (ReqHeartbeat c msg)
  | Connected id => Some (OnConnect id)
  | Disconnected id => Some (OnDisconnect id)
  end.

(** Which paths reach which handler. *)
Inductive reaches (body : option string) : string → Slack.request → Prop :=
| reaches_createUser a u :
    plain a → plain u → unescape a = "createUser" → unescape u ≠ "/" →
    reaches body (path_of [a; u] false) (ReqCreateUser (unescape u))
| reaches_channel a u v :
    plain a → plain u → plain v → unescape a = "channel" → unescape u ≠ "/" → unescape v ≠ "/" →
    reaches body (path_of [a; u; v] false) (ReqChannel (unescape u) (unescape v))
| reaches_message a u v :
    plain a → plain u → plain v → unescape a = "message" → unescape u ≠ "/" → unescape v ≠ "/" →
    reaches body (path_of [a; u; v] false) (ReqMessage (unescape u) (unescape v) body)
| reaches_status a :
    plain a → unescape a = "status" → reaches body (path_of [a] false) ReqStatus.

Lemma routed_clean segs slash body :
  Forall plain segs → is_path segs slash →
  routed routes (Http (path_of segs slash) body) =
  match map unescape segs, slash with
  | [a; u], false =>
      if decide (a = "createUser" ∧ u ≠ "/") then Some (ReqCreateUser u) else None
  | [a; u; v], false =>
      if decide (a = "channel" ∧ u ≠ "/" ∧ v ≠ "/") then Some (ReqChannel u v)
      else if decide (a = "message" ∧ u ≠ "/" ∧ v ≠ "/") then Some (ReqMessage u v body) else None
  | [a], false => if decide (a = "status") then Some ReqStatus else None
  | _, _ => None
  end.
Proof.
  intros Hs Hp. cbn [routed]. rewrite findHandler_path_of by done. unfold route, lacks_slash, full.
  destruct (map unescape segs) as [|a l] eqn:Hl.
  { apply map_eq_nil in Hl as ->. destruct Hp as [| ->]; done. }
  assert (Hn : length segs = S (length l)) by by rewrite <-(length_map unescape segs), Hl.
  rewrite Hn. cbn [Datatypes.app]. rewrite !match_routes. destruct slash; cbn [negb andb].
  - destruct l as [|u [|v [|w l]]]; repeat (case_decide; simplify_eq/=); try done; try tauto.
  - rewrite app_nil_r. match goal with |- context [exact ?r true ?n] => generalize (exact r true n) end.
    intros b. destruct l as [|u [|v [|w l]]]; repeat (case_decide; simplify_eq/=); destruct b; try done; try tauto.
Qed.

(** C5. Routing.  Once [main] listens, a request reaches one of the program's handlers
    exactly if its path is [/createUser/u], [/channel/u/v], [/message/u/v] or [/status],
    up to percent-encoding, and the handler gets the decoded segments; any other path,
    one with a trailing slash or one that is not clean among them, is left to the file
    server, the socket.io library or a redirection. *)
Theorem slack_routes (opens : option DB) g p body r (Hg : boot opens = Ret g) :
  routed (g_mux g) (Http ("/" +:+ p) body) = Some r ↔ reaches body ("/" +:+ p) r.
Proof.
  assert (g_mux g = routes) as ->.
  { rewrite boot_eq in Hg. destruct opens; [by injection Hg as <-|done]. }
  split.
  - intros Hr. destruct (decide (cleanPath ("/" +:+ p) = "/" +:+ p)) as [Hc|Hc].
    + destruct (clean_paths p Hc) as (segs&slash&Hs&Hp&Heq). rewrite Heq in *. clear Hc Heq Hg.
      rewrite routed_clean in Hr by done. clear Hp.
      destruct segs as [|a [|u [|v [|w segs]]]], slash; cbn [map] in Hr; try discriminate Hr;
        rewrite ?Forall_cons in Hs; repeat case_decide; try discriminate Hr;
        injection Hr as <-; destruct_and?; by constructor.
    + destruct (findHandler_unclean routes _ Hc) as [q Hq]. cbn [routed] in Hr. by rewrite Hq in Hr.
  - remember ("/" +:+ p) as path eqn:Hpath. clear Hpath Hg.
    destruct 1 as [a u|a u v|a u v|a]; rewrite routed_clean by (by left) || (by rewrite ?Forall_cons); cbn [map].
    + by rewrite decide_True.
    + by rewrite decide_True.
    + rewrite decide_False by (intros [? _]; congruence). by rewrite decide_True.
    + by rewrite decide_True.
Qed.

(** ** The whole program *)

(** The globals a handler uses, when they are there. *)
Definition serving (g : globals) : option (@shared DB) :=
  d ← g_Db g; m ← g_wsMap g; t ← g_timeTaken g; Some (Shared d m [] t).

(** What a request runs; nothing of this program, where a library answers. *)
Definition handler_of (g : globals) (r : request) : handler :=
  match routed (g_mux g) r with Some r' => Slack.serve r' | None => Pure () end.

Definition err_listen : string := "listen tcp :4444".
Definition err_socketio : string := "socketio listen error: ".

(** The states of the process after [boot].  [http.ListenAndServe], or the goroutine
    that runs [wsserver.Serve()], can end it; a request that finds a global still
    [nil] would panic. *)
Inductive main (opens : option DB) : config (@shared DB) (thread request) → Prop :=
| main_boot why : boot opens = Panic why → main opens (Dead why)
| main_ends g why : boot opens = Ret g → why ∈ [err_listen; err_socketio] → main opens (Dead why)
| main_nil g : boot opens = Ret g → serving g = None → main opens (Dead err_nil)
| main_serves g s σ :
    boot opens = Ret g → serving g = Some s →
    reachable (tstep perform request (handler_of g)) (start request s) σ → main opens σ.

Lemma handler_of_safe g r s :
  safe perform later (λ why, why = err_map) (λ _, True) (handler_of g r)
    (λ why, from_option (λ r', T r' why) False (routed (g_mux g) r))
    (λ _ s w, from_option (λ r', Q r' s w) True (routed (g_mux g) r)) s no_response.
Proof.
  unfold handler_of. destruct (routed (g_mux g) r) as [r'|]; [|by intros s1 _]. apply slack_serve_safe.
Qed.

(** Every page's handler ends with an answer. *)
Lemma routed_http m path body r :
  routed m (Http path body) = Some r → ∀ (s : @shared DB) w, Q r s w → answered w.
Proof. simpl. intros Hr s w. repeat (case_match; simplify_eq/=); done. Qed.

Lemma routed_http_safe m path body r why : routed m (Http path body) = Some r → ¬ T r why.
Proof. simpl. intros Hr. repeat (case_match; simplify_eq/=); tauto. Qed.

(** C4. The program from its first statement.  It can only end, without having served
    anything, when [sql.Open] fails, or when one of its two listeners fails, or in a
    data race on one of its maps.  When it serves, the database and the maps are there,
    and under every interleaving: what a socket is sent announces a message that is
    stored, a request for one of the program's pages whose handler has returned is
    answered with a status, and the only panics are those of heartbeats. *)
Theorem slack_main (opens : option DB) (σ : config (@shared DB) (thread request)) (Hm : main opens σ) :
  match σ with
  | Dead why => (opens = None ∧ why = err_connect) ∨ why = err_listen ∨ why = err_socketio ∨ why = err_map
  | Running s ls =>
      ∃ g d, boot opens = Ret g ∧ opens = Some d ∧
        messages (view d) `prefix_of` messages (view (db s)) ∧
        Forall (announces s) (emitted s) ∧
        (∀ k path body r w, ls !! k = Some (Handler request (Some (Http path body)) w (Pure ())) →
           routed (g_mux g) (Http path body) = Some r → answered w) ∧
        (∀ k r w why, ls !! k = Some (Recovered request r w why) →
           ∃ c msg, r = Heartbeat c msg ∧ bad_heartbeat why)
  end.
Proof.
  destruct Hm as [why Hb|g why Hb Hwhy|g Hb Hs|g s0 σ Hb Hs Hr]; rewrite boot_eq in Hb.
  - destruct opens; simplify_eq. by left.
  - right. set_solver.
  - by destruct opens; simplify_eq/=.
  - destruct opens as [d|]; [|done].
    injection Hb as <-. injection Hs as <-. set (g := Globals (Some d) (Some make_map) (Some make_map) routes) in *.
    pose proof (server_safe perform request (handler_of g) later (λ why, why = err_map) _ _ _ σ
                  (λ r s _, handler_of_safe g r s) Hr) as Hw.
    destruct σ as [s ls|why]; [|by right; right; right]. destruct Hw as ([Hmsg (l&He&Hl)]&HQ&HT).
    exists g, d. split; [done|]. split; [done|]. split; [done|]. split; [by rewrite He|]. split.
    + intros k path body r w Hk Hrt. specialize (HQ k _ w () Hk). rewrite Hrt in HQ.
      by apply (routed_http (g_mux g) path body r Hrt s w).
    + intros k r w why Hk. specialize (HT k r w why Hk).
      destruct r as [path body|c msg|id|id]; [|by eauto|done..].
      destruct (routed (g_mux g) (Http path body)) as [r|] eqn:Hrt; [|done].
      by destruct (routed_http_safe (g_mux g) path body r why Hrt).
Qed.

End start.

(** ** A run on the database in memory *)

Module Run.

Definition act (i n : nat) : list (nat * @choice (@env Mem.luck) request) :=
  replicate n (i, Act request Runs.good).
Definition arrives (r : request) : list (nat * @choice (@env Mem.luck) request) := [(0%nat, Request request r)].

Definition globals0 : @globals tables := Globals (Some Runs.tb0) (Some make_map) (Some make_map) routes.

(** Bob's heartbeat, ann's message to a channel she shares with him, a request for a
    page of the file server. *)
Definition morning : list (nat * @choice (@env Mem.luck) request) :=
  arrives (Heartbeat 9 (AString "2,bob")) ++ act 1 5
  ++ arrives (Http "/mess%61ge/1/7" (Some "hi")) ++ act 2 10 ++ arrives (Http "/index.html" None).

Definition after_morning : config (@shared tables) (thread request) :=
  default (Dead "") (run (tstep (perform (sdb := Mem.mem_db)) request (handler_of globals0)) morning
                         (start request (Shared Runs.tb0 make_map [] make_map))).

End Run.

(** A name with a blank, percent-encoded, and a path with a dot segment. *)
Lemma slack_routes_witness :
  boot (Some Runs.tb0) = Ret Run.globals0 ∧
  routed (g_mux Run.globals0) (Http ("/" +:+ "createUser/ann%20b") None) = Some (ReqCreateUser "ann b") ∧
  reaches None ("/" +:+ "createUser/ann%20b") (ReqCreateUser "ann b") ∧
  ¬ reaches None ("/" +:+ "createUser/./ann") (ReqCreateUser "ann").
Proof.
  assert (Hb : boot (Some Runs.tb0) = Ret Run.globals0) by reflexivity.
  split; [exact Hb|]. split; [vm_compute; reflexivity|]. split.
  - apply (slack_routes (Some Runs.tb0) Run.globals0 _ _ _ Hb). vm_compute. reflexivity.
  - intros Hr. apply (slack_routes (Some Runs.tb0) Run.globals0 _ _ _ Hb) in Hr.
    vm_compute in Hr. discriminate Hr.
Defined.

Lemma slack_main_witness :
  match Run.after_morning with
  | Dead why => False
  | Running s ls =>
      emitted s = [(9%nat, "ann:hi")] ∧ length ls = 4%nat ∧
      messages Runs.tb0 `prefix_of` messages (db s) ∧ Forall (announces s) (emitted s)
  end.
Proof.
  assert (Hm : main (sdb := Mem.mem_db) (Some Runs.tb0) Run.after_morning).
  { apply (main_serves _ Run.globals0 (Shared Runs.tb0 make_map [] make_map)); [reflexivity|reflexivity|].
    apply (run_reachable _ Run.morning). vm_compute. reflexivity. }
  pose proof (slack_main _ _ Hm) as H.
  assert (Hw : match Run.after_morning with
               | Running s ls => emitted s = [(9%nat, "ann:hi")] ∧ length ls = 4%nat
               | Dead _ => False
               end) by (vm_compute; split; reflexivity).
  destruct Run.after_morning as [s ls|why]; [|exact Hw].
  destruct H as (g&d&_&Hd&Hp&Ha&_). injection Hd as <-. destruct Hw as [H1 H2].
  split; [exact H1|]. split; [exact H2|]. split; [exact Hp|exact Ha].
Defined.

End Start.
