(* ===== verification/Presence.v ===== *)
(** * Presence: online_offline_indicator/main.go

    The heartbeat handlers (HTTP and socket.io), the connection log, and the status
    page, as programs over the [user] table and the map [timeTaken]. *)

From Stdlib Require Import Ascii.
From stdpp Require Import pretty.
From S2P Require Import Prelude GoLang GoSched GoSync GoHttp.

#[local] Open Scope Z_scope.

Module Presence.

(** ** [Duration.String] *)

Fixpoint trim_zeros (ds : list Z) : list Z :=   (** the last digit first *)
  match ds with
  | 0 :: ds' => trim_zeros ds'
  | _ => ds
  end.

(** The last [n] decimal digits of [v], the last one first. *)
Fixpoint low_digits (n : nat) (v : Z) : list Z :=
  match n with
  | O => []
  | S n' => v `mod` 10 :: low_digits n' (v / 10)
  end.

Definition digits_string (ds : list Z) : string :=
  foldr (λ d s, (pretty d +:+ s)%string) EmptyString ds.

(** [v / 10^n] with a fraction of [n] digits, trailing zeros dropped. *)
Definition with_fraction (n : nat) (v : Z) : string :=
  let frac := rev (trim_zeros (low_digits n v)) in
  (match frac with [] => EmptyString | _ => "." +:+ digits_string frac end)%string.

Definition micro : string := String (ascii_of_nat 194) (String (ascii_of_nat 181) EmptyString).

Definition duration_string (d : Z) : string :=
  let u := Z.abs d in
  let sign := if decide (d < 0) then "-"%string else ""%string in
  if decide (u = 0) then "0s"%string
  else if decide (u < 1000) then (sign +:+ pretty u +:+ "ns")%string
  else if decide (u < 1000000) then
    (sign +:+ pretty (u / 1000) +:+ with_fraction 3 u +:+ micro +:+ "s")%string
  else if decide (u < Second) then
    (sign +:+ pretty (u / 1000000) +:+ with_fraction 6 u +:+ "ms")%string
  else
    let secs := u / Second in
    let mins := secs / 60 in
    let hours := mins / 60 in
    (sign +:+ (if decide (0 < hours) then pretty hours +:+ "h" else "")
     +:+ (if decide (0 < mins) then pretty (mins `mod` 60) +:+ "m" else "")
     +:+ pretty (secs `mod` 60) +:+ with_fraction 9 u +:+ "s")%string.

(** The examples of the documentation of package time. *)
Example duration_examples :
  duration_string (72 * 60 * 10 ^ 9 + 3 * 10 ^ 9 + 5 * 10 ^ 8) = "1h12m3.5s" ∧
  duration_string (15 * 60 * Second) = "15m0s" ∧ duration_string 1100000 = "1.1ms" ∧
  duration_string 0 = "0s" ∧ duration_string (- 2 * 3600 * Second) = "-2h0m0s".
Proof. vm_compute. repeat split. Qed.

(** ** The database *)

(** The rows of [user]: [user_id] is the key. *)
Record user := MkUser { user_id : Z; last_timestamp : Z }.

#[export] Instance user_eq_dec : EqDecision user.
Proof. solve_decision. Defined.

Inductive sql :=
| Prepare                            (** of the next one *)
| Upsert (userId : string) (t : Z)   (** insert ... on duplicate key update last_timestamp = ? *)
| SelUsers.                          (** select * from user *)

Definition ans (q : sql) : Type :=
  match q with
  | Prepare => bool
  | Upsert _ _ => bool
  | SelUsers => option (list (option user))   (** [None] a row that fails to scan *)
  end.

Definition upsert (i t : Z) (us : list user) : list user :=
  if decide (i ∈ (user_id <$> us))
  then (λ u, if decide (user_id u = i) then MkUser i t else u) <$> us
  else us ++ [MkUser i t].

(** What the statements do; [to_int] is the number MySQL reads in a string and
    [store] the precision of the column. *)
Definition sql_step (to_int : string → option Z) (store : Z → Z) (q : sql) (us : list user) :
    ans q → list user → Prop :=
  match q with
  | Prepare => λ _ us', us' = us
  | Upsert u t => λ x us',
      if x then ∃ i, to_int u = Some i ∧ us' = upsert i (store t) us else us' = us
  | SelUsers => λ x us', us' = us ∧
      match x with Some rs => ∀ u, Some u ∈ rs → u ∈ us | None => True end
  end.

Class PresenceDB (DB E : Type) := {
  exec : ∀ q : sql, E → DB → ans q * DB;
  view : DB → list user;
  to_int : string → option Z;
  store : Z → Z;
  exec_step q e db : sql_step to_int store q (view db) (exec q e db).1 (view (exec q e db).2);
  (** a [timestamp] column keeps whole seconds, rounded to the nearest *)
  store_near t : - Second ≤ 2 * (store t - t) ≤ Second
}.

(** ** Handlers *)

Inductive op :=
| Now
| Sql (q : sql)
| TimeBegin (write : bool)        (** an access to [timeTaken] begins *)
| TimeSet (id : string) (t : Z)   (** [timeTaken[id] = t] *)
| TimeGet (id : string).          (** [timeTaken[id]] *)

(** [TimeBegin] answers whether the access overlaps with no other. *)
Definition op_ans (o : op) : Type :=
  match o with
  | Now => Z
  | Sql q => ans q
  | TimeBegin _ => bool
  | TimeSet _ _ => ()
  | TimeGet _ => Z
  end.

Abbreviation handler := (prog op_ans ()).

Definition sql_call (q : sql) : prog op_ans (ans q) := app (ans := op_ans) (Sql q).
Definition now : prog op_ans Z := app (ans := op_ans) Now.

(** [handleHearBeat]; [userId] is the request's header. *)
Definition handleHearBeat (userId : string) : handler :=
  if decide (userId = ""%string) then reply StatusBadRequest "user_id required"
  else
    currentTime ← now;
    ok ← sql_call Prepare;
    if ok : bool then
      ok ← sql_call (Upsert userId currentTime);
      if ok : bool then reply StatusOK "hb updated!"
      else reply StatusInternalServerError "error from db"
    else reply StatusInternalServerError "error from db".

(** The socket.io event; [id] is [conn.ID()]. *)
Definition onHearbeat (id : string) : handler :=
  currentTime ← now;
  ok ← sql_call Prepare;
  if ok : bool then _ ← sql_call (Upsert id currentTime); Pure () else Pure ().

(** An access to [timeTaken], which has no lock. *)
Definition time_access {A} (write : bool) (p : prog op_ans A) : prog op_ans A :=
  ok ← app (ans := op_ans) (TimeBegin write);
  if ok : bool then p else Exit err_map.

Definition onConnect (id : string) : handler :=
  t ← now; time_access true (app (ans := op_ans) (TimeSet id t)).

(** Prints how long the connection lasted. *)
Definition onDisconnect (id : string) : handler :=
  _ ← time_access false (app (ans := op_ans) (TimeGet id));
  _ ← now;
  Pure ().

Definition newline : string := String (ascii_of_nat 10) EmptyString.

(** The line of a user. *)
Definition status_line (currentTime : Z) (us : user) : string :=
  let d := time_sub currentTime (last_timestamp us) in
  if decide (d <= Second * 10)
  then (pretty (user_id us) +:+ " : " +:+ "online" +:+ newline)%string
  else (pretty (user_id us) +:+ " : last seen " +:+ duration_string d +:+ newline)%string.

Definition status_page (currentTime : Z) (us : list user) : string :=
  foldl (λ output u, (output +:+ status_line currentTime u)%string) EmptyString us.

Definition fetchOnlineOfflineStatus : handler :=
  rs ← sql_call SelUsers;
  match rs : option (list (option user)) with
  | None => reply StatusInternalServerError "error from db"
  | Some rs =>
      currentTime ← now;
      match scan_all rs with
      | None => reply StatusInternalServerError "error from db"
      | Some us => reply StatusOK (status_page currentTime us)
      end
  end.

Section semantics.
Context {DB E : Type} {pdb : PresenceDB DB E}.

Record shared := Shared { db : DB; timeTaken : gomap string Z }.

Record env := Env { clock : Z; db_env : E }.

Definition perform (o : op) (e : env) (s : shared) : op_ans o * shared :=
  match o with
  | Now => (clock e, s)
  | Sql q => let (x, d) := exec q (db_env e) (db s) in (x, Shared d (timeTaken s))
  | TimeBegin write =>
      match begin_access write (timeTaken s) with
      | Some m => (true, Shared (db s) m)
      | None => (false, s)
      end
  | TimeSet id t => ((), Shared (db s) (map_set id t (timeTaken s)))
  | TimeGet id => (default zero_time (map_get id (timeTaken s)), Shared (db s) (end_read (timeTaken s)))
  end.

Definition run_alone (o : nat → env * bool) (p : handler) (s : shared) :
    result (ans := op_ans) (S := shared) () :=
  alone perform o 0 p s no_response.

(** ** The table *)

Lemma upsert_ids i t us :
  (user_id <$> upsert i t us) = (user_id <$> us) ++ (if decide (i ∈ (user_id <$> us)) then [] else [i]).
Proof.
  unfold upsert. case_decide; [|by rewrite fmap_app]. rewrite app_nil_r, <-list_fmap_compose.
  apply list_fmap_ext. intros ? u _. simpl. by case_decide.
Qed.

Lemma upsert_nodup i t us : NoDup (user_id <$> us) → NoDup (user_id <$> upsert i t us).
Proof.
  intros Hn. rewrite upsert_ids. case_decide; [by rewrite app_nil_r|].
  apply NoDup_app. split; [done|]. split; [|apply NoDup_singleton].
  intros x Hx ->%list_elem_of_singleton. done.
Qed.

(** Exactly one row for the user, with the new time. *)
Lemma upsert_row i t us :
  NoDup (user_id <$> us) → filter (λ u, user_id u = i) (upsert i t us) = [MkUser i t].
Proof.
  intros Hn. unfold upsert. case_decide as Hi.
  - induction us as [|u us IH]; [by apply elem_of_nil in Hi|]. rewrite fmap_cons in *.
    apply NoDup_cons in Hn as [Hu Hn]. destruct (decide (user_id u = i)) as [Hd|Hd].
    + rewrite filter_cons, decide_True by done. f_equal.
      clear -Hu Hd. induction us as [|u' us IH]; [done|]. rewrite fmap_cons in *.
      apply not_elem_of_cons in Hu as [Hne Hu]. assert (user_id u' ≠ i) by congruence.
      rewrite (decide_False (P := user_id u' = i)), filter_cons, decide_False by done. by apply IH.
    + rewrite filter_cons, decide_False by done. apply IH; [done|].
      apply elem_of_cons in Hi as [->|Hi]; [by destruct Hd|done].
  - rewrite filter_app, filter_cons, filter_nil. simpl. rewrite decide_True by done.
    enough (filter (λ u, user_id u = i) us = []) as -> by done.
    clear Hn. induction us as [|u us IH]; [done|]. rewrite fmap_cons in Hi.
    apply not_elem_of_cons in Hi as [Hne Hi]. rewrite filter_cons, decide_False by congruence. by apply IH.
Qed.

(** ** One handler *)

Ltac focus_run :=
  cbv zeta;
  match goal with |- context [run_alone ?o ?p ?s] =>
    pattern (run_alone o p s);
    match goal with |- ?P _ => let post := fresh "post" in set (post := P) end;
    unfold run_alone
  end.

Ltac next_call :=
  cbn;
  match goal with |- context [exec ?q ?e ?d] =>
    let H := fresh "Hq" in let x := fresh "x" in let d' := fresh "d" in
    pose proof (exec_step q e d) as H; destruct (exec q e d) as [x d']; cbn in H
  end.

(** [handleHearBeat] on every branch: without a user id it answers 400, on an
    error of the database 500, and neither changes anything; otherwise the user's
    row, which it inserts if there is none, has the time at which the handler
    started, and the answer is 200. *)
Lemma heartbeat_run (o : nat → env * bool) u (s : shared) (Ho : connected o) :
  let r := run_alone o (handleHearBeat u) s in
  let us := view (db s) in let us' := view (db (r_state r)) in
  r_value r = Ret () ∧ timeTaken (r_state r) = timeTaken s ∧
  ((u = ""%string ∧ us' = us ∧ r_resp r = text_response StatusBadRequest "user_id required") ∨
   (u ≠ ""%string ∧ us' = us ∧ r_resp r = text_response StatusInternalServerError "error from db") ∨
   (u ≠ ""%string ∧ ∃ i, to_int u = Some i ∧ us' = upsert i (store (clock (o 0%nat).1)) us ∧
      r_resp r = text_response StatusOK "hb updated!")).
Proof.
  focus_run. unfold handleHearBeat. case_decide as Hu.
  - cbn. rewrite (Ho _). unfold post. cbn. do 2 (split; [done|]). auto.
  - next_call. destruct x.
    + next_call. rewrite Hq in Hq0. destruct x; cbn; rewrite (Ho _); unfold post; cbn;
        (do 2 (split; [done|])); right; [right|left; auto].
      destruct Hq0 as (i&Hi&Hv). eauto.
    + cbn. rewrite (Ho _). unfold post. cbn. do 2 (split; [done|]). auto.
Qed.

Lemma status_run (o : nat → env * bool) (s : shared) (Ho : connected o) :
  let r := run_alone o fetchOnlineOfflineStatus s in
  r_value r = Ret () ∧ view (db (r_state r)) = view (db s) ∧
  match (exec SelUsers (db_env (o 0%nat).1) (db s)).1 ≫= scan_all with
  | None => r_resp r = text_response StatusInternalServerError "error from db"
  | Some us => Forall (λ u, u ∈ view (db s)) us ∧
      r_resp r = text_response StatusOK (status_page (clock (o 1%nat).1) us)
  end.
Proof.
  focus_run. unfold fetchOnlineOfflineStatus. subst post. cbn.
  pose proof (exec_step SelUsers (db_env (o 0%nat).1) (db s)) as Hq.
  destruct (exec _ _ (db s)) as [x d]. cbn in *. destruct Hq as [Htb Hus].
  destruct x as [rs|]; cbn; [|by rewrite (Ho _)].
  destruct (scan_all rs) as [us|] eqn:Hs; cbn; rewrite (Ho _); [|done]. cbn.
  do 2 (split; [done|]). split; [|done]. apply Forall_forall. intros u Hu. apply Hus. by eapply scan_all_elem.
Qed.

Lemma online_line t u :
  t - last_timestamp u ≤ 10 * Second →
  status_line t u = (pretty (user_id u) +:+ " : online" +:+ newline)%string.
Proof.
  intros Hd. unfold status_line. rewrite decide_True; [reflexivity|].
  unfold time_sub, min_int, max_int, Second in *. lia.
Qed.

Lemma offline_line t u :
  10 * Second < t - last_timestamp u →
  status_line t u = (pretty (user_id u) +:+ " : last seen "
     +:+ duration_string (time_sub t (last_timestamp u)) +:+ newline)%string.
Proof.
  intros Hd. unfold status_line. rewrite decide_False; [reflexivity|].
  unfold time_sub, min_int, max_int, Second in *. lia.
Qed.

Lemma status_page_lines t us :
  status_page t us = foldr (λ u s, (status_line t u +:+ s)%string) ""%string us.
Proof.
  unfold status_page. enough (H : ∀ acc, foldl (λ output u, (output +:+ status_line t u)%string) acc us
    = (acc +:+ foldr (λ u s, status_line t u +:+ s) "" us)%string) by by rewrite H.
  induction us as [|u us IH]; intros acc; cbn [foldl foldr].
  - by rewrite (right_id_L EmptyString String.append).
  - by rewrite IH, (assoc_L String.append).
Qed.

(** The status page changes nothing and is an error, or one line per row read,
    in the order of the rows: "online" for a row touched at most ten seconds
    before the handler's time, else how long ago it was. *)
Theorem presence_status (o : nat → env * bool) (s : shared) (Ho : connected o) :
  let r := run_alone o fetchOnlineOfflineStatus s in
  let t := clock (o 1%nat).1 in
  r_value r = Ret () ∧ view (db (r_state r)) = view (db s) ∧
  (r_resp r = text_response StatusInternalServerError "error from db" ∨
   ∃ us, Forall (λ u, u ∈ view (db s)) us ∧
     r_resp r = text_response StatusOK (foldr (λ u page, (status_line t u +:+ page)%string) "" us) ∧
     ∀ u, u ∈ us →
       status_line t u =
         if decide (t - last_timestamp u ≤ 10 * Second)
         then (pretty (user_id u) +:+ " : online" +:+ newline)%string
         else (pretty (user_id u) +:+ " : last seen "
               +:+ duration_string (time_sub t (last_timestamp u)) +:+ newline)%string).
Proof.
  pose proof (status_run o s Ho) as (Hv&Hw&Hr). cbv zeta. split; [done|]. split; [done|].
  destruct (_ ≫= scan_all) as [us|]; [right|by left]. destruct Hr as [Hus Hr].
  exists us. split; [done|]. rewrite Hr, status_page_lines. split; [done|]. intros u _.
  case_decide; [by apply online_line|apply offline_line; lia].
Qed.

(** C8. The indicator works: after a heartbeat that was answered 200 at time [t], a
    status page that reads all rows, at time [t'], has exactly one line for the
    user; it says online if at most 9.5 seconds have passed, and offline if more
    than 10.5 have.  Between these the rounding of the column decides. *)
Theorem presence_indicates (o1 o2 : nat → env * bool) u (s : shared)
    (Ho1 : connected o1) (Ho2 : connected o2) (Hkey : NoDup (user_id <$> view (db s)))
    (Hok : status (r_resp (run_alone o1 (handleHearBeat u) s)) = Some StatusOK)
    (Hall : ∀ d, (exec SelUsers (db_env (o2 0%nat).1) d).1 = Some (Some <$> view d)) :
  let t := clock (o1 0%nat).1 in let t' := clock (o2 1%nat).1 in
  ∃ i us line, to_int u = Some i ∧
    r_resp (run_alone o2 fetchOnlineOfflineStatus (r_state (run_alone o1 (handleHearBeat u) s)))
      = text_response StatusOK (foldr (λ u page, (status_line t' u +:+ page)%string) "" us) ∧
    status_line t' <$> filter (λ r, user_id r = i) us = [line] ∧
    (2 * (t' - t) ≤ 19 * Second → line = (pretty i +:+ " : online" +:+ newline)%string) ∧
    (21 * Second < 2 * (t' - t) →
       ∃ d, line = (pretty i +:+ " : last seen " +:+ duration_string d +:+ newline)%string).
Proof.
  destruct (heartbeat_run o1 u s Ho1) as (_&_&[(_&_&He)|[(_&_&He)|(_&i&Hi&Hv&_)]]);
    [by rewrite He in Hok..|]. cbv zeta.
  set (s1 := r_state (run_alone o1 (handleHearBeat u) s)) in *.
  pose proof (status_run o2 s1 Ho2) as (_&_&Hr). rewrite Hall in Hr.
  cbn [mbind option_bind] in Hr. rewrite scan_all_rows in Hr. destruct Hr as [_ Hr].
  set (t := clock (o1 0%nat).1) in *. set (t' := clock (o2 1%nat).1) in *.
  exists i, (view (db s1)), (status_line t' (MkUser i (store t))). split; [done|].
  rewrite Hr, status_page_lines. split; [done|]. rewrite Hv, upsert_row by done. split; [done|].
  pose proof (store_near t) as Hn. split; intros Hd.
  - apply (online_line _ (MkUser i (store t))). simpl. lia.
  - eexists. apply (offline_line _ (MkUser i (store t))). simpl. lia.
Qed.

(** ** The server *)

(** What [main] serves: the status page and the socket.io events. *)
Inductive request := ReqStatus | Connect (id : string) | Disconnect (id : string) | Hearbeat (id : string).

Definition serve (r : request) : handler :=
  match r with
  | ReqStatus => fetchOnlineOfflineStatus
  | Connect id => onConnect id
  | Disconnect id => onDisconnect id
  | Hearbeat id => onHearbeat id
  end.

(** *** What every action respects

    [N r e]: the environment has answered [e] to the handler of [r]. *)
Section server.
Variable N : request → env * bool → Prop.

(** A row that a heartbeat has written: its user, and a time the handler read. *)
Definition beaten (u : user) : Prop :=
  ∃ id e, N (Hearbeat id) e ∧ to_int id = Some (user_id u) ∧ last_timestamp u = store (clock e.1).

(** Users are only added, and never twice; the rows that change are beaten. *)
Definition later (s s' : shared) : Prop :=
  (user_id <$> view (db s)) `prefix_of` (user_id <$> view (db s')) ∧
  (NoDup (user_id <$> view (db s)) → NoDup (user_id <$> view (db s'))) ∧
  ∀ u, u ∈ view (db s') → u ∈ view (db s) ∨ beaten u.

#[export] Instance later_preorder : PreOrder later.
Proof.
  split; [intros s; split; [done|by auto]|]. intros s1 s2 s3 (H1&H2&H3) (H4&H5&H6). split; [by etrans|].
  split; [auto|]. intros u [Hu|Hu]%H6; auto.
Qed.

Lemma later_same s s' : view (db s') = view (db s) → later s s'.
Proof. intros Hs. unfold later. rewrite Hs. split; [done|]. split; [done|]. by left. Qed.

(** A row of [upsert] is an old one or the new one. *)
Lemma upsert_elem i t us u : u ∈ upsert i t us → u ∈ us ∨ u = MkUser i t.
Proof.
  unfold upsert. case_decide.
  - intros (u'&->&Hu)%list_elem_of_fmap. case_decide; auto.
  - intros [Hu|Hu%list_elem_of_singleton]%elem_of_app; auto.
Qed.

Lemma later_upsert s s' id i e :
  N (Hearbeat id) e → to_int id = Some i →
  view (db s') = upsert i (store (clock e.1)) (view (db s)) → later s s'.
Proof.
  intros He Hi Hs. unfold later. rewrite Hs. split; [|split].
  - rewrite upsert_ids. by eexists.
  - apply upsert_nodup.
  - intros u [Hu| ->]%upsert_elem; [by left|right]. by exists id, e.
Qed.

Definition quiet_op (o : op) : Prop := match o with Sql (Upsert _ _) => False | _ => True end.

Lemma beats_quiet o e s : quiet_op o → later s (perform o e s).2.
Proof.
  intros Ho. destruct o as [|q|write|id t|id]; try by apply later_same.
  - cbn. pose proof (exec_step q (db_env e) (db s)) as Hq. destruct (exec q _ (db s)) as [x d].
    apply later_same. cbn in *. destruct q; [done|done|by destruct Hq].
  - cbn. destruct (begin_access _ _); by apply later_same.
Qed.

(** *** What a handler that has returned has done *)

(** The client got this response, or the header only, if writing the rest failed. *)
Definition delivered (w answer : response) : Prop :=
  w = answer ∨ w = Response (status answer) (header answer) (sent answer) [].

(** What the status page says of the users read from [s] under [e1], at the time
    read under [e2]. *)
Definition status_answer (s : shared) (e1 e2 : env) : response :=
  match (exec SelUsers (db_env e1) (db s)).1 ≫= scan_all with
  | None => text_response StatusInternalServerError "error from db"
  | Some us => text_response StatusOK (status_page (clock e2) us)
  end.

(** The database has failed the heartbeat of [id]. *)
Definition refused (id : string) (e : env) : Prop :=
  ∃ d, (exec Prepare (db_env e) d).1 = false ∨ ∃ t, (exec (Upsert id t) (db_env e) d).1 = false.

Definition Q (s0 : shared) (r : request) (s : shared) (w : response) : Prop :=
  match r with
  | ReqStatus => ∃ s1 e1 e2, later s0 s1 ∧ later s1 s ∧ N ReqStatus e1 ∧ N ReqStatus e2 ∧
      delivered w (status_answer s1 e1.1 e2.1)
  | Hearbeat id => (∃ e, N (Hearbeat id) e ∧ refused id e.1) ∨
      ∃ i, to_int id = Some i ∧ i ∈ (user_id <$> view (db s))
  | _ => True
  end.

(** *** Every handler is safe *)

Abbreviation safe := (safe perform later (λ why, why = err_map)).
#[local] Arguments GoHttp.safe : simpl never.

Lemma safe_op {A} M T (P : A → shared → response → Prop) (o : op) k s w :
  (∀ e s1, M e → later s s1 →
     let '(x, s2) := perform o e.1 s1 in later s1 s2 ∧ safe M (k x) T P s2 w) →
  safe M (Do (CApp o) k) T P s w.
Proof.
  intros Hk e s1 He H1. specialize (Hk e s1 He H1). cbn. by destruct (perform o e.1 s1).
Qed.

Lemma safe_silent {A} M T (P : A → shared → response → Prop) (o : op) k s w :
  quiet_op o →
  (∀ e s1, M e → later s s1 →
     later s1 (perform o e.1 s1).2 → safe M (k (perform o e.1 s1).1) T P (perform o e.1 s1).2 w) →
  safe M (Do (CApp o) k) T P s w.
Proof.
  intros Ho Hk. apply safe_op. intros e s1 He H1. specialize (Hk e s1 He H1).
  pose proof (beats_quiet o e.1 s1 Ho) as Hl. destruct (perform o e.1 s1). auto.
Qed.

(** The reply, when what is delivered of it is all that matters. *)
Lemma safe_replies M T (P : shared → response → Prop) code text s :
  (∀ w s1, later s s1 → delivered w (text_response code text) → P s1 w) →
  safe M (reply code text) T (λ _, P) s no_response.
Proof.
  intros HP e1 s1 _ H1. split; [done|]. intros [e2 b] s2 _ H2. split; [done|]. intros s3 H3.
  apply HP; [by trans s1; [|trans s2]|]. destruct b; [by left|by right].
Qed.

(** A program that begins with an access to the map. *)
Lemma safe_access {A} M T (P : A → shared → response → Prop) write (k : bool → prog op_ans A) s w :
  k false = Exit err_map → (∀ s1, safe M (k true) T P s1 w) →
  safe M (Do (CApp (TimeBegin write)) k) T P s w.
Proof.
  intros Hf Hk. apply safe_silent; [done|]. intros e s1 _ _ _. destruct (perform _ _ _).1; [done|by rewrite Hf].
Qed.

Lemma safe_fetch s0 s : later s0 s →
  safe (N ReqStatus) fetchOnlineOfflineStatus (λ _, False) (λ _, Q s0 ReqStatus) s no_response.
Proof.
  intros H0. apply safe_silent; [done|]. intros e1 s1 He1 H1. cbn.
  assert (Hs1 : later s0 s1) by by trans s. unfold Q.
  destruct (exec SelUsers _ _) as [[rs|] d] eqn:Hx; cbn; intros Hd.
  - apply safe_silent; [done|]. intros e2 s2 He2 H2 _. cbn in *.
    assert (later s1 s2) by by trans (Shared d (timeTaken s1)).
    destruct (scan_all rs) as [us|] eqn:Hscan; apply safe_replies; intros w s3 H3 Hw;
      exists s1, e1, e2; (split; [done|]); (split; [by trans s2|]); (do 2 (split; [done|]));
      unfold status_answer; rewrite Hx; cbn; by rewrite Hscan.
  - apply safe_replies. intros w s2 H2 Hw. exists s1, e1, e1.
    split; [done|]. split; [by trans (Shared d (timeTaken s1))|]. do 2 (split; [done|]).
    unfold status_answer. by rewrite Hx.
Qed.

Lemma safe_beat s0 id s :
  safe (N (Hearbeat id)) (onHearbeat id) (λ _, False) (λ _, Q s0 (Hearbeat id)) s no_response.
Proof.
  apply safe_silent; [done|]. intros e1 s1 He1 _ _. cbn.
  apply safe_silent; [done|]. intros e2 s2 He2 _ _. cbn. unfold Q.
  destruct (exec Prepare _ _) as [[] d] eqn:Hx; cbn.
  - apply safe_op. intros e3 s3 He3 _. cbn. pose proof (exec_step (Upsert id (clock e1.1)) (db_env e3.1) (db s3)) as Hq.
    destruct (exec (Upsert _ _) _ _) as [[] d'] eqn:Hx'; cbn in *.
    + destruct Hq as (i&Hi&Hv). split; [exact (later_upsert s3 (Shared d' (timeTaken s3)) id i e1 He1 Hi Hv)|]. intros s4 ([l Hl]&_). right. exists i.
      split; [done|]. rewrite Hl. cbn. rewrite Hv, upsert_ids. case_decide; set_solver.
    + split; [by apply later_same|]. intros s4 _. left. exists e3. split; [done|].
      exists (db s3). right. exists (clock e1.1). by rewrite Hx'.
  - intros s3 _. left. exists e2. split; [done|]. exists (db s2). left. by rewrite Hx.
Qed.

Lemma presence_serve_safe s0 r s : later s0 s →
  safe (N r) (serve r) (λ _, False) (λ _, Q s0 r) s no_response.
Proof.
  intros H0. destruct r as [|id|id|id].
  - by apply safe_fetch.
  - apply safe_silent; [done|]. intros e s1 _ _ _. apply safe_access; [done|]. intros s2.
    apply safe_silent; [done|]. by intros.
  - apply safe_access; [done|]. intros s1. apply safe_silent; [done|]. intros e s2 _ _ _.
    apply safe_silent; [done|]. by intros.
  - apply safe_beat.
Qed.
End server.

(** C35. Whatever requests and socket events arrive and however their handlers
    interleave, up to a data race on [timeTaken]: no handler panics.  A user's row is
    never removed, and every row is one of the start or was written by a heartbeat of
    that user, with a time this heartbeat has read.  A heartbeat that has returned was
    failed by the database, or its user has a row.  A status page that has been
    answered says what the select found at some moment of the run, at a time the
    handler read; an answer that is not 200 means that the select or a row failed.
    [acted] lists what the environment has answered to which handler in the run. *)
Theorem presence_server (s0 : shared) sched (σ : config shared (thread request))
    (Hr : run (tstep perform request serve) sched (GoHttp.start request s0) = Some σ) :
  let N r e := (r, e) ∈ acted perform request serve sched (GoHttp.start request s0) in
  match σ with
  | Dead why => why = err_map
  | Running s ls =>
      (user_id <$> view (db s0)) `prefix_of` (user_id <$> view (db s)) ∧
      (∀ u, u ∈ view (db s) → u ∈ view (db s0) ∨ beaten N u) ∧
      (∀ k id w u, ls !! k = Some (Handler request (Some (Hearbeat id)) w (Pure u)) →
         (∃ e, N (Hearbeat id) e ∧ refused id e.1) ∨
         ∃ i, to_int id = Some i ∧ i ∈ (user_id <$> view (db s))) ∧
      (∀ k w u, ls !! k = Some (Handler request (Some ReqStatus) w (Pure u)) →
         ∃ s1 e1 e2, later N s0 s1 ∧ later N s1 s ∧ N ReqStatus e1 ∧ N ReqStatus e2 ∧
           delivered w (status_answer s1 e1.1 e2.1)) ∧
      (∀ k r w why, ls !! k ≠ Some (Recovered request r w why))
  end.
Proof.
  intros N. pose proof (server_run perform request serve (later N) (λ why, why = err_map) N (λ _ _, False)
    (Q N s0) s0 (presence_serve_safe N s0) sched σ (λ r e H, H) Hr) as Hw.
  destruct σ as [s ls|why]; [|exact Hw]. destruct Hw as ((Hm&_&Hu)&HQ&HT).
  split; [done|]. split; [done|]. split; [|split; [|by intros k r w why Hk%HT]].
  - intros k id w u Hk. exact (HQ k _ w u Hk).
  - intros k w u Hk. exact (HQ k _ w u Hk).
Qed.

End semantics.

(** ** A database in memory *)

Module Mem.

Definition number (s : string) : option Z := if decide (Atoi s = 0) then None else Some (Atoi s).

(** Whole seconds, rounded to the nearest. *)
Definition round (t : Z) : Z := (t + Second / 2) / Second * Second.

Definition run (q : sql) (ok : bool) (us : list user) : ans q * list user :=
  match q with
  | Prepare => (ok, us)
  | Upsert u t =>
      match number u with
      | Some i => if ok then (true, upsert i (round t) us) else (false, us)
      | None => (false, us)
      end
  | SelUsers => (if ok then Some (Some <$> us) else None, us)
  end.

#[global] Instance mem_db : PresenceDB (list user) bool.
Proof.
  refine {| exec := run; view us := us; to_int := number; store := round |}.
  - intros [|u t|] ok us; simpl; [done| |].
    + destruct (number u) as [i|] eqn:Hi; [|done]. destruct ok; [|done]. by exists i.
    + split; [done|]. destruct ok; [|done]. intros u Hu. by apply list_elem_of_fmap in Hu as (u'&[= <-]&Hu).
  - intros t. unfold round. pose proof (Z.div_mod (t + Second / 2) Second ltac:(done)) as H1.
    pose proof (Z.mod_pos_bound (t + Second / 2) Second ltac:(done)) as H2.
    change (Second / 2) with 500000000 in *. change Second with 1000000000 in *. lia.
Defined.

Definition s0 : @shared (list user) := Shared [MkUser 1 0; MkUser 7 (95 * Second)] make_map.

Definition at_time (t : Z) : nat → @env bool * bool := λ _, (Env t true, true).

Lemma at_time_connected t : connected (at_time t).
Proof. intros n. reflexivity. Qed.

Definition server := tstep (perform (pdb := mem_db)) request serve.

Definition arrives (r : request) : list (nat * @choice (@env bool) request) := [(0%nat, Request request r)].
Definition acts (i n : nat) : list (nat * @choice (@env bool) request) :=
  replicate n (i, Act request (at_time (100 * Second) 0%nat)).

(** A heartbeat of user 9 and a status page. *)
Definition visit : list (nat * @choice (@env bool) request) :=
  arrives (Hearbeat "9") ++ arrives ReqStatus ++ acts 1 3 ++ acts 2 4.

(** Two clients connect and disconnect; the second's read of [timeTaken] begins while
    the first's write is under way. *)
Definition collision : list (nat * @choice (@env bool) request) :=
  arrives (Connect "a") ++ arrives (Disconnect "b") ++ acts 1 2 ++ acts 2 2.

End Mem.

Lemma presence_status_witness :
  r_resp (run_alone (Mem.at_time (100 * Second)) fetchOnlineOfflineStatus Mem.s0)
    = text_response StatusOK
        ("1 : last seen 1m40s" +:+ newline +:+ "7 : online" +:+ newline) ∧
  r_value (run_alone (Mem.at_time (100 * Second)) fetchOnlineOfflineStatus Mem.s0) = Ret ().
Proof.
  split; [vm_compute; reflexivity|].
  exact (proj1 (presence_status (Mem.at_time (100 * Second)) Mem.s0 (Mem.at_time_connected _))).
Defined.

Lemma presence_indicates_witness :
  ∃ i us line, Mem.number "1" = Some i ∧
    r_resp (run_alone (Mem.at_time (109 * Second)) fetchOnlineOfflineStatus
      (r_state (run_alone (Mem.at_time (100 * Second)) (handleHearBeat "1") Mem.s0)))
      = text_response StatusOK
          (foldr (λ u page, (status_line (109 * Second) u +:+ page)%string) ""%string us) ∧
    status_line (109 * Second) <$> filter (λ r, user_id r = i) us = [line] ∧
    line = (pretty i +:+ " : online" +:+ newline)%string.
Proof.
  destruct (presence_indicates (Mem.at_time (100 * Second)) (Mem.at_time (109 * Second)) "1" Mem.s0
    (Mem.at_time_connected _) (Mem.at_time_connected _)) as (i&us&line&Hi&Hr&Hl&Hon&_).
  - by_compute.
  - vm_compute. reflexivity.
  - reflexivity.
  - exists i, us, line. split; [exact Hi|]. split; [exact Hr|]. split; [exact Hl|]. apply Hon. vm_compute. discriminate.
Defined.

Lemma presence_server_witness :
  ∃ s ls w, run Mem.server Mem.visit (GoHttp.start request Mem.s0) = Some (Running s ls) ∧
    db s = [MkUser 1 0; MkUser 7 (95 * Second); MkUser 9 (100 * Second)] ∧
    ls !! 2%nat = Some (Handler request (Some ReqStatus) w (Pure ())) ∧
    status w = Some StatusOK ∧
    (∀ u, u ∈ db s → u ∈ db Mem.s0 ∨
       beaten (pdb := Mem.mem_db)
         (λ r e, (r, e) ∈ acted (perform (pdb := Mem.mem_db)) request serve Mem.visit
                           (GoHttp.start request Mem.s0)) u).
Proof.
  eexists _, _, _. split; [vm_compute; reflexivity|]. split; [reflexivity|]. split; [reflexivity|].
  split; [reflexivity|].
  refine (proj1 (proj2 (presence_server (pdb := Mem.mem_db) Mem.s0 Mem.visit (Running _ _) _))).
  vm_compute. reflexivity.
Defined.

(** The race on [timeTaken] is there. *)
Theorem presence_race : run Mem.server Mem.collision (GoHttp.start request Mem.s0) = Some (Dead err_map).
Proof. vm_compute. reflexivity. Qed.

End Presence.
