(* ===== verification/PresenceMain.v ===== *)
(** * PresenceMain: the main of online_offline_indicator/main.go

    What happens before the server answers anything, and which paths are its page. *)

From Stdlib Require Import Ascii.
From S2P Require Import Prelude GoLang GoSched GoSync GoHttp GoMux Presence.

Import Presence.

Module Indicator.

(** What a pattern is registered with. *)
Inductive endpoint := SocketIO | Files | Status.

Section start.
Context {DB E : Type} {pdb : PresenceDB DB E}.

Record globals := Globals {
  g_Db : option DB;
  g_timeTaken : option (gomap string Z);
  g_mux : mux endpoint
}.

Definition handle (pat : string) (h : endpoint) (g : globals) : res globals :=
  m ← Handle pat h (g_mux g); Ret (Globals (g_Db g) (g_timeTaken g) m).

Definition make_timeTaken (g : globals) : globals := Globals (g_Db g) (Some make_map) (g_mux g).

(** [panic(err)]; [err] is the error of [sql.Open]. *)
Definition connectToDb (opens : string + DB) (g : globals) : res globals :=
  match opens with
  | inr d => Ret (Globals (Some d) (g_timeTaken g) (g_mux g))
  | inl err => Panic err
  end.

(** [main], up to [http.ListenAndServe]. *)
Definition boot (opens : string + DB) : res globals :=
  g ← connectToDb opens (Globals None None []);
  let g := make_timeTaken g in
  g ← handle "/socket.io/" SocketIO g;
  g ← handle "/" Files g;
  handle "/status" Status g.

Definition routes : mux endpoint :=
  [([Lit "socket.io"; Multi], SocketIO); ([Multi], Files); ([Lit "status"], Status)]%string.

Lemma boot_indicator opens :
  boot opens = match opens with
               | inr d => Ret (Globals (Some d) (Some make_map) routes)
               | inl err => Panic err
               end.
Proof. by destruct opens. Qed.

(** ** Requests *)

Inductive request :=
| Http (path : string)
| OnConnected (id : string)
| OnDisconnected (id : string)
| OnHearbeat (id : string).

(** The program's handler for it; [None] if a library answers. *)
Definition routed (m : mux endpoint) (r : request) : option Presence.request :=
  match r with
  | Http path => match findHandler m path with To _ Status _ => Some ReqStatus | _ => None end
  | OnConnected id => Some (Connect id)
  | OnDisconnected id => Some (Disconnect id)
  | OnHearbeat id => Some (Hearbeat id)
  end.

Lemma match_indicator s segs :
  matchPath (tree_of routes) (s :: segs) =
  if decide (s = "socket.io" ∧ segs ≠ []) then Some ([Lit "socket.io"; Multi], SocketIO, [])
  else if decide (s = "status" ∧ segs = []) then Some ([Lit "status"], Status, [])
  else Some ([Multi], Files, []).
Proof.
  cbn [matchPath]. replace (wildcard (tree_of routes)) with ([] : list (pattern * (pattern * endpoint))) by done.
  replace (ending [Multi] (tree_of routes)) with (Some ([Multi], Files)) by done. rewrite matchPath_nil.
  replace (literal s (tree_of routes)) with
    (if decide (s = "socket.io") then [([Multi], ([Lit "socket.io"; Multi], SocketIO))]
     else if decide (s = "status") then [([], ([Lit "status"], Status))] else [])
    by (unfold literal, tree_of, routes; cbn; repeat case_decide; congruence).
  destruct segs as [|u segs]; repeat (case_decide; simplify_eq/=);
    rewrite ?matchPath_multi, ?matchPath_end, ?matchPath_nil; naive_solver.
Qed.

Lemma routed_status_clean segs slash :
  Forall plain segs → is_path segs slash →
  routed routes (Http (path_of segs slash)) = Some ReqStatus ↔
  ∃ a, segs = [a] ∧ slash = false ∧ unescape a = "status".
Proof.
  intros Hs Hp. cbn [routed]. rewrite findHandler_path_of by done. unfold route, lacks_slash, full.
  match goal with |- context [exact ?r true ?n] => generalize (exact r true n) end. intros b.
  destruct segs as [|a [|u segs]]; cbn [map Datatypes.app].
  - destruct Hp as [| ->]; [done|]. simpl. naive_solver.
  - rewrite match_indicator. destruct slash; cbn [negb andb Datatypes.app].
    + repeat (case_decide; simplify_eq/=); naive_solver.
    + repeat (case_decide; simplify_eq/=); destruct b; naive_solver.
  - rewrite match_indicator. repeat (case_decide; simplify_eq/=); destruct slash, b; naive_solver.
Qed.

(** Which paths are the page. *)
Lemma routed_status p :
  routed routes (Http ("/" +:+ p)) = Some ReqStatus ↔
  ∃ a, "/" +:+ p = path_of [a] false ∧ plain a ∧ unescape a = "status".
Proof.
  destruct (decide (cleanPath ("/" +:+ p) = "/" +:+ p)) as [Hc|Hc].
  - destruct (clean_paths p Hc) as (segs&slash&Hs&Hp&Heq). rewrite Heq, routed_status_clean by done. split.
    + intros (a&->&->&Ha). exists a. rewrite Forall_cons in Hs. by destruct Hs.
    + intros (a&Ha&Hpl&Hst). exists a.
      assert (H1 : raw_segments (path_of segs slash) = [a]).
      { rewrite Ha. apply (raw_path_of [a] false); [by apply Forall_singleton|by left]. }
      assert (H2 : ends_slash (path_of segs slash) = false).
      { rewrite Ha. apply (ends_slash_path_of [a] false); [by apply Forall_singleton|by left]. }
      rewrite ends_slash_path_of in H2 by done. subst. by rewrite raw_path_of in H1.
  - split.
    + destruct (findHandler_unclean routes _ Hc) as [q Hq]. cbn [routed]. by rewrite Hq.
    + intros (a&Ha&Hpl&_). destruct Hc. rewrite Ha. apply clean_path_of; [by apply Forall_singleton|by left].
Qed.

(** ** The whole program *)

Definition serving (g : globals) : option (@shared DB) :=
  d ← g_Db g; t ← g_timeTaken g; Some (Shared d t).

(** What a request runs; nothing of this program, where a library answers. *)
Definition handler_of (g : globals) (r : request) : handler :=
  match routed (g_mux g) r with Some r' => Presence.serve r' | None => Pure () end.

Definition err_listen : string := "listen tcp :8000".
Definition err_socketio : string := "socketio listen error: ".

(** The states of the process after [boot].  [http.ListenAndServe], or the goroutine
    that runs [server.Serve()], can end it; a request that finds a global still [nil]
    would panic.  [sched] is what has happened since it listens. *)
Inductive main (opens : string + DB) (sched : list (nat * choice request)) :
    config (@shared DB) (thread request) → Prop :=
| main_boot why : boot opens = Panic why → main opens sched (Dead why)
| main_ends g why : boot opens = Ret g → why ∈ [err_listen; err_socketio] → main opens sched (Dead why)
| main_nil g : boot opens = Ret g → serving g = None → main opens sched (Dead err_nil)
| main_serves g s σ :
    boot opens = Ret g → serving g = Some s →
    run (tstep perform request (handler_of g)) sched (start request s) = Some σ → main opens sched σ.

(** What the environment has answered to the program's handlers. *)
Definition answers (g : globals) sched (s : shared) (r : Presence.request) (e : env * bool) : Prop :=
  ∃ r', routed (g_mux g) r' = Some r ∧
    (r', e) ∈ acted perform request (handler_of g) sched (start request s).

Lemma indicator_safe g sched s0 r s : later (answers g sched s0) s0 s →
  safe perform (later (answers g sched s0)) (λ why, why = err_map)
    (λ e, (r, e) ∈ acted perform request (handler_of g) sched (start request s0))
    (handler_of g r) (λ _, False)
    (λ _ s w, from_option (λ r', Q (answers g sched s0) s0 r' s w) True (routed (g_mux g) r)) s no_response.
Proof.
  intros Hs. unfold handler_of. destruct (routed (g_mux g) r) as [r'|] eqn:Hr; [|by intros s1 _].
  eapply safe_restrict; [|by apply presence_serve_safe]. intros e He. by exists r.
Qed.

(** C34. The program from its first statement.  It can only end because [sql.Open] or
    one of its two listeners fails, or in a data race on [timeTaken].  When it serves,
    the status page is at [/status], up to percent-encoding, and nowhere else; users
    are only added, and every row is one of the start or was written by a heartbeat of
    that user with a time it has read; a status page that has been answered says what
    the select found at some moment of the run; and no handler panics. *)
Theorem presence_main (opens : string + DB) sched (σ : config (@shared DB) (thread request))
    (Hm : main opens sched σ) :
  match σ with
  | Dead why => opens = inl why ∨ why = err_listen ∨ why = err_socketio ∨ why = err_map
  | Running s ls =>
      ∃ g d, boot opens = Ret g ∧ opens = inr d ∧
        let s0 := Shared d make_map in let N := answers g sched s0 in
        (∀ p, routed (g_mux g) (Http ("/" +:+ p)) = Some ReqStatus ↔
           ∃ a, "/" +:+ p = path_of [a] false ∧ plain a ∧ unescape a = "status") ∧
        (user_id <$> view d) `prefix_of` (user_id <$> view (db s)) ∧
        (∀ u, u ∈ view (db s) → u ∈ view d ∨ beaten N u) ∧
        (∀ k a w u, plain a → unescape a = "status" →
           ls !! k = Some (Handler request (Some (Http (path_of [a] false))) w (Pure u)) →
           ∃ s1 e1 e2, later N s0 s1 ∧ later N s1 s ∧ N ReqStatus e1 ∧ N ReqStatus e2 ∧
             delivered w (status_answer s1 e1.1 e2.1)) ∧
        (∀ k r w why, ls !! k ≠ Some (Recovered request r w why))
  end.
Proof.
  destruct Hm as [why Hb|g why Hb Hwhy|g Hb Hs|g s0 σ Hb Hs Hr]; rewrite boot_indicator in Hb.
  - destruct opens; simplify_eq. by left.
  - right. set_solver.
  - by destruct opens; simplify_eq/=.
  - destruct opens as [|d]; [done|].
    injection Hb as <-. injection Hs as <-. set (g := Globals (Some d) (Some make_map) routes) in *.
    set (s0 := Shared d make_map) in *.
    pose proof (server_run perform request (handler_of g) (later (answers g sched s0)) (λ why, why = err_map)
      _ (λ _ _, False) _ s0 (indicator_safe g sched s0) sched σ (λ r e H, H) Hr) as Hw.
    destruct σ as [s ls|why]; [|by right; right; right]. destruct Hw as ((Hm&_&Hu)&HQ&HT).
    exists g, d. split; [done|]. split; [done|]. split; [exact routed_status|].
    split; [done|]. split; [done|]. split; [|by intros k r w why Hk%HT].
    intros k a w u Ha Hst Hk. specialize (HQ k _ w u Hk). cbn [g_mux g] in HQ.
    rewrite (proj2 (routed_status_clean [a] false ltac:(by apply Forall_singleton) ltac:(by left))) in HQ
      by (by exists a). exact HQ.
Qed.

End start.

(** ** A run on the database in memory *)

Module Run.

Definition users : list user := [MkUser 1 0; MkUser 7 (95 * Second)].

Definition globals0 : @globals (list user) := Globals (Some users) (Some make_map) routes.

(** A heartbeat of user 9, and the status page. *)
Definition visit : list (nat * @choice (@env bool) request) :=
  [(0, Request request (OnHearbeat "9")); (0, Request request (Http "/status"))]%nat
  ++ replicate 3 (1%nat, Act request (Mem.at_time (100 * Second) 0%nat))
  ++ replicate 4 (2%nat, Act request (Mem.at_time (100 * Second) 0%nat)).

Definition after_visit : config (@shared (list user)) (thread request) :=
  default (Dead "") (run (tstep (perform (pdb := Mem.mem_db)) request (handler_of globals0)) visit
                         (start request (Shared users make_map))).

End Run.

Lemma presence_main_witness :
  match Run.after_visit with
  | Dead _ => False
  | Running s ls =>
      (user_id <$> db s) = [1; 7; 9]%Z ∧
      ∃ w s1 e1 e2, ls !! 2%nat = Some (Handler request (Some (Http "/status")) w (Pure ())) ∧
        status w = Some StatusOK ∧
        delivered w (status_answer (pdb := Mem.mem_db) s1 e1 e2)
  end.
Proof.
  assert (Hm : main (pdb := Mem.mem_db) (inr Run.users) Run.visit Run.after_visit).
  { apply (main_serves _ _ Run.globals0 (Shared Run.users make_map)); [reflexivity|reflexivity|].
    vm_compute. reflexivity. }
  pose proof (presence_main (inr Run.users) Run.visit _ Hm) as H.
  assert (Hw : match Run.after_visit with
               | Running s ls => (user_id <$> db s) = [1; 7; 9]%Z ∧
                   ∃ w, ls !! 2%nat = Some (Handler request (Some (Http "/status")) w (Pure ())) ∧
                     status w = Some StatusOK
               | Dead _ => False
               end) by (vm_compute; split; [reflexivity|eexists; split; reflexivity]).
  destruct Run.after_visit as [s ls|why]; [|exact Hw].
  destruct H as (g&d&_&_&_&_&_&Hq&_). destruct Hw as [H1 (w&H2&H3)].
  split; [exact H1|].
  destruct (Hq 2%nat "status" w () ltac:(by_compute) ltac:(by_compute) H2) as (s1&e1&e2&_&_&_&_&Hd).
  exists w, s1, e1.1, e2.1. split; [exact H2|]. split; [exact H3|exact Hd].
Defined.

End Indicator.
