(* ===== verification/KqueueEcho.v ===== *)
(** * KqueueEcho: redis/main.go

    The event loop: wait for ready descriptors, accept on the listener, echo on the
    others.  The kernel is the interface [Kernel]: the system calls, and what
    kqueue(2), accept(2) and close(2) document of the descriptors that are open and
    registered.  The loop is a program over the calls; [trace] records each call
    with its result and whether its descriptor was open. *)

From Stdlib Require Import Ascii.
From S2P Require Import Prelude GoLang GoHttp.

#[local] Open Scope Z_scope.

Module Kqueue.

(** ** System calls *)

Abbreviation bytes := (list ascii).

(** A [Kevent_t] from the kernel: [ev.Ident] and [ev.Flags&EV_EOF != 0]. *)
Record event := Event { Ident : Z; EOF : bool }.

Inductive waited := Interrupted | Failed | Ready (evs : list event).

Inductive sys :=
| Listen                        (** [net.Listen("tcp", ":8080")], the descriptor inside [ln] *)
| File (fd : Z)                 (** [tcpListener.File()]: a duplicate of the descriptor *)
| Kqueue                        (** [syscall.Kqueue()] *)
| Register (fd : Z) (clear : bool)
    (** [Kevent] with [EV_ADD | EV_ENABLE], and [EV_CLEAR] or not *)
| Wait                          (** [syscall.Kevent(kq, nil, events, nil)] *)
| Accept (fd : Z)
| SetNonblock (fd : Z)
| Read (fd : Z)                 (** into a buffer of 1024 bytes *)
| Write (fd : Z) (data : bytes)
| Close (fd : Z).

Definition sys_ans (c : sys) : Type :=
  match c with
  | Listen | File _ | Kqueue | Accept _ => option Z
  | Register _ _ => bool
  | Wait => waited
  | SetNonblock _ | Close _ => ()
  | Read _ => option bytes      (** [None] an error, [Some []] the end *)
  | Write _ _ => option nat     (** how much was written *)
  end.

(** The descriptor a call is made on. *)
Definition on (c : sys) : option Z :=
  match c with
  | Listen | Kqueue | Wait => None
  | File fd | Register fd _ | Accept fd | SetNonblock fd | Read fd | Write fd _ | Close fd => Some fd
  end.

Definition maxEvents : nat := 128.
Definition bufSize : nat := 1024.
#[global] Arguments maxEvents : simpl never.
#[global] Arguments bufSize : simpl never.

(** What the kernel keeps of the process: the open descriptors, those registered with
    its queue, those of listening sockets. *)
Class Descriptors (K : Type) := {
  opened : K → gset Z;
  registered : K → gset Z;
  listening : K → gset Z
}.

Section descriptors.
Context {K : Type} {fds : Descriptors K}.
Implicit Types (k : K).

Definition same k k' : Prop :=
  opened k' = opened k ∧ registered k' = registered k ∧ listening k' = listening k.

(** A call that may return a new descriptor, of a listening socket if [l]: one that was
    not in use. *)
Definition opens (l : bool) (x : option Z) k k' : Prop :=
  match x with
  | None => same k k'
  | Some fd =>
      (fd ∉ opened k) ∧ opened k' = {[fd]} ∪ opened k ∧ registered k' = registered k ∧
      listening k' = if l then {[fd]} ∪ listening k else listening k
  end.

Lemma opens_same l x k1 k2 k3 : same k1 k2 → opens l x k2 k3 → opens l x k1 k3.
Proof. intros (Ho&Hr&Hl). destruct x as [fd|]; unfold opens, same; by rewrite Ho, Hr, Hl. Qed.
End descriptors.

Class Kernel (K E : Type) {fds : Descriptors K} := {
  call : ∀ c : sys, E → K → sys_ans c * K;
  listen_ok e k : opens true (call Listen e k).1 k (call Listen e k).2;
  file_ok fd e k :
    opens (bool_decide (fd ∈ listening k)) (call (File fd) e k).1 k (call (File fd) e k).2;
  (** a new queue has nothing registered *)
  kqueue_ok e k :
    match (call Kqueue e k).1 with
    | None => same k (call Kqueue e k).2
    | Some fd =>
        (fd ∉ opened k) ∧ opened (call Kqueue e k).2 = {[fd]} ∪ opened k ∧
        registered (call Kqueue e k).2 = ∅ ∧ listening (call Kqueue e k).2 = listening k
    end;
  register_ok fd clear e k :
    opened (call (Register fd clear) e k).2 = opened k ∧
    registered (call (Register fd clear) e k).2 =
      (if (call (Register fd clear) e k).1 : bool then {[fd]} ∪ registered k else registered k) ∧
    listening (call (Register fd clear) e k).2 = listening k;
  (** one event per registered descriptor; a listening socket has no end of file *)
  wait_ok e k :
    match (call Wait e k).1 with
    | Ready evs =>
        (length evs ≤ maxEvents)%nat ∧ NoDup (Ident <$> evs) ∧
        ∀ ev, ev ∈ evs → Ident ev ∈ registered k ∧ (EOF ev = true → Ident ev ∉ listening k)
    | _ => True
    end;
  wait_keeps e k : same k (call Wait e k).2;
  accept_ok fd e k : opens false (call (Accept fd) e k).1 k (call (Accept fd) e k).2;
  nonblock_ok fd e k : same k (call (SetNonblock fd) e k).2;
  read_ok fd e k :
    same k (call (Read fd) e k).2 ∧
    match (call (Read fd) e k).1 with Some data => (length data ≤ bufSize)%nat | None => True end;
  write_ok fd data e k :
    same k (call (Write fd data) e k).2 ∧
    match (call (Write fd data) e k).1 with Some n => (n ≤ length data)%nat | None => True end;
  (** closing a descriptor removes it from the queue *)
  close_ok fd e k :
    opened (call (Close fd) e k).2 = opened k ∖ {[fd]} ∧
    registered (call (Close fd) e k).2 = registered k ∖ {[fd]} ∧
    listening (call (Close fd) e k).2 = listening k ∖ {[fd]}
}.

(** ** The loop *)

Abbreviation code A := (prog sys_ans A).

Definition do (c : sys) : code (sys_ans c) := app (ans := sys_ans) c.

(** One event. *)
Definition handle (listenerFd : Z) (ev : event) : code () :=
  let fd := Ident ev in
  if EOF ev then do (Close fd)
  else if decide (fd = listenerFd) then
    r ← do (Accept listenerFd);
    match r : option Z with
    | None => Pure ()
    | Some conn =>
        do (SetNonblock conn);;
        ok ← do (Register conn true);
        if ok : bool then Pure () else do (Close conn)
    end
  else
    r ← do (Read fd);
    match r : option bytes with
    | None | Some [] => do (Close fd)
    | Some data => _ ← do (Write fd data); Pure ()
    end.

(** [for i := 0; i < nevents; i++ { ... }] *)
Fixpoint handle_all (listenerFd : Z) (evs : list event) : code () :=
  match evs with
  | [] => Pure ()
  | ev :: evs' => handle listenerFd ev;; handle_all listenerFd evs'
  end.

(** One round of the loop; [false] breaks out of it. *)
Definition round (listenerFd : Z) : code bool :=
  r ← do Wait;
  match r : waited with
  | Interrupted => Pure true
  | Failed => Pure false
  | Ready evs => handle_all listenerFd evs;; Pure true
  end.

(** The first [n] rounds; [true] if the loop has not been left. *)
Fixpoint rounds (n : nat) (listenerFd : Z) : code bool :=
  match n with
  | O => Pure true
  | S n' => goes_on ← round listenerFd; if goes_on : bool then rounds n' listenerFd else Pure false
  end.

(** ** The program *)

Definition os_Exit : string := "os.Exit(1)".

(** [getSocketFile(ln)]; what [net.Listen("tcp", ...)] returns is a
    [*net.TCPListener]. *)
Definition getSocketFile (ln : Z) : code (option Z) := do (File ln).

(** [main] up to the [n]-th round of its loop: [true] if it has not left it.  If
    [net.Listen] fails, whose error is not looked at, [ln] is [nil] and [defer
    ln.Close()] panics.  The deferred calls run when the loop has been left, in reverse
    order; [os.Exit] does not run them. *)
Definition main (n : nat) : code bool :=
  ln ← do Listen;
  match ln : option Z with
  | None => Throw err_nil
  | Some lnFd =>
      r ← getSocketFile lnFd;
      match r : option Z with
      | None => Exit os_Exit
      | Some listenerFd =>
          kq ← do Kqueue;
          match kq : option Z with
          | None => Exit os_Exit
          | Some kqFd =>
              ok ← do (Register listenerFd false);
              if ok : bool then
                goes_on ← rounds n listenerFd;
                if goes_on : bool then Pure true
                else do (Close kqFd);; do (Close listenerFd);; do (Close lnFd);; Pure false
              else Exit os_Exit
          end
      end
  end.

Section semantics.
Context {K E : Type} {fds : Descriptors K} {kernel : Kernel K E}.

(** A call with its result, and whether its descriptor was open. *)
Record entry := Entry { e_call : sys; e_result : sys_ans e_call; e_open : bool }.

Record state := State { kern : K; trace : list entry }.

Definition is_open (c : sys) (k : K) : bool :=
  match on c with Some fd => bool_decide (fd ∈ opened k) | None => true end.

Definition perform (c : sys) (e : E) (s : state) : sys_ans c * state :=
  let (x, k) := call c e (kern s) in
  (x, State k (trace s ++ [Entry c x (is_open c (kern s))])).

(** [main] up to its [n]-th round from the kernel state [k], against the decisions
    [o]. *)
Definition run (o : nat → E * bool) (n : nat) (k : K) : result (ans := sys_ans) (S := state) bool :=
  alone perform o 0 (main n) (State k []) no_response.

(** ** Descriptors *)

Definition hygienic (tr : list entry) : Prop := Forall (λ en, e_open en = true) tr.

(** The data received from and sent to a descriptor. *)
Definition received (fd : Z) (en : entry) : bytes :=
  match en with
  | Entry (Read fd') (Some data) _ => if decide (fd' = fd) then data else []
  | _ => []
  end.
Definition echoed (fd : Z) (en : entry) : bytes :=
  match en with
  | Entry (Write fd' data) _ _ => if decide (fd' = fd) then data else []
  | _ => []
  end.

Lemma join_snoc {A B} (f : A → list B) l x : mjoin (f <$> l ++ [x]) = mjoin (f <$> l) ++ f x.
Proof. rewrite fmap_app, join_app. simpl. by rewrite app_nil_r. Qed.

(** Every call was made on an open descriptor, and what was read has been written. *)
Definition clean (tr : list entry) : Prop :=
  hygienic tr ∧ ∀ fd, mjoin (echoed fd <$> tr) = mjoin (received fd <$> tr).

Implicit Types (k : K) (s : state) (w : response).

(** A call other than reading and writing, on an open descriptor. *)
Lemma clean_call c x s :
  clean (trace s) → (∀ fd, on c = Some fd → fd ∈ opened (kern s)) →
  (∀ fd o, received fd (Entry c x o) = [] ∧ echoed fd (Entry c x o) = []) →
  clean (trace s ++ [Entry c x (is_open c (kern s))]).
Proof.
  intros [Hh He] Hon Hio. split.
  - apply Forall_app. split; [done|]. repeat constructor. simpl. unfold is_open.
    destruct (on c) as [fd|]; [|done]. by apply bool_decide_eq_true, Hon.
  - intros fd. rewrite !join_snoc. destruct (Hio fd (is_open c (kern s))) as [-> ->].
    by rewrite !app_nil_r.
Qed.

(** [main] ends the process in no other way than [os.Exit(1)], unless it could not
    listen. *)
Definition exits (why : string) s (w : response) : Prop :=
  (why = os_Exit ∨ why = err_nil ∧ trace s = [Entry Listen None true]) ∧ clean (trace s).

Abbreviation ensures := (ensures perform exits).

(** A program that starts with such a call. *)
Lemma ensures_do {A} c (f : sys_ans c → code A) Q s w :
  clean (trace s) → (∀ fd, on c = Some fd → fd ∈ opened (kern s)) →
  (∀ x fd o, received fd (Entry c x o) = [] ∧ echoed fd (Entry c x o) = []) →
  (∀ e s', clean (trace s') → kern s' = (call c e (kern s)).2 →
     ensures (f (call c e (kern s)).1) Q s' w) →
  ensures (Do (CApp c) f) Q s w.
Proof.
  intros Hc Hon Hio Hf e. specialize (Hf e.1). cbn. unfold perform.
  destruct (call c e.1 (kern s)) as [x k]. apply Hf; [|done]. simpl.
  apply clean_call; [done|done|]. intros fd o. apply Hio.
Qed.

Section loop.
Variables listenerFd kqFd lnFd : Z.

(** What the loop needs of the kernel: only open descriptors are registered, among them
    the listener, and not the two that are closed at the end. *)
Record sound k : Prop := {
  sd_registered : registered k ⊆ opened k;
  sd_listener : listenerFd ∈ registered k ∧ listenerFd ∈ listening k;
  sd_mine : {[kqFd; lnFd]} ⊆ opened k ∧ {[kqFd; lnFd]} ## registered k
}.

Lemma sound_same k k' : same k k' → sound k → sound k'.
Proof. intros (Ho&Hr&Hl) [H1 H2 H3]. split; by rewrite ?Ho, ?Hr, ?Hl. Qed.

Lemma sound_accept x k k' : opens false x k k' → sound k → sound k'.
Proof.
  destruct x as [fd|]; [|apply sound_same]. intros (Hf&Ho&Hr&Hl) [H1 H2 [H3 H4]].
  split; rewrite ?Ho, ?Hr, ?Hl; [set_solver|done|]. split; [set_solver|done].
Qed.

(** Only descriptors that are registered, or new, are closed. *)
Lemma sound_close fd e k :
  fd ≠ listenerFd → fd ∉ ({[kqFd; lnFd]} : gset Z) → sound k → sound (call (Close fd) e k).2.
Proof.
  intros Hne Hf [H1 [H2 H2'] [H3 H4]]. destruct (close_ok fd e k) as (Ho&Hr&Hl).
  split; rewrite ?Ho, ?Hr, ?Hl; [set_solver|split; set_solver|]. split; set_solver.
Qed.

Lemma sound_register fd clear e k :
  fd ∈ opened k → fd ∉ ({[kqFd; lnFd]} : gset Z) → sound k → sound (call (Register fd clear) e k).2.
Proof.
  intros Hfd Hf [H1 [H2 H2'] [H3 H4]]. destruct (register_ok fd clear e k) as (Ho&Hr&Hl).
  destruct (call (Register fd clear) e k) as [[] k']; simpl in *;
    (split; rewrite ?Ho, ?Hr, ?Hl; [set_solver|split; set_solver|]; split; set_solver).
Qed.

(** Between two events. *)
Definition ok s : Prop := clean (trace s) ∧ sound (kern s).

(** Handling the event of a registered descriptor keeps everything in order, and
    touches the registration of no other one. *)
Definition handled (fd : Z) s s' : Prop :=
  ok s' ∧ ∀ fd', fd' ∈ registered (kern s) → fd' ≠ fd → fd' ∈ registered (kern s').

Lemma handled_close fd s w :
  ok s → fd ∈ registered (kern s) → fd ≠ listenerFd →
  ensures (do (Close fd)) (λ _ s' _, handled fd s s') s w.
Proof.
  intros [Hc Hs] Hfd Hne. pose proof Hs as [H1 H2 [H3 H4]].
  apply ensures_do; [done|intros ? [= <-]; set_solver|by intros|]. intros e s' Hc' Hk.
  split; [split; [done|]; rewrite Hk; apply sound_close; [done|set_solver|done]|].
  rewrite Hk. destruct (close_ok fd e (kern s)) as (_&->&_). set_solver.
Qed.

Lemma ensures_accept s w :
  ok s → ensures (handle listenerFd (Event listenerFd false)) (λ _ s' _, handled listenerFd s s') s w.
Proof.
  intros [Hc Hs]. pose proof Hs as [H1 [H2 _] [H3 H4]].
  unfold handle. cbn [EOF Ident]. rewrite decide_True by done.
  apply ensures_do; [done|intros ? [= <-]; set_solver|by intros|]. intros e s1 Hc1 Hk1.
  pose proof (accept_ok listenerFd e (kern s)) as Ha. rewrite <-Hk1 in Ha.
  pose proof (sound_accept _ _ _ Ha Hs) as Hs1.
  destruct (call (Accept listenerFd) e (kern s)).1 as [conn|]; cbn [prog_bind].
  2:{ split; [done|]. destruct Ha as (_&->&_). set_solver. }
  destruct Ha as (Hfresh&Ho&Hr&_).
  apply ensures_do; [done|intros ? [= <-]; set_solver|by intros|]. intros e2 s2 Hc2 Hk2.
  pose proof (nonblock_ok conn e2 (kern s1)) as Hn. rewrite <-Hk2 in Hn.
  pose proof (sound_same _ _ Hn Hs1) as Hs2. destruct Hn as (Ho2&Hr2&_).
  apply ensures_do; [done|intros ? [= <-]; set_solver|by intros|]. intros e3 s3 Hc3 Hk3.
  assert (Hs3 : sound (kern s3)).
  { rewrite Hk3. apply sound_register; [set_solver|set_solver|done]. }
  destruct (register_ok conn true e3 (kern s2)) as (Ho3&Hr3&_). rewrite <-Hk3 in Ho3, Hr3.
  destruct (call (Register conn true) e3 (kern s2)).1.
  { split; [done|]. set_solver. }
  apply ensures_do; [done|intros ? [= <-]; set_solver|by intros|]. intros e4 s4 Hc4 Hk4.
  split; [split; [done|]; rewrite Hk4; apply sound_close; [set_solver..|done]|].
  rewrite Hk4. destruct (close_ok conn e4 (kern s3)) as (_&->&_). set_solver.
Qed.

Lemma ensures_data ev s w :
  ok s → Ident ev ∈ registered (kern s) → Ident ev ≠ listenerFd → EOF ev = false →
  ensures (handle listenerFd ev) (λ _ s' _, handled (Ident ev) s s') s w.
Proof.
  intros [[Hh He] Hs] Hfd Hne Heof. unfold handle. rewrite Heof, decide_False by done. intros e. cbn.
  set (fd := Ident ev) in *. pose proof Hs as [H1 _ _]. destruct (read_ok fd e.1 (kern s)) as [Hk _].
  assert (Hfo : fd ∈ opened (kern s)) by set_solver.
  unfold perform at 1. destruct (call (Read fd) e.1 (kern s)) as [x k]. simpl in Hk.
  pose proof (sound_same _ _ Hk Hs) as Hs1. destruct Hk as (Ho&Hr&_). set (s1 := State k _).
  assert (Hclose : (x = None ∨ x = Some []) → ensures (do (Close fd)) (λ _ s' _, handled fd s s') s1 w).
  { intros Hx. assert (Hok1 : ok s1).
    { split; [|done]. apply clean_call; [done|by intros ? [= <-]|].
      intros fd' o. by destruct Hx as [-> | ->]; simpl; [|case_decide]. }
    eapply ensures_mono; [|apply (handled_close fd s1 w Hok1); [simpl; by rewrite Hr|done]].
    intros _ s' _ [? Hs']. split; [done|]. intros fd' Hfd'. apply Hs'. simpl. by rewrite Hr. }
  destruct x as [[|b data]|]; cbn; [apply Hclose; by right| |apply Hclose; by left].
  intros e2. destruct (write_ok fd (b :: data) e2.1 k) as [Hk2 _]. unfold perform.
  destruct (call (Write fd (b :: data)) e2.1 (kern s1)) as [x2 k2] eqn:H2. simpl in H2. rewrite H2 in *.
  pose proof (sound_same _ _ Hk2 Hs1) as Hs2. destruct Hk2 as (Ho2&Hr2&_). simpl in Ho2, Hr2.
  cbn. split; [split; [split|done]|simpl; by rewrite Hr2, Hr].
  - apply Forall_app. split; [apply Forall_app; split; [done|]|]; repeat constructor; simpl;
      apply bool_decide_eq_true; simpl; by rewrite ?Ho.
  - intros fd'. simpl. rewrite !join_snoc, (He fd'). simpl. case_decide; by rewrite ?app_nil_r.
Qed.

Lemma ensures_handle ev s w :
  ok s → Ident ev ∈ registered (kern s) → (EOF ev = true → Ident ev ≠ listenerFd) →
  ensures (handle listenerFd ev) (λ _ s' _, handled (Ident ev) s s') s w.
Proof.
  intros Hok Hfd Heof. destruct ev as [fd [|]]; simpl in *.
  - by apply handled_close; auto.
  - destruct (decide (fd = listenerFd)) as [->|Hne]; [by apply ensures_accept|].
    by apply (ensures_data (Event fd false)).
Qed.

Lemma ensures_handle_all evs s w :
  ok s → NoDup (Ident <$> evs) →
  (∀ ev, ev ∈ evs → Ident ev ∈ registered (kern s) ∧ (EOF ev = true → Ident ev ≠ listenerFd)) →
  ensures (handle_all listenerFd evs) (λ _ s' _, ok s') s w.
Proof.
  revert s w. induction evs as [|ev evs IH]; intros s w Hok Hnd Hevs; [done|].
  rewrite fmap_cons in Hnd. apply NoDup_cons in Hnd as [Hev Hnd].
  cbn [handle_all]. apply ensures_bind. eapply ensures_mono; [|apply ensures_handle; [done|..]].
  - intros [] s' w' [Hs' Hother]. apply IH; [done|done|]. intros ev' Hev'. split.
    + apply Hother; [apply Hevs; set_solver|]. intros He. apply Hev. rewrite <-He.
      by apply (list_elem_of_fmap_2 Ident).
    + apply Hevs. set_solver.
  - apply Hevs. set_solver.
  - apply Hevs. set_solver.
Qed.

Lemma ensures_round s w : ok s → ensures (round listenerFd) (λ _ s' _, ok s') s w.
Proof.
  intros [Hc Hs]. apply ensures_do; [done|done|by intros|]. intros e s1 Hc1 Hk1.
  pose proof (wait_ok e (kern s)) as Hw. pose proof (wait_keeps e (kern s)) as Hk. rewrite <-Hk1 in Hk.
  pose proof (sound_same _ _ Hk Hs) as Hs1. destruct Hk as (_&Hr&_).
  destruct (call Wait e (kern s)).1 as [| |evs]; cbn [prog_bind]; [by split..|].
  destruct Hw as (_&Hnd&Hevs). apply ensures_bind.
  eapply ensures_mono; [|apply ensures_handle_all; [by split|done|]].
  - by intros [] s' w' Hs'.
  - intros ev Hev. destruct (Hevs ev Hev) as [Hi Heof]. rewrite Hr. split; [done|].
    intros He Hid. apply (Heof He). rewrite Hid. apply Hs.
Qed.

Lemma ensures_rounds n s w : ok s → ensures (rounds n listenerFd) (λ _ s' _, ok s') s w.
Proof.
  revert s w. induction n as [|n IH]; intros s w Hok; [done|]. cbn [rounds].
  apply ensures_bind. eapply ensures_mono; [|by apply ensures_round].
  intros [] s' w' Hs'; [by apply IH|done].
Qed.

(** The deferred calls. *)
Lemma ensures_defers s w :
  ok s → kqFd ≠ lnFd →
  ensures (do (Close kqFd);; do (Close listenerFd);; do (Close lnFd);; Pure false)
    (λ alive s' _, alive = false ∧ clean (trace s')) s w.
Proof.
  intros [Hc [H1 [H2 _] [H3 H4]]] Hne.
  apply ensures_do; [done|intros ? [= <-]; set_solver|by intros|]. intros e s1 Hc1 Hk1.
  destruct (close_ok kqFd e (kern s)) as (Ho1&_). rewrite <-Hk1 in Ho1.
  apply ensures_do; [done|intros ? [= <-]; set_solver|by intros|]. intros e2 s2 Hc2 Hk2.
  destruct (close_ok listenerFd e2 (kern s1)) as (Ho2&_). rewrite <-Hk2 in Ho2.
  apply ensures_do; [done|intros ? [= <-]; set_solver|by intros|]. by intros e3 s3 Hc3 Hk3.
Qed.

End loop.

(** While the loop runs, the process listens. *)
Definition serving (alive : bool) s : Prop :=
  clean (trace s) ∧
  if alive then registered (kern s) ⊆ opened (kern s) ∧
                ∃ fd, fd ∈ registered (kern s) ∧ fd ∈ listening (kern s)
  else True.

Lemma ensures_main n k w : ensures (main n) (λ alive s _, serving alive s) (State k []) w.
Proof.
  intros [e b]. pose proof (listen_ok e k) as Hx1. cbn. unfold perform. cbn.
  destruct (call Listen e k) as [x k1]. cbn in *.
  assert (Hc1 : clean [Entry Listen x true]) by by split; [repeat constructor|].
  destruct x as [lnFd|]; [|by split; [right|]]. set (s1 := State k1 _).
  change k1 with (kern s1) in Hx1. destruct Hx1 as (Hf1&Ho1&_&Hl1).
  apply ensures_do; [done|intros ? [= <-]; set_solver|by intros|]. intros e2 s2 Hc2 Hk2.
  pose proof (file_ok lnFd e2 (kern s1)) as Hx2. rewrite <-Hk2 in Hx2.
  rewrite bool_decide_eq_true_2 in Hx2 by set_solver.
  destruct (call (File lnFd) e2 (kern s1)).1 as [listenerFd|]; [|by split; [left|]]. destruct Hx2 as (Hf2&Ho2&_&Hl2).
  apply ensures_do; [done|done|by intros|]. intros e3 s3 Hc3 Hk3.
  pose proof (kqueue_ok e3 (kern s2)) as Hx3. rewrite <-Hk3 in Hx3.
  destruct (call Kqueue e3 (kern s2)).1 as [kqFd|]; [|by split; [left|]]. destruct Hx3 as (Hf3&Ho3&Hr3&Hl3).
  apply ensures_do; [done|intros ? [= <-]; set_solver|by intros|]. intros e4 s4 Hc4 Hk4.
  destruct (register_ok listenerFd false e4 (kern s3)) as (Ho4&Hr4&Hl4). rewrite <-Hk4 in Ho4, Hr4, Hl4.
  destruct (call (Register listenerFd false) e4 (kern s3)).1; [|by split; [left|]].
  apply ensures_bind. eapply ensures_mono; [|apply (ensures_rounds listenerFd kqFd lnFd)].
  - intros [] s' w' Hok; [|eapply ensures_mono; [|apply (ensures_defers listenerFd); [done|set_solver]]].
    + destruct Hok as [Hc [H1 H2 _]]. split; [done|]. split; [done|]. by exists listenerFd.
    + by intros alive s'' w'' [-> ?].
  - split; [done|]. clear Hc1 Hc2 Hc3 Hk2 Hk3 Hk4.
    split; rewrite ?Ho4, ?Hr4, ?Hl4, ?Ho3, ?Hr3, ?Hl3; [set_solver|set_solver|split; set_solver].
Qed.

(** C36. Descriptor hygiene.  Against any behaviour of the kernel and the clients, for
    any number of rounds, no call is ever made on a closed descriptor: not while it sets
    up, nor when a connection closed earlier in the same batch of events gives its
    number to a new one, nor by the deferred calls at the end.  [main] panics only if
    it cannot listen, at its first call; otherwise it ends by [os.Exit(1)] or by leaving
    the loop.  As long as the loop runs, a listening socket is open and registered, and
    no closed descriptor is registered. *)
Theorem redis_descriptors (o : nat → E * bool) (n : nat) (k : K) :
  let r := run o n k in
  hygienic (trace (r_state r)) ∧
  match r_value r with
  | Ret true =>
      registered (kern (r_state r)) ⊆ opened (kern (r_state r)) ∧
      ∃ fd, fd ∈ registered (kern (r_state r)) ∧ fd ∈ listening (kern (r_state r))
  | Ret false => True
  | Panic why => why = os_Exit ∨ why = err_nil ∧ trace (r_state r) = [Entry Listen None true]
  end.
Proof.
  pose proof (ensures_alone perform exits o 0 _ _ (State k []) no_response
                (ensures_main n k no_response)) as Hr.
  fold (run o n k) in Hr. cbv zeta. destruct (r_value (run o n k)) as [alive|why].
  - destruct Hr as [[Hh _] Hs]. split; [done|]. by destruct alive.
  - destruct Hr as [Hwhy [Hh _]]. done.
Qed.

(** C37. Echo.  For every descriptor, the data handed to [syscall.Write] so far is the
    data that [syscall.Read] has returned, all of it, in order, and nothing else. *)
Theorem redis_echoes (o : nat → E * bool) (n : nat) (k : K) (fd : Z) :
  mjoin (echoed fd <$> trace (r_state (run o n k))) = mjoin (received fd <$> trace (r_state (run o n k))).
Proof.
  pose proof (ensures_alone perform exits o 0 _ _ (State k []) no_response
                (ensures_main n k no_response)) as Hr.
  fold (run o n k) in Hr. destruct (r_value (run o n k)); [by destruct Hr as [[_ ?] _]|by destruct Hr as [_ [_ ?]]].
Qed.

End semantics.

(** ** A kernel in memory

    What the clients do before a call is part of the choice at that call.  Connections
    are reported on arrival of data or of the end, once ([EV_CLEAR]); the listener as
    long as somebody waits. *)
Module Mem.

Inductive client := Connect | Send (fd : Z) (data : bytes) | Shut (fd : Z).

Record mem := MkMem {
  m_open : gset Z;
  m_registered : gset Z;
  m_listening : gset Z;
  m_waiting : nat;
  m_input : gmap Z bytes;   (** received and not yet read *)
  m_ready : gset Z;         (** connections with news since last reported *)
  m_ended : gset Z
}.

Definition set_fds (o r l : gset Z) (k : mem) : mem :=
  MkMem o r l (m_waiting k) (m_input k) (m_ready k) (m_ended k).
Definition set_news (i : gmap Z bytes) (r e : gset Z) (k : mem) : mem :=
  MkMem (m_open k) (m_registered k) (m_listening k) (m_waiting k) i r e.
Definition set_waiting (n : nat) (k : mem) : mem :=
  MkMem (m_open k) (m_registered k) (m_listening k) n (m_input k) (m_ready k) (m_ended k).

#[global] Instance mem_fds : Descriptors mem :=
  {| opened := m_open; registered := m_registered; listening := m_listening |}.

Definition act (k : mem) (c : client) : mem :=
  match c with
  | Connect => set_waiting (S (m_waiting k)) k
  | Send fd data =>
      set_news (<[fd := default [] (m_input k !! fd) ++ data]> (m_input k)) ({[fd]} ∪ m_ready k) (m_ended k) k
  | Shut fd => set_news (m_input k) ({[fd]} ∪ m_ready k) ({[fd]} ∪ m_ended k) k
  end.

Definition is_ready (k : mem) (fd : Z) : bool :=
  if decide (fd ∈ m_listening k) then bool_decide (m_waiting k ≠ O) else bool_decide (fd ∈ m_ready k).

Definition events (k : mem) : list event :=
  (λ fd, Event fd (bool_decide (fd ∉ m_listening k ∧ fd ∈ m_ended k)))
  <$> take maxEvents (filter (λ fd, is_ready k fd = true) (elements (m_registered k))).

(** A new descriptor. *)
Definition new_fd (l : bool) (k : mem) : option Z * mem :=
  let fd := fresh (m_open k) in
  (Some fd, set_fds ({[fd]} ∪ m_open k) (m_registered k)
              (if l then {[fd]} ∪ m_listening k else m_listening k) k).

Definition run (c : sys) (k : mem) : sys_ans c * mem :=
  match c with
  | Listen => new_fd true k
  | File fd => new_fd (bool_decide (fd ∈ m_listening k)) k
  | Kqueue => let (x, k') := new_fd false k in (x, set_fds (m_open k') ∅ (m_listening k') k')
  | Register fd _ => (true, set_fds (m_open k) ({[fd]} ∪ m_registered k) (m_listening k) k)
  | Wait =>
      let evs := events k in
      (match evs with [] => Interrupted | _ => Ready evs end,
       set_news (m_input k) (m_ready k ∖ list_to_set (Ident <$> evs)) (m_ended k) k)
  | Accept _ =>
      match m_waiting k with
      | O => (None, k)
      | S n =>
          let fd := fresh (m_open k) in
          new_fd false (set_waiting n (set_news (delete fd (m_input k)) (m_ready k ∖ {[fd]}) (m_ended k ∖ {[fd]}) k))
      end
  | SetNonblock _ => ((), k)
  | Read fd =>
      let data := default [] (m_input k !! fd) in
      (if decide (data = [] ∧ fd ∉ m_ended k) then None else Some (take bufSize data),
       set_news (<[fd := drop bufSize data]> (m_input k)) (m_ready k) (m_ended k) k)
  | Write _ data => (Some (length data), k)
  | Close fd =>
      ((), set_fds (m_open k ∖ {[fd]}) (m_registered k ∖ {[fd]}) (m_listening k ∖ {[fd]}) k)
  end.

Definition call (c : sys) (e : list client) (k : mem) : sys_ans c * mem := run c (foldl act k e).

Lemma act_same e k : same k (foldl act k e).
Proof.
  revert k. induction e as [|c e IH]; intros k; [done|]. simpl.
  destruct (IH (act k c)) as (Ho&Hr&Hl). split; [|split]; rewrite ?Ho, ?Hr, ?Hl; by destruct c.
Qed.

Lemma events_ok k :
  (length (events k) ≤ maxEvents)%nat ∧ NoDup (Ident <$> events k) ∧
  ∀ ev, ev ∈ events k → Ident ev ∈ m_registered k ∧ (EOF ev = true → Ident ev ∉ m_listening k).
Proof.
  unfold events. set (l := filter _ (elements (m_registered k))).
  split; [rewrite length_fmap, length_take; lia|]. split.
  - rewrite <-list_fmap_compose, (list_fmap_ext _ id) by done. rewrite list_fmap_id.
    assert (Hl : NoDup l) by apply NoDup_filter, NoDup_elements.
    rewrite <-(take_drop maxEvents l) in Hl. by apply NoDup_app in Hl as (?&_).
  - intros ev Hev. apply list_elem_of_fmap in Hev as (fd&->&Hfd). simpl.
    apply elem_of_take in Hfd as (j&Hj&_). apply list_elem_of_lookup_2, list_elem_of_filter in Hj as [_ Hj].
    apply elem_of_elements in Hj. split; [done|]. by intros [??]%bool_decide_eq_true.
Qed.

Lemma new_fd_ok l k : opens l (new_fd l k).1 k (new_fd l k).2.
Proof. split; [apply is_fresh|done]. Qed.

#[global] Instance mem_kernel : Kernel mem (list client).
Proof.
  refine {| Kqueue.call := call |}; unfold call; intros.
  - eapply opens_same; [apply act_same|apply new_fd_ok].
  - rewrite <-(proj2 (proj2 (act_same e k))). eapply opens_same; [apply act_same|apply new_fd_ok].
  - destruct (act_same e k) as (Ho&_&Hl). simpl in *. rewrite Ho, Hl. split; [apply is_fresh|done].
  - destruct (act_same e k) as (Ho&Hr&Hl). simpl in *. by rewrite Hr.
  - destruct (act_same e k) as (_&Hr&Hl). pose proof (events_ok (foldl act k e)) as Hev.
    simpl in *. rewrite Hr, Hl in Hev. by destruct (events (foldl act k e)).
  - apply (act_same e k).
  - eapply opens_same; [apply act_same|]. simpl.
    destruct (m_waiting (foldl act k e)); [done|]. split; [apply is_fresh|done].
  - apply act_same.
  - split; [apply (act_same e k)|]. simpl. case_decide; [done|]. rewrite length_take. lia.
  - split; [apply (act_same e k)|simpl; lia].
  - destruct (act_same e k) as (Ho&Hr&Hl). simpl in *. by rewrite Ho, Hr, Hl.
Defined.

(** A new process: its standard streams. *)
Definition k0 : mem := MkMem {[0; 1; 2]} ∅ ∅ 0 ∅ ∅ ∅.

(** A client connects once the loop waits, then does [cs], and is then silent. *)
Definition script (cs : list client) (n : nat) : list client * bool :=
  (match n with 4%nat => [Connect] | 8%nat => cs | _ => [] end, true).

Definition final (cs : list client) (n : nat) : @state mem := r_state (Kqueue.run (script cs) n k0).

(** The descriptor of that connection: the fourth that is opened. *)
Definition conn : Z :=
  match m_registered (kern (final [] 1)) ∖ m_listening (kern (final [] 1)) with
  | s => default 0 (head (elements s))
  end.

Definition ping : bytes := ["P"; "I"; "N"; "G"]%char.

(** A line longer than the buffer. *)
Definition long : bytes := replicate 1500 "x"%char.

(** A session: the data sent is read and echoed. *)
Example ping_echoed :
  mjoin (echoed conn <$> trace (final [Send conn ping] 3)) = ping ∧
  length (trace (final [Send conn ping] 3)) = 12%nat ∧ conn ∈ m_open (kern (final [Send conn ping] 3)).
Proof. split; [vm_compute; reflexivity|]. split; [vm_compute; reflexivity|by_compute]. Qed.

End Mem.

(** Edge-triggered events and a single read per event: of 1500 bytes sent at once
    the first 1024 are echoed, and the other 476 stay in the kernel, through ten
    further rounds in which the client is silent; and what a client sends
    just before it closes its side is not echoed at all. *)
Theorem redis_stalls :
  (let s := Mem.final [Mem.Send Mem.conn Mem.long] 12 in
   length (mjoin (echoed Mem.conn <$> trace s)) = 1024%nat ∧
   length <$> Mem.m_input (kern s) !! Mem.conn = Some 476%nat ∧ Mem.conn ∈ Mem.m_open (kern s)) ∧
  (let s := Mem.final [Mem.Send Mem.conn Mem.long; Mem.Shut Mem.conn] 12 in
   mjoin (echoed Mem.conn <$> trace s) = [] ∧ (Mem.conn ∉ Mem.m_open (kern s))).
Proof. split; cbv zeta; by_compute. Qed.

End Kqueue.
