(* ===== verification/StaticFiles.v ===== *)
(** * StaticFiles: staticFileServer/main.go

    [FileHandler] serves the file system: a directory as a table of links, a file
    as its bytes.  The file system is the interface [Files]. *)

From Stdlib Require Import Ascii.
From stdpp Require Import pretty.
From S2P Require Import Prelude GoLang GoHttp GoMux.

#[local] Open Scope Z_scope.

Module Static.

(** ** The file system *)

(** An open [*os.File], a handle. *)
Abbreviation file := nat.

(** The [os.FileInfo] the handler uses; [Size] is not negative. *)
Record info := Info { Name : string; IsDir : bool; Size : nat }.

(** A directory entry: [dir.Name()], and [dir.Info()], [None] if it fails, with
    [ModTime().String()] and [Size()]. *)
Record entry := Entry { e_Name : string; e_Info : option (string * Z) }.

Inductive op :=
| Open (path : string)
| Stat (f : file)
| ReadDir (f : file)              (** [osFile.ReadDir(0)] *)
| Read (f : file) (size : nat).   (** one read into a buffer of [size] bytes *)

(** [ReadDir] returns what it has read along with its error, if any; [Read] the
    bytes that arrived. *)
Definition op_ans (o : op) : Type :=
  match o with
  | Open _ => option file
  | Stat _ => option info
  | ReadDir _ => list entry * bool
  | Read _ _ => option string
  end.

Abbreviation handler := (prog op_ans ()).

Definition do (o : op) : prog op_ans (op_ans o) := app (ans := op_ans) o.

(** ** Pages *)

Definition quote : string := String (ascii_of_nat 34) EmptyString.

Definition default_page : string := "<html><body>Static File Server HW</body></html>".

Definition page_head : string :=
  "<html><head><title>Static File Server</title></head><body><table>".

(** [prePendText] *)
Definition prepend (name : string) : string :=
  (if decide (name ≠ "/") then name +:+ "/" else "")%string.

(** The row of an entry whose [Info] is known. *)
Definition table_row (prePendText name modTime : string) (size : Z) : string :=
  ("<tr><td><a href=" +:+ quote +:+ prePendText +:+ name +:+ quote +:+ ">" +:+ name
   +:+ "</a></td><td>" +:+ modTime +:+ "</td><td>" +:+ pretty size +:+ "</td></tr>")%string.

(** [for _, dir := range dirs { ... }]: the content so far, and [None] if an entry
    has no info. *)
Fixpoint table_rows (prePendText htmlContent : string) (dirs : list entry) : option string :=
  match dirs with
  | [] => Some htmlContent
  | dir :: dirs' =>
      match e_Info dir with
      | None => None
      | Some (modTime, size) =>
          table_rows prePendText (htmlContent +:+ table_row prePendText (e_Name dir) modTime size)%string dirs'
      end
  end.

(** ** The handler *)

Definition FileHandler (path : string) : handler :=
  r ← do (Open path);
  match r : option file with
  | None => reply StatusOK default_page
  | Some osFile =>
      st ← do (Stat osFile);
      match st : option info with
      | None => Exit "error while getting file stats"
      | Some fileStats =>
          if IsDir fileStats then
            ds ← do (ReadDir osFile);
            let '(dirs, failed) := ds : list entry * bool in
            if failed then Exit "error while getting directory contents"
            else
              match table_rows (prepend (Name fileStats)) page_head dirs with
              | None => reply StatusOK default_page
              | Some htmlContent =>
                  let htmlContent := match dirs with
                                     | [] => (htmlContent +:+ "<th>empty directory!</th>")%string
                                     | _ => htmlContent
                                     end in
                  reply StatusOK (htmlContent +:+ "</table></body></html>")%string
              end
          else
            r ← do (Read osFile (Size fileStats));
            match r : option string with
            | None => reply StatusOK default_page
            | Some data => reply StatusOK (buffer_string (Size fileStats) data)
            end
      end
  end.

(** ** What a file system promises *)

(** The components of a path, and the last that is not empty: [FileInfo.Name] of a
    file opened under that path, ["/"] for the root. *)
Definition components (path : string) : list string := split_on "/"%char path.

Definition base (path : string) : string :=
  default "/"%string (last (filter (λ c, c ≠ ""%string) (components path))).

(** What a path stands for: a directory, its entries each with their time and size in
    the order in which the system lists them, or a file with what a reader finds in it,
    which for a special file need not be as long as [Stat] says. *)
Inductive node := Dir (entries : list (string * (string * Z))) | File (data : string).

Class Files (FS E : Type) := {
  call : ∀ o : op, E → FS → op_ans o * FS;
  content : FS → string → option node;
  opened : FS → file → option string;   (** the path of an open file *)
  (** nobody writes while the handler runs *)
  call_keeps o e fs p : content (call o e fs).2 p = content fs p;
  open_ok p e fs f :
    (call (Open p) e fs).1 = Some f → is_Some (content fs p) ∧ opened (call (Open p) e fs).2 f = Some p;
  stat_ok f e fs p i :
    opened fs f = Some p → (call (Stat f) e fs).1 = Some i →
    opened (call (Stat f) e fs).2 f = Some p ∧ Name i = base p ∧
    match content fs p with
    | Some (Dir _) => IsDir i = true
    | Some (File _) => IsDir i = false
    | None => True
    end;
  readdir_ok f e fs p entries :
    opened fs f = Some p → content fs p = Some (Dir entries) →
    match (call (ReadDir f) e fs).1 with
    | (dirs, false) => Forall2 (λ d en, e_Name d = en.1 ∧ (e_Info d = None ∨ e_Info d = Some en.2)) dirs entries
    | _ => True
    end;
  (** a read returns the beginning of the file, as much as fits or less *)
  read_ok f n e fs p data whole :
    opened fs f = Some p → content fs p = Some (File whole) →
    (call (Read f n) e fs).1 = Some data →
    (String.length data ≤ n)%nat ∧ ∃ rest, whole = (data +:+ rest)%string
}.

(** ** Links *)

(** The address a browser resolves a relative link to (RFC 3986, 5.2.3): the last
    component of the page's path is replaced. *)
Definition resolve (path link : string) : string :=
  join_on "/"%char (removelast (components path) ++ [link]).

Lemma join_on_snoc sep l w t :
  join_on sep (l ++ [(w +:+ t)%string]) = (join_on sep (l ++ [w]) +:+ t)%string.
Proof.
  induction l as [|v l IH]; [done|]. simpl. destruct (l ++ [w]) as [|x l'] eqn:Hl; [by destruct l|].
  destruct (l ++ [(w +:+ t)%string]) as [|y l''] eqn:Hl'; [by destruct l|]. rewrite IH.
  change (String sep (join_on sep (x :: l') +:+ t)) with (String sep (join_on sep (x :: l')) +:+ t).
  by rewrite (assoc_L String.append).
Qed.

(** A component has no separator in it. *)
Lemma split_on_no_sep sep s w : w ∈ split_on sep s → w ≠ String sep EmptyString.
Proof.
  enough (Hgen : ∀ w t, w ∈ split_on sep s → w ≠ (String sep t)) by eauto.
  clear w. induction s as [|c s IH]; intros w t; simpl.
  - intros ->%list_elem_of_singleton. done.
  - case_decide as Hc.
    + intros [->|Hw]%elem_of_cons; [done|by apply IH].
    + destruct (split_on sep s) as [|v vs] eqn:Hs.
      * intros ->%list_elem_of_singleton. congruence.
      * intros [->|Hw]%elem_of_cons; [congruence|]. apply IH. set_solver.
Qed.

Lemma components_snoc path : ∃ l c, components path = l ++ [c].
Proof.
  unfold components. pose proof (split_on_length "/"%char path) as Hl.
  destruct (split_on "/"%char path) as [|x l] using rev_ind; [simpl in Hl; lia|]. by eexists _, _.
Qed.

Lemma base_last l c path :
  components path = l ++ [c] → c ≠ ""%string → base path = c ∧ c ≠ "/"%string.
Proof.
  intros Hp Hc. split.
  - unfold base. rewrite Hp, filter_app, filter_cons, filter_nil. rewrite decide_True by done.
    by rewrite last_snoc.
  - apply (split_on_no_sep _ path). unfold components in Hp. rewrite Hp. set_solver.
Qed.

(** The links of a directory's page lead to its entries: for a path that does not
    end in a slash, the link of the entry [name] resolves to the path, a slash,
    and the name; likewise for the root.  With a trailing slash they do not: the
    directory's own name comes twice. *)
Theorem static_links (path name : string) :
  let link := (prepend (base path) +:+ name)%string in
  (∀ l c, components path = l ++ [c] → c ≠ ""%string →
     resolve path link = (path +:+ "/" +:+ name)%string) ∧
  (path = "/"%string → resolve path link = ("/" +:+ name)%string) ∧
  (∀ l c, components path = l ++ [c; ""%string] → c ≠ ""%string →
     resolve path link = (path +:+ c +:+ "/" +:+ name)%string).
Proof.
  cbv zeta. split; [|split].
  - intros l c Hp Hc. destruct (base_last l c path Hp Hc) as [-> Hs]. unfold prepend.
    rewrite decide_True by done. unfold resolve. rewrite Hp, removelast_last.
    rewrite <-(assoc_L String.append), join_on_snoc, <-Hp. unfold components. by rewrite join_split.
  - intros ->. reflexivity.
  - intros l c Hp Hc. assert (Hb : base path = c ∧ c ≠ "/"%string).
    { split.
      - unfold base. rewrite Hp. change [c; ""%string] with ([c] ++ [""%string]).
        rewrite !filter_app. simpl. rewrite filter_cons, decide_True, filter_nil by done.
        rewrite filter_cons, decide_False, filter_nil, app_nil_r by naive_solver. by rewrite last_snoc.
      - apply (split_on_no_sep _ path). unfold components in Hp. rewrite Hp. set_solver. }
    destruct Hb as [-> Hs]. unfold prepend. rewrite decide_True by done.
    unfold resolve. rewrite Hp. change [c; ""%string] with ([c] ++ [""%string]).
    rewrite app_assoc, removelast_last.
    rewrite <-(join_split "/"%char path) at 1. unfold components in Hp. rewrite Hp.
    change [c; ""%string] with ([c] ++ [""%string]). rewrite app_assoc.
    change ((c +:+ "/") +:+ name)%string with ("" +:+ ((c +:+ "/") +:+ name))%string.
    rewrite join_on_snoc. by rewrite (assoc_L String.append c).
Qed.

(** ** The pages *)

Abbreviation page := (text_response StatusOK).

Section semantics.
Context {FS E : Type} {files : Files FS E}.

Definition perform (o : op) (e : E) (s : FS) : op_ans o * FS := call o e s.

Definition run_alone (o : nat → E * bool) (path : string) (fs : FS) :
    result (ans := op_ans) (S := FS) () :=
  alone perform o 0 (FileHandler path) fs no_response.

(** The page of a directory. *)
Definition directory_page (path : string) (entries : list (string * (string * Z))) : string :=
  (page_head
   +:+ foldr (λ en s, table_row (prepend (base path)) en.1 en.2.1 en.2.2 +:+ s) "" entries
   +:+ match entries with [] => "<th>empty directory!</th>" | _ => "" end
   +:+ "</table></body></html>")%string.

(** Every entry's info could be had. *)
Definition all_known (dirs : list entry) : bool := forallb (λ d, bool_decide (is_Some (e_Info d))) dirs.

Lemma table_rows_ok pre html dirs entries :
  Forall2 (λ d en, e_Name d = en.1 ∧ (e_Info d = None ∨ e_Info d = Some en.2)) dirs entries →
  table_rows pre html dirs =
    if all_known dirs
    then Some (html +:+ foldr (λ en s, table_row pre en.1 en.2.1 en.2.2 +:+ s) "" entries)%string
    else None.
Proof.
  intros Hf. revert html. induction Hf as [|d en dirs entries [Hn Hi] _ IH]; intros html; simpl.
  - by rewrite (right_id_L EmptyString String.append).
  - destruct Hi as [-> | ->]; [done|]. destruct en as [n [m z]]. simpl in *. rewrite IH, Hn.
    destruct (all_known dirs); [|done]. by rewrite (assoc_L String.append).
Qed.

#[local] Arguments reply : simpl never.

(** Puts aside what is claimed of a run. *)
Ltac focus_run :=
  match goal with |- context [run_alone ?o ?p ?s] =>
    pattern (run_alone o p s);
    match goal with |- ?P _ => let post := fresh "post" in set (post := P) end;
    unfold run_alone, FileHandler
  end.

(** One call to the file system: its answer [r], the state [fs'] after it, in which
    every path has the content it had ([Hk]), and what [law] says of them ([Hl]). *)
Tactic Notation "next_call" constr(law) "as" simple_intropattern(r) ident(fs') ident(Hk) ident(Hl) :=
  cbn;
  match goal with |- context [perform ?o ?e ?s] =>
    pose proof (call_keeps o e s) as Hk; pose proof (law e s) as Hl;
    let E := fresh "Ex" in
    unfold perform at 1; destruct (call o e s) as [r fs'] eqn:E; cbn [fst snd] in Hk, Hl
  end.

(** The last call, to the client, after the calls to the file system. *)
Ltac ends Ho post :=
  try (erewrite alone_reply by apply Ho); unfold post; cbn.


End semantics.

(** ** A file system in memory

    A call fails if the environment says so ([None]); otherwise a read returns at most
    as many bytes as it says. *)
Module Mem.

Record mem := MkMem { tree : gmap string node; table : list string }.

(** What an open file is. *)
Definition node_of (m : mem) (f : file) : option (string * node) :=
  p ← table m !! f; nd ← tree m !! p; Some (p, nd).

Definition call (o : op) (e : option nat) (m : mem) : op_ans o * mem :=
  match o with
  | Open p =>
      if decide (is_Some e ∧ is_Some (tree m !! p))
      then (Some (length (table m)), MkMem (tree m) (table m ++ [p]))
      else (None, m)
  | Stat f =>
      (match e, node_of m f with
       | Some _, Some (p, Dir _) => Some (Info (base p) true 0)
       | Some _, Some (p, File data) => Some (Info (base p) false (String.length data))
       | _, _ => None
       end, m)
  | ReadDir f =>
      (match e, node_of m f with
       | Some _, Some (_, Dir entries) => ((λ en, Entry en.1 (Some en.2)) <$> entries, false)
       | _, _ => ([], true)
       end, m)
  | Read f n =>
      (match e, node_of m f with
       | Some k, Some (_, File data) => Some (cut (k `min` n) data).1
       | _, _ => None
       end, m)
  end.

#[global] Instance mem_files : Files mem (option nat).
Proof.
  refine {| Static.call := call; content m p := tree m !! p; opened m f := table m !! f |}.
  - intros o e m p. destruct o; simpl; [|done..]. by case_decide.
  - intros p e m f. simpl. case_decide as Hd; intros [= <-]. simpl. split; [apply Hd|].
    by apply list_lookup_middle.
  - intros f e m p i Hf. simpl. unfold node_of. rewrite Hf. simpl.
    destruct e, (tree m !! p) as [[entries|data]|]; intros [= <-]; naive_solver.
  - intros f e m p entries Hf Hp. simpl. unfold node_of. rewrite Hf. simpl. rewrite Hp. destruct e; [|done].
    apply Forall2_fmap_l. clear Hp. induction entries; constructor; simpl; auto.
  - intros f n e m p data whole Hf Hp. simpl. unfold node_of. rewrite Hf. simpl. rewrite Hp.
    destruct e as [k|]; intros [= <-]. split; [etrans; [apply cut_length|lia]|].
    eexists. symmetry. apply cut_app.
Defined.

Definition m0 : mem :=
  MkMem {[ "/srv" := Dir [("a.txt", ("2024-11-02", 5)); ("b", ("2024-11-03", 4096))];
           "/srv/a.txt" := File "hello" ]} [].

Definition env (k : nat) (n : nat) : option nat * bool := (Some k, true).

End Mem.


(** ** [main] *)

(** What [main] has registered when it listens; [FileHandler] is the only handler. *)
Definition routes : res (mux ()) := Handle "/" () [].

(** A request reaches [FileHandler] exactly if its path is clean: one with dot segments
    or empty ones is redirected first.  (An encoded dot segment is left alone.) *)
Theorem static_routes p :
  ∃ m, routes = Ret m ∧
    findHandler m (("/" +:+ p)%string) =
      if decide (cleanPath (("/" +:+ p)%string) = ("/" +:+ p)%string) then To [Multi] () []
      else RedirectTo (cleanPath (("/" +:+ p)%string)).
Proof.
  exists [([Multi], ())]. split; [reflexivity|].
  assert (Hm : ∀ segs, segs ≠ [] → matchPath (tree_of [([Multi], ())]) segs = Some ([Multi], (), [])).
  { intros segs Hs. unfold tree_of. cbn [list_fmap fmap]. rewrite matchPath_multi. by destruct segs. }
  destruct (cleanPath_form p) as (segs&slash&Hs&Hp&Hc).
  assert (Hfull : full segs slash ≠ []) by (unfold full; destruct segs, slash; by destruct Hp).
  rewrite (findHandler_cleaned _ _ segs slash Hs Hp Hc), Hc. unfold lacks_slash.
  rewrite !Hm by (done || by destruct segs). cbn.
  destruct slash; cbn; [|destruct segs; [by destruct Hp|]]; by repeat case_decide.
Qed.

End Static.
