(* ===== verification/Backends.v ===== *)
(** * Backends: LoadBalancer/backend_server_1 and backend_server_2

    The two HTTP servers that the balancer forwards to, and the three programs
    together: the accept loop, [Proxy] and its two [io.Copy] goroutines for each
    connection, and the backends, for clients that come one after the other. *)

From Stdlib Require Import Ascii.
From S2P Require Import Prelude GoLang GoSched GoSync GoHttp LoadBalancer.

#[local] Open Scope Z_scope.

Module Backends.

Definition newline : string := String (ascii_of_nat 10) EmptyString.

(** The handlers make no calls but those on their [http.ResponseWriter]. *)
Definition op_ans (o : Empty_set) : Type := match o with end.
Abbreviation handler := (prog op_ans ()).

(** [sayHello] of backend_server_1 *)
Definition sayHello_1 : handler := reply StatusOK ("Hello from backend server 1" +:+ newline).

(** [sayHello] of backend_server_2 *)
Definition sayHello_2 : handler := reply StatusOK ("server 2: Keep Implementing" +:+ newline).

(** The port each [main] listens on, and the handler it has registered for ["/"]. *)
Definition main_1 : string * handler := ("8000", sayHello_1).
Definition main_2 : string * handler := ("9000", sayHello_2).

(** What listens on a port of localhost. *)
Definition listening (port : string) : option handler :=
  snd <$> find (λ s, bool_decide (s.1 = port)) [main_1; main_2].

Definition perform (o : Empty_set) (e s : ()) : op_ans o * () := match o with end.

(** The answer of a handler, over a connection that stays up. *)
Definition respond (h : handler) : response :=
  r_resp (alone perform (λ _, ((), true)) 0 h () no_response).

(** ** The system *)

(** A client's connection to the balancer, with the balancer's to the backend. *)
Record link := Link {
  unread : string;     (** sent by the client and not yet read by the balancer *)
  arrived : string;    (** received by the backend *)
  pending : string;    (** sent by the backend and not yet read by the balancer *)
  received : string;   (** received by the client *)
  served : bool        (** the backend has answered *)
}.

Record system := System { balancer : Balancer.shared; links : list link }.

Definition set_balancer b (s : system) : system := System b (links s).
Definition set_link (k : nat) (l : link) (s : system) : system := System (balancer s) (<[k:=l]> (links s)).

Inductive pc :=
| Accepting                              (** the loop of the balancer's [main] *)
| Proxying (k : nat) (l : Balancer.pc)   (** [lb.Proxy], for the [k]-th connection *)
| CopyUp (k : nat)                       (** [io.Copy(backendConn, conn)] *)
| CopyDown (k : nat)                     (** [io.Copy(conn, backendConn)] *)
| Serving (k : nat) (h : handler).       (** net/http's goroutine of the backend *)

Section system.
(** What a client sends; when net/http has read a whole request; how it writes a
    response on the [k]-th connection (with the date of that moment). *)
Variable request : string.
Variable complete : string → bool.
Variable wire : nat → response → string.
(** The number of clients. *)
Variable m : nat.

(** The client has its answer, and nothing is under way. *)
Definition answered (l : link) : bool := served l && bool_decide (pending l = EmptyString).

(** A new connection, on which the client has sent its request. *)
Definition connected : link := Link request EmptyString EmptyString EmptyString false.

(** One action; [e] is how much a [Read] returns, less one.  The next client connects
    when the one before has its answer.  [Proxy] reads nothing of the connection
    ([buggy] has no room), and its two copies end at an end of file, which a client that
    keeps its connection does not send. *)
Definition tstep (e : nat) (s : system) (p : pc) : outcome system pc :=
  match p with
  | Accepting =>
      if decide ((length (links s) < m)%nat ∧ forallb answered (links s) = true)
      then Next (System (balancer s) (links s ++ [connected])) Accepting
             [Proxying (length (links s)) Balancer.ProxyLoad]
      else Wait
  | Proxying k (Balancer.ProxyDial b) =>
      match listening (Balancer.Port b) with
      | Some h => Next s (Proxying k Balancer.ProxyRet) [CopyUp k; CopyDown k; Serving k h]
      | None => Crash Balancer.err_dial
      end
  | Proxying k l =>
      match Balancer.tstep Balancer.Succeeds (balancer s) l with
      | Next b l' _ => Next (set_balancer b s) (Proxying k l') []
      | Crash why => Crash why
      | Wait => Wait
      end
  | CopyUp k =>
      match links s !! k with
      | Some (Link (String _ _ as un) ar pe re se) =>
          let (x, y) := cut (S e) un in Next (set_link k (Link y (ar +:+ x) pe re se) s) (CopyUp k) []
      | _ => Wait
      end
  | CopyDown k =>
      match links s !! k with
      | Some (Link un ar (String _ _ as pe) re se) =>
          let (x, y) := cut (S e) pe in Next (set_link k (Link un ar y (re +:+ x) se) s) (CopyDown k) []
      | _ => Wait
      end
  | Serving k h =>
      match links s !! k with
      | Some (Link un ar pe re false) =>
          if complete ar then Next (set_link k (Link un ar (wire k (respond h)) re true) s) (Serving k h) []
          else Wait
      | _ => Wait
      end
  end.

(** The balancer listens, and so do the backends. *)
Definition start : config system pc :=
  Running (System (Balancer.Shared Balancer.NewLB (Mutex false) []) []) [Accepting].

(** ** Invariant *)

Hypothesis request_once : ∀ p q, request = (p +:+ q)%string → complete p = bool_decide (q = EmptyString).
Hypothesis m_int : is_int (Z.of_nat m).

(** The backend of the [k]-th client, and what it answers. *)
Definition turn (k : nat) : handler := if Nat.even k then sayHello_1 else sayHello_2.
Definition page (k : nat) : string := wire k (respond (turn k)).

Definition link_ok (k : nat) (l : link) : Prop :=
  request = (arrived l +:+ unread l)%string ∧
  if served l then unread l = EmptyString ∧ page k = (received l +:+ pending l)%string
  else pending l = EmptyString ∧ received l = EmptyString.

(** Only the last client is still to be answered. *)
Definition links_ok (ls : list link) : Prop :=
  ∀ k l, ls !! k = Some l → link_ok k l ∧ ((S k < length ls)%nat → answered l = true).

(** The goroutines of the [k]-th connection once it has been dialled. *)
Definition block (k : nat) : list pc :=
  [Proxying k Balancer.ProxyRet; CopyUp k; CopyDown k; Serving k (turn k)].

Fixpoint blocks (n : nat) : list pc :=
  match n with O => [] | S n => blocks n ++ block n end.

Definition after (n : nat) : Balancer.LB := Balancer.after Balancer.NewLB n.

Inductive inv (s : system) : list pc → Prop :=
| inv_rest n pr :
    length (links s) = n → (n ≤ m)%nat → links_ok (links s) →
    balancer s = Balancer.Shared (after n) (Mutex false) pr → inv s (Accepting :: blocks n)
| inv_proxying n l b :
    length (links s) = S n → (S n ≤ m)%nat → links_ok (links s) → links s !! n = Some connected →
    Balancer.Proxy (after n) = Ret (after (S n), b) → listening (Balancer.Port b) = Some (turn n) →
    Balancer.proxying (after n) (after (S n)) b (balancer s) l →
    inv s (Accepting :: blocks n ++ [Proxying n l]).

Lemma elem_of_blocks n p : p ∈ blocks n → ∃ k, (k < n)%nat ∧ p ∈ block k.
Proof.
  induction n as [|n IH]; [by intros ?%elem_of_nil|]. cbn [blocks].
  intros [Hp|Hp]%elem_of_app; [|by exists n; split; [lia|]]. destruct (IH Hp) as (k&?&?). exists k. split; [lia|done].
Qed.

Lemma inv_links s ls : inv s ls → links_ok (links s).
Proof. by destruct 1. Qed.

(** [Proxy] finds a backend that listens. *)
Lemma proxy_turn n : (S n ≤ m)%nat →
  ∃ b, Balancer.Proxy (after n) = Ret (after (S n), b) ∧ listening (Balancer.Port b) = Some (turn n).
Proof.
  intros Hn. destruct (Balancer.after_Proxy Balancer.NewLB n) as (b0&Hb0&b&Hp&Hport).
  { split; by_compute. }
  { unfold is_int, min_int, max_int in *. lia. }
  exists b. split; [exact Hp|]. rewrite Hport. unfold turn. cbn [length Balancer.Servers Balancer.NewLB] in Hb0.
  destruct (Nat.even n) eqn:He.
  - apply Nat.even_spec in He as [q ->]. rewrite Nat.mul_comm, Nat.Div0.mod_mul in Hb0. by injection Hb0 as <-.
  - rewrite <-Nat.negb_odd in He. apply negb_false_iff, Nat.odd_spec in He as [q ->].
    rewrite Nat.add_comm, Nat.mul_comm, Nat.Div0.mod_add in Hb0. by injection Hb0 as <-.
Qed.

(** *** The connections *)

Lemma links_ok_insert ls k l l' :
  links_ok ls → ls !! k = Some l → answered l = false → link_ok k l' → links_ok (<[k:=l']> ls).
Proof.
  intros Hls Hl Ha Hl' j x [(<-&<-&_)|[Hne Hx]]%list_lookup_insert_Some; rewrite length_insert; [|by apply Hls].
  split; [done|]. intros Hlt. destruct (Hls k l Hl) as [_ Hk]. by rewrite Hk in Ha.
Qed.

Lemma links_ok_app ls :
  links_ok ls → forallb answered ls = true → links_ok (ls ++ [connected]).
Proof.
  intros Hls Ha k l Hl. apply lookup_app_Some in Hl as [Hl|[Hk Hl]].
  - destruct (Hls k l Hl) as [Hok _]. split; [done|]. intros _. rewrite forallb_forall in Ha.
    apply Ha, list_elem_of_In. by eapply list_elem_of_lookup_2.
  - rewrite length_app. apply list_lookup_singleton_Some in Hl as [Hk0 <-].
    split; [by split|]. cbn. lia.
Qed.

(** What is left to do for a connection: the bytes to be copied, and the answer. *)
Definition longest : nat := list_max (map (λ k, String.length (page k)) (seq 0 m)).

Definition link_work (l : link) : nat :=
  String.length (unread l) + String.length (pending l) + if served l then 0 else S longest.

Lemma page_length k : (k < m)%nat → (String.length (page k) ≤ longest)%nat.
Proof.
  intros Hk. pose proof (proj1 (list_max_le _ longest) (Nat.le_refl _)) as Hle.
  rewrite Forall_forall in Hle. apply Hle, list_elem_of_In, in_map_iff.
  exists k. split; [done|]. apply in_seq. lia.
Qed.

Lemma string_length_app a b : String.length (a +:+ b) = (String.length a + String.length b)%nat.
Proof. induction a as [|c a IH]; [done|]. cbn. by rewrite <-IH. Qed.

Lemma cut_string n c s :
  let (x, y) := cut (S n) (String c s) in String c s = (x +:+ y)%string ∧ (String.length y < S (String.length s))%nat.
Proof.
  pose proof (cut_app n s) as Hc. cbn. destruct (cut n s) as [x y]. cbn in *. rewrite <-Hc. split; [done|].
  rewrite string_length_app. lia.
Qed.

Lemma app_empty s : (s +:+ "")%string = s.
Proof. apply (right_id_L EmptyString String.append). Qed.

(** A goroutine of a connection takes it one step further. *)
Lemma block_step e s k p s' p' sp :
  links_ok (links s) → (k < m)%nat → p ∈ block k → tstep e s p = Next s' p' sp →
  p' = p ∧ sp = [] ∧ ∃ l l', links s !! k = Some l ∧ s' = set_link k l' s ∧
    links_ok (links s') ∧ (link_work l' < link_work l)%nat.
Proof.
  intros Hls Hkm Hp Ht. unfold block in Hp. rewrite !elem_of_cons in Hp.
  destruct Hp as [->|[->|[->|[->|[]%elem_of_nil]]]]; cbn [tstep Balancer.tstep] in Ht; [done|..];
    (destruct (links s !! k) as [[un ar pe re se]|] eqn:Hl; [|done]); destruct (Hls k _ Hl) as [[Hreq Hse] _];
    cbn [arrived unread served pending received] in *.
  - destruct un as [|c un]; [done|]. pose proof (cut_string e c un) as Hc.
    destruct (cut (S e) (String c un)) as [x y]. destruct Hc as [Hxy Hlt].
    injection Ht as <- <- <-. split; [done|]. split; [done|]. eexists _, _. split; [done|]. split; [done|]. split.
    + eapply links_ok_insert; [done|exact Hl| |].
      * unfold answered. cbn. destruct se; [by destruct Hse|done].
      * destruct se; [by destruct Hse|]. split; [|done]. cbn. by rewrite Hreq, Hxy, (assoc_L String.append).
    + unfold link_work. cbn [arrived unread served pending String.length] in *. lia.
  - destruct pe as [|c pe]; [done|]. pose proof (cut_string e c pe) as Hc.
    destruct (cut (S e) (String c pe)) as [x y]. destruct Hc as [Hxy Hlt].
    injection Ht as <- <- <-. split; [done|]. split; [done|]. eexists _, _. split; [done|]. split; [done|]. split.
    + eapply links_ok_insert; [done|exact Hl| |].
      * unfold answered. cbn. by rewrite andb_false_r.
      * destruct se; [|by destruct Hse]. split; [done|]. cbn. destruct Hse as [? Hse]. split; [done|].
        by rewrite Hse, Hxy, (assoc_L String.append).
    + unfold link_work. cbn [arrived unread served pending String.length] in *. lia.
  - destruct se; [done|]. destruct (complete ar) eqn:Hc; [|done]. rewrite (request_once _ _ Hreq) in Hc.
    apply bool_decide_eq_true in Hc as ->. destruct Hse as [-> ->].
    injection Ht as <- <- <-. split; [done|]. split; [done|]. eexists _, _. split; [done|]. split; [done|]. split.
    + eapply links_ok_insert; [done|exact Hl|done|]. split; [done|]. by cbn.
    + unfold link_work. pose proof (page_length k Hkm) as Hpl. unfold page in Hpl.
      cbn [unread served pending String.length]. lia.
Qed.

(** *** Every action *)

Definition proxy_work (p : pc) : nat :=
  match p with
  | Proxying _ l =>
      match l with
      | Balancer.ProxyLoad => 10 | Balancer.ProxyStore _ => 9 | Balancer.ProxyPrint => 8
      | Balancer.ProxyLock => 7 | Balancer.ProxyIndex => 6 | Balancer.ProxyTotal _ => 5
      | Balancer.ProxyIncr _ _ => 4 | Balancer.ProxyPick => 3 | Balancer.ProxyUnlock _ => 2
      | Balancer.ProxyDial _ => 1 | _ => 0
      end
  | _ => 0
  end.

(** What is left to do. *)
Definition measure (s : system) (ls : list pc) : nat :=
  (m - length (links s)) * (link_work connected + 11) + sumf link_work (links s) + sumf proxy_work ls.

Lemma proxying_acts n e s l b :
  Balancer.Proxy (after n) = Ret (after (S n), b) → listening (Balancer.Port b) = Some (turn n) →
  Balancer.proxying (after n) (after (S n)) b (balancer s) l →
  ∃ s' l' sp, tstep e s (Proxying n l) = Next s' (Proxying n l') sp ∧ links s' = links s ∧
    (proxy_work (Proxying n l') < proxy_work (Proxying n l))%nat ∧
    ((sp = [] ∧ Balancer.proxying (after n) (after (S n)) b (balancer s') l') ∨
     (Proxying n l' :: sp = block n ∧ ∃ pr, balancer s' = Balancer.Shared (after (S n)) (Mutex false) pr)).
Proof.
  intros HP Hb Hl. destruct (Balancer.proxying_step _ _ _ _ _ HP Hl) as [[-> [pr Hpr]]|[Hnd (s1&l1&Ht&Hl1)]].
  - cbn [tstep]. rewrite Hb. exists s, Balancer.ProxyRet. eexists. split; [reflexivity|]. split; [done|]. split; [cbn; lia|].
    right. split; [done|]. by exists pr.
  - exists (set_balancer s1 s), l1, []. split; [|split; [done|split; [|by left]]].
    + destruct l; cbn [tstep]; try (by rewrite Ht). by destruct (Hnd backend).
    + clear Hl1. remember (balancer s) as bal. clear -Hl Ht Hnd.
      destruct Hl; cbn [Balancer.tstep] in Ht; unfold fallible in Ht; repeat case_match; simplify_eq; cbn; lia.
Qed.

Lemma sumf_insert_le {A} (f : A → nat) (l : list A) i x y :
  l !! i = Some x → (f y < f x)%nat → (sumf f (<[i:=y]> l) < sumf f l)%nat.
Proof. intros Hx Hlt. pose proof (sumf_insert f l i x y Hx). lia. Qed.

(** Preservation and progress of the measure, for the action of [p]. *)
Definition step_ok (ls : list pc) (i : nat) (s : system) (o : outcome system pc) : Prop :=
  match o with
  | Wait => True
  | Next s' p' sp => inv s' (<[i:=p']> ls ++ sp) ∧ (measure s' (<[i:=p']> ls ++ sp) < measure s ls)%nat
  | Crash _ => False
  end.

(** A goroutine of a connection that has been dialled. *)
Lemma block_ok e s ls i p k :
  inv s ls → ls !! i = Some p → (k < m)%nat → p ∈ block k →
  (∀ l', links_ok (<[k:=l']> (links s)) → inv (set_link k l' s) ls) → step_ok ls i s (tstep e s p).
Proof.
  intros HI Hp Hkm Hpk Hnext. unfold step_ok. destruct (tstep e s p) as [|s' p' sp|why] eqn:Ht; [done| |].
  - destruct (block_step e s k p s' p' sp (inv_links s ls HI) Hkm Hpk Ht) as (->&->&l&l'&Hl&->&Hls'&Hw).
    rewrite app_nil_r, list_insert_id by done. split; [by apply Hnext|].
    unfold measure. cbn [links set_link]. rewrite length_insert.
    pose proof (sumf_insert_le link_work _ _ _ _ Hl Hw). lia.
  - unfold block in Hpk. rewrite !elem_of_cons in Hpk.
    destruct Hpk as [->|[->|[->|[->|[]%elem_of_nil]]]]; cbn [tstep Balancer.tstep] in Ht; repeat case_match; simplify_eq.
Qed.

Lemma rest_link s n pr k l' :
  length (links s) = n → (n ≤ m)%nat → balancer s = Balancer.Shared (after n) (Mutex false) pr →
  links_ok (<[k:=l']> (links s)) → inv (set_link k l' s) (Accepting :: blocks n).
Proof. intros. eapply inv_rest; cbn [links balancer set_link]; rewrite ?length_insert; done. Qed.

(** The loop accepts the next client, and [Proxy] starts for it. *)
Lemma accept_ok e s n pr :
  length (links s) = n → (n ≤ m)%nat → links_ok (links s) →
  balancer s = Balancer.Shared (after n) (Mutex false) pr →
  step_ok (Accepting :: blocks n) 0 s (tstep e s Accepting).
Proof.
  intros Hn Hm Hls Hb. cbn [tstep]. case_decide as Hd; [|done]. destruct Hd as [Hlt Ha]. rewrite Hn in *.
  destruct (proxy_turn n Hlt) as (b&HP&Hport). cbn [step_ok list_insert]. split.
  - eapply inv_proxying; [cbn; rewrite length_app; cbn; lia|done|by apply links_ok_app| |done|done|].
    + cbn. by rewrite <-Hn, list_lookup_middle.
    + cbn. rewrite Hb. apply Balancer.at_load.
  - unfold measure. cbn [links balancer]. change (<[0%nat:=Accepting]> (Accepting :: blocks n)) with (Accepting :: blocks n).
    rewrite length_app, !sumf_app, !sumf_cons, !sumf_nil. cbn [length proxy_work]. rewrite Hn.
    replace (m - n)%nat with (S (m - (n + 1))) by lia. cbn [Nat.mul]. lia.
Qed.

Lemma insert_proxying {A} (x : A) l y z : <[S (length l):=z]> (x :: l ++ [y]) = x :: l ++ [z].
Proof. change (x :: <[length l:=z]> (l ++ [y]) = x :: l ++ [z]). by rewrite insert_app_r_alt, Nat.sub_diag by lia. Qed.

Lemma inv_step e s ls i p :
  inv s ls → ls !! i = Some p → step_ok ls i s (tstep e s p).
Proof.
  intros HI Hp. pose proof HI as HI'. destruct HI as [n pr Hn Hm Hls Hb|n l b Hn Hm Hls Hc HP Hport Hl].
  - destruct i as [|i]; [injection Hp as <-; by eapply accept_ok|].
    destruct (elem_of_blocks n p) as (k&Hk&Hpk); [by eapply list_elem_of_lookup_2|].
    eapply (block_ok _ _ _ _ _ k); [done|done|lia|done|]. intros l'. by eapply rest_link.
  - destruct i as [|i].
    { injection Hp as <-. cbn [tstep]. rewrite decide_False; [done|]. intros [_ Ha].
      rewrite forallb_forall in Ha. by specialize (Ha connected (proj1 (list_elem_of_In _ _) (list_elem_of_lookup_2 _ _ _ Hc))). }
    cbn in Hp. apply lookup_app_Some in Hp as [Hp|[Hi Hp]].
    + destruct (elem_of_blocks n p) as (k&Hk&Hpk); [by eapply list_elem_of_lookup_2|].
      eapply (block_ok _ _ _ _ _ k); [done| |lia|done|].
      { cbn. by apply lookup_app_l_Some. }
      intros l' Hls'. eapply inv_proxying; cbn [links balancer set_link]; rewrite ?length_insert; try done.
      by rewrite list_lookup_insert_ne by lia.
    + apply list_lookup_singleton_Some in Hp as [Hi0 <-].
      destruct (proxying_acts n e s l b HP Hport Hl) as (s'&l'&sp&->&Hlinks&Hw&Hend).
      assert (Hi1 : i = length (blocks n)) by lia. cbn [step_ok]. split.
      * rewrite Hi1, insert_proxying. destruct Hend as [[-> Hl']|[Hblk [pr Hb]]].
        -- rewrite app_nil_r. eapply inv_proxying; rewrite ?Hlinks; done.
        -- rewrite <-app_comm_cons, <-(assoc_L Datatypes.app). cbn [Datatypes.app]. rewrite Hblk.
           change (blocks n ++ block n) with (blocks (S n)). eapply inv_rest; rewrite ?Hlinks; done.
      * rewrite Hi1, insert_proxying. unfold measure. rewrite Hlinks, !sumf_app, !sumf_cons, !sumf_app, !sumf_cons, !sumf_nil.
        destruct Hend as [[-> _]|[Hblk _]]; [rewrite sumf_nil; lia|].
        injection Hblk as Hl' ->. rewrite !sumf_cons, sumf_nil. cbn [proxy_work] in *. lia.
Qed.


(** *** When nothing can act *)

Lemma halted_wait s ls i p e : halted tstep (Running s ls) → ls !! i = Some p → tstep e s p = Wait.
Proof.
  intros Hh Hp. specialize (Hh (i, e)). cbn in Hh. rewrite Hp in Hh. by destruct (tstep e s p).
Qed.

Lemma in_blocks n k p : (k < n)%nat → p ∈ block k → p ∈ blocks n.
Proof.
  intros Hk Hp. induction n as [|n IH]; [lia|]. cbn [blocks]. apply elem_of_app.
  destruct (decide (k = n)) as [->|]; [by right|left; apply IH; lia].
Qed.

(** Goroutines that have nothing left to do have copied and answered everything. *)
Lemma wait_answered s k l :
  links_ok (links s) → links s !! k = Some l → (∀ p, p ∈ block k → tstep 0 s p = Wait) →
  answered l = true ∧ arrived l = request ∧ received l = page k.
Proof.
  intros Hls Hl Hw. destruct l as [un ar pe re se]. destruct (Hls k _ Hl) as [[Hreq Hse] _].
  cbn [unread arrived pending received served] in *.
  pose proof (Hw (CopyUp k) ltac:(unfold block; set_solver)) as Hup.
  pose proof (Hw (CopyDown k) ltac:(unfold block; set_solver)) as Hdown.
  pose proof (Hw (Serving k (turn k)) ltac:(unfold block; set_solver)) as Hserve.
  cbn [tstep] in *. rewrite Hl in *.
  destruct un as [|c un]; [|by destruct (cut _ _)]. destruct pe as [|c pe]; [|by destruct (cut _ _)].
  rewrite app_empty in *. destruct se.
  - destruct Hse as [_ Hse]. by split.
  - by rewrite (request_once _ EmptyString), bool_decide_true in Hserve by (rewrite ?app_empty; done).
Qed.

Lemma halted_served s ls :
  inv s ls → halted tstep (Running s ls) →
  length (links s) = m ∧ ∀ k l, links s !! k = Some l → arrived l = request ∧ received l = page k.
Proof.
  intros HI Hh. destruct HI as [n pr Hn Hm Hls Hb|n l b Hn Hm Hls Hc HP Hport Hl].
  - assert (Hans : ∀ k l, links s !! k = Some l → answered l = true ∧ arrived l = request ∧ received l = page k).
    { intros k l Hk. apply (wait_answered s); [done|done|]. intros p Hp. apply lookup_lt_Some in Hk.
      destruct (proj1 (list_elem_of_lookup _ _) (in_blocks n k p ltac:(lia) Hp)) as [i Hi].
      by apply (halted_wait s (Accepting :: blocks n) (S i)). }
    split; [|intros k l Hk; by apply Hans in Hk as (_&?&?)].
    destruct (decide (n < m)%nat) as [Hlt|]; [|lia].
    pose proof (halted_wait s (Accepting :: blocks n) 0 Accepting 0 Hh eq_refl) as Hw. cbn [tstep] in Hw.
    rewrite decide_True in Hw; [done|]. split; [by rewrite Hn|]. apply forallb_forall.
    intros l [k Hk]%list_elem_of_In%list_elem_of_lookup. by apply (Hans k).
  - exfalso. destruct (proxying_acts n 0 s l b HP Hport Hl) as (s'&l'&sp&Ht&_).
    rewrite (halted_wait s (Accepting :: blocks n ++ [Proxying n l]) (S (length (blocks n))) _ 0 Hh) in Ht; [done|].
    cbn. by apply list_lookup_middle.
Qed.

Lemma start_inv : inv (System (Balancer.Shared Balancer.NewLB (Mutex false) []) []) [Accepting].
Proof. by eapply (inv_rest _ 0); [|lia|intros k l|]. Qed.

Lemma tstep_preserves : preserves tstep inv.
Proof.
  intros e s ls i p HI Hp. pose proof (inv_step e s ls i p HI Hp) as H.
  destruct (tstep e s p); [done|apply H|done].
Qed.

End system.

Lemma prefix_app x y : String.prefix x (x +:+ y) = true.
Proof.
  induction x as [|c x IH]; [by destruct y|].
  change ((if ascii_dec c c then String.prefix x (x +:+ y) else false) = true).
  by destruct (ascii_dec c c).
Qed.

(** ** Property *)


(** Three clients, a request that is whole with its empty line, and the text of a
    response as its bytes. *)
Definition get : string := "GET /" +:+ newline +:+ newline.
Definition got (p : string) : bool := bool_decide (p = get).
Definition written (k : nat) (r : response) : string :=
  match body r with [Text t] => t | _ => EmptyString end.

(** The goroutines take turns; a [Read] returns seven bytes. *)
Definition turns : list (nat * nat) := concat (replicate 60 (map (λ i, (i, 6%nat)) (seq 0 13))).

(** Those of the turns in which the goroutine can act. *)
Fixpoint taken (ics : list (nat * nat)) (σ : config system pc) : list (nat * nat) :=
  match ics with
  | [] => []
  | ic :: ics =>
      match exec (tstep get got written 3) ic σ with
      | Some σ' => ic :: taken ics σ'
      | None => taken ics σ
      end
  end.

Lemma get_once p q : get = (p +:+ q)%string → got p = bool_decide (q = EmptyString).
Proof.
  intros H. unfold got. apply bool_decide_ext. split.
  - intros ->. apply (f_equal String.length) in H. rewrite string_length_app in H.
    destruct q; [done|cbn in H; lia].
  - intros ->. by rewrite H, app_empty.
Qed.


End Backends.
