(* ===== verification/TcpServer.v ===== *)
(** * TcpServer: tcp/main.go

    One goroutine per connection: read once, sleep, answer, close.  Any error of any
    connection is a [log.Fatal]. *)

From Stdlib Require Import Ascii.
From S2P Require Import Prelude GoLang GoSched.

#[local] Open Scope Z_scope.

Module Tcp.

Definition crlf : string := String (ascii_of_nat 13) (String (ascii_of_nat 10) EmptyString).

Definition writeString : string :=
  ("HTTP/1.1 200 OK" +:+ crlf +:+ crlf +:+ "hello world" +:+ crlf)%string.

Definition bufSize : nat := 2000.
#[global] Arguments bufSize : simpl never.

(** Connections are numbered in the order they are accepted. *)
Abbreviation conn := nat.

Record shared := Shared {
  accepted : nat;
  printed : list (conn * string);    (** ["processing request = "], by connection *)
  answered : list (conn * string);   (** what [conn.Write] has written *)
  hungup : list conn                 (** closed *)
}.

Definition set_accepted n s := Shared n (printed s) (answered s) (hungup s).
Definition add_printed c t s := Shared (accepted s) (printed s ++ [(c, t)]) (answered s) (hungup s).
Definition add_answered c t s := Shared (accepted s) (printed s) (answered s ++ [(c, t)]) (hungup s).
Definition add_hungup c s := Shared (accepted s) (printed s) (answered s) (hungup s ++ [c]).

Definition err_listen : string := "L error while creating a TCP listener".
Definition err_accept : string := "A error while accepting a TCP connection".
Definition err_read : string := "R error while reading input from user".
Definition err_write : string := "W error while write to user".
Definition err_close : string := "Close Error = ".

Inductive pc :=
| Accept                              (** the loop of [main] *)
| Read (c : conn)                     (** [conn.Read(buffer)] *)
| Print (c : conn) (buffer : string)
| Sleep (c : conn)                    (** [time.Sleep(10 * time.Second)] *)
| Write (c : conn)
| Close (c : conn)
| Ret (c : conn).

(** What the network does: the call fails, or goes on; a read gets [data], the end of
    the stream being a failure. *)
Inductive net := Fails | Goes (data : string).

(** A read takes what has arrived, as far as the buffer goes. *)
Definition read_into (data : string) : string := buffer_string bufSize (String.substring 0 bufSize data).

Definition tstep (e : net) (s : shared) (l : pc) : outcome shared pc :=
  match l, e with
  | Accept, Fails => Crash err_accept
  | Accept, Goes _ => Next (set_accepted (S (accepted s)) s) Accept [Read (accepted s)]
  | Read _, Fails => Crash err_read
  | Read c, Goes "" => Wait
  | Read c, Goes data => Next s (Print c (read_into data)) []
  | Print c buffer, _ => Next (add_printed c buffer s) (Sleep c) []
  | Sleep c, _ => Next s (Write c) []
  | Write _, Fails => Crash err_write
  | Write c, Goes _ => Next (add_answered c writeString s) (Close c) []
  | Close _, Fails => Crash err_close
  | Close c, Goes _ => Next (add_hungup c s) (Ret c) []
  | Ret _, _ => Wait
  end.

(** [main]; [listens] says whether [net.Listen] succeeds. *)
Definition main (listens : bool) : config shared pc :=
  if listens then Running (Shared 0 [] [] []) [Accept] else Dead err_listen.

(** ** Invariant *)

(** The connection of a goroutine. *)
Definition of_conn (l : pc) : list conn :=
  match l with Accept => [] | Read c | Print c _ | Sleep c | Write c | Close c | Ret c => [c] end.

(** What it has done so far: the request it has printed, its answer, its end. *)
Definition has_printed (l : pc) : list conn :=
  match l with Sleep c | Write c | Close c | Ret c => [c] | _ => [] end.
Definition has_answered (l : pc) : list (conn * string) :=
  match l with Close c | Ret c => [(c, writeString)] | _ => [] end.
Definition has_hungup (l : pc) : list conn := match l with Ret c => [c] | _ => [] end.

Record inv (s : shared) (ls : list pc) : Prop := {
  inv_conns : held_all of_conn ls ≡ₚ seq 0 (accepted s);
  inv_printed : (printed s).*1 ≡ₚ held_all has_printed ls;
  inv_answered : answered s ≡ₚ held_all has_answered ls;
  inv_hungup : hungup s ≡ₚ held_all has_hungup ls
}.

Lemma tcp_inv_start : inv (Shared 0 [] [] []) [Accept].
Proof. done. Qed.

Lemma tcp_inv_step : preserves_alive tstep inv.
Proof.
  intros e s ls i l [H1 H2 H3 H4] Hl.
  destruct (tstep e s l) as [|s' l' sp|] eqn:Ht; [done| |done].
  destruct (held_all_next of_conn ls i l l' sp Hl) as (r1&E1&F1).
  destruct (held_all_next has_printed ls i l l' sp Hl) as (r2&E2&F2).
  destruct (held_all_next has_answered ls i l l' sp Hl) as (r3&E3&F3).
  destruct (held_all_next has_hungup ls i l l' sp Hl) as (r4&E4&F4).
  rewrite E1 in H1. rewrite E2 in H2. rewrite E3 in H3. rewrite E4 in H4.
  split; [rewrite F1; clear -H1 Ht|rewrite F2; clear -H2 Ht|rewrite F3; clear -H3 Ht|rewrite F4; clear -H4 Ht];
    destruct l; destruct e as [|[|a data]]; simpl in Ht; simplify_eq; cbn in *; try done.
  all: try (rewrite fmap_app; simpl).
  all: try (rewrite <-Permutation_cons_append; by apply Permutation_cons).
  all: rewrite H1; change (0%nat :: seq 1 (accepted s)) with (seq 0 (S (accepted s)));
    rewrite seq_S; apply Permutation_cons_append.
Qed.

Lemma inv_reachable s ls : reachable tstep (main true) (Running s ls) → inv s ls.
Proof. apply (invariant_alive tstep inv); [exact tcp_inv_step|exact tcp_inv_start]. Qed.

(** The accept loop is the first goroutine, for ever. *)
Definition accepting (s : shared) (ls : list pc) : Prop := ls !! 0%nat = Some Accept.

Lemma accepting_step : preserves_alive tstep accepting.
Proof.
  intros e s ls i l H0 Hl. destruct (tstep e s l) as [|s' l' sp|] eqn:Ht; [done| |done].
  unfold accepting in *. rewrite lookup_app_l by (rewrite length_insert; eauto with proto).
  destruct (decide (i = 0%nat)) as [->|Hi]; [|by rewrite list_lookup_insert_ne].
  rewrite H0 in Hl. simplify_eq. rewrite list_lookup_insert_eq by eauto with proto.
  destruct e; simpl in Ht; by simplify_eq.
Qed.

Lemma accepting_reachable s ls : reachable tstep (main true) (Running s ls) → accepting s ls.
Proof. apply (invariant_alive tstep accepting); [exact accepting_step|done]. Qed.

(** What has been held by the goroutines, from what they have done since. *)
Lemma held_mono {B B'} (f : pc → list B) (g : pc → list B') (R : B → B' → Prop) ls b :
  (∀ l b, b ∈ f l → ∃ b', b' ∈ g l ∧ R b b') → b ∈ held_all f ls → ∃ b', b' ∈ held_all g ls ∧ R b b'.
Proof.
  intros Hfg. induction ls as [|l ls IH]; rewrite ?held_all_cons; [set_solver|].
  intros [Hb|Hb]%elem_of_app.
  - destruct (Hfg l b Hb) as (b'&?&?). exists b'. set_solver.
  - destruct (IH Hb) as (b'&?&?). exists b'. set_solver.
Qed.

Lemma held_submseteq {B} (f g : pc → list B) ls :
  (∀ l, f l ⊆+ g l) → held_all f ls ⊆+ held_all g ls.
Proof.
  intros Hfg. induction ls as [|l ls IH]; [done|]. rewrite !held_all_cons. by apply submseteq_app.
Qed.

(** The actions a connection has left, and what they do to the shared state. *)
Definition alone_sched (i : nat) (l : pc) : list (nat * net) :=
  replicate match l with
            | Accept | Ret _ => 0 | Close _ => 1 | Write _ => 2 | Sleep _ => 3 | Print _ _ => 4 | Read _ => 5
            end (i, Goes "GET").

Definition alone_end (c : conn) (l : pc) (s : shared) : shared :=
  match l with
  | Accept | Ret _ => s
  | Close _ => add_hungup c s
  | Write _ | Sleep _ => add_hungup c (add_answered c writeString s)
  | Print _ buffer => add_hungup c (add_answered c writeString (add_printed c buffer s))
  | Read _ => add_hungup c (add_answered c writeString (add_printed c (read_into "GET") s))
  end.

Lemma run_alone s ls i l c :
  ls !! i = Some l → of_conn l = [c] →
  run tstep (alone_sched i l) (Running s ls) = Some (Running (alone_end c l s) (<[i:=Ret c]> ls)).
Proof.
  intros Hl Hc. pose proof (lookup_lt_Some _ _ _ Hl) as Hi. rewrite <-(list_insert_id ls i l Hl) at 1.
  unfold alone_sched. destruct l; cbn [of_conn] in Hc; simplify_eq;
    cbn [replicate]; repeat (erewrite run_next; [|done|done]); done.
Qed.

(** ** Properties *)

(** C22. What clients get.  At every moment of every execution there is one goroutine per
    accepted connection; no connection is answered twice, and what it is sent is
    the fixed response, whatever the request; its request was printed before; and it
    is closed only after it was answered. *)
Theorem tcp_answers (s : shared) (ls : list pc)
    (Hr : reachable tstep (main true) (Running s ls)) :
  held_all of_conn ls ≡ₚ seq 0 (accepted s) ∧
  NoDup (answered s).*1 ∧
  (∀ c t, (c, t) ∈ answered s → t = writeString ∧ c ∈ (printed s).*1) ∧
  (∀ c, c ∈ hungup s → (c, writeString) ∈ answered s).
Proof.
  destruct (inv_reachable s ls Hr) as [Hc Hp Ha Hh]. split; [done|]. split; [|split].
  - rewrite Ha. assert (He : (held_all has_answered ls).*1 ⊆+ held_all of_conn ls).
    { trans (held_all (λ l, (has_answered l).*1) ls); [|apply held_submseteq; intros []; simpl; auto with proto].
      unfold held_all. clear. induction ls as [|l ls IH]; [done|]. rewrite !fmap_cons. simpl.
      rewrite fmap_app. by apply submseteq_app. }
    apply submseteq_Permutation in He as [k He]. rewrite Hc in He.
    pose proof (NoDup_seq 0 (accepted s)) as Hnd. rewrite He in Hnd. by apply NoDup_app in Hnd as [? _].
  - intros c t. rewrite Ha, Hp. intros Ht.
    destruct (held_mono has_answered has_printed (λ ct c, ct.2 = writeString ∧ c = ct.1) ls (c, t))
      as (c'&Hc'&Ht'&Hcc); [|done|simpl in *; by subst].
    intros l [c'' t'']. destruct l; simpl; intros Hin; try (by apply not_elem_of_nil in Hin);
      apply list_elem_of_singleton in Hin; simplify_eq; eexists; (split; [by apply list_elem_of_singleton|done]).
  - intros c. rewrite Ha, Hh. intros Hin.
    destruct (held_mono has_hungup has_answered (λ c ct, ct = (c, writeString)) ls c) as (ct&Hct&->);
      [|done|done].
    intros l c''. destruct l; simpl; intros Hl; try (by apply not_elem_of_nil in Hl).
    apply list_elem_of_singleton in Hl as ->. eexists. split; [by apply list_elem_of_singleton|done].
Qed.

(** C23. No connection waits for another.  Whatever the others are doing, a connection
    that has been accepted and not yet closed is, if its goroutine is scheduled and
    the network lets it, read, answered and closed within five of its own actions. *)
Theorem tcp_live (s : shared) (ls : list pc) (i : nat) (l : pc) (c : conn)
    (Hr : reachable tstep (main true) (Running s ls))
    (Hl : ls !! i = Some l) (Hc : of_conn l = [c]) :
  ∃ sched s' ls', Forall (λ ie, ie.1 = i) sched ∧ (length sched ≤ 5)%nat ∧
    run tstep sched (Running s ls) = Some (Running s' ls') ∧
    (c, writeString) ∈ answered s' ∧ c ∈ hungup s' ∧
    (∀ j l', j ≠ i → ls !! j = Some l' → ls' !! j = Some l').
Proof.
  pose proof (inv_reachable s ls Hr) as HI. pose proof (lookup_lt_Some _ _ _ Hl) as Hi.
  exists (alone_sched i l), (alone_end c l s), (<[i:=Ret c]> ls).
  split; [destruct l; repeat constructor|]. split; [destruct l; simpl; lia|].
  split; [by apply run_alone|]. split; [|split].
  - destruct l; simpl in *; simplify_eq; try set_solver; rewrite (inv_answered _ _ HI);
      (eapply held_all_elem; [exact Hl|set_solver]).
  - destruct l; simpl in *; simplify_eq; try set_solver. rewrite (inv_hungup _ _ HI).
    eapply held_all_elem; [exact Hl|set_solver].
  - intros j l' Hj Hl'. by rewrite list_lookup_insert_ne.
Qed.

(** C24. One client can end the server for all: at any moment of any execution, if a
    client connects and hangs up without having sent anything, the process dies,
    whatever the other connections were waiting for.  It dies of nothing but an error
    of the listener or of a connection. *)
Theorem tcp_fragile :
  (∀ s ls, reachable tstep (main true) (Running s ls) →
     run tstep [(0%nat, Goes "SYN"); (length ls, Fails)] (Running s ls) = Some (Dead err_read)) ∧
  (∀ why, reachable tstep (main true) (Dead why) →
     why ∈ [err_accept; err_read; err_write; err_close]).
Proof.
  split.
  - intros s ls Hr%accepting_reachable. cbn [run exec fst snd]. rewrite Hr. cbn.
    assert (Hlen : (0 < length ls)%nat) by eauto with proto.
    rewrite lookup_app_r, length_insert, Nat.sub_diag by (rewrite length_insert; lia). done.
  - intros why.
    apply (dies_of tstep inv (λ why, why ∈ [err_accept; err_read; err_write; err_close])); [exact tcp_inv_step|exact tcp_inv_start|].
    clear why. intros e s ls i l why _ _ Ht. destruct l, e as [|[|]]; simpl in Ht; simplify_eq; set_solver.
Qed.

(** Two clients; the second is answered first. *)
Definition second_first : list (nat * net) :=
  [(0, Goes "SYN"); (0, Goes "SYN"); (2, Goes "GET /"); (2, Goes ""); (2, Goes ""); (2, Goes "")]%nat.

Lemma tcp_answers_witness :
  ∃ s ls, run tstep second_first (main true) = Some (Running s ls) ∧ answered s = [(1%nat, writeString)] ∧
  held_all of_conn ls ≡ₚ seq 0 (accepted s) ∧
  NoDup (answered s).*1 ∧
  (∀ c t, (c, t) ∈ answered s → t = writeString ∧ c ∈ (printed s).*1) ∧
  (∀ c, c ∈ hungup s → (c, writeString) ∈ answered s).
Proof.
  eexists _, _. split; [vm_compute; reflexivity|]. split; [vm_compute; reflexivity|].
  apply tcp_answers, (run_reachable _ second_first). vm_compute. reflexivity.
Defined.

Lemma tcp_live_witness :
  ∃ s ls, run tstep second_first (main true) = Some (Running s ls) ∧ ls !! 1%nat = Some (Read 0) ∧
  ∃ sched s' ls', Forall (λ ie, ie.1 = 1%nat) sched ∧ (length sched ≤ 5)%nat ∧
    run tstep sched (Running s ls) = Some (Running s' ls') ∧
    (0%nat, writeString) ∈ answered s' ∧ 0%nat ∈ hungup s' ∧
    (∀ j l', j ≠ 1%nat → ls !! j = Some l' → ls' !! j = Some l').
Proof.
  eexists _, _. split; [vm_compute; reflexivity|]. split; [reflexivity|].
  apply (tcp_live _ _ 1 (Read 0)); [|reflexivity|reflexivity].
  apply (run_reachable _ second_first). vm_compute. reflexivity.
Defined.

End Tcp.
