(* ===== verification/WebsocketEcho.v ===== *)
(** * WebsocketEcho: websockets/main.go

    The echo loop over a gorilla/websocket connection.  The library is not part of
    the repository: what its calls answer is decided by the environment, one
    decision per call, and [trace] records every call with its answer. *)

From S2P Require Import Prelude GoLang GoHttp GoMux.

#[local] Open Scope Z_scope.

Module Websocket.

(** A message: its type and its bytes. *)
Definition message : Type := Z * string.

Inductive op :=
| Upgrade
| ReadMessage
| Println (line : string)
| WriteMessage (m : message)
| CloseConn.

Definition op_ans (o : op) : Type :=
  match o with
  | Upgrade | WriteMessage _ => bool
  | ReadMessage => option message
  | Println _ | CloseConn => ()
  end.

Abbreviation code A := (prog op_ans A).

Definition do (o : op) : code (op_ans o) := app (ans := op_ans) o.

(** ["received: " + string(p)] *)
Definition reply_text (p : string) : string := ("received: " +:+ p)%string.

(** One round of the loop; [false] returns from the handler. *)
Definition round : code bool :=
  r ← do ReadMessage;
  match r : option message with
  | None => Pure false
  | Some (messageType, p) =>
      do (Println (reply_text p));;
      do (WriteMessage (messageType, reply_text p))
  end.

(** The first [n] rounds; [true] if the loop goes on. *)
Fixpoint loop (n : nat) : code bool :=
  match n with
  | O => Pure true
  | S n' => goes_on ← round; if goes_on : bool then loop n' else Pure false
  end.

(** [websocketHandler] up to its [n]-th round: [true] if it has not returned yet.  The
    deferred [conn.Close()] runs when it returns. *)
Definition websocketHandler (n : nat) : code bool :=
  ok ← do Upgrade;
  if ok : bool then
    goes_on ← loop n;
    if goes_on : bool then Pure true else do CloseConn;; Pure false
  else Pure false.

(** ** Running it *)

(** The environment's answers: to [Upgrade], to [ReadMessage], to [WriteMessage]. *)
Record env := Env { upgrades : bool; arrives : option message; writes : bool }.

Record entry := Entry { e_op : op; e_ans : op_ans e_op }.

Definition result_of (o : op) (e : env) : op_ans o :=
  match o with
  | Upgrade => upgrades e
  | ReadMessage => arrives e
  | WriteMessage _ => writes e
  | Println _ | CloseConn => ()
  end.

Definition perform (o : op) (e : env) (tr : list entry) : op_ans o * list entry :=
  (result_of o e, tr ++ [Entry o (result_of o e)]).

Definition run (o : nat → env * bool) (n : nat) : result (ans := op_ans) (S := list entry) bool :=
  alone perform o 0 (websocketHandler n) [] no_response.

(** ** What a trace says *)

Definition received (en : entry) : list message :=
  match en with Entry ReadMessage (Some m) => [m] | _ => [] end.

(** What was handed to the connection, and whether it was sent. *)
Definition written (en : entry) : list (message * bool) :=
  match en with Entry (WriteMessage m) ok => [(m, ok)] | _ => [] end.

Definition printed (en : entry) : list string :=
  match en with Entry (Println l) _ => [l] | _ => [] end.

Definition closes (en : entry) : nat := match en with Entry CloseConn _ => 1 | _ => 0 end.

(** A failure ends the handler. *)
Definition failed (en : entry) : bool :=
  match en with
  | Entry Upgrade false | Entry ReadMessage None | Entry (WriteMessage _) false => true
  | _ => false
  end.

Definition echo (m : message) : message := (m.1, reply_text m.2).

(** What a client makes of an echo. *)
Definition decode (p : string) : option string :=
  if decide (String.substring 0 10 p = "received: "%string)
  then Some (String.substring 10 (String.length p - 10) p) else None.

Lemma substring_all s : String.substring 0 (String.length s) s = s.
Proof. induction s as [|c s IH]; [done|]. simpl. by rewrite IH. Qed.

Lemma decode_reply p : decode (reply_text p) = Some p.
Proof.
  unfold decode, reply_text. rewrite decide_True by (by destruct p).
  change (String.length ("received: " +:+ p) - 10)%nat with (String.length p - 0)%nat.
  rewrite Nat.sub_0_r. change (String.substring 10 ?k ("received: " +:+ p)) with (String.substring 0 k p).
  by rewrite substring_all.
Qed.

(** [k] messages have been received, and what was written and printed is their echo. *)
Record echoed (k : nat) (tr : list entry) : Prop := {
  ec_written : (mjoin (written <$> tr)).*1 = echo <$> mjoin (received <$> tr);
  ec_printed : mjoin (printed <$> tr) = (λ m, reply_text m.2) <$> mjoin (received <$> tr);
  ec_count : length (mjoin (received <$> tr)) = k;
  ec_closes : sumf closes tr = 0%nat
}.

(** Nothing has failed yet; or the last call has, and it was the first to. *)
Definition well (tr : list entry) : Prop := Forall (λ en, failed en = false) tr.
Definition just_failed (tr : list entry) : Prop := ∃ tr' en, tr = tr' ++ [en] ∧ well tr' ∧ failed en = true.

(** After [n] rounds of the loop, when [alive], or some round that ended it. *)
Definition looped (n : nat) (alive : bool) (tr : list entry) : Prop :=
  if alive then echoed n tr ∧ well tr else (∃ k, echoed k tr) ∧ just_failed tr.

Lemma echoed_quiet k tr en :
  received en = [] → written en = [] → printed en = [] → closes en = 0%nat →
  echoed k tr → echoed k (tr ++ [en]).
Proof.
  intros Hr Hw Hp Hc [H1 H2 H3 H4]. split; rewrite ?fmap_app, ?join_app, ?sumf_app; simpl;
    unfold sumf; simpl; rewrite ?Hr, ?Hw, ?Hp, ?Hc; simpl; rewrite ?app_nil_r; try done. unfold sumf in H4. lia.
Qed.

(** A message is read, printed and written. *)
Lemma echoed_message k tr m ok :
  echoed k tr →
  echoed (S k) (((tr ++ [Entry ReadMessage (Some m)]) ++ [Entry (Println (reply_text m.2)) ()])
                ++ [Entry (WriteMessage (echo m)) ok]).
Proof.
  intros [H1 H2 H3 H4]. rewrite <-!app_assoc. split; rewrite ?fmap_app, ?join_app, ?sumf_app; simpl.
  - by rewrite !fmap_app, H1.
  - by rewrite fmap_app, H2.
  - rewrite length_app, H3. simpl. lia.
  - rewrite H4. done.
Qed.

Lemma well_snoc tr en : well tr → failed en = false → well (tr ++ [en]).
Proof. intros Ht He. apply Forall_app. split; [done|by constructor]. Qed.

Lemma ensures_ws_round n tr w :
  looped n true tr → ensures perform (λ _ _ _, False) round (λ alive tr' _, looped (S n) alive tr') tr w.
Proof.
  intros [He Hw] e. cbn. destruct (arrives e.1) as [[ty p]|] eqn:Ha; cbn.
  - intros _ e3. cbn. pose proof (echoed_message n tr (ty, p) (writes e3.1) He) as Hm.
    unfold looped. destruct (writes e3.1).
    + split; [done|]. by repeat apply well_snoc.
    + split; [by eexists|]. eexists _, _. split; [done|]. split; [by repeat apply well_snoc|done].
  - split; [|by eexists _, _]. exists n. by apply echoed_quiet.
Qed.

Lemma ensures_loop k n tr w :
  looped k true tr → ensures perform (λ _ _ _, False) (loop n) (λ alive tr' _, looped (n + k) alive tr') tr w.
Proof.
  revert k tr w. induction n as [|n IH]; intros k tr w Hl; [done|]. cbn [loop].
  apply ensures_bind. eapply ensures_mono; [|by apply ensures_ws_round].
  intros alive tr' w' Hl'. destruct alive; [|done].
  replace (S n + k)%nat with (n + S k)%nat by lia. by apply IH.
Qed.

(** How the handler stands after [n] rounds. *)
Definition outcome (n : nat) (alive : bool) (tr : list entry) : Prop :=
  ∃ tr' k, echoed k tr' ∧
    if alive then tr = tr' ∧ well tr ∧ k = n
    else (tr = tr' ∧ tr = [Entry Upgrade false]) ∨ (tr = tr' ++ [Entry CloseConn ()] ∧ just_failed tr').

Lemma ensures_handler n w : ensures perform (λ _ _ _, False) (websocketHandler n) (λ alive tr _, outcome n alive tr) [] w.
Proof.
  intros e. cbn. destruct (upgrades e.1); cbn; [|by exists [Entry Upgrade false], 0%nat; split; [|left]].
  apply ensures_bind. eapply ensures_mono; [|apply (ensures_loop 0)].
  - intros alive tr w' Hl. rewrite Nat.add_0_r in Hl. destruct alive; cbn.
    + destruct Hl. by exists tr, n.
    + intros _. cbn. destruct Hl as [[k Hk] Hf]. exists tr, k. split; [done|]. by right.
  - by split; [|constructor].
Qed.

(** ** Properties *)

(** C14. Round trip through the echo server.  Against any client and any network,
    after any number of rounds: the messages handed back are those received, one for
    one and in order, with the same type and the text ["received: "] before them, so
    that a client that removes it has its own messages again; each was printed; while
    nothing fails the handler goes on and every round has echoed a message; after
    the first failure it makes no further call than to close the connection, once;
    and if the upgrade fails it does nothing at all. *)
Theorem ws_echoes (o : nat → env * bool) (n : nat) :
  ∃ alive, r_value (run o n) = Ret alive ∧
  let tr := r_state (run o n) in
  let messages := mjoin (received <$> tr) in
  (mjoin (written <$> tr)).*1 = echo <$> messages ∧
  (λ m : message * bool, decode m.1.2) <$> mjoin (written <$> tr) = (λ m : message, Some m.2) <$> messages ∧
  mjoin (printed <$> tr) = (λ m, reply_text m.2) <$> messages ∧
  if alive then well tr ∧ length messages = n ∧ sumf closes tr = 0%nat
  else tr = [Entry Upgrade false] ∨
    ∃ tr', tr = tr' ++ [Entry CloseConn ()] ∧ just_failed tr' ∧ sumf closes tr' = 0%nat.
Proof.
  pose proof (ensures_alone perform (λ _ _ _, False) o 0 _ _ [] no_response (ensures_handler n no_response)) as Hr.
  fold (run o n) in Hr. destruct (r_value (run o n)) as [alive|]; [|done].
  destruct Hr as (tr'&k&He&Ho). exists alive. split; [done|]. cbv zeta. set (tr := r_state _) in *.
  assert (Hm : mjoin (written <$> tr) = mjoin (written <$> tr') ∧
               mjoin (printed <$> tr) = mjoin (printed <$> tr') ∧
               mjoin (received <$> tr) = mjoin (received <$> tr')).
  { destruct alive; [by destruct Ho as [-> _]|]. destruct Ho as [[-> _]|[-> _]]; [done|].
    by rewrite !fmap_app, !join_app, !app_nil_r. }
  destruct Hm as (->&->&->). destruct He as [Hw Hp Hc Hz]. split; [done|]. split; [|split; [done|]].
  - trans ((λ m : message, decode m.2) <$> (mjoin (written <$> tr')).*1).
    { apply (list_fmap_compose fst (λ m : message, decode m.2)). }
    rewrite Hw, <-list_fmap_compose.
    apply list_fmap_ext. intros _ m _. apply decode_reply.
  - destruct alive; [by destruct Ho as (->&?&->)|]. destruct Ho as [[-> ->]|[-> Hf]]; [by left|].
    right. by exists tr'.
Qed.

(** ** [main] *)

Inductive endpoint := Echo | Files.

(** What [main] has registered when it listens. *)
Definition routes : res (mux endpoint) := m ← Handle "/ws" Echo []; Handle "/" Files m.

(** [websocketHandler] is at [/ws] and nowhere else; the rest is the file server's. *)
Theorem ws_routes p :
  ∃ m, routes = Ret m ∧
    ((∃ pt v, findHandler m (("/" +:+ p)%string) = To pt Echo v) ↔
     ∃ a, ("/" +:+ p)%string = path_of [a] false ∧ plain a ∧ unescape a = "ws"%string).
Proof. exists (page_routes "ws" Echo Files). split; [reflexivity|]. by apply (page_only "ws" Echo Files p). Qed.

End Websocket.
