(* ===== verification/ServerSentEvents.v ===== *)
(** * ServerSentEvents: server_sent_events/main.go

    The handler writes an event per tick of its ticker, for ever.  [parse] is what
    a browser makes of the stream (the HTML standard, 9.2.6). *)

From Stdlib Require Import Ascii.
From S2P Require Import Prelude GoLang GoHttp GoMux.

#[local] Open Scope Z_scope.

Module Sse.

Definition newline : ascii := ascii_of_nat 10.
Definition nl : string := String newline EmptyString.

(** ** The handler *)

(** [<-ticker.C]: the next tick, as [t.String()]. *)
Inductive op := Tick.
Definition op_ans (o : op) : Type := string.

Abbreviation code A := (prog op_ans A).

(** [fmt.Sprintf] *)
Definition event_text (t : string) : string := ("data: time " +:+ t +:+ nl +:+ nl)%string.

(** One round of [for t := range ticker.C]. *)
Definition event : code () :=
  t ← app (ans := op_ans) Tick;
  _ ← write (Text (event_text t));
  flush;;
  _ ← write (Text "data: vjs");
  Pure ().

(** The first [n] rounds; the loop has no end, as a ticker's channel is never closed. *)
Fixpoint events (n : nat) : code () :=
  match n with
  | O => Pure ()
  | S n' => event;; events n'
  end.

(** [ServerSentEventsHandler], up to its [n]-th round. *)
Definition ServerSentEventsHandler (n : nat) : code () :=
  addHeader "Connection" "keep-alive";;
  addHeader "Content-Type" "text/event-stream";;
  events n.

(** ** The client *)

(** The name and the value of a field; a line without colon is a name. *)
Fixpoint split_colon (line : string) : string * string :=
  match line with
  | EmptyString => (EmptyString, EmptyString)
  | String c s =>
      if decide (c = ":"%char) then (EmptyString, s)
      else let (n, v) := split_colon s in (String c n, v)
  end.

Definition field (line : string) : string * string :=
  let (name, v) := split_colon line in
  (name, match v with String " "%char v' => v' | _ => v end).

(** The lines of the stream: [data] gathers the lines of the event's data, an empty
    line ends the event. *)
Fixpoint interpret (data : list string) (lines : list string) : list string :=
  match lines with
  | [] => []
  | line :: lines' =>
      if decide (line = EmptyString) then
        match data with
        | [] => interpret [] lines'
        | _ => join_on newline data :: interpret [] lines'
        end
      else let (name, v) := field line in
           interpret (if decide (name = "data"%string) then data ++ [v] else data) lines'
  end.

(** What follows the last newline is not a line yet. *)
Definition parse (stream : string) : list string :=
  interpret [] (removelast (split_on newline stream)).

(** ** The stream *)

Definition text (p : part) : string := match p with Text s => s | _ => EmptyString end.

Definition stream (b : list part) : string := foldr (λ p s, (text p +:+ s)%string) EmptyString b.

Definition is_flush (p : part) : bool := match p with Flushed => true | _ => false end.

(** What has certainly arrived: everything before the last flush. *)
Fixpoint flushed (b : list part) : list part :=
  match b with
  | [] => []
  | p :: b' => if existsb is_flush b then p :: flushed b' else []
  end.

(** What a round writes. *)
Definition chunk (t : string) : list part := [Text (event_text t); Flushed; Text "data: vjs"].

Lemma stream_app b1 b2 : stream (b1 ++ b2) = (stream b1 +:+ stream b2)%string.
Proof. induction b1 as [|p b1 IH]; [done|]. simpl. by rewrite IH, (assoc_L String.append). Qed.

Lemma flushed_app b1 b2 : existsb is_flush b2 = true → flushed (b1 ++ b2) = b1 ++ flushed b2.
Proof.
  intros Hb. induction b1 as [|p b1 IH]; [done|]. simpl. rewrite existsb_app, Hb, !orb_true_r. by rewrite IH.
Qed.

(** One event, after the text [pre] left by the round before. *)
Lemma parse_event pre t rest :
  free_of newline pre = true → free_of newline t = true → pre +:+ "data: time " +:+ t ≠ EmptyString →
  parse (pre +:+ event_text t +:+ rest)
  = interpret [] [(pre +:+ "data: time " +:+ t)%string; EmptyString] ++ parse rest.
Proof.
  intros Hp Ht Hne. unfold parse, event_text.
  replace (pre +:+ ("data: time " +:+ t +:+ nl +:+ nl) +:+ rest)%string
    with ((pre +:+ "data: time " +:+ t) +:+ String newline (String newline rest))%string
    by by rewrite <-!(assoc_L String.append).
  rewrite split_on_app by (rewrite !free_of_app, Hp, Ht; done).
  change (String newline rest) with ("" +:+ String newline rest)%string. rewrite split_on_app by done.
  pose proof (split_on_length newline rest) as Hl.
  destruct (split_on newline rest) as [|l ls]; [simpl in Hl; lia|].
  change (removelast (?a :: ?b :: ?c :: ?d)) with (a :: b :: removelast (c :: d)).
  set (line := (pre +:+ "data: time " +:+ t)%string) in *. cbn [interpret].
  rewrite !(decide_False (P := line = "")) by done. destruct (field line) as [name v].
  rewrite !(decide_True (P := "" = "")) by done. by case_decide.
Qed.

Definition chunks (ts : list string) : list part := mjoin (chunk <$> ts).

Lemma stream_chunks t ts :
  stream (chunks (t :: ts)) = (event_text t +:+ "data: vjs" +:+ stream (chunks ts))%string.
Proof. done. Qed.

(** What the page gets for the first event, and for those after it. *)
Definition clean (t : string) : string := ("time " +:+ t)%string.
Definition glued (t : string) : string := ("vjsdata: time " +:+ t)%string.

Definition received (ts : list string) : list string :=
  match ts with [] => [] | t :: ts' => clean t :: (glued <$> ts') end.

Lemma parse_glued ts :
  Forall (λ t, free_of newline t = true) ts →
  parse ("data: vjs" +:+ stream (chunks ts)) = glued <$> ts.
Proof.
  induction 1 as [|t ts Ht _ IH]; [done|]. rewrite stream_chunks, parse_event, IH by done. done.
Qed.

Lemma parse_chunks ts :
  Forall (λ t, free_of newline t = true) ts → parse (stream (chunks ts)) = received ts.
Proof.
  destruct 1 as [|t ts Ht Hts]; [done|]. rewrite stream_chunks.
  change (event_text t +:+ ?r)%string with ("" +:+ event_text t +:+ r)%string.
  rewrite parse_event, parse_glued by done. done.
Qed.

(** What follows the last newline does not matter yet. *)
Lemma parse_rest s u : free_of newline u = true → parse (s +:+ nl +:+ u) = parse (s +:+ nl).
Proof.
  intros Hu. unfold parse. change (nl +:+ u)%string with (String newline u).
  change nl with (String newline EmptyString). rewrite !split_on_sep, (split_on_free _ u) by done.
  change (split_on newline EmptyString) with [EmptyString]. by rewrite !removelast_last.
Qed.

Lemma parse_flushed ts : parse (stream (flushed (chunks ts))) = parse (stream (chunks ts)).
Proof.
  destruct ts as [|t ts] using rev_ind; [done|]. unfold chunks. rewrite fmap_app, join_app. simpl mjoin.
  rewrite flushed_app by done. rewrite !stream_app. simpl. unfold event_text.
  rewrite !(assoc_L String.append), !(right_id_L EmptyString String.append).
  rewrite <-(assoc_L String.append _ nl "data: vjs"%string). by rewrite parse_rest.
Qed.

Section run.
(** The ticks that the environment delivers, counted by the state. *)
Variable ticks : nat → string.

Definition perform (o : op) (e : ()) (n : nat) : string * nat := (ticks n, S n).

Definition run (o : nat → () * bool) (n : nat) : result (ans := op_ans) (S := nat) () :=
  alone perform o 0 (ServerSentEventsHandler n) 0%nat no_response.

Lemma event_run o j (p : code ()) m w :
  connected o →
  alone perform o j (event;; p) m w =
  alone perform o (4 + j) p (S m)
    (let w' := WriteHeader StatusOK w in
     Response (status w') (header w') (sent w') (body w' ++ chunk (ticks m))).
Proof.
  intros Ho. cbn. rewrite !Ho. cbn. unfold WriteHeader. destruct (status w) eqn:Hw; cbn; rewrite ?Hw; cbn;
    by rewrite <-!app_assoc.
Qed.

(** The response after [n] rounds, [m] ticks having been consumed before. *)
Definition after (n m : nat) (w : response) : response :=
  match n with
  | O => w
  | S _ =>
      let w' := WriteHeader StatusOK w in
      Response (status w') (header w') (sent w') (body w' ++ chunks (ticks <$> seq m n))
  end.

Lemma events_run o n j m w :
  connected o → alone perform o j (events n) m w = Result (Ret ()) (n + m)%nat (after n m w) [].
Proof.
  intros Ho. revert j m w. induction n as [|n IH]; intros j m w; [done|]. cbn [events].
  rewrite event_run, IH by done. f_equal; [lia|]. unfold after.
  destruct n; cbn [seq]; rewrite ?fmap_cons; unfold chunks; cbn [fmap list_fmap mjoin list_join].
  - by rewrite app_nil_r.
  - unfold WriteHeader. destruct (status w) eqn:Hw; cbn; rewrite ?Hw; cbn; by rewrite <-!app_assoc.
Qed.
End run.

(** C13. The stream round trip.  However many ticks have passed, the handler has not
    ended, and the browser, which parses the stream as the standard says, has been
    handed one event per tick, at once, none lost: everything the events consist of
    has been flushed.  The first event's data is ["time ..."], as meant; that of
    every later one is ["vjsdata: time ..."], because the text [data: vjs] has no
    newline and runs into the next event. *)
Theorem sse_stream (ticks : nat → string) (o : nat → () * bool) (n : nat)
    (Ho : connected o) (Ht : ∀ k, free_of newline (ticks k) = true) :
  let r := run ticks o n in
  r_value r = Ret () ∧ r_state r = n ∧
  parse (stream (body (r_resp r))) = received (ticks <$> seq 0 n) ∧
  parse (stream (flushed (body (r_resp r)))) = received (ticks <$> seq 0 n) ∧
  (n ≠ 0%nat → status (r_resp r) = Some StatusOK ∧
     sent (r_resp r) = [("Connection", "keep-alive"); ("Content-Type", "text/event-stream")]).
Proof.
  assert (Hts : Forall (λ t, free_of newline t = true) (ticks <$> seq 0 n)).
  { apply Forall_fmap, Forall_forall. intros k _. apply Ht. }
  cbv zeta. unfold run, ServerSentEventsHandler. cbn. rewrite events_run by done.
  cbn [r_value r_state r_resp]. split; [done|]. split; [lia|].
  assert (Hb : body (after ticks n 0 (AddHeader "Content-Type" "text/event-stream"
                 (AddHeader "Connection" "keep-alive" no_response))) = chunks (ticks <$> seq 0 n)).
  { by destruct n. }
  rewrite Hb, parse_flushed, parse_chunks by done. split; [done|]. split; [done|]. by destruct n.
Qed.

Lemma sse_stream_witness :
  let ticks (k : nat) := match k with O => "10:00:02" | 1%nat => "10:00:04" | _ => "10:00:06" end in
  let r := run ticks (λ _, ((), true)) 3 in
  received (ticks <$> seq 0 3) = ["time 10:00:02"; "vjsdata: time 10:00:04"; "vjsdata: time 10:00:06"] ∧
  r_value r = Ret () ∧ r_state r = 3%nat ∧
  parse (stream (body (r_resp r))) = received (ticks <$> seq 0 3) ∧
  parse (stream (flushed (body (r_resp r)))) = received (ticks <$> seq 0 3) ∧
  (3%nat ≠ 0%nat → status (r_resp r) = Some StatusOK ∧
     sent (r_resp r) = [("Connection", "keep-alive"); ("Content-Type", "text/event-stream")]).
Proof.
  intros ticks r. split; [vm_compute; reflexivity|].
  apply (sse_stream ticks (λ _, ((), true)) 3); [done|]. by intros [|[|k]].
Defined.

(** ** [main] *)

Inductive endpoint := Stream | Files.

(** What [main] has registered when it listens. *)
Definition routes : res (mux endpoint) := m ← Handle "/sse" Stream []; Handle "/" Files m.

(** [ServerSentEventsHandler] is at [/sse] and nowhere else; the rest is the file
    server's. *)
Theorem sse_routes p :
  ∃ m, routes = Ret m ∧
    ((∃ pt v, findHandler m (("/" +:+ p)%string) = To pt Stream v) ↔
     ∃ a, ("/" +:+ p)%string = path_of [a] false ∧ plain a ∧ unescape a = "sse"%string).
Proof. exists (page_routes "sse" Stream Files). split; [reflexivity|]. by apply (page_only "sse" Stream Files p). Qed.

End Sse.
